(** * hf-mcp-server: Gradio discovery, caches, tool selection and naming

    A shallow embedding of the parts of the server the specification makes
    testable promises about, followed by the proofs of those promises:

    - [packages/app/src/server/utils/gradio-utils.ts]
      ([createGradioToolName], [parseGradioSpaceIds]);
    - [packages/app/src/server/utils/gradio-result-processor.ts]
      ([stripImageContentFromResult]);
    - [packages/app/src/server/utils/tool-selection-strategy.ts]
      ([ToolSelectionStrategy.selectTools]) with
      [packages/app/src/shared/bouquet-presets.ts] ([BOUQUETS]);
    - [packages/app/src/server/utils/gradio-cache.ts] and
      [packages/app/src/server/utils/gradio-discovery.ts]
      (the two caches and [getGradioSpaces]).

    Conventions.  A JavaScript string is a Rocq [string]; each character
    stands for one UTF-16 code unit below 256 (Latin-1), the range on which
    [toLowerCase], [trim] and the [\s] class are given here exactly.
    Integers are [Z]; the values read from the environment by [parseInt] are
    taken to be integers.  [Date.now()], [fetch] and the remote API client are
    oracles of the surrounding world, passed explicitly.  Logging has no
    effect on any value computed and is left out. *)

From Stdlib Require Import ZArith Lia Bool Ascii String List.
From stdpp Require Import base option list strings gmap fin_maps.

Import ListNotations.
Local Open Scope Z_scope.
Local Set Warnings "-register-all".

(* ===================================================================== *)
(** * Part I: the program                                                 *)
(* ===================================================================== *)

(** ** JavaScript strings *)

Module Js.

Definition chars (s : string) : list ascii := list_ascii_of_string s.
Definition str (l : list ascii) : string := string_of_list_ascii l.

(** [s.length] *)
Definition len (s : string) : Z := Z.of_nat (String.length s).

Definition code (c : ascii) : N := N_of_ascii c.

(** WhiteSpace and LineTerminator code units below 256: TAB, LF, VT, FF,
    CR, SPACE and NO-BREAK SPACE.  This is both what [trim] strips and what
    [\s] matches. *)
Definition isWhiteSpace (c : ascii) : bool :=
  let n := code c in
  ((9 <=? n) && (n <=? 13) || (n =? 32) || (n =? 160))%N.

(** [toLowerCase] on one code unit: A-Z, and the Latin-1 capitals
    U+00C0..U+00DE except the multiplication sign U+00D7. *)
Definition lowerChar (c : ascii) : ascii :=
  let n := code c in
  if ((65 <=? n) && (n <=? 90) ||
      (192 <=? n) && (n <=? 222) && negb (n =? 215))%N
  then ascii_of_N (n + 32) else c.

Definition toLowerCase (s : string) : string := str (map lowerChar (chars s)).

Fixpoint dropWhile {A} (p : A -> bool) (l : list A) : list A :=
  match l with
  | [] => []
  | x :: t => if p x then dropWhile p t else l
  end.

Definition trimChars (l : list ascii) : list ascii :=
  rev (dropWhile isWhiteSpace (rev (dropWhile isWhiteSpace l))).

(** [s.trim()] *)
Definition trim (s : string) : string := str (trimChars (chars s)).

(** [s.split(sep)] for a one-character separator: never empty, and an
    empty input gives one empty piece. *)
Fixpoint splitChars (sep : ascii) (l : list ascii) : list (list ascii) :=
  match l with
  | [] => [[]]
  | c :: t =>
      if Ascii.eqb c sep then [] :: splitChars sep t
      else match splitChars sep t with
           | [] => [[c]]
           | p :: ps => (c :: p) :: ps
           end
  end.

Definition split (sep : ascii) (s : string) : list string :=
  map str (splitChars sep (chars s)).

(** [(s.match(/c/g) || []).length] for a single character [c] *)
Definition countChar (c : ascii) (s : string) : Z :=
  Z.of_nat (List.length (List.filter (Ascii.eqb c) (chars s))).

Fixpoint indexOfChars (c : ascii) (l : list ascii) : Z :=
  match l with
  | [] => -1
  | x :: t =>
      if Ascii.eqb x c then 0
      else let i := indexOfChars c t in if i <? 0 then -1 else i + 1
  end.

(** [s.indexOf(c)] for a single character [c]; [-1] when absent *)
Definition indexOf (c : ascii) (s : string) : Z := indexOfChars c (chars s).

(** [Array.prototype.slice] and [String.prototype.slice] share the
    treatment of their arguments: a negative position counts from the
    end, and both are clamped to [0, length]. *)
Definition relIndex (n : Z) (i : Z) : Z :=
  if i <? 0 then Z.max (n + i) 0 else Z.min i n.

Definition sliceList {A} (l : list A) (i j : Z) : list A :=
  let n := Z.of_nat (List.length l) in
  let from := relIndex n i in
  let to := relIndex n j in
  firstn (Z.to_nat (to - from)) (skipn (Z.to_nat from) l).

(** [s.slice(i)] *)
Definition sliceFrom (s : string) (i : Z) : string :=
  str (sliceList (chars s) i (len s)).

(** [s.substring(0, n)] for [n >= 0] *)
Definition substring0 (s : string) (n : Z) : string :=
  str (firstn (Z.to_nat n) (chars s)).

(** [s.replace(/[...]+/g, r)] for a character class [cls] and a
    one-character replacement: every maximal run of class characters
    becomes one [r]. *)
Fixpoint replaceRuns (cls : ascii -> bool) (r : ascii) (inRun : bool)
    (l : list ascii) : list ascii :=
  match l with
  | [] => []
  | c :: t =>
      if cls c
      then (if inRun then replaceRuns cls r true t
            else r :: replaceRuns cls r true t)
      else c :: replaceRuns cls r false t
  end.

Fixpoint isPrefix (p l : list ascii) : bool :=
  match p, l with
  | [], _ => true
  | _ :: _, [] => false
  | a :: p', b :: l' => Ascii.eqb a b && isPrefix p' l'
  end.

Fixpoint includesChars (p l : list ascii) : bool :=
  isPrefix p l || match l with [] => false | _ :: t => includesChars p t end.

(** [s.includes(p)] *)
Definition includes (s p : string) : bool := includesChars (chars p) (chars s).

(** Decimal digits of a natural number, most significant first; the fuel
    bounds the number of digits from above by the number of bits. *)
Fixpoint digitsN (fuel : nat) (n : N) (acc : list ascii) : list ascii :=
  match fuel with
  | O => acc
  | S f =>
      let acc' := ascii_of_N (48 + n mod 10) :: acc in
      if (n <? 10)%N then acc' else digitsN f (n / 10) acc'
  end.

Definition N_toString (n : N) : string :=
  str (digitsN (S (N.to_nat (N.log2 n))) n []).

(** [n.toString()], also what a template literal does to a number, for an
    integer [n] (below 1e21 in absolute value, where JavaScript prints
    plain decimal digits). *)
Definition toString (n : Z) : string :=
  match n with
  | Z0 => "0"
  | Zpos p => N_toString (Npos p)
  | Zneg p => String "-" (N_toString (Npos p))
  end.

(** Truthiness of an optional string: [undefined] and [""] are falsy. *)
Definition truthyStr (o : option string) : bool :=
  match o with
  | Some s => negb (String.eqb s "")
  | None => false
  end.

(** [[...new Set(l)]]: first occurrences, in insertion order. *)
Fixpoint dedupAcc (seen : list string) (l : list string) : list string :=
  match l with
  | [] => []
  | x :: t =>
      if existsb (String.eqb x) seen then dedupAcc seen t
      else x :: dedupAcc (x :: seen) t
  end.

Definition dedup (l : list string) : list string := dedupAcc [] l.

(** [l.includes(x)] on an array of strings *)
Definition arrIncludes (l : list string) (x : string) : bool :=
  existsb (String.eqb x) l.

End Js.

(** ** gradio-utils.ts *)

Module GradioUtils.

(** Modelled from the spec: [GRADIO_PREFIX] and [GRADIO_PRIVATE_PREFIX] of
    [shared/constants.ts], which is not among the sources; the
    specification gives the prefix as [gr] for public and [grp] for
    private spaces, as do the examples in the doc comment of
    [createGradioToolName]. *)
Definition GRADIO_PREFIX : string := "gr".
Definition GRADIO_PRIVATE_PREFIX : string := "grp".

(** The class [[-\s.]] *)
Definition isSpecial (c : ascii) : bool :=
  Ascii.eqb c "-" || Js.isWhiteSpace c || Ascii.eqb c ".".

(** [toolName ? toolName.replace(/[-\s.]+/g, '_').toLowerCase() : 'unknown'] *)
Definition sanitize (toolName : string) : string :=
  if String.eqb toolName "" then "unknown"
  else Js.toLowerCase (Js.str (Js.replaceRuns isSpecial "_" false (Js.chars toolName))).

(** The numbers of the source are doubles.  An integer is itself as a
    double, with exact sums and a plain decimal [toString], as long as it is
    a safe integer: beyond, [index + 1] rounds, and from 1e21 on the number
    is printed with an exponent. *)
Definition safeInteger (n : Z) : Prop := - (2 ^ 53 - 1) <= n <= 2 ^ 53 - 1.

(** [isPrivate] is [boolean | undefined]; [undefined] is falsy.
    [toolIndex] is an optional number.  [index] and [toolIndex] are the
    integers the callers pass (positions in arrays); the function is that of
    the source for safe integers, see [safeInteger]. *)
Definition createGradioToolName (toolName : string) (index : Z)
    (isPrivate : option bool) (toolIndex : option Z) : string :=
  let prefix := if default false isPrivate
                then GRADIO_PRIVATE_PREFIX else GRADIO_PREFIX in
  let indexStr := Js.toString (index + 1) in
  let maxNameLength := 49 - Js.len prefix - Js.len indexStr - 1 in
  let sanitizedName := sanitize toolName in
  let sanitizedName :=
    if Js.len sanitizedName >? maxNameLength then
      match toolIndex with
      | Some ti =>
          let toolIndexPrefix := Js.toString ti +:+ "_" in
          let availableForName := maxNameLength - Js.len toolIndexPrefix in
          let keepFromEnd := availableForName - 20 - 1 in
          toolIndexPrefix +:+ Js.substring0 sanitizedName 20 +:+ "_"
            +:+ Js.sliceFrom sanitizedName (- keepFromEnd)
      | None =>
          let keepFromEnd := maxNameLength - 20 - 1 in
          Js.substring0 sanitizedName 20 +:+ "_"
            +:+ Js.sliceFrom sanitizedName (- keepFromEnd)
      end
    else sanitizedName in
  prefix +:+ indexStr +:+ "_" +:+ sanitizedName.

Record ParsedGradioSpace := { name : string }.

(** [slashCount === 1 && slashIndex > 0 && slashIndex < entry.length - 1] *)
Definition isValidFormat (entry : string) : bool :=
  let slashCount := Js.countChar "/" entry in
  let slashIndex := Js.indexOf "/" entry in
  (slashCount =? 1) && (slashIndex >? 0) && (slashIndex <? Js.len entry - 1).

(** The body of the [for] loop: an entry is pushed or skipped. *)
Definition keepEntry (entry : string) : bool :=
  if String.eqb (Js.toLowerCase entry) "none" then false
  else isValidFormat entry.

Definition parseGradioSpaceIds (gradioParam : string) : list ParsedGradioSpace :=
  let trimmed := Js.trim gradioParam in
  if String.eqb (Js.toLowerCase trimmed) "none" then []
  else
    let entries :=
      List.filter (fun s => Js.len s >? 0)
        (map Js.trim (Js.split "," gradioParam)) in
    map (fun entry => {| name := entry |}) (List.filter keepEntry entries).

End GradioUtils.

(** ** JSON values *)

Module Json.

(** What [JSON.parse] produces.  An object lists its own properties in
    enumeration order, with distinct keys. *)
Inductive JValue :=
| JNull
| JBool (b : bool)
| JNum (n : Z)
| JStr (s : string)
| JArr (items : list JValue)
| JObj (fields : list (string * JValue)).

(** [o[k]] on the properties of an object; [None] is [undefined]. *)
Fixpoint getField (k : string) (fields : list (string * JValue)) : option JValue :=
  match fields with
  | [] => None
  | (k', v) :: rest => if String.eqb k k' then Some v else getField k rest
  end.

(** [!!v] *)
Definition truthy (v : JValue) : bool :=
  match v with
  | JNull => false
  | JBool b => b
  | JNum n => negb (n =? 0)
  | JStr s => negb (String.eqb s "")
  | JArr _ | JObj _ => true
  end.

(** [typeof v === 'object'], which also holds of [null] and of arrays *)
Definition typeofObject (v : JValue) : bool :=
  match v with
  | JNull | JArr _ | JObj _ => true
  | _ => false
  end.

End Json.

(** ** gradio-result-processor.ts *)

Module ResultProcessor.
Import Json.

(** A tool call result, at the type [CallToolResultSchema] gives it:
    [content] is an array, so that the [Array.isArray] guard of the source
    always passes; the other members are carried along by the spread. *)
Record CallToolResult := {
  content : list JValue;
  isError : option bool;
  structuredContent : option JValue;
  _meta : option JValue
}.

Record ImageFilterOptions := {
  enabled : bool;
  toolName : string;
  outwardFacingName : string
}.

(** The callback of [content.filter]. *)
Definition keepItem (item : JValue) : bool :=
  if negb (truthy item) || negb (typeofObject item) then true
  else
    let typeValue :=
      match item with
      | JObj fields =>
          match getField "type" fields with
          | Some (JStr t) => Some (Js.toLowerCase t)
          | _ => None
          end
      | _ => None
      end in
    match typeValue with
    | Some t => negb (String.eqb t "image")
    | None => true
    end.

Definition omittedNotice : JValue :=
  JObj [("type", JStr "text");
        ("text", JStr "Image content omitted due to client configuration (no_image_content=true).")].

Definition stripImageContentFromResult (callResult : CallToolResult)
    (options : ImageFilterOptions) : CallToolResult :=
  if negb (enabled options) then callResult
  else
    let content := content callResult in
    if (List.length content =? 0)%nat then callResult
    else
      let filteredContent := List.filter keepItem content in
      if (List.length filteredContent =? List.length content)%nat then callResult
      else
        let filteredContent :=
          if (List.length filteredContent =? 0)%nat
          then filteredContent ++ [omittedNotice]
          else filteredContent in
        {| content := filteredContent;
           isError := isError callResult;
           structuredContent := structuredContent callResult;
           _meta := _meta callResult |}.

End ResultProcessor.

(** ** shared/settings.ts and shared/bouquet-presets.ts *)

Module Settings.

Record SpaceTool := {
  _id : string;
  name : string;
  subdomain : string;
  emoji : string
}.

Record AppSettings := {
  builtInTools : list string;
  spaceTools : list SpaceTool
}.

(** The tool identifiers that [bouquet-presets.ts] imports from the
    [@llmindset/hf-mcp] package and from [shared/behavior-flags.ts].  Neither
    file is among the sources, so their values are a parameter of the
    presets. *)
Record ToolIds := {
  ALL_BUILTIN_TOOL_IDS : list string;
  TOOL_ID_GROUPS_hf_api : list string;
  TOOL_ID_GROUPS_spaces : list string;
  TOOL_ID_GROUPS_search : list string;
  TOOL_ID_GROUPS_docs : list string;
  HUB_INSPECT_TOOL_ID : string;
  USE_SPACE_TOOL_ID : string;
  HF_JOBS_TOOL_ID : string;
  DYNAMIC_SPACE_TOOL_ID : string;
  SPACE_SEARCH_TOOL_ID : string;
  README_INCLUDE_FLAG : string;
  GRADIO_IMAGE_FILTER_FLAG : string
}.

Definition preset (tools : list string) : AppSettings :=
  {| builtInTools := tools; spaceTools := [] |}.

(** The object literal [BOUQUETS], property by property. *)
Definition BOUQUETS (ids : ToolIds) : list (string * AppSettings) :=
  [ ("hf_api", preset (TOOL_ID_GROUPS_hf_api ids));
    ("spaces", preset (TOOL_ID_GROUPS_spaces ids));
    ("search", preset (TOOL_ID_GROUPS_search ids));
    ("docs", preset (TOOL_ID_GROUPS_docs ids));
    ("all", preset (ALL_BUILTIN_TOOL_IDS ids));
    ("hub_repo_details_readme", preset [HUB_INSPECT_TOOL_ID ids; README_INCLUDE_FLAG ids]);
    ("hub_repo_details", preset [HUB_INSPECT_TOOL_ID ids]);
    ("no_gradio_images", preset [GRADIO_IMAGE_FILTER_FLAG ids]);
    ("mcp_ui", preset [USE_SPACE_TOOL_ID ids]);
    ("jobs", preset [HF_JOBS_TOOL_ID ids]);
    ("dynamic_space", preset [SPACE_SEARCH_TOOL_ID ids; DYNAMIC_SPACE_TOOL_ID ids]) ].

(** The property names that an object literal inherits from
    [Object.prototype].  [BOUQUETS] is such a literal, so for these names
    [BOUQUETS[key]] is a function or an object of the runtime: it is not
    [undefined], and it is not a preset either. *)
Definition inheritedNames : list string :=
  ["constructor"; "__defineGetter__"; "__defineSetter__"; "hasOwnProperty";
   "__lookupGetter__"; "__lookupSetter__"; "isPrototypeOf"; "propertyIsEnumerable";
   "toString"; "valueOf"; "__proto__"; "toLocaleString"].

(** Whether a header value, if there is one, is an inherited name. *)
Definition inherited (key : option string) : bool :=
  match key with
  | Some k => existsb (String.eqb k) inheritedNames
  | None => false
  end.

(** [BOUQUETS[key]] for a key that is not one of [inheritedNames]: the
    literal's own property of that name, and [None] for [undefined].  On an
    inherited name the source does not get [undefined], and this function
    does not say what it gets: every statement about a lookup either has a
    key that is an own property of the literal, or assumes [inherited] to be
    [false] of the key. *)
Fixpoint lookupPreset (key : string) (table : list (string * AppSettings))
    : option AppSettings :=
  match table with
  | [] => None
  | (k, v) :: rest => if String.eqb key k then Some v else lookupPreset key rest
  end.

End Settings.

(** ** tool-selection-strategy.ts *)

Module ToolSelection.
Import Settings.

Inductive ToolSelectionMode :=
| BOUQUET_OVERRIDE
| MIX
| EXTERNAL_API
| INTERNAL_API
| FALLBACK.

Definition Headers := list (string * string).

Record ToolSelectionContext := {
  headers : option Headers;
  userSettings : option AppSettings;
  hfToken : option string
}.

Record ToolSelectionResult := {
  mode : ToolSelectionMode;
  enabledToolIds : list string;
  reason : string;
  baseSettings : option AppSettings;
  mixedBouquet : option string;
  gradioSpaceTools : option (list SpaceTool)
}.

(** What [extractAuthBouquetAndMix] returns, as far as [selectTools] reads
    it. *)
Record Extracted := {
  bouquet : option string;
  mix : option string;
  gradio : option string
}.

Record GradioEndpoint := {
  endpointName : string;
  endpointSubdomain : string;
  endpointId : option string;
  endpointEmoji : option string
}.

(** The [McpApiClient] a strategy is constructed with: its answers are
    those of a remote service.  [getToolStates] resolves to a table of tool
    states or to [null], or rejects. *)
Inductive ToolStates :=
| StatesResolved (states : option (list (string * bool)))
| StatesRejected.

Record McpApiClient := {
  getToolStates : option string -> ToolStates;
  getGradioEndpoints : list GradioEndpoint;
  externalApiMode : option bool
}.

(** Everything [selectTools] reads and that is not in [context]: the
    process environment, the API client, and the two helpers whose source
    files ([shared/tool-normalizer.ts], [utils/auth-utils.ts]) are not among
    the sources. *)
Record Surroundings := {
  ids : ToolIds;
  normalizeBuiltInTools : list string -> list string;
  extractAuthBouquetAndMix : option Headers -> Extracted;
  SEARCH_ENABLES_FETCH : option string;
  NODE_ENV : option string;
  VITEST : option string;
  apiClient : McpApiClient
}.

Definition replaceSlashes (s : string) : string :=
  Js.str (map (fun c => if Ascii.eqb c "/" then "-"%char else c) (Js.chars s)).

Definition parseGradioEndpoints (gradioParam : string) : list SpaceTool :=
  map (fun space =>
         let placeholderSubdomain := replaceSlashes (GradioUtils.name space) in
         {| _id := "gradio_metadata_" +:+ placeholderSubdomain;
            name := GradioUtils.name space;
            subdomain := placeholderSubdomain;
            emoji := "🔧" |})
      (GradioUtils.parseGradioSpaceIds gradioParam).

Definition applySearchEnablesFetch (S : Surroundings) (enabledToolIds : list string)
    : list string :=
  if bool_decide (SEARCH_ENABLES_FETCH S = Some "true") then
    if Js.arrIncludes enabledToolIds "hf_doc_search"
       && negb (Js.arrIncludes enabledToolIds "hf_doc_fetch")
    then enabledToolIds ++ ["hf_doc_fetch"]
    else enabledToolIds
  else enabledToolIds.

Definition getUserSettings (S : Surroundings) (context : ToolSelectionContext)
    : option AppSettings :=
  match userSettings context with
  | Some settings => Some settings
  | None =>
      if bool_decide (NODE_ENV S = Some "test") || Js.truthyStr (VITEST S) then None
      else
        match getToolStates (apiClient S) (hfToken context) with
        | StatesResolved (Some toolStates) =>
            let builtInTools := map fst (List.filter snd toolStates) in
            let spaceTools :=
              map (fun endpoint =>
                     {| name := endpointName endpoint;
                        subdomain := endpointSubdomain endpoint;
                        _id := if Js.truthyStr (endpointId endpoint)
                               then default "" (endpointId endpoint)
                               else endpointName endpoint;
                        emoji := if Js.truthyStr (endpointEmoji endpoint)
                                 then default "" (endpointEmoji endpoint)
                                 else "🛠️" |})
                  (getGradioEndpoints (apiClient S)) in
            Some {| builtInTools := builtInTools; spaceTools := spaceTools |}
        | StatesResolved None => None
        | StatesRejected => None
        end
  end.

(** The suffix that every [reason] ends with. *)
Definition gradioSuffix (gradioSpaceTools : list SpaceTool) : string :=
  if (0 <? List.length gradioSpaceTools)%nat
  then " + " +:+ Js.toString (Z.of_nat (List.length gradioSpaceTools)) +:+ " gradio endpoints"
  else "".

Definition someIfNonEmpty (gradioSpaceTools : list SpaceTool) : option (list SpaceTool) :=
  if (0 <? List.length gradioSpaceTools)%nat then Some gradioSpaceTools else None.

(** [bouquet && BOUQUETS[bouquet]] and [mix && BOUQUETS[mix]], for a value
    that is not an inherited name (see [lookupPreset]): the test is passed
    exactly by a non-empty value that names a preset of the literal. *)
Definition knownPreset (S : Surroundings) (key : option string) : option (string * AppSettings) :=
  match key with
  | Some k =>
      if Js.truthyStr key
      then match lookupPreset k (BOUQUETS (ids S)) with
           | Some p => Some (k, p)
           | None => None
           end
      else None
  | None => None
  end.

Definition selectTools (S : Surroundings) (context : ToolSelectionContext)
    : ToolSelectionResult :=
  let extracted := extractAuthBouquetAndMix S (headers context) in
  let gradioSpaceTools :=
    if Js.truthyStr (gradio extracted)
    then parseGradioEndpoints (default "" (gradio extracted))
    else [] in
  match knownPreset S (bouquet extracted) with
  | Some (bouquet, bouquetPreset) =>
      (* 1. Bouquet override *)
      {| mode := BOUQUET_OVERRIDE;
         enabledToolIds :=
           normalizeBuiltInTools S (applySearchEnablesFetch S (builtInTools bouquetPreset));
         reason := "Bouquet override: " +:+ bouquet +:+ gradioSuffix gradioSpaceTools;
         baseSettings := None;
         mixedBouquet := None;
         gradioSpaceTools := someIfNonEmpty gradioSpaceTools |}
  | None =>
      (* 2. Base user settings *)
      let baseSettings := getUserSettings S context in
      match knownPreset S (mix extracted), baseSettings with
      | Some (mix, mixPreset), Some settings =>
          (* 3. Mix *)
          let mixedTools := builtInTools settings ++ builtInTools mixPreset in
          {| mode := MIX;
             enabledToolIds :=
               normalizeBuiltInTools S (applySearchEnablesFetch S (Js.dedup mixedTools));
             reason := "User settings + mix(" +:+ mix +:+ ")" +:+ gradioSuffix gradioSpaceTools;
             baseSettings := Some settings;
             mixedBouquet := Some mix;
             gradioSpaceTools := someIfNonEmpty gradioSpaceTools |}
      | _, Some settings =>
          (* 4. Base settings *)
          let mode := if default false (externalApiMode (apiClient S))
                      then EXTERNAL_API else INTERNAL_API in
          {| mode := mode;
             enabledToolIds :=
               normalizeBuiltInTools S (applySearchEnablesFetch S (builtInTools settings));
             reason :=
               (match mode with
                | EXTERNAL_API => "External API user settings"
                | _ => "Internal API user settings"
                end) +:+ gradioSuffix gradioSpaceTools;
             baseSettings := Some settings;
             mixedBouquet := None;
             gradioSpaceTools := someIfNonEmpty gradioSpaceTools |}
      | _, None =>
          (* 5. Fallback *)
          {| mode := FALLBACK;
             enabledToolIds :=
               normalizeBuiltInTools S (applySearchEnablesFetch S (ALL_BUILTIN_TOOL_IDS (ids S)));
             reason := "Fallback - no settings available" +:+ gradioSuffix gradioSpaceTools;
             baseSettings := None;
             mixedBouquet := None;
             gradioSpaceTools := someIfNonEmpty gradioSpaceTools |}
      end
  end.

End ToolSelection.

(** ** The world around the discovery code *)

Module Effects.

(** A JavaScript [Error], by its message. *)
Record Error := { message : string }.

(** How a call ends: with a value, with an exception, or not at all. *)
Inductive Outcome (A : Type) :=
| Returned (a : A)
| Thrown (e : Error)
| Diverged.
Arguments Returned {A} a.
Arguments Thrown {A} e.
Arguments Diverged {A}.

(** Computations thread a state [W]; the state survives an exception, as
    the side effects of JavaScript do. *)
Definition M (W A : Type) : Type := W -> Outcome A * W.

Definition ret {W A} (a : A) : M W A := fun w => (Returned a, w).

Definition bind {W A B} (m : M W A) (f : A -> M W B) : M W B :=
  fun w =>
    match m w with
    | (Returned a, w') => f a w'
    | (Thrown e, w') => (Thrown e, w')
    | (Diverged, w') => (Diverged, w')
    end.

Definition throw {W A} (e : Error) : M W A := fun w => (Thrown e, w).

Definition diverge {W A} : M W A := fun w => (Diverged, w).

(** [try { m } catch (error) { handler(error) }] *)
Definition tryCatch {W A} (m : M W A) (handler : Error -> M W A) : M W A :=
  fun w =>
    match m w with
    | (Thrown e, w') => handler e w'
    | other => other
    end.

Definition gets {W A} (f : W -> A) : M W A := fun w => (Returned (f w), w).

Definition modify {W} (f : W -> W) : M W unit := fun w => (Returned tt, f w).

(** What an [await]ed promise settles to. *)
Definition settle {W A} (r : Error + A) : M W A :=
  match r with
  | inl e => throw e
  | inr a => ret a
  end.

Fixpoint mapM {W A B} (f : A -> M W B) (l : list A) : M W (list B) :=
  match l with
  | [] => ret []
  | x :: t => bind (f x) (fun y => bind (mapM f t) (fun ys => ret (y :: ys)))
  end.

End Effects.

Declare Scope js_scope.
Delimit Scope js_scope with js.
Notation "'let*' x := m 'in' k" := (Effects.bind m (fun x => k))
  (at level 10, x name, m at level 100, k at level 200) : js_scope.
Notation "'do' m 'then' k" := (Effects.bind m (fun _ => k))
  (at level 10, m at level 100, k at level 200) : js_scope.

(** ** gradio-cache.ts *)

Module Runtime.
Record t := { stage : option string; hardware : option string }.
End Runtime.

Module CachedSpaceMetadata.
Record t := {
  _id : string;
  name : string;
  subdomain : string;
  emoji : string;
  private : bool;
  sdk : string;
  runtime : option Runtime.t;
  etag : option string;
  fetchedAt : Z
}.

(** [entry.fetchedAt = now] *)
Definition withFetchedAt (entry : t) (now : Z) : t :=
  {| _id := _id entry; name := name entry; subdomain := subdomain entry;
     emoji := emoji entry; private := private entry; sdk := sdk entry;
     runtime := runtime entry; etag := etag entry; fetchedAt := now |}.
End CachedSpaceMetadata.

Module Tool.
Record InputSchema := {
  properties : Json.JValue;
  required : Json.JValue;
  schemaDescription : option Json.JValue
}.

(** A tool definition as [fetchSchema] builds it; the [type] of its input
    schema is always ['object']. *)
Record t := {
  name : string;
  description : Json.JValue;
  inputSchema : InputSchema
}.
End Tool.

Module CachedSchema.
Record t := { tools : list Tool.t; fetchedAt : Z }.
End CachedSchema.

Module CacheConfig.
(** [CACHE_CONFIG]: five integers read from the environment. *)
Record t := {
  SPACE_METADATA_TTL : Z;
  SCHEMA_TTL : Z;
  DISCOVERY_CONCURRENCY : Z;
  SPACE_INFO_TIMEOUT : Z;
  SCHEMA_TIMEOUT : Z
}.

(** The values used when the environment sets none. *)
Definition defaults : t :=
  {| SPACE_METADATA_TTL := 300000;
     SCHEMA_TTL := 300000;
     DISCOVERY_CONCURRENCY := 10;
     SPACE_INFO_TIMEOUT := 5000;
     SCHEMA_TIMEOUT := 7500 |}.
End CacheConfig.

Module Net.

Record HubRequest := {
  hubUrl : string;
  hubHeaders : list (string * string);
  hubTimeout : Z
}.

(** The body of a space-info response, at the type the source casts it to. *)
Record SpaceInfo := {
  info_id : option string;
  infoSubdomain : option string;
  infoPrivate : option bool;
  infoSdk : option string;
  infoRuntime : option Runtime.t
}.

(** A response of the Hub: [json] is what [await response.json()] settles
    to, and [etagHeader] is [response.headers.get('etag')]. *)
Record HubResponse := {
  hubStatus : Z;
  hubStatusText : string;
  etagHeader : option string;
  hubJson : Effects.Error + SpaceInfo
}.

Record SchemaRequest := {
  schemaUrl : string;
  schemaMethod : string;
  schemaHeaders : list (string * string);
  schemaTimeout : Z
}.

Record SchemaResponse := {
  schemaStatus : Z;
  schemaStatusText : string;
  schemaJson : Effects.Error + Json.JValue
}.

Inductive Request :=
| ToHub (r : HubRequest)
| ToSpace (r : SchemaRequest).

(** [response.ok] *)
Definition ok (status : Z) : bool := (200 <=? status) && (status <=? 299).

(** The outside world.  [now n] is what the [n]-th call of [Date.now()]
    returns.  [hub n r] is what [await fetch(...)] settles to for the request
    [r] when [n] requests were sent before it: a rejection (network error, or
    the abort of the timeout) or a response; likewise [space n r] for a
    schema endpoint. *)
Record Outside := {
  now : nat -> Z;
  hub : nat -> HubRequest -> Effects.Error + HubResponse;
  space : nat -> SchemaRequest -> Effects.Error + SchemaResponse
}.

End Net.

Module SpaceMetadataCache.
Record Stats := { hits : Z; misses : Z; etagRevalidations : Z }.
Record t := { cache : gmap string CachedSpaceMetadata.t; stats : Stats }.
End SpaceMetadataCache.

Module SchemaCache.
Record Stats := { hits : Z; misses : Z }.
Record t := { cache : gmap string CachedSchema.t; stats : Stats }.
End SchemaCache.

Module World.
(** The two module-level cache singletons, the number of clock readings
    taken so far, and the requests sent so far, oldest first. *)
Record t := {
  spaceMetadataCache : SpaceMetadataCache.t;
  schemaCache : SchemaCache.t;
  clockReads : nat;
  sent : list Net.Request
}.

Definition withMetadata (f : SpaceMetadataCache.t -> SpaceMetadataCache.t) (w : t) : t :=
  {| spaceMetadataCache := f (spaceMetadataCache w); schemaCache := schemaCache w;
     clockReads := clockReads w; sent := sent w |}.

Definition withSchemas (f : SchemaCache.t -> SchemaCache.t) (w : t) : t :=
  {| spaceMetadataCache := spaceMetadataCache w; schemaCache := f (schemaCache w);
     clockReads := clockReads w; sent := sent w |}.

(** One more reading of the clock. *)
Definition tick (w : t) : t :=
  {| spaceMetadataCache := spaceMetadataCache w; schemaCache := schemaCache w;
     clockReads := S (clockReads w); sent := sent w |}.

(** One more request sent. *)
Definition send (r : Net.Request) (w : t) : t :=
  {| spaceMetadataCache := spaceMetadataCache w; schemaCache := schemaCache w;
     clockReads := clockReads w; sent := sent w ++ [r] |}.

Definition initial : t :=
  {| spaceMetadataCache :=
       {| SpaceMetadataCache.cache := ∅;
          SpaceMetadataCache.stats :=
            {| SpaceMetadataCache.hits := 0; SpaceMetadataCache.misses := 0;
               SpaceMetadataCache.etagRevalidations := 0 |} |};
     schemaCache :=
       {| SchemaCache.cache := ∅;
          SchemaCache.stats := {| SchemaCache.hits := 0; SchemaCache.misses := 0 |} |};
     clockReads := 0;
     sent := [] |}.
End World.

Module Cache.
Import Effects.
Local Open Scope js_scope.

Definition Js (A : Type) : Type := M World.t A.

(** [Date.now()] *)
Definition Date_now (O : Net.Outside) : Js Z :=
  fun w => (Returned (Net.now O (World.clockReads w)), World.tick w).

(** *** [class SpaceMetadataCache] *)

Definition metadataEntries (w : World.t) : gmap string CachedSpaceMetadata.t :=
  SpaceMetadataCache.cache (World.spaceMetadataCache w).

Definition metadataStats (w : World.t) : SpaceMetadataCache.Stats :=
  SpaceMetadataCache.stats (World.spaceMetadataCache w).

(** [this.stats.misses++] *)
Definition countMetadataMiss : World.t -> World.t :=
  World.withMetadata (fun c =>
    {| SpaceMetadataCache.cache := SpaceMetadataCache.cache c;
       SpaceMetadataCache.stats :=
         {| SpaceMetadataCache.hits := SpaceMetadataCache.hits (SpaceMetadataCache.stats c);
            SpaceMetadataCache.misses := SpaceMetadataCache.misses (SpaceMetadataCache.stats c) + 1;
            SpaceMetadataCache.etagRevalidations :=
              SpaceMetadataCache.etagRevalidations (SpaceMetadataCache.stats c) |} |}).

(** [this.stats.hits++] *)
Definition countMetadataHit : World.t -> World.t :=
  World.withMetadata (fun c =>
    {| SpaceMetadataCache.cache := SpaceMetadataCache.cache c;
       SpaceMetadataCache.stats :=
         {| SpaceMetadataCache.hits := SpaceMetadataCache.hits (SpaceMetadataCache.stats c) + 1;
            SpaceMetadataCache.misses := SpaceMetadataCache.misses (SpaceMetadataCache.stats c);
            SpaceMetadataCache.etagRevalidations :=
              SpaceMetadataCache.etagRevalidations (SpaceMetadataCache.stats c) |} |}).

(** [this.stats.etagRevalidations++] *)
Definition countRevalidation : World.t -> World.t :=
  World.withMetadata (fun c =>
    {| SpaceMetadataCache.cache := SpaceMetadataCache.cache c;
       SpaceMetadataCache.stats :=
         {| SpaceMetadataCache.hits := SpaceMetadataCache.hits (SpaceMetadataCache.stats c);
            SpaceMetadataCache.misses := SpaceMetadataCache.misses (SpaceMetadataCache.stats c);
            SpaceMetadataCache.etagRevalidations :=
              SpaceMetadataCache.etagRevalidations (SpaceMetadataCache.stats c) + 1 |} |}).

(** [this.cache.set(spaceName, entry)] *)
Definition putMetadata (spaceName : string) (entry : CachedSpaceMetadata.t)
    : World.t -> World.t :=
  World.withMetadata (fun c =>
    {| SpaceMetadataCache.cache := <[spaceName := entry]> (SpaceMetadataCache.cache c);
       SpaceMetadataCache.stats := SpaceMetadataCache.stats c |}).

Definition metadataMiss : Js unit := modify countMetadataMiss.
Definition metadataHit : Js unit := modify countMetadataHit.
Definition metadataRevalidated : Js unit := modify countRevalidation.
Definition metadataStore (spaceName : string) (entry : CachedSpaceMetadata.t) : Js unit :=
  modify (putMetadata spaceName entry).

(** [spaceMetadataCache.get(spaceName)] *)
Definition metadata_get (cfg : CacheConfig.t) (O : Net.Outside) (spaceName : string)
    : Js (option CachedSpaceMetadata.t) :=
  let* entry := gets (fun w => metadataEntries w !! spaceName) in
  match entry with
  | None => do metadataMiss then ret None
  | Some entry =>
      let* now := Date_now O in
      let age := now - CachedSpaceMetadata.fetchedAt entry in
      let isValid := age <? CacheConfig.SPACE_METADATA_TTL cfg in
      if negb isValid then (do metadataMiss then ret None)
      else (do metadataHit then ret (Some entry))
  end.

(** [spaceMetadataCache.getForRevalidation(spaceName)] *)
Definition metadata_getForRevalidation (spaceName : string)
    : Js (option CachedSpaceMetadata.t) :=
  gets (fun w => metadataEntries w !! spaceName).

(** [spaceMetadataCache.set(spaceName, metadata)] *)
Definition metadata_set (spaceName : string) (metadata : CachedSpaceMetadata.t) : Js unit :=
  metadataStore spaceName metadata.

(** [spaceMetadataCache.updateTimestamp(spaceName)] *)
Definition metadata_updateTimestamp (O : Net.Outside) (spaceName : string) : Js unit :=
  let* entry := gets (fun w => metadataEntries w !! spaceName) in
  match entry with
  | Some entry =>
      let* now := Date_now O in
      do metadataStore spaceName (CachedSpaceMetadata.withFetchedAt entry now) then
      metadataRevalidated
  | None => ret tt
  end.

(** [spaceMetadataCache.clear()] *)
Definition metadata_clear : Js unit :=
  modify (World.withMetadata (fun _ =>
    {| SpaceMetadataCache.cache := ∅;
       SpaceMetadataCache.stats :=
         {| SpaceMetadataCache.hits := 0; SpaceMetadataCache.misses := 0;
            SpaceMetadataCache.etagRevalidations := 0 |} |})).

(** *** [class SchemaCache] *)

Definition schemaEntries (w : World.t) : gmap string CachedSchema.t :=
  SchemaCache.cache (World.schemaCache w).

Definition schemaStats (w : World.t) : SchemaCache.Stats :=
  SchemaCache.stats (World.schemaCache w).

(** [this.stats.misses++] *)
Definition countSchemaMiss : World.t -> World.t :=
  World.withSchemas (fun c =>
    {| SchemaCache.cache := SchemaCache.cache c;
       SchemaCache.stats :=
         {| SchemaCache.hits := SchemaCache.hits (SchemaCache.stats c);
            SchemaCache.misses := SchemaCache.misses (SchemaCache.stats c) + 1 |} |}).

(** [this.stats.hits++] *)
Definition countSchemaHit : World.t -> World.t :=
  World.withSchemas (fun c =>
    {| SchemaCache.cache := SchemaCache.cache c;
       SchemaCache.stats :=
         {| SchemaCache.hits := SchemaCache.hits (SchemaCache.stats c) + 1;
            SchemaCache.misses := SchemaCache.misses (SchemaCache.stats c) |} |}).

(** [this.cache.set(spaceName, schema)] *)
Definition putSchema (spaceName : string) (schema : CachedSchema.t) : World.t -> World.t :=
  World.withSchemas (fun c =>
    {| SchemaCache.cache := <[spaceName := schema]> (SchemaCache.cache c);
       SchemaCache.stats := SchemaCache.stats c |}).

Definition schemaMiss : Js unit := modify countSchemaMiss.
Definition schemaHit : Js unit := modify countSchemaHit.

(** [schemaCache.get(spaceName)] *)
Definition schema_get (cfg : CacheConfig.t) (O : Net.Outside) (spaceName : string)
    : Js (option CachedSchema.t) :=
  let* entry := gets (fun w => schemaEntries w !! spaceName) in
  match entry with
  | None => do schemaMiss then ret None
  | Some entry =>
      let* now := Date_now O in
      let age := now - CachedSchema.fetchedAt entry in
      let isValid := age <? CacheConfig.SCHEMA_TTL cfg in
      if negb isValid then (do schemaMiss then ret None)
      else (do schemaHit then ret (Some entry))
  end.

(** [schemaCache.set(spaceName, schema)] *)
Definition schema_set (spaceName : string) (schema : CachedSchema.t) : Js unit :=
  modify (putSchema spaceName schema).

(** [schemaCache.clear()] *)
Definition schema_clear : Js unit :=
  modify (World.withSchemas (fun _ =>
    {| SchemaCache.cache := ∅;
       SchemaCache.stats := {| SchemaCache.hits := 0; SchemaCache.misses := 0 |} |})).

(** [clearAllCaches()] *)
Definition clearAllCaches : Js unit := do metadata_clear then schema_clear.

End Cache.

(** ** [Map<string, V>] *)

Module JsMap.

(** A JavaScript [Map] with string keys: its entries in insertion order,
    with distinct keys. *)
Definition t (V : Type) : Type := list (string * V).

Definition empty {V} : t V := [].

Fixpoint get {V} (k : string) (m : t V) : option V :=
  match m with
  | [] => None
  | (k', v) :: rest => if String.eqb k k' then Some v else get k rest
  end.

(** [m.set(k, v)]: a new key goes last, a known key keeps its place. *)
Fixpoint set {V} (k : string) (v : V) (m : t V) : t V :=
  match m with
  | [] => [(k, v)]
  | (k', v') :: rest =>
      if String.eqb k k' then (k', v) :: rest else (k', v') :: set k v rest
  end.

Definition keys {V} (m : t V) : list string := map fst m.
Definition values {V} (m : t V) : list V := map snd m.
Definition size {V} (m : t V) : nat := List.length m.

End JsMap.

(** ** gradio-endpoint-connector.ts: [parseSchemaResponse] *)

Module SchemaParser.
Import Effects Json.

Record ParsedTool := {
  name : string;
  description : option JValue;
  inputSchema : JValue
}.

(** [v[k]] for a parsed JSON value and one of the keys [description],
    [properties], [required]: a [TypeError] on [null], [undefined] ([None])
    when the value is not an object or lacks the key. *)
Definition prop (v : JValue) (k : string) : Error + option JValue :=
  match v with
  | JNull =>
      inl {| message := "Cannot read properties of null (reading '" +:+ k +:+ "')" |}
  | JObj fields => inr (getField k fields)
  | _ => inr None
  end.

(** The type guard of the array format. *)
Definition arrayFormatTool (tool : JValue) : option ParsedTool :=
  match tool with
  | JObj fields =>
      match getField "name" fields, getField "inputSchema" fields with
      | Some (JStr n), Some schema =>
          Some {| name := n; description := getField "description" fields;
                  inputSchema := schema |}
      | _, _ => None
      end
  | _ => None
  end.

Fixpoint traverse {A B} (f : A -> Error + B) (l : list A) : Error + list B :=
  match l with
  | [] => inr []
  | x :: t =>
      match f x with
      | inl e => inl e
      | inr y =>
          match traverse f t with
          | inl e => inl e
          | inr ys => inr (y :: ys)
          end
      end
  end.

Definition objectFormatTool (entry : string * JValue) : Error + ParsedTool :=
  let '(n, toolSchema) := entry in
  match prop toolSchema "description" with
  | inl e => inl e
  | inr d =>
      inr {| name := n;
             description := match d with
                            | Some (JStr text) => Some (JStr text)
                            | _ => None
                            end;
             inputSchema := toolSchema |}
  end.

Definition parseSchemaResponse (schemaResponse : JValue) (endpointId subdomain : string)
    : Error + list ParsedTool :=
  let tools :=
    match schemaResponse with
    | JArr items => inr (omap arrayFormatTool items)
    | JObj fields => traverse objectFormatTool fields
    | _ => inl {| message := "Invalid schema format: expected array or object" |}
    end in
  match tools with
  | inl e => inl e
  | inr [] => inl {| message := "No tools found in schema" |}
  | inr tools => inr tools
  end.

End SchemaParser.

(** ** gradio-discovery.ts *)

Module GradioSpaceInfo.
Record t := {
  name : string;
  subdomain : string;
  _id : string;
  emoji : string;
  private : bool;
  sdk : string;
  tools : list Tool.t;
  runtime : option Runtime.t;
  cached : bool
}.
End GradioSpaceInfo.

Module GetGradioSpacesOptions.
Record t := {
  skipSchemas : option bool;
  includeRuntime : option bool;
  timeout : option Z
}.
End GetGradioSpacesOptions.

Module MetadataOptions.
(** [{ includeRuntime?: boolean; timeout?: number; concurrency?: number }] *)
Record t := {
  includeRuntime : option bool;
  timeout : option Z;
  concurrency : option Z
}.
End MetadataOptions.

Module Discovery.
Import Effects Json Cache Net.
Local Open Scope js_scope.

Inductive SpaceMetadataResult :=
| MetadataSuccess (metadata : CachedSpaceMetadata.t) (cached : bool)
| MetadataFailure (spaceName : string) (error : Error).

Inductive SchemaResult :=
| SchemaSuccess (spaceName : string) (schema : CachedSchema.t) (cached : bool)
| SchemaFailure (spaceName : string) (error : Error).

(** [a || b] for an optional number [a]: [undefined] and [0] are falsy. *)
Definition orElse (a : option Z) (b : Z) : Z :=
  match a with
  | Some n => if n =? 0 then b else n
  | None => b
  end.

(** [a || b] for an optional string [a] *)
Definition orElseStr (a : option string) (b : string) : string :=
  if Js.truthyStr a then default "" a else b.

(** The emoji literal of [fetchSpaceMetadata], with the four characters
    (U+F8FF, U+00FC, U+00EE, U+00DF) that the source file has between the
    quotes; nothing inspects it. *)
Definition DEFAULT_EMOJI : string := "üîß".

(** [await fetch(url, { headers, signal })]: the request goes out, and the
    caller is resumed, later, with what the promise settled to. *)
Definition fetchHub (O : Outside) (request : HubRequest) : Js (Error + HubResponse) :=
  fun w =>
    (Returned (hub O (List.length (World.sent w)) request),
     World.send (ToHub request) w).

Definition fetchSpace (O : Outside) (request : SchemaRequest) : Js (Error + SchemaResponse) :=
  fun w =>
    (Returned (space O (List.length (World.sent w)) request),
     World.send (ToSpace request) w).

Definition httpError (status : Z) (statusText : string) : Error :=
  {| message := "HTTP " +:+ Js.toString status +:+ ": " +:+ statusText |}.

(** *** [fetchSpaceMetadata]

    An [async] function runs up to its first [await] when it is called and
    the rest when the awaited promise has settled.  The two halves are given
    separately, so that [Promise.all] over a batch can run all first halves
    before any second half. *)

Record PendingMetadata := {
  pendingSpaceName : string;
  stale : option CachedSpaceMetadata.t;
  settledHub : Error + HubResponse
}.

Definition fetchSpaceMetadata_start (cfg : CacheConfig.t) (O : Outside)
    (spaceName : string) (hfToken : option string) (options : option MetadataOptions.t)
    : Js (SpaceMetadataResult + PendingMetadata) :=
  let timeout := orElse (options ≫= MetadataOptions.timeout)
                   (CacheConfig.SPACE_INFO_TIMEOUT cfg) in
  let* cached := metadata_get cfg O spaceName in
  match cached with
  | Some cached => ret (inl (MetadataSuccess cached true))
  | None =>
      let* stale := metadata_getForRevalidation spaceName in
      let etag := stale ≫= CachedSpaceMetadata.etag in
      let url := "https://huggingface.co/api/spaces/" +:+ spaceName in
      let headers :=
        (if Js.truthyStr hfToken
         then [("Authorization", "Bearer " +:+ default "" hfToken)] else [])
        ++ (if Js.truthyStr etag
            then [("If-None-Match", default "" etag)] else []) in
      let* settled := fetchHub O {| hubUrl := url; hubHeaders := headers;
                                    hubTimeout := timeout |} in
      ret (inr {| pendingSpaceName := spaceName; stale := stale;
                  settledHub := settled |})
  end.

(** The object [stale] after [updateTimestamp]: it is the very entry the
    cache holds under that name, so it shows the timestamp just written. *)
Definition staleAfterUpdate (spaceName : string) (stale : CachedSpaceMetadata.t)
    : Js CachedSpaceMetadata.t :=
  let* entry := metadata_getForRevalidation spaceName in
  ret (match entry with
       | Some entry =>
           CachedSpaceMetadata.withFetchedAt stale (CachedSpaceMetadata.fetchedAt entry)
       | None => stale
       end).

(** The part of [fetchSpaceMetadata] that follows a [200]: it reads the
    body, builds the metadata and caches it when the space is public. *)
Definition freshMetadata (O : Outside) (spaceName : string) (response : HubResponse)
    : Js SpaceMetadataResult :=
  let* info := settle (hubJson response) in
  let newEtag := if Js.truthyStr (etagHeader response) then etagHeader response else None in
  if negb (Js.truthyStr (infoSubdomain info))
  then throw {| message := "Space does not have a subdomain" |}
  else
    let subdomain := default "" (infoSubdomain info) in
    let* now := Date_now O in
    let metadata :=
      {| CachedSpaceMetadata._id := orElseStr (info_id info) ("gradio_" +:+ subdomain);
         CachedSpaceMetadata.name := spaceName;
         CachedSpaceMetadata.subdomain := subdomain;
         CachedSpaceMetadata.emoji := DEFAULT_EMOJI;
         CachedSpaceMetadata.private := default false (infoPrivate info);
         CachedSpaceMetadata.sdk := orElseStr (infoSdk info) "gradio";
         CachedSpaceMetadata.runtime := infoRuntime info;
         CachedSpaceMetadata.etag := newEtag;
         CachedSpaceMetadata.fetchedAt := now |} in
    do (if negb (CachedSpaceMetadata.private metadata)
        then metadata_set spaceName metadata
        else ret tt) then
    ret (MetadataSuccess metadata false).

Definition fetchSpaceMetadata_resume (cfg : CacheConfig.t) (O : Outside)
    (pending : PendingMetadata) : Js SpaceMetadataResult :=
  let spaceName := pendingSpaceName pending in
  tryCatch
    (let* response := settle (settledHub pending) in
     match stale pending with
     | Some stale' =>
         if hubStatus response =? 304 then
           do metadata_updateTimestamp O spaceName then
           let* metadata := staleAfterUpdate spaceName stale' in
           ret (MetadataSuccess metadata true)
         else if negb (ok (hubStatus response))
         then throw (httpError (hubStatus response) (hubStatusText response))
         else freshMetadata O spaceName response
     | None =>
         if negb (ok (hubStatus response))
         then throw (httpError (hubStatus response) (hubStatusText response))
         else freshMetadata O spaceName response
     end)
    (fun error => ret (MetadataFailure spaceName error)).

(** The second half of a call, or nothing more to do when the first half
    already returned. *)
Definition metadataFinish (cfg : CacheConfig.t) (O : Outside)
    (started : SpaceMetadataResult + PendingMetadata) : Js SpaceMetadataResult :=
  match started with
  | inl result => ret result
  | inr pending => fetchSpaceMetadata_resume cfg O pending
  end.

(** One call of [fetchSpaceMetadata], awaited on its own. *)
Definition fetchSpaceMetadata (cfg : CacheConfig.t) (O : Outside)
    (spaceName : string) (hfToken : option string) (options : option MetadataOptions.t)
    : Js SpaceMetadataResult :=
  let* started := fetchSpaceMetadata_start cfg O spaceName hfToken options in
  metadataFinish cfg O started.

(** *** [fetchSpaceMetadataWithCache] *)

(** [for (let i = 0; i < spaceNames.length; i += concurrency)
       batches.push(spaceNames.slice(i, i + concurrency))],
    with a bound on the number of iterations; [None] when the bound is
    reached. *)
Fixpoint batchLoop (fuel : nat) (spaceNames : list string) (concurrency i : Z)
    : option (list (list string)) :=
  match fuel with
  | O => None
  | S fuel' =>
      if i <? Z.of_nat (List.length spaceNames)
      then cons (Js.sliceList spaceNames i (i + concurrency))
             <$> batchLoop fuel' spaceNames concurrency (i + concurrency)
      else Some []
  end.

(** The loop takes at most one iteration per name when it ends at all; with
    a concurrency of zero or less it never ends. *)
Definition makeBatches (spaceNames : list string) (concurrency : Z)
    : Js (list (list string)) :=
  match batchLoop (S (List.length spaceNames)) spaceNames concurrency 0 with
  | Some batches => ret batches
  | None => diverge
  end.

Definition storeMetadata (results : JsMap.t CachedSpaceMetadata.t)
    (result : SpaceMetadataResult) : JsMap.t CachedSpaceMetadata.t :=
  match result with
  | MetadataSuccess metadata _ =>
      JsMap.set (CachedSpaceMetadata.name metadata) metadata results
  | MetadataFailure _ _ => results
  end.

(** [await Promise.all(batch.map(...))]: every call is started, in order,
    and then every pending call is resumed; the model resumes them in the
    order of the batch.  The runtime resumes a call when its response is
    there (and, for a 200, when its body has been read), which can be
    another order.  For distinct names the order decides which reading of
    the clock a call gets, that is the [fetchedAt] of the entry it stores,
    and nothing else.  So the [fetchedAt] values that the model gives to the
    entries of one batch are those of one of the possible orders; the
    statements about a discovery do not compare them. *)
Definition metadataBatch (cfg : CacheConfig.t) (O : Outside)
    (hfToken : option string) (options : option MetadataOptions.t)
    (batch : list string) : Js (list SpaceMetadataResult) :=
  let* started := mapM (fun spaceName =>
                    fetchSpaceMetadata_start cfg O spaceName hfToken options) batch in
  mapM (metadataFinish cfg O) started.

Fixpoint forEachBatch (cfg : CacheConfig.t) (O : Outside)
    (hfToken : option string) (options : option MetadataOptions.t)
    (batches : list (list string)) (results : JsMap.t CachedSpaceMetadata.t)
    : Js (JsMap.t CachedSpaceMetadata.t) :=
  match batches with
  | [] => ret results
  | batch :: rest =>
      let* batchResults := metadataBatch cfg O hfToken options batch in
      forEachBatch cfg O hfToken options rest (fold_left storeMetadata batchResults results)
  end.

Definition fetchSpaceMetadataWithCache (cfg : CacheConfig.t) (O : Outside)
    (spaceNames : list string) (hfToken : option string)
    (options : option MetadataOptions.t) : Js (JsMap.t CachedSpaceMetadata.t) :=
  let concurrency := orElse (options ≫= MetadataOptions.concurrency)
                       (CacheConfig.DISCOVERY_CONCURRENCY cfg) in
  let* batches := makeBatches spaceNames concurrency in
  forEachBatch cfg O hfToken options batches JsMap.empty.

(** *** [fetchSchema] *)

Record PendingSchema := {
  pendingMetadata : CachedSpaceMetadata.t;
  settledSpace : Error + SchemaResponse
}.

Definition fetchSchema_start (cfg : CacheConfig.t) (O : Outside)
    (metadata : CachedSpaceMetadata.t) (hfToken : option string) (timeout : option Z)
    : Js (SchemaResult + PendingSchema) :=
  let spaceName := CachedSpaceMetadata.name metadata in
  let timeout := orElse timeout (CacheConfig.SCHEMA_TIMEOUT cfg) in
  let* cached := schema_get cfg O spaceName in
  match cached with
  | Some cached => ret (inl (SchemaSuccess spaceName cached true))
  | None =>
      let schemaUrl := "https://" +:+ CachedSpaceMetadata.subdomain metadata
                         +:+ ".hf.space/gradio_api/mcp/schema" in
      let headers :=
        [("Content-Type", "application/json")]
        ++ (if CachedSpaceMetadata.private metadata && Js.truthyStr hfToken
            then [("X-HF-Authorization", "Bearer " +:+ default "" hfToken)] else []) in
      let* settled := fetchSpace O {| schemaUrl := schemaUrl; schemaMethod := "GET";
                                      schemaHeaders := headers;
                                      schemaTimeout := timeout |} in
      ret (inr {| pendingMetadata := metadata; settledSpace := settled |})
  end.

(** [v || fallback] for the result of a property access *)
Definition orElseJson (v : option JValue) (fallback : JValue) : JValue :=
  match v with
  | Some v => if truthy v then v else fallback
  | None => fallback
  end.

(** The callback of [.map] that converts a parsed tool. *)
Definition toTool (parsedTool : SchemaParser.ParsedTool) : Error + Tool.t :=
  let name := SchemaParser.name parsedTool in
  let schema := SchemaParser.inputSchema parsedTool in
  match SchemaParser.prop schema "properties" with
  | inl e => inl e
  | inr properties =>
      match SchemaParser.prop schema "required" with
      | inl e => inl e
      | inr required =>
          match SchemaParser.prop schema "description" with
          | inl e => inl e
          | inr description =>
              inr {| Tool.name := name;
                     Tool.description :=
                       orElseJson (SchemaParser.description parsedTool)
                         (JStr (name +:+ " tool"));
                     Tool.inputSchema :=
                       {| Tool.properties := orElseJson properties (JObj []);
                          Tool.required := orElseJson required (JArr []);
                          Tool.schemaDescription := description |} |}
          end
      end
  end.

Definition notLambda (parsedTool : SchemaParser.ParsedTool) : bool :=
  negb (Js.includes (Js.toLowerCase (SchemaParser.name parsedTool)) "<lambda").

Definition fetchSchema_resume (cfg : CacheConfig.t) (O : Outside)
    (pending : PendingSchema) : Js SchemaResult :=
  let metadata := pendingMetadata pending in
  let spaceName := CachedSpaceMetadata.name metadata in
  tryCatch
    (let* response := settle (settledSpace pending) in
     if negb (ok (schemaStatus response))
     then throw (httpError (schemaStatus response) (schemaStatusText response))
     else
       let* schemaResponse := settle (schemaJson response) in
       let endpointId := "gradio_" +:+ CachedSpaceMetadata.subdomain metadata in
       let* parsed := settle (SchemaParser.parseSchemaResponse schemaResponse endpointId
                                (CachedSpaceMetadata.subdomain metadata)) in
       let* tools := settle (SchemaParser.traverse toTool (List.filter notLambda parsed)) in
       let* now := Date_now O in
       let schema := {| CachedSchema.tools := tools; CachedSchema.fetchedAt := now |} in
       do (if negb (CachedSpaceMetadata.private metadata)
           then schema_set spaceName schema
           else ret tt) then
       ret (SchemaSuccess spaceName schema false))
    (fun error => ret (SchemaFailure spaceName error)).

Definition schemaFinish (cfg : CacheConfig.t) (O : Outside)
    (started : SchemaResult + PendingSchema) : Js SchemaResult :=
  match started with
  | inl result => ret result
  | inr pending => fetchSchema_resume cfg O pending
  end.

(** One call of [fetchSchema], awaited on its own. *)
Definition fetchSchema (cfg : CacheConfig.t) (O : Outside)
    (metadata : CachedSpaceMetadata.t) (hfToken : option string) (timeout : option Z)
    : Js SchemaResult :=
  let* started := fetchSchema_start cfg O metadata hfToken timeout in
  schemaFinish cfg O started.

(** *** [fetchSchemasWithCache] *)

Definition storeSchema (results : JsMap.t CachedSchema.t) (result : SchemaResult)
    : JsMap.t CachedSchema.t :=
  match result with
  | SchemaSuccess spaceName schema _ => JsMap.set spaceName schema results
  | SchemaFailure _ _ => results
  end.

Definition schemaBatch (cfg : CacheConfig.t) (O : Outside)
    (hfToken : option string) (timeout : option Z)
    (metadataList : list CachedSpaceMetadata.t) : Js (list SchemaResult) :=
  let* started := mapM (fun metadata =>
                    fetchSchema_start cfg O metadata hfToken timeout) metadataList in
  mapM (schemaFinish cfg O) started.

Definition fetchSchemasWithCache (cfg : CacheConfig.t) (O : Outside)
    (metadataList : list CachedSpaceMetadata.t) (hfToken : option string)
    (timeout : option Z) : Js (JsMap.t CachedSchema.t) :=
  if (List.length metadataList =? 0)%nat then ret JsMap.empty
  else
    let* schemaResults := schemaBatch cfg O hfToken timeout metadataList in
    ret (fold_left storeSchema schemaResults JsMap.empty).

(** *** [combineMetadataAndSchemas] and [getGradioSpaces] *)

Definition combineOne (schemaMap : JsMap.t CachedSchema.t) (skipSchemas : bool)
    (entry : string * CachedSpaceMetadata.t) : list GradioSpaceInfo.t :=
  let '(spaceName, metadata) := entry in
  let schema := JsMap.get spaceName schemaMap in
  if negb skipSchemas && negb (bool_decide (is_Some schema)) then []
  else
    [ {| GradioSpaceInfo._id := CachedSpaceMetadata._id metadata;
         GradioSpaceInfo.name := CachedSpaceMetadata.name metadata;
         GradioSpaceInfo.subdomain := CachedSpaceMetadata.subdomain metadata;
         GradioSpaceInfo.emoji := CachedSpaceMetadata.emoji metadata;
         GradioSpaceInfo.private := CachedSpaceMetadata.private metadata;
         GradioSpaceInfo.sdk := CachedSpaceMetadata.sdk metadata;
         GradioSpaceInfo.tools := match schema with
                                  | Some schema => CachedSchema.tools schema
                                  | None => []
                                  end;
         GradioSpaceInfo.runtime := CachedSpaceMetadata.runtime metadata;
         GradioSpaceInfo.cached := false |} ].

Definition combineMetadataAndSchemas (metadataMap : JsMap.t CachedSpaceMetadata.t)
    (schemaMap : JsMap.t CachedSchema.t) (skipSchemas : bool)
    : list GradioSpaceInfo.t :=
  flat_map (combineOne schemaMap skipSchemas) metadataMap.

(** [m.sdk === 'gradio' && m.subdomain] *)
Definition isGradio (m : CachedSpaceMetadata.t) : bool :=
  String.eqb (CachedSpaceMetadata.sdk m) "gradio"
  && negb (String.eqb (CachedSpaceMetadata.subdomain m) "").

Definition getGradioSpaces (cfg : CacheConfig.t) (O : Outside)
    (spaceNames : list string) (hfToken : option string)
    (options : option GetGradioSpacesOptions.t) : Js (list GradioSpaceInfo.t) :=
  if (List.length spaceNames =? 0)%nat then ret []
  else
    let* startTime := Date_now O in
    (* Step 1: metadata *)
    let* metadataMap :=
      fetchSpaceMetadataWithCache cfg O spaceNames hfToken
        (Some {| MetadataOptions.includeRuntime := options ≫= GetGradioSpacesOptions.includeRuntime;
                 MetadataOptions.timeout := options ≫= GetGradioSpacesOptions.timeout;
                 MetadataOptions.concurrency := Some (CacheConfig.DISCOVERY_CONCURRENCY cfg) |}) in
    (* Step 2: filter *)
    let gradioMetadata := List.filter isGradio (JsMap.values metadataMap) in
    (* Step 3: schemas *)
    let skipSchemas := default false (options ≫= GetGradioSpacesOptions.skipSchemas) in
    let* schemaMap :=
      (if negb skipSchemas && (0 <? List.length gradioMetadata)%nat
       then fetchSchemasWithCache cfg O gradioMetadata hfToken
              (options ≫= GetGradioSpacesOptions.timeout)
       else ret JsMap.empty) in
    (* Step 4: combine *)
    let results := combineMetadataAndSchemas metadataMap schemaMap skipSchemas in
    let* endTime := Date_now O in
    let duration := endTime - startTime in
    ret results.

(** [getGradioSpace] *)
Definition getGradioSpace (cfg : CacheConfig.t) (O : Outside)
    (spaceName : string) (hfToken : option string)
    (options : option GetGradioSpacesOptions.t) : Js (option GradioSpaceInfo.t) :=
  let* spaces := getGradioSpaces cfg O [spaceName] hfToken options in
  ret (head spaces).

End Discovery.

(** ** gradio-utils.ts, continued *)

Module GradioTools.
Import Effects Cache Discovery.
Local Open Scope js_scope.

Definition isDigit (c : ascii) : bool :=
  let n := Js.code c in ((48 <=? n) && (n <=? 57))%N.

(** [\d+_] at the head of [l]; [seen] tells whether a digit was read. *)
Fixpoint digitsThenUnderscore (seen : bool) (l : list ascii) : bool :=
  match l with
  | [] => false
  | c :: t =>
      if isDigit c then digitsThenUnderscore true t
      else seen && Ascii.eqb c "_"
  end.

(** [/^grp?\d+_/.test(toolName)].  After [gr], a [p] is taken by [p?]
    whenever there is one: without it [\d+] would have to match that [p]. *)
Definition matchesGradioPattern (toolName : string) : bool :=
  match Js.chars toolName with
  | g :: r :: rest =>
      Ascii.eqb g "g" && Ascii.eqb r "r" &&
      digitsThenUnderscore false
        match rest with
        | p :: rest' => if Ascii.eqb p "p" then rest' else rest
        | [] => rest
        end
  | _ => false
  end.

(** [isGradioTool]; [filesToolName] is [GRADIO_FILES_TOOL_CONFIG.name], a
    constant of the [@llmindset/hf-mcp] package, which is not among the
    sources. *)
Definition isGradioTool (filesToolName : string) (toolName : string) : bool :=
  matchesGradioPattern toolName || String.eqb toolName filesToolName.

(** The options [fetchGradioSubdomains] passes: [{ skipSchemas: true }]. *)
Definition metadataOnly : option GetGradioSpacesOptions.t :=
  Some {| GetGradioSpacesOptions.skipSchemas := Some true;
          GetGradioSpacesOptions.includeRuntime := None;
          GetGradioSpacesOptions.timeout := None |}.

Definition toSpaceTool (space : GradioSpaceInfo.t) : Settings.SpaceTool :=
  {| Settings._id := GradioSpaceInfo._id space;
     Settings.name := GradioSpaceInfo.name space;
     Settings.subdomain := GradioSpaceInfo.subdomain space;
     Settings.emoji := GradioSpaceInfo.emoji space |}.

Definition fetchGradioSubdomains (cfg : CacheConfig.t) (O : Net.Outside)
    (spaceIds : list GradioUtils.ParsedGradioSpace) (hfToken : option string)
    : Js (list Settings.SpaceTool) :=
  if (List.length spaceIds =? 0)%nat then ret []
  else
    let spaceNames := map GradioUtils.name spaceIds in
    let* spaces := getGradioSpaces cfg O spaceNames hfToken metadataOnly in
    ret (map toSpaceTool spaces).

Definition parseAndFetchGradioEndpoints (cfg : CacheConfig.t) (O : Net.Outside)
    (gradioParam : string) (hfToken : option string) : Js (list Settings.SpaceTool) :=
  let parsedSpaces := GradioUtils.parseGradioSpaceIds gradioParam in
  if (List.length parsedSpaces =? 0)%nat then ret []
  else fetchGradioSubdomains cfg O parsedSpaces hfToken.

End GradioTools.

(** ** gradio-cache.ts, continued: statistics *)

Module CacheStats.
Import Effects Cache.

Record t := {
  metadataHits : Z;
  metadataMisses : Z;
  metadataEtagRevalidations : Z;
  schemaHits : Z;
  schemaMisses : Z;
  metadataCacheSize : Z;
  schemaCacheSize : Z
}.

(** [getCacheStats()], through the [getStats()] of the two caches. *)
Definition getCacheStats : Js t :=
  gets (fun w =>
    {| metadataHits := SpaceMetadataCache.hits (metadataStats w);
       metadataMisses := SpaceMetadataCache.misses (metadataStats w);
       metadataEtagRevalidations := SpaceMetadataCache.etagRevalidations (metadataStats w);
       schemaHits := SchemaCache.hits (schemaStats w);
       schemaMisses := SchemaCache.misses (schemaStats w);
       metadataCacheSize := Z.of_nat (size (metadataEntries w));
       schemaCacheSize := Z.of_nat (size (schemaEntries w)) |}).

End CacheStats.

(** ** gradio-result-processor.ts, continued: [extractUrlFromContent] *)

Module UrlExtraction.
Import Json.

(** What the [i] flag identifies on code units below 256: the letters A-Z
    with a-z, and nothing else. *)
Definition foldCase (c : ascii) : ascii :=
  let n := Js.code c in
  if ((65 <=? n) && (n <=? 90))%N then ascii_of_N (n + 32) else c.

(** The rest of [l] after the literal [p] (given in lower case), compared
    without case; [None] when [l] does not start with it. *)
Fixpoint afterLiteral (p l : list ascii) : option (list ascii) :=
  match p, l with
  | [], _ => Some l
  | _ :: _, [] => None
  | a :: p', b :: l' => if Ascii.eqb a (foldCase b) then afterLiteral p' l' else None
  end.

(** [/^https?:\/\//i.test(s)] *)
Definition isHttpUrl (s : string) : bool :=
  match afterLiteral (Js.chars "http") (Js.chars s) with
  | None => false
  | Some rest =>
      let rest' := match rest with
                   | c :: t => if Ascii.eqb (foldCase c) "s" then t else rest
                   | [] => rest
                   end in
      bool_decide (is_Some (afterLiteral (Js.chars "://") rest'))
  end.

(** [text.replace(/^image\s+url\s*:\s*/i, '')] *)
Definition stripImageUrlLabel (text : string) : string :=
  match afterLiteral (Js.chars "image") (Js.chars text) with
  | None => text
  | Some r1 =>
      let r2 := Js.dropWhile Js.isWhiteSpace r1 in
      if (List.length r2 =? List.length r1)%nat then text
      else
        match afterLiteral (Js.chars "url") r2 with
        | None => text
        | Some r3 =>
            match Js.dropWhile Js.isWhiteSpace r3 with
            | ":"%char :: r4 => Js.str (Js.dropWhile Js.isWhiteSpace r4)
            | _ => text
            end
        end
  end.

(** The body of the [for] loop for one item: the URL it gives, if any. *)
Definition urlOfItem (item : JValue) : option string :=
  if negb (truthy item) || negb (typeofObject item) then None
  else
    let fields := match item with JObj fields => fields | _ => [] end in
    let fromText :=
      match getField "text" fields with
      | Some (JStr text) =>
          let text := stripImageUrlLabel (Js.trim text) in
          if isHttpUrl text then Some text else None
      | _ => None
      end in
    match getField "url" fields with
    | Some (JStr url) => if isHttpUrl (Js.trim url) then Some (Js.trim url) else fromText
    | _ => fromText
    end.

Fixpoint firstUrl (content : list JValue) : option string :=
  match content with
  | [] => None
  | item :: rest =>
      match urlOfItem item with
      | Some url => Some url
      | None => firstUrl rest
      end
  end.

(** [extractUrlFromContent]; [content] is an array here, as its type says. *)
Definition extractUrlFromContent (content : list JValue) : option string :=
  if (List.length content =? 0)%nat then None else firstUrl content.

End UrlExtraction.

(** ** gradio-tool-caller.ts: [applyResultPostProcessing] *)

Module ToolCaller.
Import Json ResultProcessor UrlExtraction.

(** [GradioToolCallOptions], as far as [applyResultPostProcessing] reads
    it; [clientName] is [sessionInfo?.clientInfo?.name]. *)
Record GradioToolCallOptions := {
  stripImageContent : option bool;
  toolName : string;
  outwardFacingName : string;
  clientName : option string;
  spaceName : option string
}.

(** [{ url: extractedUrl, spaceName: options.spaceName }]; a member that is
    [undefined] is left out, as [JSON.stringify] does. *)
Definition urlContent (url : string) (spaceName : option string) : JValue :=
  JObj (("url", JStr url)
        :: match spaceName with
           | Some n => [("spaceName", JStr n)]
           | None => []
           end).

Definition applyResultPostProcessing (result : CallToolResult)
    (options : GradioToolCallOptions) : CallToolResult :=
  let filteredResult :=
    stripImageContentFromResult result
      {| enabled := default false (stripImageContent options);
         ResultProcessor.toolName := toolName options;
         ResultProcessor.outwardFacingName := outwardFacingName options |} in
  if bool_decide (clientName options = Some "openai-mcp") then
    match extractUrlFromContent (content filteredResult) with
    | Some extractedUrl =>
        if negb (String.eqb extractedUrl "") then
          {| content := content filteredResult;
             isError := isError filteredResult;
             structuredContent := Some (urlContent extractedUrl (spaceName options));
             _meta := _meta filteredResult |}
        else filteredResult
    | None => filteredResult
    end
  else filteredResult.

End ToolCaller.

(** ** gradio-endpoint-connector.ts: [isSpacePrivate] *)

Module EndpointConnector.
Import Effects Cache Net Discovery.
Local Open Scope js_scope.

(** [spaceName.replace('/', '-')]: the first slash only. *)
Fixpoint replaceFirstSlash (l : list ascii) : list ascii :=
  match l with
  | [] => []
  | c :: t => if Ascii.eqb c "/" then "-"%char :: t else c :: replaceFirstSlash t
  end.

(** The emoji literal of [isSpacePrivate], as the source file has it. *)
Definition CONNECTOR_EMOJI : string := "ðŸ”§".

(** [isSpacePrivate].  [spaceInfo] is the function of that name of the
    [@huggingface/hub] package: [spaceInfo name token] is what the promise
    it returns settles to. *)
Definition isSpacePrivate (cfg : CacheConfig.t) (O : Outside)
    (spaceInfo : string -> string -> Error + SpaceInfo)
    (spaceName : string) (hfToken : option string) : Js bool :=
  tryCatch
    (if negb (Js.truthyStr hfToken) then ret false
     else
       let* cached := metadata_get cfg O spaceName in
       match cached with
       | Some cached => ret (CachedSpaceMetadata.private cached)
       | None =>
           let* info := settle (spaceInfo spaceName (default "" hfToken)) in
           do (if negb (default false (infoPrivate info)) then
                 let* now := Date_now O in
                 metadata_set spaceName
                   {| CachedSpaceMetadata._id :=
                        orElseStr (info_id info)
                          ("gradio_" +:+ Js.str (replaceFirstSlash (Js.chars spaceName)));
                      CachedSpaceMetadata.name := spaceName;
                      CachedSpaceMetadata.subdomain := orElseStr (infoSubdomain info) "";
                      CachedSpaceMetadata.emoji := CONNECTOR_EMOJI;
                      CachedSpaceMetadata.private := false;
                      CachedSpaceMetadata.sdk := orElseStr (infoSdk info) "gradio";
                      CachedSpaceMetadata.runtime := None;
                      CachedSpaceMetadata.etag := None;
                      CachedSpaceMetadata.fetchedAt := now |}
               else ret tt) then
           ret (default false (infoPrivate info))
       end)
    (fun _ => ret true).

End EndpointConnector.

(* ===================================================================== *)
(** * Part II: properties                                                 *)
(* ===================================================================== *)

(** ** Facts about JavaScript strings *)

Module JsFacts.
Import Js.

Lemma str_chars s : str (chars s) = s.
Proof. apply string_of_list_ascii_of_string. Qed.

Lemma chars_str l : chars (str l) = l.
Proof. apply list_ascii_of_string_of_list_ascii. Qed.

Lemma chars_inj s1 s2 : chars s1 = chars s2 -> s1 = s2.
Proof. intros H. rewrite <- (str_chars s1), <- (str_chars s2). now rewrite H. Qed.

Lemma length_chars s : List.length (chars s) = String.length s.
Proof. induction s as [|c s IH]; simpl; [reflexivity | now rewrite IH]. Qed.

Lemma length_str l : String.length (str l) = List.length l.
Proof. now rewrite <- length_chars, chars_str. Qed.

Lemma chars_app s1 s2 : chars (s1 +:+ s2) = chars s1 ++ chars s2.
Proof. induction s1 as [|c s1 IH]; simpl; [reflexivity | now rewrite IH]. Qed.

Lemma str_app l1 l2 : str (l1 ++ l2) = str l1 +:+ str l2.
Proof. apply chars_inj. now rewrite chars_app, !chars_str. Qed.

Lemma append_assoc s1 s2 s3 : (s1 +:+ s2) +:+ s3 = s1 +:+ s2 +:+ s3.
Proof. apply chars_inj. now rewrite !chars_app, <- app_assoc. Qed.

Lemma len_app s1 s2 : len (s1 +:+ s2) = len s1 + len s2.
Proof.
  unfold len. rewrite <- !length_chars, chars_app, length_app. lia.
Qed.

Lemma len_nonneg s : 0 <= len s.
Proof. unfold len. lia. Qed.

Lemma len_str l : len (str l) = Z.of_nat (List.length l).
Proof. unfold len. now rewrite length_str. Qed.

Lemma chars_nil_iff s : chars s = [] <-> s = "".
Proof.
  split; intros H.
  - apply chars_inj. exact H.
  - now subst.
Qed.

(** *** [indexOf] and occurrence counting *)

Lemma indexOfChars_ge c l : -1 <= indexOfChars c l.
Proof.
  induction l as [|x t IH]; simpl; [lia|].
  destruct (Ascii.eqb x c); [lia|].
  destruct (Z.ltb_spec (indexOfChars c t) 0); lia.
Qed.

Lemma indexOfChars_absent c l :
  indexOfChars c l = -1 <-> ~ In c l.
Proof.
  induction l as [|x t IH]; simpl.
  - split; [tauto | reflexivity].
  - destruct (Ascii.eqb_spec x c) as [->|Hne].
    + split; [lia | intros H; exfalso; apply H; now left].
    + pose proof (indexOfChars_ge c t).
      destruct (Z.ltb_spec (indexOfChars c t) 0) as [Hlt|Hge].
      * split; [|reflexivity]. intros _ [Heq|Hin]; [congruence|].
        apply IH in Hin; [exact Hin | lia].
      * split; [lia|]. intros Hn. exfalso.
        assert (indexOfChars c t = -1) by (apply IH; tauto). lia.
Qed.

Lemma indexOfChars_found c l i :
  indexOfChars c l = i -> 0 <= i ->
  exists l1 l2, l = l1 ++ c :: l2 /\ ~ In c l1 /\ i = Z.of_nat (List.length l1).
Proof.
  revert i. induction l as [|x t IH]; simpl; intros i Hi Hpos; [lia|].
  destruct (Ascii.eqb_spec x c) as [->|Hne].
  - exists [], t. subst i. simpl. repeat split; tauto.
  - destruct (Z.ltb_spec (indexOfChars c t) 0) as [Hlt|Hge]; [lia|].
    destruct (IH _ eq_refl Hge) as (l1 & l2 & -> & Hnin & Hlen).
    exists (x :: l1), l2. simpl. repeat split.
    + intros [Heq|Hin]; [congruence | tauto].
    + lia.
Qed.

Lemma indexOfChars_app c l1 l2 :
  ~ In c l1 -> indexOfChars c (l1 ++ c :: l2) = Z.of_nat (List.length l1).
Proof.
  induction l1 as [|x t IH]; simpl; intros Hnin.
  - now rewrite Ascii.eqb_refl.
  - destruct (Ascii.eqb_spec x c) as [->|Hne]; [tauto|].
    rewrite IH by tauto.
    destruct (Z.ltb_spec (Z.of_nat (List.length t)) 0); lia.
Qed.

Definition occurrences (c : ascii) (l : list ascii) : nat :=
  List.length (List.filter (Ascii.eqb c) l).

Lemma occurrences_app c l1 l2 :
  occurrences c (l1 ++ l2) = (occurrences c l1 + occurrences c l2)%nat.
Proof. unfold occurrences. now rewrite List.filter_app, length_app. Qed.

Lemma occurrences_zero c l : occurrences c l = 0%nat <-> ~ In c l.
Proof.
  unfold occurrences. induction l as [|x t IH]; simpl; [tauto|].
  destruct (Ascii.eqb_spec c x) as [->|Hne]; simpl.
  - split; [lia | intros H; exfalso; apply H; now left].
  - rewrite IH. split; [intros H [E|I]; [congruence|tauto] | tauto].
Qed.

(** *** Lower-casing never creates or removes a slash *)

Lemma lowerChar_slash c : lowerChar c = "/"%char <-> c = "/"%char.
Proof.
  destruct c as [[] [] [] [] [] [] [] []]; vm_compute; split; congruence.
Qed.

Lemma lower_none_no_slash s :
  toLowerCase s = "none" -> ~ In "/"%char (chars s).
Proof.
  unfold toLowerCase. intros H Hin.
  assert (Hc : map lowerChar (chars s) = chars "none")
    by (rewrite <- H; now rewrite chars_str).
  apply (in_map lowerChar) in Hin. rewrite Hc in Hin.
  assert (E : lowerChar "/" = "/"%char) by reflexivity.
  rewrite E in Hin. simpl in Hin.
  repeat (destruct Hin as [Hin|Hin]; [discriminate Hin|]). exact Hin.
Qed.

End JsFacts.

(** ** Space identifier parsing *)

Module ParseFacts.
Import Js JsFacts GradioUtils.

(** The specification's words: exactly one slash, with non-empty text on
    both sides. *)
Definition wellFormedId (entry : string) : Prop :=
  exists owner space : string,
    entry = owner +:+ "/" +:+ space /\
    owner <> "" /\ space <> "" /\
    ~ In "/"%char (chars owner) /\ ~ In "/"%char (chars space).

Lemma countChar_occurrences c s :
  countChar c s = Z.of_nat (occurrences c (chars s)).
Proof. reflexivity. Qed.

Lemma isValidFormat_wellFormed entry :
  isValidFormat entry = true <-> wellFormedId entry.
Proof.
  unfold isValidFormat, wellFormedId, indexOf.
  rewrite countChar_occurrences. split.
  - intros H. apply andb_prop in H as [H Hlt]. apply andb_prop in H as [Hc Hgt].
    apply Z.eqb_eq in Hc. apply Z.gtb_lt in Hgt. apply Z.ltb_lt in Hlt.
    destruct (indexOfChars_found "/" (chars entry) _ eq_refl)
      as (l1 & l2 & He & Hnin & Hi); [lia|].
    rewrite Hi in Hgt, Hlt.
    rewrite He, occurrences_app in Hc. simpl in Hc.
    assert (H1 : occurrences "/" l1 = 0%nat) by now apply occurrences_zero.
    unfold occurrences in Hc at 2. simpl in Hc.
    fold (occurrences "/" l2) in Hc.
    assert (H2 : occurrences "/" l2 = 0%nat) by lia.
    apply occurrences_zero in H2.
    exists (str l1), (str l2). rewrite !chars_str. repeat split; try assumption.
    + apply chars_inj. rewrite !chars_app, !chars_str. exact He.
    + intros E. apply chars_nil_iff in E. rewrite chars_str in E. subst l1.
      simpl in Hgt. lia.
    + intros E. apply chars_nil_iff in E. rewrite chars_str in E. subst l2.
      unfold len in Hlt. rewrite <- length_chars, He, length_app in Hlt.
      simpl in Hlt. lia.
  - intros (o & sp & -> & Ho & Hs & Hno & Hns).
    rewrite !chars_app. simpl. change (chars "/") with ["/"%char]. simpl.
    rewrite indexOfChars_app by assumption.
    rewrite occurrences_app.
    assert (H1 : occurrences "/" (chars o) = 0%nat) by now apply occurrences_zero.
    assert (H2 : occurrences "/" (chars sp) = 0%nat) by now apply occurrences_zero.
    unfold occurrences at 2. simpl. fold (occurrences "/" (chars sp)).
    rewrite H1, H2.
    assert (Hlo : (0 < List.length (chars o))%nat).
    { destruct (chars o) eqn:E; [|simpl; lia].
      apply chars_nil_iff in E. contradiction. }
    assert (Hls : (0 < List.length (chars sp))%nat).
    { destruct (chars sp) eqn:E; [|simpl; lia].
      apply chars_nil_iff in E. contradiction. }
    unfold len. rewrite <- length_chars, !chars_app, !length_app.
    cbn [List.length chars list_ascii_of_string Nat.add].
    rewrite !andb_true_iff, Z.eqb_eq, Z.ltb_lt.
    split; [split|]; [lia | apply Z.gtb_lt; lia | lia].
Qed.

Lemma isValidFormat_empty : isValidFormat "" = false.
Proof. reflexivity. Qed.

Lemma keepEntry_isValidFormat entry : keepEntry entry = isValidFormat entry.
Proof.
  unfold keepEntry. destruct (String.eqb_spec (toLowerCase entry) "none") as [E|]; [|reflexivity].
  apply lower_none_no_slash in E. apply occurrences_zero in E.
  unfold isValidFormat. rewrite countChar_occurrences, E. reflexivity.
Qed.

Lemma filter_keep_nonempty (l : list string) :
  List.filter keepEntry (List.filter (fun s => len s >? 0) l)
  = List.filter isValidFormat l.
Proof.
  induction l as [|e t IH]; simpl; [reflexivity|].
  destruct (Z.gtb_spec (len e) 0) as [Hpos|Hz]; simpl.
  - rewrite keepEntry_isValidFormat, IH. reflexivity.
  - assert (e = "") as ->.
    { destruct e; [reflexivity|]. unfold len in Hz. simpl in Hz. lia. }
    rewrite isValidFormat_empty. exact IH.
Qed.

(** C8.  [parseGradioSpaceIds] sends the sentinel [none] (any case,
    surrounding white space ignored) to the empty list; on every other
    input it returns, in their order of appearance, exactly those
    comma-separated, trimmed entries that consist of one slash with
    non-empty text on both sides, and skips all the others. *)
Theorem parseGradioSpaceIds_spec (gradioParam : string) :
  (toLowerCase (trim gradioParam) = "none" ->
     parseGradioSpaceIds gradioParam = []) /\
  (toLowerCase (trim gradioParam) <> "none" ->
     map name (parseGradioSpaceIds gradioParam)
     = List.filter isValidFormat (map trim (split "," gradioParam))) /\
  (forall entry, isValidFormat entry = true <-> wellFormedId entry).
Proof.
  split; [|split].
  - intros H. unfold parseGradioSpaceIds.
    now destruct (String.eqb_spec (toLowerCase (trim gradioParam)) "none").
  - intros H. unfold parseGradioSpaceIds.
    destruct (String.eqb_spec (toLowerCase (trim gradioParam)) "none"); [contradiction|].
    rewrite filter_keep_nonempty, map_map. simpl. apply map_id.
  - apply isValidFormat_wellFormed.
Qed.

Lemma parseGradioSpaceIds_witness :
  parseGradioSpaceIds " None " = [] /\
  map name (parseGradioSpaceIds "acme/foo, bad ,a/b/c,/x,evalstate/flux1_schnell")
  = ["acme/foo"; "evalstate/flux1_schnell"].
Proof.
  split.
  - apply (parseGradioSpaceIds_spec " None "). vm_compute. reflexivity.
  - rewrite (proj1 (proj2 (parseGradioSpaceIds_spec
                             "acme/foo, bad ,a/b/c,/x,evalstate/flux1_schnell"))).
    + vm_compute. reflexivity.
    + vm_compute. discriminate.
Defined.

End ParseFacts.

(** ** Outward tool names *)

Module NameFacts.
Import Js JsFacts GradioUtils.

Lemma length_digitsN (k fuel : nat) (n : N) (acc : list ascii) :
  (1 <= k)%nat -> (n < 10 ^ N.of_nat k)%N ->
  (List.length (digitsN fuel n acc) <= List.length acc + k)%nat.
Proof.
  revert k n acc. induction fuel as [|f IH]; intros k n acc Hk Hn; simpl; [lia|].
  destruct (N.ltb_spec n 10) as [Hlt|Hge]; simpl; [lia|].
  destruct k as [|k]; [lia|].
  destruct k as [|k].
  - change (10 ^ N.of_nat 1)%N with 10%N in Hn. lia.
  - specialize (IH (S k) (n / 10)%N (ascii_of_N (48 + n mod 10) :: acc)).
    simpl in IH. etransitivity; [apply IH|]; [lia| |lia].
    apply N.Div0.div_lt_upper_bound.
    replace (N.of_nat (S (S k))) with (N.succ (N.of_nat (S k))) in Hn by lia.
    rewrite N.pow_succ_r' in Hn. exact Hn.
Qed.

Lemma len_toString_nonneg (k : nat) (n : Z) :
  (1 <= k)%nat -> 0 <= n < 10 ^ Z.of_nat k -> len (toString n) <= Z.of_nat k.
Proof.
  intros Hk [H0 Hn]. destruct n as [|q|q]; [|clear H0|lia].
  - unfold len. simpl. lia.
  - unfold toString, N_toString. rewrite len_str.
    pose proof (length_digitsN k (S (N.to_nat (N.log2 (N.pos q)))) (N.pos q) [] Hk) as H.
    simpl List.length in H. apply Nat2Z.inj_le. apply H.
    apply N2Z.inj_lt. rewrite N2Z.inj_pow. simpl Z.of_N at 1.
    rewrite nat_N_Z. exact Hn.
Qed.

Lemma len_substring0 s n :
  0 <= n <= len s -> len (substring0 s n) = n.
Proof.
  intros [H0 Hn]. unfold substring0. rewrite len_str, length_firstn.
  unfold len in Hn. rewrite <- length_chars in Hn. lia.
Qed.

Lemma sliceFrom_tail s k :
  0 < k <= len s ->
  chars (sliceFrom s (- k))
  = skipn (Z.to_nat (len s - k)) (chars s).
Proof.
  intros [Hk Hle]. unfold sliceFrom, sliceList, relIndex. rewrite chars_str.
  unfold len in *. rewrite length_chars.
  destruct (Z.ltb_spec (- k) 0) as [_|]; [|lia].
  destruct (Z.ltb_spec (Z.of_nat (String.length s)) 0) as [|_]; [lia|].
  rewrite Z.min_id, Z.max_l by lia.
  apply firstn_all2. rewrite length_skipn, length_chars. lia.
Qed.

Lemma len_sliceFrom s k :
  0 < k <= len s -> len (sliceFrom s (- k)) = k.
Proof.
  intros H. pose proof (sliceFrom_tail s k H) as E.
  unfold len at 1. rewrite <- length_chars, E, length_skipn, length_chars.
  unfold len in *. lia.
Qed.

(** The tail kept by the truncation really is the end of the name. *)
Lemma sliceFrom_suffix s k :
  0 < k <= len s ->
  exists front, s = front +:+ sliceFrom s (- k).
Proof.
  intros H. exists (str (firstn (Z.to_nat (len s - k)) (chars s))).
  apply chars_inj. rewrite chars_app, chars_str, sliceFrom_tail by exact H.
  symmetry. apply firstn_skipn.
Qed.

Definition prefixOf (isPrivate : option bool) : string :=
  if default false isPrivate then GRADIO_PRIVATE_PREFIX else GRADIO_PREFIX.

Definition digitsOf (toolIndex : option Z) : Z :=
  match toolIndex with
  | Some ti => len (toString ti)
  | None => 0
  end.

(** The room left for the sanitized name: [maxNameLength]. *)
Definition budget (index : Z) (isPrivate : option bool) : Z :=
  49 - len (prefixOf isPrivate) - len (toString (index + 1)) - 1.

Lemma len_prefixOf isPrivate : 2 <= len (prefixOf isPrivate) <= 3.
Proof. destruct isPrivate as [[]|]; vm_compute; split; congruence. Qed.

(** Every name starts with the prefix, the 1-based index and an
    underscore, whatever the arguments. *)
Lemma createGradioToolName_head toolName index isPrivate toolIndex :
  exists rest,
    createGradioToolName toolName index isPrivate toolIndex
    = prefixOf isPrivate +:+ toString (index + 1) +:+ "_" +:+ rest.
Proof. unfold createGradioToolName, prefixOf. eexists. reflexivity. Qed.

(** A name within the budget is kept whole. *)
Lemma createGradioToolName_short toolName index isPrivate toolIndex :
  len (sanitize toolName) <= budget index isPrivate ->
  createGradioToolName toolName index isPrivate toolIndex
  = prefixOf isPrivate +:+ toString (index + 1) +:+ "_" +:+ sanitize toolName.
Proof.
  intros H. unfold createGradioToolName, budget, prefixOf in *.
  destruct (Z.gtb_spec (len (sanitize toolName))
    (49 - len (if default false isPrivate then GRADIO_PRIVATE_PREFIX else GRADIO_PREFIX)
        - len (toString (index + 1)) - 1)); [lia | reflexivity].
Qed.

(** A name over the budget is cut in the middle: the optional tool index,
    the first 20 characters, an underscore and the last characters of the
    name, as many as fit.  This needs room for a tail of at least one
    character, which the decimal lengths of the two indices decide. *)
Lemma createGradioToolName_long toolName index isPrivate toolIndex :
  len (toString (index + 1)) + digitsOf toolIndex <= 22 ->
  budget index isPrivate < len (sanitize toolName) ->
  exists front tail,
    sanitize toolName = front +:+ tail /\
    0 < len tail /\
    createGradioToolName toolName index isPrivate toolIndex
    = prefixOf isPrivate +:+ toString (index + 1) +:+ "_"
      +:+ match toolIndex with
          | Some ti => toString ti +:+ "_"
          | None => ""
          end
      +:+ substring0 (sanitize toolName) 20 +:+ "_" +:+ tail /\
    len (createGradioToolName toolName index isPrivate toolIndex) = 49.
Proof.
  intros Hd Hlong. unfold budget in Hlong.
  pose proof (len_prefixOf isPrivate) as Hp.
  pose proof (len_nonneg (toString (index + 1))) as Hd0.
  unfold createGradioToolName. fold (prefixOf isPrivate).
  set (san := sanitize toolName) in *.
  set (P := prefixOf isPrivate) in *.
  set (D := toString (index + 1)) in *.
  destruct (Z.gtb_spec (len san) (49 - len P - len D - 1)) as [_|]; [|lia].
  destruct toolIndex as [ti|]; simpl in Hd.
  - pose proof (len_nonneg (toString ti)) as Ht0.
    set (T := toString ti) in *.
    assert (HlenT : len (T +:+ "_") = len T + 1) by (rewrite len_app; reflexivity).
    rewrite HlenT.
    set (k := 49 - len P - len D - 1 - (len T + 1) - 20 - 1).
    assert (Hk : 0 < k <= len san) by (unfold k; lia).
    destruct (sliceFrom_suffix san k Hk) as [front Hfront].
    exists front, (sliceFrom san (- k)). split; [exact Hfront|].
    split; [rewrite len_sliceFrom by exact Hk; lia|]. split.
    + rewrite !append_assoc. reflexivity.
    + rewrite !len_app, len_sliceFrom, len_substring0 by lia.
      change (len "_") with 1. unfold k. lia.
  - set (k := 49 - len P - len D - 1 - 20 - 1).
    assert (Hk : 0 < k <= len san) by (unfold k; lia).
    destruct (sliceFrom_suffix san k Hk) as [front Hfront].
    exists front, (sliceFrom san (- k)). split; [exact Hfront|].
    split; [rewrite len_sliceFrom by exact Hk; lia|]. split.
    + reflexivity.
    + rewrite !len_app, len_sliceFrom, len_substring0 by lia.
      change (len "_") with 1. unfold k. lia.
Qed.

(** With room for a tail, no generated name exceeds 49 characters. *)
Lemma createGradioToolName_length toolName index isPrivate toolIndex :
  len (toString (index + 1)) + digitsOf toolIndex <= 22 ->
  len (createGradioToolName toolName index isPrivate toolIndex) <= 49.
Proof.
  intros Hd.
  destruct (Z.le_gt_cases (len (sanitize toolName)) (budget index isPrivate)) as [Hs|Hl].
  - rewrite createGradioToolName_short by exact Hs.
    rewrite !len_app. change (len "_") with 1. unfold budget in Hs. lia.
  - destruct (createGradioToolName_long toolName index isPrivate toolIndex Hd Hl)
      as (? & ? & _ & _ & _ & ->). lia.
Qed.

(** Positions in a JavaScript array are below 2^32; for such indices the
    bound holds. *)
Lemma createGradioToolName_array_indices toolName index isPrivate toolIndex :
  0 <= index < 2 ^ 32 - 1 ->
  (forall ti, toolIndex = Some ti -> 0 <= ti < 2 ^ 32) ->
  len (createGradioToolName toolName index isPrivate toolIndex) <= 49.
Proof.
  intros Hi Ht. apply createGradioToolName_length.
  assert (len (toString (index + 1)) <= 10).
  { apply (len_toString_nonneg 10); [lia|]. simpl. lia. }
  destruct toolIndex as [ti|]; simpl; [|lia].
  assert (len (toString ti) <= 10).
  { apply (len_toString_nonneg 10); [lia|]. specialize (Ht ti eq_refl). simpl. lia. }
  lia.
Qed.

(** The decimal digits of array positions leave room for a tail. *)
Lemma array_positions_room index toolIndex :
  0 <= index < 2 ^ 32 - 1 ->
  (forall ti, toolIndex = Some ti -> 0 <= ti < 2 ^ 32) ->
  len (toString (index + 1)) + digitsOf toolIndex <= 22.
Proof.
  intros Hi Ht.
  assert (len (toString (index + 1)) <= 10).
  { apply (len_toString_nonneg 10); [lia|]. simpl. lia. }
  destruct toolIndex as [ti|]; simpl; [|lia].
  assert (len (toString ti) <= 10).
  { apply (len_toString_nonneg 10); [lia|]. specialize (Ht ti eq_refl). simpl. lia. }
  lia.
Qed.

(** C9.  Generated outward tool names.  The space index is the position of
    a space in the array of spaces and the tool index the position of a tool
    in the array of a space's tools: integers from 0 and below 2^32.  For
    every tool name, privacy flag, space index and optional tool index the
    generated name has at most 49 characters; it is [gr] for a public and
    [grp] for a private space, then the space index counted from 1, then an
    underscore, and then the sanitized tool name: whole when it is within
    the budget that is left, and otherwise cut in the middle, to the tool
    index and an underscore (when a tool index is given), the first 20
    characters, an underscore, and a tail, which is a non-empty end of the
    sanitized name. *)
Theorem generated_tool_names toolName index isPrivate toolIndex :
  0 <= index < 2 ^ 32 - 1 ->
  (forall ti, toolIndex = Some ti -> 0 <= ti < 2 ^ 32) ->
  let name := createGradioToolName toolName index isPrivate toolIndex in
  let sanitized := sanitize toolName in
  let prefix := if default false isPrivate then "grp" else "gr" in
  let remaining := 49 - len prefix - len (toString (index + 1)) - 1 in
  len name <= 49 /\
  exists rest,
    name = prefix +:+ toString (index + 1) +:+ "_" +:+ rest /\
    (len sanitized <= remaining -> rest = sanitized) /\
    (remaining < len sanitized ->
     exists front tail,
       sanitized = front +:+ tail /\ 0 < len tail /\
       len (substring0 sanitized 20) = 20 /\
       rest = match toolIndex with
              | Some ti => toString ti +:+ "_"
              | None => ""
              end
              +:+ substring0 sanitized 20 +:+ "_" +:+ tail).
Proof.
  intros Hi Ht name sanitized prefix remaining.
  pose proof (array_positions_room index toolIndex Hi Ht) as Hroom.
  split; [now apply createGradioToolName_length|].
  change prefix with (prefixOf isPrivate) in *.
  change remaining with (budget index isPrivate) in *.
  destruct (Z.le_gt_cases (len sanitized) (budget index isPrivate)) as [Hshort|Hlong].
  - exists sanitized. split; [now apply createGradioToolName_short|].
    split; [reflexivity | lia].
  - destruct (createGradioToolName_long toolName index isPrivate toolIndex Hroom Hlong)
      as (front & tail & Hsan & Htail & Hname & _).
    eexists. split; [exact Hname|]. split; [lia|]. intros _.
    exists front, tail. split; [exact Hsan|]. split; [exact Htail|].
    split; [|reflexivity].
    apply len_substring0. pose proof (len_prefixOf isPrivate) as Hp.
    assert (len (toString (index + 1)) <= 10).
    { apply (len_toString_nonneg 10); [lia|]. simpl. lia. }
    unfold budget in Hlong. fold sanitized. lia.
Qed.

Lemma generated_tool_names_witness :
  len (createGradioToolName "text to image generation with a very long tool name"
         0 (Some true) (Some 3)) <= 49.
Proof.
  apply (generated_tool_names "text to image generation with a very long tool name"
           0 (Some true) (Some 3)).
  - lia.
  - intros ti [= <-]. lia.
Defined.

(** Indices that are no array positions can break the bound.  With a
    twelve-digit space index and a twelve-digit tool index nothing is left
    for the tail: [keepFromEnd] is 0, [slice(-0)] is [slice(0)], the whole
    name, and the result has 89 characters. *)
Lemma createGradioToolName_overlong :
  let toolName := "abcdefghijklmnopqrstuvwxyzabcdefghijklmn" in
  createGradioToolName toolName 99999999999 (Some false) (Some 100000000000)
  = "gr100000000000_100000000000_abcdefghijklmnopqrst_" +:+ toolName
  /\ len (createGradioToolName toolName 99999999999 (Some false) (Some 100000000000)) = 89.
Proof. vm_compute. split; reflexivity. Qed.

End NameFacts.

(** ** The image filter *)

Module FilterFacts.
Import Json ResultProcessor.

(** The [type] of a content block, when it is an object that has one. *)
Definition blockType (item : JValue) : option string :=
  match item with
  | JObj fields =>
      match getField "type" fields with
      | Some (JStr t) => Some t
      | _ => None
      end
  | _ => None
  end.



Lemma filter_length_eq {A} (p : A -> bool) (l : list A) :
  List.length (List.filter p l) = List.length l -> List.filter p l = l.
Proof.
  induction l as [|x t IH]; simpl; [reflexivity|].
  destruct (p x); simpl; intros H.
  - f_equal. apply IH. lia.
  - pose proof (List.filter_length_le p t). lia.
Qed.





Lemma strip_disabled callResult options :
  enabled options = false ->
  stripImageContentFromResult callResult options = callResult.
Proof. intros He. unfold stripImageContentFromResult. now rewrite He. Qed.


Definition filterOn : ImageFilterOptions :=
  {| enabled := true; toolName := "test-tool"; outwardFacingName := "gr1_test" |}.





End FilterFacts.

(** ** Tool selection *)

Module SelectionFacts.
Import Js Settings ToolSelection.

(** *** [[...new Set(l)]] *)

Lemma existsb_eqb_In (x : string) (l : list string) :
  existsb (String.eqb x) l = true <-> In x l.
Proof.
  rewrite existsb_exists. split.
  - intros (y & Hy & E). apply String.eqb_eq in E. now subst.
  - intros H. exists x. split; [exact H | apply String.eqb_refl].
Qed.

Lemma dedupAcc_ext (seen seen' l : list string) :
  (forall x, In x seen <-> In x seen') -> dedupAcc seen l = dedupAcc seen' l.
Proof.
  revert seen seen'. induction l as [|x t IH]; intros seen seen' H; simpl; [reflexivity|].
  assert (E : existsb (String.eqb x) seen = existsb (String.eqb x) seen').
  { apply eq_true_iff_eq. rewrite !existsb_eqb_In. apply H. }
  rewrite E. destruct (existsb (String.eqb x) seen').
  - now apply IH.
  - f_equal. apply IH. intros y. simpl. rewrite H. reflexivity.
Qed.

Lemma In_dedupAcc (seen l : list string) (x : string) :
  In x (dedupAcc seen l) <-> In x l /\ ~ In x seen.
Proof.
  revert seen. induction l as [|y t IH]; intros seen; simpl; [tauto|].
  destruct (existsb (String.eqb y) seen) eqn:E.
  - apply existsb_eqb_In in E. rewrite IH. split.
    + tauto.
    + intros [[->|Hin] Hn]; tauto.
  - assert (Hy : ~ In y seen).
    { intros Hin. apply existsb_eqb_In in Hin. congruence. }
    simpl. rewrite IH. simpl. split.
    + intros [->|[Hin Hn]]; [tauto|]. split; [tauto|]. intros Hs. apply Hn. now right.
    + intros [[->|Hin] Hn]; [now left|].
      destruct (String.eqb_spec y x) as [->|Hne]; [now left|].
      right. split; [exact Hin|]. intros [E'|Hs]; [congruence | tauto].
Qed.

Lemma NoDup_dedupAcc (seen l : list string) : List.NoDup (dedupAcc seen l).
Proof.
  revert seen. induction l as [|y t IH]; intros seen; simpl; [constructor|].
  destruct (existsb (String.eqb y) seen); [apply IH|].
  constructor; [|apply IH].
  rewrite In_dedupAcc. simpl. tauto.
Qed.

Lemma filter_twice {A} (p q : A -> bool) (l : list A) :
  List.filter p (List.filter q l) = List.filter (fun x => q x && p x) l.
Proof.
  induction l as [|x t IH]; simpl; [reflexivity|].
  destruct (q x); simpl; [destruct (p x)|]; now rewrite IH.
Qed.

Lemma dedupAcc_filter (seen l : list string) :
  dedupAcc seen l = List.filter (fun x => negb (arrIncludes seen x)) (dedupAcc [] l).
Proof.
  revert seen. induction l as [|y t IH]; intros seen; simpl; [reflexivity|].
  unfold arrIncludes at 1.
  rewrite (IH [y]), filter_twice.
  destruct (existsb (String.eqb y) seen) eqn:E; simpl.
  - rewrite (IH seen). apply List.filter_ext. intros x.
    unfold arrIncludes. simpl. rewrite orb_false_r.
    destruct (String.eqb_spec x y) as [->|]; [|reflexivity].
    now rewrite E.
  - f_equal. rewrite (IH (y :: seen)). apply List.filter_ext. intros x.
    unfold arrIncludes. simpl. rewrite orb_false_r.
    now destruct (String.eqb x y), (existsb (String.eqb x) seen).
Qed.

Lemma dedupAcc_app (seen l1 l2 : list string) :
  dedupAcc seen (l1 ++ l2) = dedupAcc seen l1 ++ dedupAcc (l1 ++ seen) l2.
Proof.
  revert seen. induction l1 as [|y t IH]; intros seen; simpl; [reflexivity|].
  destruct (existsb (String.eqb y) seen) eqn:E.
  - rewrite IH. f_equal. apply dedupAcc_ext. intros x. rewrite !in_app_iff. simpl.
    rewrite in_app_iff. apply existsb_eqb_In in E.
    split; [tauto|]. intros [<-|H]; tauto.
  - simpl. f_equal. rewrite IH. f_equal. apply dedupAcc_ext. intros x.
    rewrite !in_app_iff. simpl. rewrite in_app_iff. tauto.
Qed.

(** Deduplication keeps exactly the elements of the list, once each, and
    in a concatenation the first list comes first: what the second list adds
    follows, in its own order. *)
Lemma dedup_spec (u q : list string) :
  List.NoDup (dedup (u ++ q)) /\
  (forall x, In x (dedup (u ++ q)) <-> In x u \/ In x q) /\
  dedup (u ++ q) = dedup u ++ List.filter (fun x => negb (arrIncludes u x)) (dedup q).
Proof.
  unfold dedup. split; [apply NoDup_dedupAcc|]. split.
  - intros x. rewrite In_dedupAcc, in_app_iff. simpl. tauto.
  - rewrite dedupAcc_app, app_nil_r. f_equal. apply dedupAcc_filter.
Qed.

(** *** Precedence *)

Lemma lookupPreset_empty ids : lookupPreset "" (BOUQUETS ids) = None.
Proof. reflexivity. Qed.

Lemma knownPreset_Some S key p :
  lookupPreset key (BOUQUETS (ids S)) = Some p ->
  knownPreset S (Some key) = Some (key, p).
Proof.
  intros H. unfold knownPreset, truthyStr. rewrite H.
  destruct (String.eqb_spec key "") as [->|_]; [|reflexivity].
  rewrite lookupPreset_empty in H. discriminate.
Qed.

Lemma applySearchEnablesFetch_off S tools :
  SEARCH_ENABLES_FETCH S <> Some "true" -> applySearchEnablesFetch S tools = tools.
Proof.
  intros H. unfold applySearchEnablesFetch. now rewrite bool_decide_eq_false_2.
Qed.

(** Modelled from the spec: [extractAuthBouquetAndMix] of
    [utils/auth-utils.ts], which is not among the sources.  The
    specification lists the recognised request headers: [x-mcp-bouquet] is
    the preset override, [x-mcp-mix] the preset mix and [x-mcp-gradio] the
    list of spaces. *)
Definition headerLookup (h : option Headers) : Extracted :=
  let get k := match h with
               | Some l => snd <$> List.find (fun kv => String.eqb (fst kv) k) l
               | None => None
               end in
  {| bouquet := get "x-mcp-bouquet"; mix := get "x-mcp-mix"; gradio := get "x-mcp-gradio" |}.

(** One value of the identifiers that the sources import from elsewhere,
    small on purpose.  As the test suite of the strategy presupposes, the
    search group has the documentation search and not the documentation
    fetch tool. *)
Definition sampleIds : ToolIds :=
  {| ALL_BUILTIN_TOOL_IDS :=
       ["space_search"; "model_search"; "hf_doc_search"; "hf_doc_fetch";
        "hub_repo_details"; "use_space"; "hf_jobs"; "dynamic_space"];
     TOOL_ID_GROUPS_hf_api := ["space_search"; "model_search"; "hub_repo_details"];
     TOOL_ID_GROUPS_spaces := ["space_search"];
     TOOL_ID_GROUPS_search := ["space_search"; "model_search"; "hf_doc_search"];
     TOOL_ID_GROUPS_docs := ["hf_doc_search"; "hf_doc_fetch"];
     HUB_INSPECT_TOOL_ID := "hub_repo_details";
     USE_SPACE_TOOL_ID := "use_space";
     HF_JOBS_TOOL_ID := "hf_jobs";
     DYNAMIC_SPACE_TOOL_ID := "dynamic_space";
     SPACE_SEARCH_TOOL_ID := "space_search";
     README_INCLUDE_FLAG := "ALLOW_README_INCLUDE";
     GRADIO_IMAGE_FILTER_FLAG := "NO_GRADIO_IMAGE_CONTENT" |}.

Definition noApi : McpApiClient :=
  {| getToolStates := fun _ => StatesResolved None;
     getGradioEndpoints := [];
     externalApiMode := Some false |}.

(** A server like the one of the test suite, with a normalizer that leaves
    every list as it is; [searchEnablesFetch] is the value of the
    [SEARCH_ENABLES_FETCH] variable. *)
Definition sampleServer (searchEnablesFetch : option string) : Surroundings :=
  {| ids := sampleIds;
     normalizeBuiltInTools := fun tools => tools;
     extractAuthBouquetAndMix := headerLookup;
     SEARCH_ENABLES_FETCH := searchEnablesFetch;
     NODE_ENV := Some "test";
     VITEST := None;
     apiClient := noApi |}.

Definition searchBouquetRequest : ToolSelectionContext :=
  {| headers := Some [("x-mcp-bouquet", "search")];
     userSettings := None;
     hfToken := Some "test-token" |}.

(** C2, as worded, fails when [SEARCH_ENABLES_FETCH] is [true]: the search
    preset is selected, and the tools returned are the preset's followed by
    [hf_doc_fetch], not the preset's tools verbatim. *)
Lemma bouquet_not_verbatim :
  let S := sampleServer (Some "true") in
  lookupPreset "search" (BOUQUETS (ids S)) = Some (preset (TOOL_ID_GROUPS_search sampleIds)) /\
  mode (selectTools S searchBouquetRequest) = BOUQUET_OVERRIDE /\
  enabledToolIds (selectTools S searchBouquetRequest)
    = TOOL_ID_GROUPS_search sampleIds ++ ["hf_doc_fetch"] /\
  enabledToolIds (selectTools S searchBouquetRequest) <> TOOL_ID_GROUPS_search sampleIds.
Proof. vm_compute. repeat split; discriminate. Qed.

(** C2, amended.  When the bouquet header names a known preset,
    [selectTools] answers in mode [BOUQUET_OVERRIDE]; the enabled tools are
    the preset's tools after the [SEARCH_ENABLES_FETCH] expansion and the
    normalization of identifiers, whatever the user settings and the token
    are; they are the preset's tools verbatim when the expansion is off and
    the normalizer leaves the preset as it is. *)
Theorem bouquet_override S context b p :
  bouquet (extractAuthBouquetAndMix S (headers context)) = Some b ->
  lookupPreset b (BOUQUETS (ids S)) = Some p ->
  mode (selectTools S context) = BOUQUET_OVERRIDE /\
  enabledToolIds (selectTools S context)
    = normalizeBuiltInTools S (applySearchEnablesFetch S (builtInTools p)) /\
  (forall settings token,
      selectTools S {| headers := headers context; userSettings := settings; hfToken := token |}
      = selectTools S context) /\
  (SEARCH_ENABLES_FETCH S <> Some "true" ->
   normalizeBuiltInTools S (builtInTools p) = builtInTools p ->
   enabledToolIds (selectTools S context) = builtInTools p).
Proof.
  intros Hb Hp. pose proof (knownPreset_Some S b p Hp) as Hk.
  unfold selectTools. simpl. rewrite Hb, Hk. simpl.
  repeat split.
  intros Hoff Hid. now rewrite applySearchEnablesFetch_off.
Qed.

Lemma bouquet_override_witness :
  enabledToolIds (selectTools (sampleServer None) searchBouquetRequest)
  = TOOL_ID_GROUPS_search sampleIds.
Proof.
  refine (proj2 (proj2 (proj2
    (bouquet_override (sampleServer None) searchBouquetRequest "search"
       (preset (TOOL_ID_GROUPS_search sampleIds)) eq_refl eq_refl))) _ eq_refl).
  discriminate.
Defined.

Definition bothHeadersRequest : ToolSelectionContext :=
  {| headers := Some [("x-mcp-bouquet", "search"); ("x-mcp-mix", "hf_api")];
     userSettings := Some {| builtInTools := ["hf_whoami"]; spaceTools := [] |};
     hfToken := Some "test-token" |}.

(** C3, as worded, fails when the headers also name a bouquet: the mix
    header names a known preset and user settings are there, yet the bouquet
    wins and the user's tool is not in the answer. *)
Lemma mix_overridden_by_bouquet :
  let S := sampleServer None in
  mix (extractAuthBouquetAndMix S (headers bothHeadersRequest)) = Some "hf_api" /\
  lookupPreset "hf_api" (BOUQUETS (ids S)) = Some (preset (TOOL_ID_GROUPS_hf_api sampleIds)) /\
  mode (selectTools S bothHeadersRequest) = BOUQUET_OVERRIDE /\
  enabledToolIds (selectTools S bothHeadersRequest) = TOOL_ID_GROUPS_search sampleIds /\
  enabledToolIds (selectTools S bothHeadersRequest)
    <> dedup (["hf_whoami"] ++ TOOL_ID_GROUPS_hf_api sampleIds).
Proof. vm_compute. repeat split; discriminate. Qed.

(** C3, amended.  When the bouquet value, if any, names no preset and is
    not a name that every object inherits, the mix header names a known
    preset and user settings [U] are available, [selectTools] answers in mode
    [MIX]; the enabled tools are the deduplicated concatenation of [U]'s
    tools and the preset's, the user's first, after the
    [SEARCH_ENABLES_FETCH] expansion and the normalization of identifiers
    (so exactly that list when the expansion is off and the normalizer
    leaves it as it is). *)
Theorem mix_additive S context m p U :
  inherited (bouquet (extractAuthBouquetAndMix S (headers context))) = false ->
  knownPreset S (bouquet (extractAuthBouquetAndMix S (headers context))) = None ->
  mix (extractAuthBouquetAndMix S (headers context)) = Some m ->
  lookupPreset m (BOUQUETS (ids S)) = Some p ->
  getUserSettings S context = Some U ->
  let mixed := dedup (builtInTools U ++ builtInTools p) in
  mode (selectTools S context) = MIX /\
  enabledToolIds (selectTools S context)
    = normalizeBuiltInTools S (applySearchEnablesFetch S mixed) /\
  (SEARCH_ENABLES_FETCH S <> Some "true" ->
   normalizeBuiltInTools S mixed = mixed ->
   enabledToolIds (selectTools S context) = mixed) /\
  List.NoDup mixed /\
  (forall x, In x mixed <-> In x (builtInTools U) \/ In x (builtInTools p)) /\
  mixed = dedup (builtInTools U)
          ++ List.filter (fun x => negb (arrIncludes (builtInTools U) x))
               (dedup (builtInTools p)).
Proof.
  intros _ Hnb Hm Hp HU mixed. pose proof (knownPreset_Some S m p Hp) as Hk.
  unfold selectTools. simpl. rewrite Hnb, Hm, Hk, HU. simpl. fold mixed.
  split; [reflexivity|]. split; [reflexivity|]. split.
  - intros Hoff Hid. now rewrite applySearchEnablesFetch_off.
  - apply dedup_spec.
Qed.

Definition mixRequest : ToolSelectionContext :=
  {| headers := Some [("x-mcp-mix", "hf_api")];
     userSettings := Some {| builtInTools := ["hf_whoami"; "model_search"];
                             spaceTools := [] |};
     hfToken := Some "test-token" |}.

Lemma mix_additive_witness :
  enabledToolIds (selectTools (sampleServer None) mixRequest)
  = ["hf_whoami"; "model_search"; "space_search"; "hub_repo_details"].
Proof.
  refine (proj1 (proj2 (proj2
    (mix_additive (sampleServer None) mixRequest "hf_api"
       (preset (TOOL_ID_GROUPS_hf_api sampleIds))
       {| builtInTools := ["hf_whoami"; "model_search"]; spaceTools := [] |}
       eq_refl eq_refl eq_refl eq_refl eq_refl))) _ eq_refl).
  discriminate.
Defined.

End SelectionFacts.

(** ** Running effectful code *)

Module EffectFacts.
Import Effects.

(** The state a computation leaves and the way it ends. *)
Definition after {W A} (m : M W A) (w : W) : W := snd (m w).
Definition outcome {W A} (m : M W A) (w : W) : Outcome A := fst (m w).

(** [steps R m]: whatever state [m] starts in, it ends in a state related
    to it by [R], also when it throws. *)
Definition steps {W A} (R : W -> W -> Prop) (m : M W A) : Prop :=
  forall w, R w (after m w).

(** [returns m]: [m] always ends with a value. *)
Definition returns {W A} (m : M W A) : Prop :=
  forall w, exists a, outcome m w = Returned a.

Section Rules.
Context {W : Type} (R : W -> W -> Prop) `{!PreOrder R}.

Lemma steps_ret {A} (a : A) : steps R (ret a).
Proof. intros w. unfold after. simpl. reflexivity. Qed.

Lemma steps_throw {A} e : steps R (@throw W A e).
Proof. intros w. unfold after. simpl. reflexivity. Qed.

Lemma steps_diverge {A} : steps R (@diverge W A).
Proof. intros w. unfold after. simpl. reflexivity. Qed.

Lemma steps_gets {A} (f : W -> A) : steps R (gets f).
Proof. intros w. unfold after. simpl. reflexivity. Qed.

Lemma steps_settle {A} (r : Error + A) : steps R (settle r).
Proof. destruct r; [apply steps_throw | apply steps_ret]. Qed.

Lemma steps_bind {A B} (m : M W A) (f : A -> M W B) :
  steps R m -> (forall a, steps R (f a)) -> steps R (bind m f).
Proof.
  intros Hm Hf w. specialize (Hm w). unfold after, bind in *.
  destruct (m w) as [[a|e|] w']; simpl in *; [|exact Hm|exact Hm].
  etransitivity; [exact Hm | apply Hf].
Qed.

Lemma steps_tryCatch {A} (m : M W A) (h : Error -> M W A) :
  steps R m -> (forall e, steps R (h e)) -> steps R (tryCatch m h).
Proof.
  intros Hm Hh w. specialize (Hm w). unfold after, tryCatch in *.
  destruct (m w) as [[a|e|] w']; simpl in *; [exact Hm| |exact Hm].
  etransitivity; [exact Hm | apply Hh].
Qed.

Lemma steps_mapM {A B} (f : A -> M W B) (l : list A) :
  (forall a, steps R (f a)) -> steps R (mapM f l).
Proof.
  intros Hf. induction l as [|x t IH]; simpl; [apply steps_ret|].
  apply steps_bind; [apply Hf|]. intros y.
  apply steps_bind; [exact IH|]. intros ys. apply steps_ret.
Qed.

End Rules.

Lemma steps_weaken {W A} (R R' : W -> W -> Prop) (m : M W A) :
  (forall w w', R w w' -> R' w w') -> steps R m -> steps R' m.
Proof. intros H Hm w. apply H, Hm. Qed.

Lemma steps_modify {W} (R : W -> W -> Prop) (f : W -> W) :
  (forall w, R w (f w)) -> steps R (modify f).
Proof. intros H w. apply H. Qed.

Lemma returns_ret {W A} (a : A) : returns (@ret W A a).
Proof. intros w. now exists a. Qed.

Lemma returns_gets {W A} (f : W -> A) : returns (gets f).
Proof. intros w. now exists (f w). Qed.

Lemma returns_modify {W} (f : W -> W) : returns (modify f).
Proof. intros w. now exists tt. Qed.

Lemma returns_bind {W A B} (m : M W A) (f : A -> M W B) :
  returns m -> (forall a, returns (f a)) -> returns (bind m f).
Proof.
  intros Hm Hf w. destruct (Hm w) as [a Ha]. unfold outcome, bind in *.
  destruct (m w) as [r w']. simpl in Ha. subst r. apply Hf.
Qed.

(** A handler that returns turns a body that ends into a call that
    returns. *)
Lemma returns_tryCatch {W A} (m : M W A) (h : Error -> M W A) :
  (forall w, outcome m w <> Diverged) -> (forall e, returns (h e)) ->
  returns (tryCatch m h).
Proof.
  intros Hm Hh w. specialize (Hm w). unfold outcome, tryCatch in *.
  destruct (m w) as [[a|e|] w']; simpl in *.
  - now exists a.
  - apply Hh.
  - contradiction.
Qed.

Lemma returns_mapM {W A B} (f : A -> M W B) (l : list A) :
  (forall a, returns (f a)) -> returns (mapM f l).
Proof.
  intros Hf. induction l as [|x t IH]; simpl; [apply returns_ret|].
  apply returns_bind; [apply Hf|]. intros y.
  apply returns_bind; [exact IH|]. intros ys. apply returns_ret.
Qed.

(** Code without loops ends. *)
Definition ends {W A} (m : M W A) : Prop := forall w, outcome m w <> Diverged.

Lemma ends_ret {W A} (a : A) : ends (@ret W A a).
Proof. intros w. discriminate. Qed.

Lemma ends_throw {W A} e : ends (@throw W A e).
Proof. intros w. discriminate. Qed.

Lemma ends_settle {W A} (r : Error + A) : ends (@settle W A r).
Proof. destruct r; [apply ends_throw | apply ends_ret]. Qed.

Lemma ends_returns {W A} (m : M W A) : returns m -> ends m.
Proof. intros H w. destruct (H w) as [a Ha]. rewrite Ha. discriminate. Qed.

Lemma ends_bind {W A B} (m : M W A) (f : A -> M W B) :
  ends m -> (forall a, ends (f a)) -> ends (bind m f).
Proof.
  intros Hm Hf w. specialize (Hm w). unfold ends, outcome, bind in *.
  destruct (m w) as [[a|e|] w']; simpl in *; [apply Hf | discriminate | contradiction].
Qed.

(** *** Equations of [bind], at a state *)

Lemma bind_ret_l {W A B} (a : A) (f : A -> M W B) (w : W) : bind (ret a) f w = f a w.
Proof. reflexivity. Qed.

Lemma bind_assoc {W A B C} (m : M W A) (f : A -> M W B) (g : B -> M W C) (w : W) :
  bind (bind m f) g w = bind m (fun a => bind (f a) g) w.
Proof. unfold bind. now destruct (m w) as [[a|e|] w']. Qed.

Lemma bind_cong {W A B} (m : M W A) (f g : A -> M W B) (w : W) :
  (forall a w', f a w' = g a w') -> bind m f w = bind m g w.
Proof. intros H. unfold bind. destruct (m w) as [[a|e|] w']; [apply H | reflexivity | reflexivity]. Qed.

Lemma bind_cong_l {W A B} (m m' : M W A) (f : A -> M W B) (w : W) :
  m w = m' w -> bind m f w = bind m' f w.
Proof. intros H. unfold bind. now rewrite H. Qed.

(** *** An invariant and what is returned under it

    [triple I m Q]: started in a state where [I] holds, [m] ends in such a
    state, and what it returns, if it returns, satisfies [Q]. *)
Definition triple {W A} (I : W -> Prop) (m : M W A) (Q : A -> Prop) : Prop :=
  forall w, I w -> I (after m w) /\ forall a, outcome m w = Returned a -> Q a.

Lemma triple_ret {W A} (I : W -> Prop) (a : A) (Q : A -> Prop) :
  Q a -> triple I (ret a) Q.
Proof. intros H w Hi. split; [exact Hi|]. now intros a' [= <-]. Qed.

Lemma triple_weaken {W A} (I : W -> Prop) (m : M W A) (Q Q' : A -> Prop) :
  (forall a, Q a -> Q' a) -> triple I m Q -> triple I m Q'.
Proof. intros H Hm w Hi. destruct (Hm w Hi) as [H1 H2]. split; [exact H1 | auto]. Qed.

Lemma triple_bind {W A B} (I : W -> Prop) (m : M W A) (f : A -> M W B)
    (Q1 : A -> Prop) (Q2 : B -> Prop) :
  triple I m Q1 -> (forall a, Q1 a -> triple I (f a) Q2) -> triple I (bind m f) Q2.
Proof.
  intros Hm Hf w Hi. destruct (Hm w Hi) as [H1 H2].
  unfold after, outcome, bind in *.
  destruct (m w) as [[a|e|] w']; simpl in *.
  - apply (Hf a); [now apply H2 | exact H1].
  - split; [exact H1 | discriminate].
  - split; [exact H1 | discriminate].
Qed.

Lemma triple_mapM {W A B} (I : W -> Prop) (f : A -> M W B) (P : A -> B -> Prop)
    (l : list A) :
  (forall x, triple I (f x) (P x)) -> triple I (mapM f l) (List.Forall2 P l).
Proof.
  intros Hf. induction l as [|x t IH]; simpl.
  - apply triple_ret. constructor.
  - eapply triple_bind; [apply Hf|]. intros y Hy.
    eapply triple_bind; [exact IH|]. intros ys Hys.
    apply triple_ret. now constructor.
Qed.

End EffectFacts.

(** ** The caches *)

Module CacheFacts.
Import Effects EffectFacts Cache.

(** [sameEntries w w']: the two caches hold the same entries; counters, the
    clock and the request log may differ. *)
Definition sameEntries (w w' : World.t) : Prop :=
  metadataEntries w' = metadataEntries w /\ schemaEntries w' = schemaEntries w.

#[export] Instance sameEntries_preorder : PreOrder sameEntries.
Proof.
  split.
  - intros w. split; reflexivity.
  - intros a b c [H1 H2] [H3 H4]. split; congruence.
Qed.

Lemma Date_now_same O : steps sameEntries (Date_now O).
Proof. intros w. split; reflexivity. Qed.

Lemma Date_now_returns O : returns (Date_now O).
Proof. intros w. eexists. reflexivity. Qed.

(** A lookup changes no entry of either cache. *)
Lemma metadata_get_same cfg O spaceName : steps sameEntries (metadata_get cfg O spaceName).
Proof.
  intros w. unfold after, metadata_get, bind, gets. simpl.
  destruct (metadataEntries w !! spaceName) as [entry|]; simpl; [|split; reflexivity].
  destruct (_ <? _); simpl; split; reflexivity.
Qed.

Lemma schema_get_same cfg O spaceName : steps sameEntries (schema_get cfg O spaceName).
Proof.
  intros w. unfold after, schema_get, bind, gets. simpl.
  destruct (schemaEntries w !! spaceName) as [entry|]; simpl; [|split; reflexivity].
  destruct (_ <? _); simpl; split; reflexivity.
Qed.

(** What a lookup answers: the entry while its age, counted from
    [fetchedAt], is below the time to live. *)
Lemma metadata_get_outcome cfg O spaceName w :
  outcome (metadata_get cfg O spaceName) w
  = Returned
      (match metadataEntries w !! spaceName with
       | Some entry =>
           if Net.now O (World.clockReads w) - CachedSpaceMetadata.fetchedAt entry
              <? CacheConfig.SPACE_METADATA_TTL cfg
           then Some entry else None
       | None => None
       end).
Proof.
  unfold outcome, metadata_get, bind, gets. simpl.
  destruct (metadataEntries w !! spaceName) as [entry|]; simpl; [|reflexivity].
  destruct (_ <? _); reflexivity.
Qed.

Lemma schema_get_outcome cfg O spaceName w :
  outcome (schema_get cfg O spaceName) w
  = Returned
      (match schemaEntries w !! spaceName with
       | Some entry =>
           if Net.now O (World.clockReads w) - CachedSchema.fetchedAt entry
              <? CacheConfig.SCHEMA_TTL cfg
           then Some entry else None
       | None => None
       end).
Proof.
  unfold outcome, schema_get, bind, gets. simpl.
  destruct (schemaEntries w !! spaceName) as [entry|]; simpl; [|reflexivity].
  destruct (_ <? _); reflexivity.
Qed.

(** *** Running the primitives *)

Lemma bind_run {W A B} (m : M W A) (f : A -> M W B) w a w' :
  m w = (Returned a, w') -> bind m f w = f a w'.
Proof. intros H. unfold bind. now rewrite H. Qed.

Lemma bind_thrown {W A B} (m : M W A) (f : A -> M W B) w e w' :
  m w = (Thrown e, w') -> bind m f w = (Thrown e, w').
Proof. intros H. unfold bind. now rewrite H. Qed.

Lemma tryCatch_returned {W A} (m : M W A) (h : Error -> M W A) w a w' :
  m w = (Returned a, w') -> tryCatch m h w = (Returned a, w').
Proof. intros H. unfold tryCatch. now rewrite H. Qed.

Lemma tryCatch_thrown {W A} (m : M W A) (h : Error -> M W A) w e w' :
  m w = (Thrown e, w') -> tryCatch m h w = h e w'.
Proof. intros H. unfold tryCatch. now rewrite H. Qed.

Lemma run_eq {W A} (m : M W A) w : m w = (outcome m w, after m w).
Proof. unfold outcome, after. now destruct (m w). Qed.

Lemma bind_inv {W A B} (m : M W A) (f : A -> M W B) w b w' :
  bind m f w = (Returned b, w') ->
  exists a w1, m w = (Returned a, w1) /\ f a w1 = (Returned b, w').
Proof.
  unfold bind. destruct (m w) as [[a|e|] w1]; intros H; [|discriminate|discriminate].
  now exists a, w1.
Qed.

Lemma tryCatch_inv {W A} (m : M W A) (h : Error -> M W A) w a w' :
  tryCatch m h w = (Returned a, w') ->
  m w = (Returned a, w') \/
  exists e w1, m w = (Thrown e, w1) /\ h e w1 = (Returned a, w').
Proof.
  unfold tryCatch. destruct (m w) as [[x|e|] w1]; intros H.
  - now left.
  - right. now exists e, w1.
  - discriminate.
Qed.

Lemma settle_inv {W A} (r : Error + A) (w : W) a w' :
  settle r w = (Returned a, w') -> r = inr a /\ w' = w.
Proof. destruct r; cbn; [discriminate|]. now intros [= -> ->]. Qed.

Lemma ret_inv {W A} (x : A) (w : W) a w' :
  ret x w = (Returned a, w') -> a = x /\ w' = w.
Proof. now intros [= -> ->]. Qed.

Lemma metadata_get_run cfg O spaceName w :
  metadata_get cfg O spaceName w
  = match metadataEntries w !! spaceName with
    | Some entry =>
        if Net.now O (World.clockReads w) - CachedSpaceMetadata.fetchedAt entry
           <? CacheConfig.SPACE_METADATA_TTL cfg
        then (Returned (Some entry), countMetadataHit (World.tick w))
        else (Returned None, countMetadataMiss (World.tick w))
    | None => (Returned None, countMetadataMiss w)
    end.
Proof.
  unfold metadata_get, bind, gets. simpl.
  destruct (metadataEntries w !! spaceName) as [entry|]; simpl; [|reflexivity].
  destruct (_ <? _); reflexivity.
Qed.

Lemma schema_get_run cfg O spaceName w :
  schema_get cfg O spaceName w
  = match schemaEntries w !! spaceName with
    | Some entry =>
        if Net.now O (World.clockReads w) - CachedSchema.fetchedAt entry
           <? CacheConfig.SCHEMA_TTL cfg
        then (Returned (Some entry), countSchemaHit (World.tick w))
        else (Returned None, countSchemaMiss (World.tick w))
    | None => (Returned None, countSchemaMiss w)
    end.
Proof.
  unfold schema_get, bind, gets. simpl.
  destruct (schemaEntries w !! spaceName) as [entry|]; simpl; [|reflexivity].
  destruct (_ <? _); reflexivity.
Qed.

Lemma metadata_updateTimestamp_run O spaceName w :
  metadata_updateTimestamp O spaceName w
  = match metadataEntries w !! spaceName with
    | Some entry =>
        (Returned tt,
         countRevalidation
           (putMetadata spaceName
              (CachedSpaceMetadata.withFetchedAt entry (Net.now O (World.clockReads w)))
              (World.tick w)))
    | None => (Returned tt, w)
    end.
Proof.
  unfold metadata_updateTimestamp, bind, gets. simpl.
  destruct (metadataEntries w !! spaceName) as [entry|]; reflexivity.
Qed.

(** A read of either cache. *)
Inductive Read :=
| ReadMetadata (spaceName : string)
| ReadSchema (spaceName : string).

Definition perform (cfg : CacheConfig.t) (O : Net.Outside) (r : Read) : Js unit :=
  match r with
  | ReadMetadata spaceName => bind (metadata_get cfg O spaceName) (fun _ => ret tt)
  | ReadSchema spaceName => bind (schema_get cfg O spaceName) (fun _ => ret tt)
  end.

Lemma perform_same cfg O r : steps sameEntries (perform cfg O r).
Proof.
  destruct r; simpl; (apply steps_bind; [exact _ | | intros; apply steps_ret; exact _]).
  - apply metadata_get_same.
  - apply schema_get_same.
Qed.

Lemma reads_same cfg O reads : steps sameEntries (mapM (perform cfg O) reads).
Proof. apply steps_mapM; [exact _|]. apply perform_same. Qed.

Lemma metadata_set_lookup spaceName entry w :
  metadataEntries (after (metadata_set spaceName entry) w) !! spaceName = Some entry.
Proof. unfold after, metadata_set, metadataStore, metadataEntries. simpl. apply lookup_insert_eq. Qed.

Lemma schema_set_lookup spaceName entry w :
  schemaEntries (after (schema_set spaceName entry) w) !! spaceName = Some entry.
Proof. unfold after, schema_set, schemaEntries. simpl. apply lookup_insert_eq. Qed.

(** C4.  An entry is valid from the moment it is set until [fetchedAt]
    plus the time to live, and reading does not move that moment: after a
    [set] and any number of lookups in either cache, the entry is still the
    one that was set, a lookup at a time [t >= fetchedAt + TTL] misses and a
    lookup at a time [t < fetchedAt + TTL] hits.  This holds of the metadata
    cache and of the schema cache. *)
Theorem ttl_from_creation (cfg : CacheConfig.t) (O : Net.Outside)
    (w0 : World.t) (spaceName : string) (reads : list Read) :
  (forall entry : CachedSpaceMetadata.t,
     let w := after (mapM (perform cfg O) reads) (after (metadata_set spaceName entry) w0) in
     let t := Net.now O (World.clockReads w) in
     let t0 := CachedSpaceMetadata.fetchedAt entry in
     let TTL := CacheConfig.SPACE_METADATA_TTL cfg in
     metadataEntries w !! spaceName = Some entry /\
     (t0 + TTL <= t -> outcome (metadata_get cfg O spaceName) w = Returned None) /\
     (t < t0 + TTL -> outcome (metadata_get cfg O spaceName) w = Returned (Some entry))) /\
  (forall entry : CachedSchema.t,
     let w := after (mapM (perform cfg O) reads) (after (schema_set spaceName entry) w0) in
     let t := Net.now O (World.clockReads w) in
     let t0 := CachedSchema.fetchedAt entry in
     let TTL := CacheConfig.SCHEMA_TTL cfg in
     schemaEntries w !! spaceName = Some entry /\
     (t0 + TTL <= t -> outcome (schema_get cfg O spaceName) w = Returned None) /\
     (t < t0 + TTL -> outcome (schema_get cfg O spaceName) w = Returned (Some entry))).
Proof.
  split; intros entry w t t0 TTL.
  - assert (Hentry : metadataEntries w !! spaceName = Some entry).
    { destruct (reads_same cfg O reads (after (metadata_set spaceName entry) w0)) as [H _].
      unfold w. rewrite H. apply metadata_set_lookup. }
    split; [exact Hentry|].
    rewrite metadata_get_outcome, Hentry. fold t t0 TTL.
    split; intros Ht.
    + destruct (Z.ltb_spec (t - t0) TTL); [lia | reflexivity].
    + destruct (Z.ltb_spec (t - t0) TTL); [reflexivity | lia].
  - assert (Hentry : schemaEntries w !! spaceName = Some entry).
    { destruct (reads_same cfg O reads (after (schema_set spaceName entry) w0)) as [_ H].
      unfold w. rewrite H. apply schema_set_lookup. }
    split; [exact Hentry|].
    rewrite schema_get_outcome, Hentry. fold t t0 TTL.
    split; intros Ht.
    + destruct (Z.ltb_spec (t - t0) TTL); [lia | reflexivity].
    + destruct (Z.ltb_spec (t - t0) TTL); [reflexivity | lia].
Qed.

(** A clock that advances by a minute at each reading, and no network. *)
Definition minuteClock : Net.Outside :=
  {| Net.now := fun n => 60000 * Z.of_nat n;
     Net.hub := fun _ _ => inl {| message := "fetch failed" |};
     Net.space := fun _ _ => inl {| message := "fetch failed" |} |}.

Definition entryAt (t0 : Z) : CachedSpaceMetadata.t :=
  {| CachedSpaceMetadata._id := "gradio_acme-ok";
     CachedSpaceMetadata.name := "acme/ok";
     CachedSpaceMetadata.subdomain := "acme-ok";
     CachedSpaceMetadata.emoji := "";
     CachedSpaceMetadata.private := false;
     CachedSpaceMetadata.sdk := "gradio";
     CachedSpaceMetadata.runtime := None;
     CachedSpaceMetadata.etag := Some "W/1";
     CachedSpaceMetadata.fetchedAt := t0 |}.

Definition schemaAt (t0 : Z) : CachedSchema.t :=
  {| CachedSchema.tools := []; CachedSchema.fetchedAt := t0 |}.

Definition threeReads : list Read :=
  [ReadMetadata "acme/ok"; ReadSchema "acme/ok"; ReadMetadata "acme/ok"].

Lemma ttl_from_creation_witness :
  outcome (metadata_get CacheConfig.defaults minuteClock "acme/ok")
    (after (mapM (perform CacheConfig.defaults minuteClock) threeReads)
       (after (metadata_set "acme/ok" (entryAt 0)) World.initial))
  = Returned (Some (entryAt 0)) /\
  outcome (metadata_get CacheConfig.defaults minuteClock "acme/ok")
    (after (mapM (perform CacheConfig.defaults minuteClock) threeReads)
       (after (metadata_set "acme/ok" (entryAt (-300000))) World.initial))
  = Returned None /\
  outcome (schema_get CacheConfig.defaults minuteClock "acme/ok")
    (after (mapM (perform CacheConfig.defaults minuteClock) threeReads)
       (after (schema_set "acme/ok" (schemaAt 0)) World.initial))
  = Returned (Some (schemaAt 0)) /\
  outcome (schema_get CacheConfig.defaults minuteClock "acme/ok")
    (after (mapM (perform CacheConfig.defaults minuteClock) threeReads)
       (after (schema_set "acme/ok" (schemaAt (-300000))) World.initial))
  = Returned None.
Proof.
  destruct (ttl_from_creation CacheConfig.defaults minuteClock World.initial "acme/ok"
              threeReads) as [Hmetadata Hschema].
  split; [|split; [|split]].
  - apply (Hmetadata (entryAt 0)). vm_compute. reflexivity.
  - apply (Hmetadata (entryAt (-300000))). vm_compute. discriminate.
  - apply (Hschema (schemaAt 0)). vm_compute. reflexivity.
  - apply (Hschema (schemaAt (-300000))). vm_compute. discriminate.
Defined.

End CacheFacts.

(** ** Insertion-ordered maps *)

Module JsMapFacts.
Import Js SelectionFacts.

Lemma keys_set_known {V} (k : string) (v : V) (m : JsMap.t V) :
  In k (JsMap.keys m) -> JsMap.keys (JsMap.set k v m) = JsMap.keys m.
Proof.
  induction m as [|[k' v'] rest IH]; simpl; [tauto|].
  destruct (String.eqb_spec k k') as [->|Hne]; simpl; [reflexivity|].
  intros [E|Hin]; [congruence|]. now rewrite IH.
Qed.

Lemma keys_set_new {V} (k : string) (v : V) (m : JsMap.t V) :
  ~ In k (JsMap.keys m) -> JsMap.keys (JsMap.set k v m) = JsMap.keys m ++ [k].
Proof.
  induction m as [|[k' v'] rest IH]; simpl; [reflexivity|].
  destruct (String.eqb_spec k k') as [->|Hne]; simpl; [tauto|].
  intros Hn. rewrite IH; tauto.
Qed.

Lemma get_set_eq {V} (k : string) (v : V) (m : JsMap.t V) :
  JsMap.get k (JsMap.set k v m) = Some v.
Proof.
  induction m as [|[k' v'] rest IH]; simpl.
  - now rewrite String.eqb_refl.
  - destruct (String.eqb_spec k k') as [->|Hne]; simpl.
    + now rewrite String.eqb_refl.
    + destruct (String.eqb_spec k k'); [contradiction | exact IH].
Qed.

Lemma get_set_ne {V} (k k0 : string) (v : V) (m : JsMap.t V) :
  k0 <> k -> JsMap.get k0 (JsMap.set k v m) = JsMap.get k0 m.
Proof.
  intros Hne. induction m as [|[k' v'] rest IH]; simpl.
  - destruct (String.eqb_spec k0 k); [contradiction | reflexivity].
  - destruct (String.eqb_spec k k') as [->|Hne']; simpl.
    + destruct (String.eqb_spec k0 k'); [contradiction | reflexivity].
    + destruct (String.eqb_spec k0 k'); [reflexivity | exact IH].
Qed.

Lemma get_Some_In {V} (k : string) (v : V) (m : JsMap.t V) :
  JsMap.get k m = Some v -> In (k, v) m.
Proof.
  induction m as [|[k' v'] rest IH]; simpl; [discriminate|].
  destruct (String.eqb_spec k k') as [->|Hne].
  - intros [= ->]. now left.
  - intros H. right. now apply IH.
Qed.

Lemma get_is_Some {V} (k : string) (m : JsMap.t V) :
  is_Some (JsMap.get k m) <-> In k (JsMap.keys m).
Proof.
  induction m as [|[k' v'] rest IH]; simpl.
  - split; [intros [? [=]] | tauto].
  - destruct (String.eqb_spec k k') as [->|Hne].
    + split; [now left | eauto].
    + rewrite IH. split; [now right | intros [E|H]; [congruence | exact H]].
Qed.

Lemma In_get {V} (k : string) (v : V) (m : JsMap.t V) :
  List.NoDup (JsMap.keys m) -> In (k, v) m -> JsMap.get k m = Some v.
Proof.
  induction m as [|[k' v'] rest IH]; simpl; [tauto|].
  intros Hnd [[= -> ->]|Hin].
  - now rewrite String.eqb_refl.
  - inversion Hnd as [|? ? Hnotin Hnd']; subst.
    destruct (String.eqb_spec k k') as [->|Hne]; [|now apply IH].
    exfalso. apply Hnotin. change k' with (fst (k', v)). now apply in_map.
Qed.

(** An entry of the map after [set] is the new one or was there before. *)
Lemma In_set {V} (k : string) (v : V) (m : JsMap.t V) (e : string * V) :
  In e (JsMap.set k v m) -> e = (k, v) \/ In e m.
Proof.
  induction m as [|[k' v'] rest IH]; simpl.
  - intros [<-|[]]. now left.
  - destruct (String.eqb_spec k k') as [->|Hne]; simpl.
    + intros [<-|Hin]; [now left | right; now right].
    + intros [<-|Hin]; [right; now left|].
      destruct (IH Hin) as [H|H]; [now left | right; now right].
Qed.

Lemma NoDup_keys_set {V} (k : string) (v : V) (m : JsMap.t V) :
  List.NoDup (JsMap.keys m) -> List.NoDup (JsMap.keys (JsMap.set k v m)).
Proof.
  intros Hnd. destruct (in_dec String.string_dec k (JsMap.keys m)) as [Hin|Hnin].
  - now rewrite keys_set_known.
  - rewrite keys_set_new by exact Hnin.
    apply List.NoDup_app; [exact Hnd | constructor; [tauto | constructor] |].
    intros x Hx [<-|[]]. contradiction.
Qed.

(** [m.set(k, v)] for each pair of a list, in order. *)
Definition storeAll {V} (entries : list (string * V)) (m : JsMap.t V) : JsMap.t V :=
  fold_left (fun m e => JsMap.set (fst e) (snd e) m) entries m.

Lemma keys_storeAll {V} (entries : list (string * V)) (m : JsMap.t V) :
  JsMap.keys (storeAll entries m)
  = JsMap.keys m ++ dedupAcc (JsMap.keys m) (map fst entries).
Proof.
  unfold storeAll. revert m. induction entries as [|[k v] rest IH]; intros m; simpl.
  - now rewrite app_nil_r.
  - rewrite IH. destruct (existsb (String.eqb k) (JsMap.keys m)) eqn:E.
    + apply existsb_eqb_In in E. now rewrite keys_set_known.
    + assert (Hn : ~ In k (JsMap.keys m)).
      { intros H. apply existsb_eqb_In in H. congruence. }
      rewrite keys_set_new by exact Hn. rewrite <- app_assoc. simpl. do 2 f_equal.
      apply dedupAcc_ext. intros x. rewrite in_app_iff. simpl. tauto.
Qed.

Lemma In_storeAll {V} (entries : list (string * V)) (m : JsMap.t V) (e : string * V) :
  In e (storeAll entries m) -> In e m \/ In e entries.
Proof.
  unfold storeAll. revert m. induction entries as [|[k v] rest IH]; intros m; simpl.
  - now left.
  - intros H. destruct (IH _ H) as [H1|H1]; [|right; now right].
    destruct (In_set _ _ _ _ H1) as [->|H2]; [right; now left | now left].
Qed.

Lemma NoDup_keys_storeAll {V} (entries : list (string * V)) (m : JsMap.t V) :
  List.NoDup (JsMap.keys m) -> List.NoDup (JsMap.keys (storeAll entries m)).
Proof.
  unfold storeAll. revert m. induction entries as [|[k v] rest IH]; intros m Hnd; simpl.
  - exact Hnd.
  - apply IH. now apply NoDup_keys_set.
Qed.

(** The keys of a map filled from scratch: the keys stored, each once, in
    the order in which they first came. *)
Lemma keys_storeAll_empty {V} (entries : list (string * V)) :
  JsMap.keys (storeAll entries JsMap.empty) = dedup (map fst entries).
Proof. now rewrite keys_storeAll. Qed.

Lemma dedupAcc_NoDup (seen l : list string) :
  List.NoDup l -> (forall x, In x l -> ~ In x seen) -> dedupAcc seen l = l.
Proof.
  revert seen. induction l as [|x t IH]; intros seen Hnd Hseen; simpl; [reflexivity|].
  inversion Hnd as [|? ? Hx Hnd']; subst.
  destruct (existsb (String.eqb x) seen) eqn:E.
  - apply existsb_eqb_In in E. exfalso. apply (Hseen x); [now left | exact E].
  - f_equal. apply IH; [exact Hnd'|].
    intros y Hy [<-|Hs]; [contradiction|]. apply (Hseen y); [now right | exact Hs].
Qed.

Lemma dedup_NoDup (l : list string) : List.NoDup l -> dedup l = l.
Proof. intros H. apply dedupAcc_NoDup; [exact H | intros x _ []]. Qed.

End JsMapFacts.

(** ** Discovery *)

Module DiscoveryFacts.
Import Effects EffectFacts Cache CacheFacts Net Discovery.

Definition revalidations (w : World.t) : Z :=
  SpaceMetadataCache.etagRevalidations (metadataStats w).

(** C5.  A space is cached with ETag [X] and its entry has expired.  Then
    the next metadata fetch sends [If-None-Match: X]; when the Hub answers
    [304], the fetch succeeds from the cache, the cache has the same size,
    the entry has a strictly later [fetchedAt] and is otherwise unchanged,
    and the revalidation counter has grown by exactly one.  The time to live
    is positive and the clock does not run backwards. *)
Theorem etag_revalidation (cfg : CacheConfig.t) (O : Outside) (w : World.t)
    (spaceName : string) (hfToken : option string) (options : option MetadataOptions.t)
    (entry : CachedSpaceMetadata.t) (X : string) :
  0 < CacheConfig.SPACE_METADATA_TTL cfg ->
  (forall n m : nat, (n <= m)%nat -> now O n <= now O m) ->
  metadataEntries w !! spaceName = Some entry ->
  CachedSpaceMetadata.etag entry = Some X ->
  X <> "" ->
  CacheConfig.SPACE_METADATA_TTL cfg
    <= now O (World.clockReads w) - CachedSpaceMetadata.fetchedAt entry ->
  (forall request, exists response,
      hub O (List.length (World.sent w)) request = inr response /\
      hubStatus response = 304) ->
  exists request entry',
    let w' := after (fetchSpaceMetadata cfg O spaceName hfToken options) w in
    outcome (fetchSpaceMetadata cfg O spaceName hfToken options) w
      = Returned (MetadataSuccess entry' true) /\
    World.sent w' = World.sent w ++ [ToHub request] /\
    hubUrl request = "https://huggingface.co/api/spaces/" +:+ spaceName /\
    In ("If-None-Match", X) (hubHeaders request) /\
    metadataEntries w' = <[spaceName := entry']> (metadataEntries w) /\
    size (metadataEntries w') = size (metadataEntries w) /\
    entry' = CachedSpaceMetadata.withFetchedAt entry (CachedSpaceMetadata.fetchedAt entry') /\
    CachedSpaceMetadata.fetchedAt entry < CachedSpaceMetadata.fetchedAt entry' /\
    revalidations w' = revalidations w + 1.
Proof.
  intros HTTL Hmono Hentry Hetag HX Hexpired Hhub.
  set (request := {| hubUrl := "https://huggingface.co/api/spaces/" +:+ spaceName;
                     hubHeaders :=
                       (if Js.truthyStr hfToken
                        then [("Authorization", "Bearer " +:+ default "" hfToken)] else [])
                       ++ [("If-None-Match", X)];
                     hubTimeout := orElse (options ≫= MetadataOptions.timeout)
                                     (CacheConfig.SPACE_INFO_TIMEOUT cfg) |}).
  destruct (Hhub request) as (response & Hresp & Hstatus).
  set (t1 := now O (S (World.clockReads w))).
  exists request, (CachedSpaceMetadata.withFetchedAt entry t1).
  assert (Ht1 : CachedSpaceMetadata.fetchedAt entry < t1).
  { specialize (Hmono (World.clockReads w) (S (World.clockReads w))). unfold t1. lia. }
  assert (Hrun : fetchSpaceMetadata cfg O spaceName hfToken options w
    = (Returned (MetadataSuccess (CachedSpaceMetadata.withFetchedAt entry t1) true),
       after (fetchSpaceMetadata cfg O spaceName hfToken options) w)
    /\ World.sent (after (fetchSpaceMetadata cfg O spaceName hfToken options) w)
       = World.sent w ++ [ToHub request]
    /\ metadataEntries (after (fetchSpaceMetadata cfg O spaceName hfToken options) w)
       = <[spaceName := CachedSpaceMetadata.withFetchedAt entry t1]> (metadataEntries w)
    /\ revalidations (after (fetchSpaceMetadata cfg O spaceName hfToken options) w)
       = revalidations w + 1).
  { assert (HXb : negb (String.eqb X "") = true).
    { destruct (String.eqb_spec X ""); [contradiction | reflexivity]. }
    assert (Hstart : fetchSpaceMetadata_start cfg O spaceName hfToken options w
      = (Returned (inr {| pendingSpaceName := spaceName; stale := Some entry;
                          settledHub := inr response |}),
         World.send (ToHub request) (countMetadataMiss (World.tick w)))).
    { unfold fetchSpaceMetadata_start.
      erewrite bind_run; cycle 1.
      { rewrite metadata_get_run, Hentry.
        destruct (Z.ltb_spec (now O (World.clockReads w) - CachedSpaceMetadata.fetchedAt entry)
                    (CacheConfig.SPACE_METADATA_TTL cfg)) as [|_]; [lia | reflexivity]. }
      cbv beta iota.
      erewrite bind_run; cycle 1.
      { unfold metadata_getForRevalidation, gets. cbn. fold (metadataEntries w).
        rewrite Hentry. reflexivity. }
      cbn [mbind option_bind]. rewrite Hetag. cbn [Js.truthyStr default].
      rewrite HXb. cbv iota. change (id X) with X. fold request.
      erewrite bind_run; cycle 1.
      { unfold fetchHub.
        change (World.sent (countMetadataMiss (World.tick w))) with (World.sent w).
        rewrite Hresp. reflexivity. }
      reflexivity. }
    unfold after, fetchSpaceMetadata.
    erewrite bind_run by exact Hstart.
    cbn [metadataFinish]. unfold fetchSpaceMetadata_resume.
    cbn [pendingSpaceName stale settledHub].
    erewrite tryCatch_returned; cycle 1.
    { erewrite bind_run by reflexivity. cbv beta iota.
      rewrite Hstatus. cbn [Z.eqb Pos.eqb].
      erewrite bind_run; cycle 1.
      { rewrite metadata_updateTimestamp_run. cbn. fold (metadataEntries w).
        rewrite Hentry. reflexivity. }
      cbv beta iota. unfold staleAfterUpdate.
      erewrite bind_run; cycle 1.
      { erewrite bind_run; cycle 1.
        { unfold metadata_getForRevalidation, gets. cbn. rewrite lookup_insert_eq.
          reflexivity. }
        reflexivity. }
      cbn. fold t1. reflexivity. }
    cbn. fold (metadataEntries w). repeat split. }
  destruct Hrun as (Hrun & Hsent & Hentries & Hreval).
  cbv zeta. unfold outcome. rewrite Hrun. simpl.
  repeat split; try assumption.
  - apply in_or_app. right. now left.
  - rewrite Hentries. now apply map_size_insert_Some.
Qed.

(** *** Privacy *)

(** Every entry of the metadata cache is that of a public space. *)
Definition allPublic (w : World.t) : Prop :=
  map_Forall (fun _ entry => CachedSpaceMetadata.private entry = false) (metadataEntries w).

(** [keepsPublic w w']: if the invariant holds in [w], it holds in [w']. *)
Definition keepsPublic (w w' : World.t) : Prop := allPublic w -> allPublic w'.

#[export] Instance keepsPublic_preorder : PreOrder keepsPublic.
Proof. split; [intros w H; exact H | intros a b c H1 H2 H; auto]. Qed.

(** [metadataUntouched w w']: the metadata cache holds the same entries. *)
Definition metadataUntouched (w w' : World.t) : Prop :=
  metadataEntries w' = metadataEntries w.

#[export] Instance metadataUntouched_preorder : PreOrder metadataUntouched.
Proof. split; [intros w; reflexivity | intros a b c H1 H2; red; congruence]. Qed.

Lemma sameEntries_metadataUntouched w w' : sameEntries w w' -> metadataUntouched w w'.
Proof. intros [H _]. exact H. Qed.

Lemma metadataUntouched_keepsPublic w w' : metadataUntouched w w' -> keepsPublic w w'.
Proof. intros H Hp. unfold allPublic. now rewrite H. Qed.

Lemma sameEntries_keepsPublic w w' : sameEntries w w' -> keepsPublic w w'.
Proof. intros H. now apply metadataUntouched_keepsPublic, sameEntries_metadataUntouched. Qed.

Lemma allPublic_initial : allPublic World.initial.
Proof. apply map_Forall_empty. Qed.

Lemma fetchHub_same O request : steps sameEntries (fetchHub O request).
Proof. intros w. split; reflexivity. Qed.

Lemma fetchSpace_same O request : steps sameEntries (fetchSpace O request).
Proof. intros w. split; reflexivity. Qed.

Lemma metadata_getForRevalidation_same spaceName :
  steps sameEntries (metadata_getForRevalidation spaceName).
Proof. apply steps_gets. exact _. Qed.

(** The first half of a metadata fetch only reads the caches. *)
Lemma fetchSpaceMetadata_start_same cfg O spaceName hfToken options :
  steps sameEntries (fetchSpaceMetadata_start cfg O spaceName hfToken options).
Proof.
  unfold fetchSpaceMetadata_start.
  apply steps_bind; [exact _ | apply metadata_get_same |].
  intros [cached|]; [apply steps_ret; exact _|].
  apply steps_bind; [exact _ | apply metadata_getForRevalidation_same |]. intros st.
  apply steps_bind; [exact _ | apply fetchHub_same |]. intros settled.
  apply steps_ret. exact _.
Qed.

Lemma metadata_updateTimestamp_keepsPublic O spaceName :
  steps keepsPublic (metadata_updateTimestamp O spaceName).
Proof.
  intros w Hp. unfold after. rewrite metadata_updateTimestamp_run.
  destruct (metadataEntries w !! spaceName) as [entry|] eqn:E; [|exact Hp].
  unfold allPublic. cbn. apply map_Forall_insert_2; [|exact Hp].
  exact (Hp _ _ E).
Qed.

Lemma staleAfterUpdate_same spaceName st : steps sameEntries (staleAfterUpdate spaceName st).
Proof.
  unfold staleAfterUpdate.
  apply steps_bind; [exact _ | apply metadata_getForRevalidation_same |].
  intros e. apply steps_ret. exact _.
Qed.

Lemma metadata_set_keepsPublic spaceName metadata :
  CachedSpaceMetadata.private metadata = false ->
  steps keepsPublic (metadata_set spaceName metadata).
Proof.
  intros Hpub w Hp. unfold after, allPublic. cbn.
  apply map_Forall_insert_2; [exact Hpub | exact Hp].
Qed.

(** The guarded [set]: what [fetchSpaceMetadata] does with fresh metadata. *)
Lemma guarded_set_keepsPublic spaceName metadata :
  steps keepsPublic
    (if negb (CachedSpaceMetadata.private metadata)
     then metadata_set spaceName metadata else ret tt).
Proof.
  destruct (CachedSpaceMetadata.private metadata) eqn:E; simpl.
  - apply steps_ret. exact _.
  - now apply metadata_set_keepsPublic.
Qed.

Lemma freshMetadata_keepsPublic O spaceName response :
  steps keepsPublic (freshMetadata O spaceName response).
Proof.
  unfold freshMetadata.
  apply steps_bind; [exact _ | apply steps_settle; exact _ |]. intros info.
  destruct (negb (Js.truthyStr (infoSubdomain info))); [apply steps_throw; exact _|].
  apply steps_bind; [exact _ | |].
  { eapply steps_weaken; [apply sameEntries_keepsPublic | apply Date_now_same]. }
  intros t. apply steps_bind; [exact _ | apply guarded_set_keepsPublic |].
  intros _. apply steps_ret. exact _.
Qed.

Lemma fetchSpaceMetadata_resume_keepsPublic cfg O pending :
  steps keepsPublic (fetchSpaceMetadata_resume cfg O pending).
Proof.
  unfold fetchSpaceMetadata_resume.
  apply steps_tryCatch; [exact _ | | intros e; apply steps_ret; exact _].
  apply steps_bind; [exact _ | apply steps_settle; exact _ |]. intros response.
  destruct (stale pending) as [st|].
  - destruct (hubStatus response =? 304).
    + apply steps_bind; [exact _ | apply metadata_updateTimestamp_keepsPublic |].
      intros _. apply steps_bind; [exact _ | |].
      { eapply steps_weaken; [apply sameEntries_keepsPublic | apply staleAfterUpdate_same]. }
      intros md. apply steps_ret. exact _.
    + destruct (negb (ok (hubStatus response))); [apply steps_throw; exact _|].
      apply freshMetadata_keepsPublic.
  - destruct (negb (ok (hubStatus response))); [apply steps_throw; exact _|].
    apply freshMetadata_keepsPublic.
Qed.

Lemma metadataFinish_keepsPublic cfg O started :
  steps keepsPublic (metadataFinish cfg O started).
Proof.
  destruct started as [result|pending]; simpl.
  - apply steps_ret. exact _.
  - apply fetchSpaceMetadata_resume_keepsPublic.
Qed.

Lemma fetchSpaceMetadata_keepsPublic cfg O spaceName hfToken options :
  steps keepsPublic (fetchSpaceMetadata cfg O spaceName hfToken options).
Proof.
  unfold fetchSpaceMetadata. apply steps_bind; [exact _ | |].
  - eapply steps_weaken; [apply sameEntries_keepsPublic | apply fetchSpaceMetadata_start_same].
  - apply metadataFinish_keepsPublic.
Qed.

Lemma metadataBatch_keepsPublic cfg O hfToken options batch :
  steps keepsPublic (metadataBatch cfg O hfToken options batch).
Proof.
  unfold metadataBatch. apply steps_bind; [exact _ | |].
  - apply steps_mapM; [exact _|]. intros spaceName.
    eapply steps_weaken; [apply sameEntries_keepsPublic | apply fetchSpaceMetadata_start_same].
  - intros started. apply steps_mapM; [exact _|]. apply metadataFinish_keepsPublic.
Qed.

Lemma forEachBatch_keepsPublic cfg O hfToken options batches results :
  steps keepsPublic (forEachBatch cfg O hfToken options batches results).
Proof.
  revert results. induction batches as [|batch rest IH]; intros results; simpl.
  - apply steps_ret. exact _.
  - apply steps_bind; [exact _ | apply metadataBatch_keepsPublic |].
    intros batchResults. apply IH.
Qed.

Lemma makeBatches_steps (R : World.t -> World.t -> Prop) `{!PreOrder R} spaceNames concurrency :
  steps R (makeBatches spaceNames concurrency).
Proof.
  unfold makeBatches. destruct (batchLoop _ _ _ _); [apply steps_ret | apply steps_diverge]; exact _.
Qed.

Lemma fetchSpaceMetadataWithCache_keepsPublic cfg O spaceNames hfToken options :
  steps keepsPublic (fetchSpaceMetadataWithCache cfg O spaceNames hfToken options).
Proof.
  unfold fetchSpaceMetadataWithCache.
  apply steps_bind; [exact _ | apply makeBatches_steps; exact _ |].
  intros batches. apply forEachBatch_keepsPublic.
Qed.

(** The schema functions never write to the metadata cache. *)
Lemma fetchSchema_start_same cfg O metadata hfToken timeout :
  steps sameEntries (fetchSchema_start cfg O metadata hfToken timeout).
Proof.
  unfold fetchSchema_start.
  apply steps_bind; [exact _ | apply schema_get_same |].
  intros [cached|]; [apply steps_ret; exact _|].
  apply steps_bind; [exact _ | apply fetchSpace_same |]. intros settled.
  apply steps_ret. exact _.
Qed.

Lemma schema_set_metadataUntouched spaceName schema :
  steps metadataUntouched (schema_set spaceName schema).
Proof. intros w. reflexivity. Qed.

Lemma fetchSchema_resume_metadataUntouched cfg O pending :
  steps metadataUntouched (fetchSchema_resume cfg O pending).
Proof.
  unfold fetchSchema_resume.
  apply steps_tryCatch; [exact _ | | intros e; apply steps_ret; exact _].
  apply steps_bind; [exact _ | apply steps_settle; exact _ |]. intros response.
  destruct (negb (ok (schemaStatus response))); [apply steps_throw; exact _|].
  apply steps_bind; [exact _ | apply steps_settle; exact _ |]. intros schemaResponse.
  apply steps_bind; [exact _ | apply steps_settle; exact _ |]. intros parsed.
  apply steps_bind; [exact _ | apply steps_settle; exact _ |]. intros tools.
  apply steps_bind; [exact _ | |].
  { eapply steps_weaken; [apply sameEntries_metadataUntouched | apply Date_now_same]. }
  intros t. apply steps_bind; [exact _ | |].
  { destruct (negb _); [apply schema_set_metadataUntouched | apply steps_ret; exact _]. }
  intros _. apply steps_ret. exact _.
Qed.

Lemma schemaFinish_metadataUntouched cfg O started :
  steps metadataUntouched (schemaFinish cfg O started).
Proof.
  destruct started as [result|pending]; simpl.
  - apply steps_ret. exact _.
  - apply fetchSchema_resume_metadataUntouched.
Qed.

Lemma schemaBatch_metadataUntouched cfg O hfToken timeout metadataList :
  steps metadataUntouched (schemaBatch cfg O hfToken timeout metadataList).
Proof.
  unfold schemaBatch. apply steps_bind; [exact _ | |].
  - apply steps_mapM; [exact _|]. intros metadata.
    eapply steps_weaken; [apply sameEntries_metadataUntouched | apply fetchSchema_start_same].
  - intros started. apply steps_mapM; [exact _|]. apply schemaFinish_metadataUntouched.
Qed.

Lemma fetchSchemasWithCache_metadataUntouched cfg O metadataList hfToken timeout :
  steps metadataUntouched (fetchSchemasWithCache cfg O metadataList hfToken timeout).
Proof.
  unfold fetchSchemasWithCache.
  destruct (_ =? _)%nat; [apply steps_ret; exact _|].
  apply steps_bind; [exact _ | apply schemaBatch_metadataUntouched |].
  intros rs. apply steps_ret. exact _.
Qed.

Lemma getGradioSpaces_keepsPublic cfg O spaceNames hfToken options :
  steps keepsPublic (getGradioSpaces cfg O spaceNames hfToken options).
Proof.
  unfold getGradioSpaces.
  destruct (_ =? _)%nat; [apply steps_ret; exact _|].
  apply steps_bind; [exact _ | |].
  { eapply steps_weaken; [apply sameEntries_keepsPublic | apply Date_now_same]. }
  intros startTime.
  apply steps_bind; [exact _ | apply fetchSpaceMetadataWithCache_keepsPublic |].
  intros metadataMap.
  apply steps_bind; [exact _ | |].
  { destruct (_ && _); [|apply steps_ret; exact _].
    eapply steps_weaken; [apply metadataUntouched_keepsPublic
                         | apply fetchSchemasWithCache_metadataUntouched]. }
  intros schemaMap.
  apply steps_bind; [exact _ | |].
  { eapply steps_weaken; [apply sameEntries_keepsPublic | apply Date_now_same]. }
  intros endTime. apply steps_ret. exact _.
Qed.

(** A fetch that delivers the metadata of a private space stores nothing. *)
Lemma freshMetadata_private O spaceName response w metadata cached w' :
  freshMetadata O spaceName response w = (Returned (MetadataSuccess metadata cached), w') ->
  CachedSpaceMetadata.private metadata = true ->
  sameEntries w w'.
Proof.
  unfold freshMetadata, bind, settle.
  destruct (hubJson response) as [e|info]; cbn; [discriminate|].
  destruct (negb (Js.truthyStr (infoSubdomain info))); cbn; [discriminate|].
  destruct (default false (infoPrivate info)) eqn:E; cbn.
  - intros [= <- _ <-] _. split; reflexivity.
  - intros [= <- _ <-]. cbn. discriminate.
Qed.

Lemma staleAfterUpdate_private spaceName st w metadata w' :
  staleAfterUpdate spaceName st w = (Returned metadata, w') ->
  CachedSpaceMetadata.private metadata = CachedSpaceMetadata.private st.
Proof.
  unfold staleAfterUpdate, bind, metadata_getForRevalidation, gets. cbn.
  intros [= <- _]. now destruct (metadataEntries w !! spaceName).
Qed.

Lemma fetchSpaceMetadata_resume_private cfg O pending w metadata cached w' :
  (forall st, stale pending = Some st -> CachedSpaceMetadata.private st = false) ->
  fetchSpaceMetadata_resume cfg O pending w
    = (Returned (MetadataSuccess metadata cached), w') ->
  CachedSpaceMetadata.private metadata = true ->
  sameEntries w w'.
Proof.
  intros Hstale Hrun Hpriv. unfold fetchSpaceMetadata_resume in Hrun.
  apply tryCatch_inv in Hrun as [Hrun|(e & w1 & _ & Hh)]; [|discriminate Hh].
  apply bind_inv in Hrun as (response & w1 & Hsettle & Hrun).
  apply settle_inv in Hsettle as [_ ->].
  destruct (stale pending) as [st|] eqn:Est.
  - destruct (hubStatus response =? 304).
    + apply bind_inv in Hrun as ([] & w2 & _ & Hrun).
      apply bind_inv in Hrun as (md & w3 & Hmd & Hret).
      apply ret_inv in Hret as [[= <- _] _].
      apply staleAfterUpdate_private in Hmd.
      rewrite (Hstale st eq_refl) in Hmd. congruence.
    + destruct (negb (ok (hubStatus response))); [discriminate Hrun|].
      eapply freshMetadata_private; eassumption.
  - destruct (negb (ok (hubStatus response))); [discriminate Hrun|].
    eapply freshMetadata_private; eassumption.
Qed.

(** What the first half of a fetch hands over: a cached entry, or a pending
    request whose [stale] is what the cache holds. *)
Lemma fetchSpaceMetadata_start_cases cfg O spaceName hfToken options w :
  (exists entry,
      metadataEntries w !! spaceName = Some entry /\
      outcome (fetchSpaceMetadata_start cfg O spaceName hfToken options) w
        = Returned (inl (MetadataSuccess entry true))) \/
  (exists pending,
      outcome (fetchSpaceMetadata_start cfg O spaceName hfToken options) w
        = Returned (inr pending) /\
      pendingSpaceName pending = spaceName /\
      stale pending = metadataEntries w !! spaceName).
Proof.
  pose proof (metadata_get_run cfg O spaceName w) as Hget.
  unfold outcome, fetchSpaceMetadata_start.
  destruct (metadataEntries w !! spaceName) as [entry|] eqn:E;
    [destruct (_ <? _) in Hget|].
  - left. exists entry. split; [reflexivity|].
    erewrite bind_run by exact Hget. reflexivity.
  - right. eexists.
    erewrite bind_run by exact Hget. cbv beta iota.
    erewrite bind_run by (unfold metadata_getForRevalidation, gets; reflexivity).
    erewrite bind_run by (unfold fetchHub; reflexivity).
    cbn. fold (metadataEntries w). rewrite E. repeat split.
  - right. eexists.
    erewrite bind_run by exact Hget. cbv beta iota.
    erewrite bind_run by (unfold metadata_getForRevalidation, gets; reflexivity).
    erewrite bind_run by (unfold fetchHub; reflexivity).
    cbn. fold (metadataEntries w). rewrite E. repeat split.
Qed.

Lemma fetchSpaceMetadata_private cfg O spaceName hfToken options w metadata cached :
  allPublic w ->
  outcome (fetchSpaceMetadata cfg O spaceName hfToken options) w
    = Returned (MetadataSuccess metadata cached) ->
  CachedSpaceMetadata.private metadata = true ->
  sameEntries w (after (fetchSpaceMetadata cfg O spaceName hfToken options) w).
Proof.
  intros Hp Hout Hpriv.
  pose proof (run_eq (fetchSpaceMetadata cfg O spaceName hfToken options) w) as Hrun.
  rewrite Hout in Hrun. unfold fetchSpaceMetadata in Hrun at 1.
  apply bind_inv in Hrun as (started & w1 & Hstart & Hfinish).
  pose proof (fetchSpaceMetadata_start_same cfg O spaceName hfToken options w) as Hsame.
  unfold after in Hsame at 1. rewrite Hstart in Hsame. cbn in Hsame.
  destruct (fetchSpaceMetadata_start_cases cfg O spaceName hfToken options w)
    as [(entry & Hentry & Hs)|(pending & Hs & Hname & Hstale)];
    unfold outcome in Hs; rewrite Hstart in Hs; cbn in Hs; injection Hs as ->;
    cbn in Hfinish.
  - apply ret_inv in Hfinish as [_ <-]. exact Hsame.
  - etransitivity; [exact Hsame|].
    apply (fetchSpaceMetadata_resume_private cfg O pending w1 metadata cached).
    + intros st Hst. rewrite Hstale in Hst. exact (Hp _ _ Hst).
    + exact Hfinish.
    + exact Hpriv.
Qed.

(** A schema fetched for a private space is not stored. *)
Lemma fetchSchema_resume_private cfg O pending :
  CachedSpaceMetadata.private (pendingMetadata pending) = true ->
  steps sameEntries (fetchSchema_resume cfg O pending).
Proof.
  intros Hpriv. unfold fetchSchema_resume. rewrite Hpriv. cbn [negb].
  apply steps_tryCatch; [exact _ | | intros e; apply steps_ret; exact _].
  apply steps_bind; [exact _ | apply steps_settle; exact _ |]. intros response.
  destruct (negb (ok (schemaStatus response))); [apply steps_throw; exact _|].
  apply steps_bind; [exact _ | apply steps_settle; exact _ |]. intros schemaResponse.
  apply steps_bind; [exact _ | apply steps_settle; exact _ |]. intros parsed.
  apply steps_bind; [exact _ | apply steps_settle; exact _ |]. intros tools.
  apply steps_bind; [exact _ | apply Date_now_same |]. intros t.
  apply steps_bind; [exact _ | apply steps_ret; exact _ |].
  intros _. apply steps_ret. exact _.
Qed.

Lemma fetchSchema_start_pending cfg O metadata hfToken timeout w pending :
  outcome (fetchSchema_start cfg O metadata hfToken timeout) w = Returned (inr pending) ->
  pendingMetadata pending = metadata.
Proof.
  unfold outcome, fetchSchema_start. unfold bind at 1. rewrite schema_get_run.
  destruct (schemaEntries w !! CachedSpaceMetadata.name metadata) as [entry|].
  - destruct (_ <? _); cbn; [discriminate|]. now intros [= <-].
  - cbn. now intros [= <-].
Qed.

Lemma fetchSchema_private cfg O metadata hfToken timeout :
  CachedSpaceMetadata.private metadata = true ->
  steps sameEntries (fetchSchema cfg O metadata hfToken timeout).
Proof.
  intros Hpriv w.
  pose proof (fetchSchema_start_same cfg O metadata hfToken timeout w) as Hsame.
  pose proof (fetchSchema_start_pending cfg O metadata hfToken timeout w) as Hpend.
  unfold outcome, after, fetchSchema, bind in *.
  destruct (fetchSchema_start cfg O metadata hfToken timeout w) as [[[r|pending]|e|] w1];
    cbn in *; try exact Hsame.
  etransitivity; [exact Hsame|].
  apply fetchSchema_resume_private. now rewrite (Hpend pending eq_refl).
Qed.

(** C1.  Private spaces are never cached.  The metadata cache starts with
    public entries only (it starts empty) and every discovery call, whatever
    the Hub answers, keeps it so.  A metadata fetch that delivers the
    metadata of a private space leaves the entries of both caches as they
    were, and so does the schema fetch for that metadata: neither [set] is
    performed, so neither cache grows, however often the space is fetched. *)
Theorem private_never_cached (cfg : CacheConfig.t) (O : Outside) :
  allPublic World.initial /\
  (forall spaceNames hfToken options w,
      allPublic w ->
      allPublic (after (getGradioSpaces cfg O spaceNames hfToken options) w)) /\
  (forall spaceName hfToken options w,
      allPublic w ->
      allPublic (after (fetchSpaceMetadata cfg O spaceName hfToken options) w)) /\
  (forall spaceName hfToken options w metadata cached,
      allPublic w ->
      outcome (fetchSpaceMetadata cfg O spaceName hfToken options) w
        = Returned (MetadataSuccess metadata cached) ->
      CachedSpaceMetadata.private metadata = true ->
      let w1 := after (fetchSpaceMetadata cfg O spaceName hfToken options) w in
      metadataEntries w1 = metadataEntries w /\
      schemaEntries w1 = schemaEntries w /\
      size (metadataEntries w1) = size (metadataEntries w) /\
      size (schemaEntries w1) = size (schemaEntries w)) /\
  (forall metadata hfToken timeout w,
      CachedSpaceMetadata.private metadata = true ->
      let w1 := after (fetchSchema cfg O metadata hfToken timeout) w in
      metadataEntries w1 = metadataEntries w /\
      schemaEntries w1 = schemaEntries w /\
      size (metadataEntries w1) = size (metadataEntries w) /\
      size (schemaEntries w1) = size (schemaEntries w)).
Proof.
  split; [apply allPublic_initial|].
  split; [intros; now apply getGradioSpaces_keepsPublic|].
  split; [intros; now apply fetchSpaceMetadata_keepsPublic|].
  split.
  - intros spaceName hfToken options w metadata cached Hp Hout Hpriv w1.
    destruct (fetchSpaceMetadata_private cfg O spaceName hfToken options w
                metadata cached Hp Hout Hpriv) as [H1 H2].
    fold w1 in H1, H2. rewrite H1, H2. repeat split.
  - intros metadata hfToken timeout w Hpriv w1.
    destruct (fetchSchema_private cfg O metadata hfToken timeout Hpriv w) as [H1 H2].
    fold w1 in H1, H2. rewrite H1, H2. repeat split.
Qed.

(** *** Batches *)

Lemma sliceList_chunk {A} (l : list A) (i c : Z) :
  0 <= i < Z.of_nat (List.length l) -> 0 < c ->
  Js.sliceList l i (i + c) ++ skipn (Z.to_nat (i + c)) l = skipn (Z.to_nat i) l.
Proof.
  intros Hi Hc. unfold Js.sliceList, Js.relIndex.
  destruct (Z.ltb_spec i 0) as [|_]; [lia|].
  destruct (Z.ltb_spec (i + c) 0) as [|_]; [lia|].
  rewrite (Z.min_l i) by lia.
  destruct (Z.le_gt_cases (i + c) (Z.of_nat (List.length l))) as [Hle|Hgt].
  - rewrite Z.min_l by lia.
    replace (Z.to_nat (i + c)) with (Z.to_nat (i + c - i) + Z.to_nat i)%nat by lia.
    rewrite <- List.skipn_skipn. apply firstn_skipn.
  - rewrite Z.min_r by lia.
    assert (Hall : (List.length l <= Z.to_nat (i + c))%nat) by lia.
    rewrite (List.skipn_all2 _ Hall), app_nil_r.
    apply List.firstn_all2. rewrite List.length_skipn. lia.
Qed.

(** With a positive concurrency the loop ends within the bound, and the
    batches are the list of names cut into pieces. *)
Lemma batchLoop_ends (fuel : nat) (spaceNames : list string) (c i : Z) :
  0 < c -> 0 <= i ->
  Z.of_nat (List.length spaceNames) - i < Z.of_nat fuel -> (1 <= fuel)%nat ->
  exists batches,
    batchLoop fuel spaceNames c i = Some batches /\
    concat batches = skipn (Z.to_nat i) spaceNames.
Proof.
  intros Hc. revert i. induction fuel as [|fuel IH]; intros i Hi Hfuel H1; [lia|].
  simpl. destruct (Z.ltb_spec i (Z.of_nat (List.length spaceNames))) as [Hlt|Hge].
  - destruct (IH (i + c)) as (batches & Hb & Hconcat); [lia | lia | lia |].
    rewrite Hb. eexists. split; [reflexivity|]. simpl. rewrite Hconcat.
    apply sliceList_chunk; lia.
  - exists []. split; [reflexivity|]. simpl. symmetry. apply List.skipn_all2. lia.
Qed.

(** With a concurrency of zero or less the loop never gets past the first
    name: no bound is enough. *)
Lemma batchLoop_never_ends (fuel : nat) (spaceNames : list string) (c i : Z) :
  c <= 0 -> i < Z.of_nat (List.length spaceNames) ->
  batchLoop fuel spaceNames c i = None.
Proof.
  intros Hc. revert i. induction fuel as [|fuel IH]; intros i Hi; [reflexivity|].
  simpl. destruct (Z.ltb_spec i (Z.of_nat (List.length spaceNames))); [|lia].
  rewrite IH by lia. reflexivity.
Qed.

Lemma makeBatches_run (spaceNames : list string) (c : Z) (w : World.t) :
  0 < c ->
  exists batches,
    makeBatches spaceNames c w = (Returned batches, w) /\ concat batches = spaceNames.
Proof.
  intros Hc. unfold makeBatches.
  destruct (batchLoop_ends (S (List.length spaceNames)) spaceNames c 0)
    as (batches & Hb & Hconcat); [lia | lia | lia | lia |].
  rewrite Hb. exists batches. split; [reflexivity | exact Hconcat].
Qed.

(** *** Every fetch returns *)

Lemma metadata_get_returns cfg O spaceName : returns (metadata_get cfg O spaceName).
Proof.
  intros w. unfold outcome. rewrite metadata_get_run.
  destruct (metadataEntries w !! spaceName); [destruct (_ <? _)|]; eexists; reflexivity.
Qed.

Lemma schema_get_returns cfg O spaceName : returns (schema_get cfg O spaceName).
Proof.
  intros w. unfold outcome. rewrite schema_get_run.
  destruct (schemaEntries w !! spaceName); [destruct (_ <? _)|]; eexists; reflexivity.
Qed.

Lemma fetchHub_returns O request : returns (fetchHub O request).
Proof. intros w. eexists. reflexivity. Qed.

Lemma fetchSpace_returns O request : returns (fetchSpace O request).
Proof. intros w. eexists. reflexivity. Qed.

Lemma fetchSpaceMetadata_start_returns cfg O spaceName hfToken options :
  returns (fetchSpaceMetadata_start cfg O spaceName hfToken options).
Proof.
  unfold fetchSpaceMetadata_start.
  apply returns_bind; [apply metadata_get_returns|].
  intros [cached|]; [apply returns_ret|].
  apply returns_bind; [apply returns_gets|]. intros st.
  apply returns_bind; [apply fetchHub_returns|]. intros settled. apply returns_ret.
Qed.

Lemma metadata_updateTimestamp_returns O spaceName :
  returns (metadata_updateTimestamp O spaceName).
Proof.
  intros w. unfold outcome. rewrite metadata_updateTimestamp_run.
  destruct (metadataEntries w !! spaceName); eexists; reflexivity.
Qed.

Lemma freshMetadata_ends O spaceName response : ends (freshMetadata O spaceName response).
Proof.
  unfold freshMetadata. apply ends_bind; [apply ends_settle|]. intros info.
  destruct (negb _); [apply ends_throw|].
  apply ends_bind; [apply ends_returns, Date_now_returns|]. intros t.
  apply ends_bind; [|intros; apply ends_ret].
  destruct (negb _); [apply ends_returns, returns_modify | apply ends_ret].
Qed.

(** The [catch] of [fetchSpaceMetadata] turns every exception into a
    result: the call never throws. *)
Lemma fetchSpaceMetadata_resume_returns cfg O pending :
  returns (fetchSpaceMetadata_resume cfg O pending).
Proof.
  unfold fetchSpaceMetadata_resume.
  apply returns_tryCatch; [|intros e; apply returns_ret].
  apply ends_bind; [apply ends_settle|]. intros response.
  destruct (stale pending) as [st|].
  - destruct (_ =? 304).
    + apply ends_returns.
      apply returns_bind; [apply metadata_updateTimestamp_returns|]. intros _.
      apply returns_bind; [|intros; apply returns_ret].
      unfold staleAfterUpdate. apply returns_bind; [apply returns_gets|].
      intros; apply returns_ret.
    + destruct (negb _); [apply ends_throw | apply freshMetadata_ends].
  - destruct (negb _); [apply ends_throw | apply freshMetadata_ends].
Qed.

Lemma metadataFinish_returns cfg O started : returns (metadataFinish cfg O started).
Proof.
  destruct started; simpl; [apply returns_ret | apply fetchSpaceMetadata_resume_returns].
Qed.

Lemma fetchSpaceMetadata_returns cfg O spaceName hfToken options :
  returns (fetchSpaceMetadata cfg O spaceName hfToken options).
Proof.
  unfold fetchSpaceMetadata.
  apply returns_bind; [apply fetchSpaceMetadata_start_returns | apply metadataFinish_returns].
Qed.

Lemma metadataBatch_returns cfg O hfToken options batch :
  returns (metadataBatch cfg O hfToken options batch).
Proof.
  unfold metadataBatch. apply returns_bind.
  - apply returns_mapM. intros n. apply fetchSpaceMetadata_start_returns.
  - intros started. apply returns_mapM. apply metadataFinish_returns.
Qed.

Lemma fetchSchema_start_returns cfg O metadata hfToken timeout :
  returns (fetchSchema_start cfg O metadata hfToken timeout).
Proof.
  unfold fetchSchema_start.
  apply returns_bind; [apply schema_get_returns|].
  intros [cached|]; [apply returns_ret|].
  apply returns_bind; [apply fetchSpace_returns|]. intros settled. apply returns_ret.
Qed.

(** Likewise for [fetchSchema]. *)
Lemma fetchSchema_resume_returns cfg O pending :
  returns (fetchSchema_resume cfg O pending).
Proof.
  unfold fetchSchema_resume.
  apply returns_tryCatch; [|intros e; apply returns_ret].
  apply ends_bind; [apply ends_settle|]. intros response.
  destruct (negb _); [apply ends_throw|].
  apply ends_bind; [apply ends_settle|]. intros schemaResponse.
  apply ends_bind; [apply ends_settle|]. intros parsed.
  apply ends_bind; [apply ends_settle|]. intros tools.
  apply ends_bind; [apply ends_returns, Date_now_returns|]. intros t.
  apply ends_bind; [|intros; apply ends_ret].
  destruct (negb _); [apply ends_returns, returns_modify | apply ends_ret].
Qed.

Lemma schemaFinish_returns cfg O started : returns (schemaFinish cfg O started).
Proof.
  destruct started; simpl; [apply returns_ret | apply fetchSchema_resume_returns].
Qed.

Lemma fetchSchema_returns cfg O metadata hfToken timeout :
  returns (fetchSchema cfg O metadata hfToken timeout).
Proof.
  unfold fetchSchema.
  apply returns_bind; [apply fetchSchema_start_returns | apply schemaFinish_returns].
Qed.

Lemma schemaBatch_returns cfg O hfToken timeout metadataList :
  returns (schemaBatch cfg O hfToken timeout metadataList).
Proof.
  unfold schemaBatch. apply returns_bind.
  - apply returns_mapM. intros md. apply fetchSchema_start_returns.
  - intros started. apply returns_mapM. apply schemaFinish_returns.
Qed.

(** *** One result for each space *)

Definition metadataResultName (r : SpaceMetadataResult) : string :=
  match r with
  | MetadataSuccess metadata _ => CachedSpaceMetadata.name metadata
  | MetadataFailure spaceName _ => spaceName
  end.

Definition schemaResultName (r : SchemaResult) : string :=
  match r with
  | SchemaSuccess spaceName _ _ => spaceName
  | SchemaFailure spaceName _ => spaceName
  end.

(** Every entry of the metadata cache is stored under its own name: the
    code calls [set] with [metadata.name] equal to the key. *)
Definition keyedByName (w : World.t) : Prop :=
  map_Forall (fun k entry => CachedSpaceMetadata.name entry = k) (metadataEntries w).

Definition keepsKeys (w w' : World.t) : Prop := keyedByName w -> keyedByName w'.

#[export] Instance keepsKeys_preorder : PreOrder keepsKeys.
Proof. split; [intros w H; exact H | intros a b c H1 H2 H; auto]. Qed.

Lemma keyedByName_initial : keyedByName World.initial.
Proof. apply map_Forall_empty. Qed.

Lemma metadataUntouched_keepsKeys w w' : metadataUntouched w w' -> keepsKeys w w'.
Proof. intros H Hk. unfold keyedByName. now rewrite H. Qed.

Lemma sameEntries_keepsKeys w w' : sameEntries w w' -> keepsKeys w w'.
Proof. intros H. now apply metadataUntouched_keepsKeys, sameEntries_metadataUntouched. Qed.

Lemma metadata_updateTimestamp_keepsKeys O spaceName :
  steps keepsKeys (metadata_updateTimestamp O spaceName).
Proof.
  intros w Hk. unfold after. rewrite metadata_updateTimestamp_run.
  destruct (metadataEntries w !! spaceName) as [entry|] eqn:E; [|exact Hk].
  unfold keyedByName. cbn. apply map_Forall_insert_2; [|exact Hk].
  exact (Hk _ _ E).
Qed.

Lemma freshMetadata_keepsKeys O spaceName response :
  steps keepsKeys (freshMetadata O spaceName response).
Proof.
  unfold freshMetadata.
  apply steps_bind; [exact _ | apply steps_settle; exact _ |]. intros info.
  destruct (negb (Js.truthyStr (infoSubdomain info))); [apply steps_throw; exact _|].
  apply steps_bind; [exact _ | |].
  { eapply steps_weaken; [apply sameEntries_keepsKeys | apply Date_now_same]. }
  intros t. apply steps_bind; [exact _ | | intros _; apply steps_ret; exact _].
  destruct (negb _); [|apply steps_ret; exact _].
  intros w Hk. unfold after, keyedByName. cbn.
  apply map_Forall_insert_2; [reflexivity | exact Hk].
Qed.

Lemma fetchSpaceMetadata_resume_keepsKeys cfg O pending :
  steps keepsKeys (fetchSpaceMetadata_resume cfg O pending).
Proof.
  unfold fetchSpaceMetadata_resume.
  apply steps_tryCatch; [exact _ | | intros e; apply steps_ret; exact _].
  apply steps_bind; [exact _ | apply steps_settle; exact _ |]. intros response.
  destruct (stale pending) as [st|].
  - destruct (hubStatus response =? 304).
    + apply steps_bind; [exact _ | apply metadata_updateTimestamp_keepsKeys |].
      intros _. apply steps_bind; [exact _ | |].
      { eapply steps_weaken; [apply sameEntries_keepsKeys | apply staleAfterUpdate_same]. }
      intros md. apply steps_ret. exact _.
    + destruct (negb (ok (hubStatus response))); [apply steps_throw; exact _|].
      apply freshMetadata_keepsKeys.
  - destruct (negb (ok (hubStatus response))); [apply steps_throw; exact _|].
    apply freshMetadata_keepsKeys.
Qed.

(** What the first half of a fetch for [spaceName] hands over. *)
Definition startedFor (spaceName : string) (started : SpaceMetadataResult + PendingMetadata)
    : Prop :=
  match started with
  | inl result => metadataResultName result = spaceName
  | inr pending =>
      pendingSpaceName pending = spaceName /\
      forall st, stale pending = Some st -> CachedSpaceMetadata.name st = spaceName
  end.

Lemma fetchSpaceMetadata_start_named cfg O spaceName hfToken options :
  triple keyedByName (fetchSpaceMetadata_start cfg O spaceName hfToken options)
    (startedFor spaceName).
Proof.
  intros w Hk. split.
  - exact (sameEntries_keepsKeys _ _
             (fetchSpaceMetadata_start_same cfg O spaceName hfToken options w) Hk).
  - intros started Hout.
    destruct (fetchSpaceMetadata_start_cases cfg O spaceName hfToken options w)
      as [(entry & Hentry & Hs)|(pending & Hs & Hname & Hstale)];
      rewrite Hs in Hout; injection Hout as <-; simpl.
    + exact (Hk _ _ Hentry).
    + split; [exact Hname|]. intros st Hst. rewrite Hstale in Hst. exact (Hk _ _ Hst).
Qed.

Lemma freshMetadata_named O spaceName response w result w' :
  freshMetadata O spaceName response w = (Returned result, w') ->
  metadataResultName result = spaceName.
Proof.
  unfold freshMetadata, bind, settle.
  destruct (hubJson response) as [e|info]; cbn; [discriminate|].
  destruct (negb (Js.truthyStr (infoSubdomain info))); cbn; [discriminate|].
  destruct (default false (infoPrivate info)); cbn; now intros [= <- _].
Qed.

Lemma staleAfterUpdate_named spaceName st w metadata w' :
  staleAfterUpdate spaceName st w = (Returned metadata, w') ->
  CachedSpaceMetadata.name metadata = CachedSpaceMetadata.name st.
Proof.
  unfold staleAfterUpdate, bind, metadata_getForRevalidation, gets. cbn.
  intros [= <- _]. now destruct (metadataEntries w !! spaceName).
Qed.

Lemma fetchSpaceMetadata_resume_named cfg O pending w result w' :
  (forall st, stale pending = Some st ->
              CachedSpaceMetadata.name st = pendingSpaceName pending) ->
  fetchSpaceMetadata_resume cfg O pending w = (Returned result, w') ->
  metadataResultName result = pendingSpaceName pending.
Proof.
  intros Hstale Hrun. unfold fetchSpaceMetadata_resume in Hrun.
  apply tryCatch_inv in Hrun as [Hrun|(e & w1 & _ & Hh)];
    [|apply ret_inv in Hh as [-> _]; reflexivity].
  apply bind_inv in Hrun as (response & w1 & Hsettle & Hrun).
  apply settle_inv in Hsettle as [_ ->].
  destruct (stale pending) as [st|] eqn:Est.
  - destruct (hubStatus response =? 304).
    + apply bind_inv in Hrun as ([] & w2 & _ & Hrun).
      apply bind_inv in Hrun as (md & w3 & Hmd & Hret).
      apply ret_inv in Hret as [-> _]. simpl.
      apply staleAfterUpdate_named in Hmd. rewrite Hmd. now apply Hstale.
    + destruct (negb (ok (hubStatus response))); [discriminate Hrun|].
      eapply freshMetadata_named; eassumption.
  - destruct (negb (ok (hubStatus response))); [discriminate Hrun|].
    eapply freshMetadata_named; eassumption.
Qed.

Lemma metadataFinish_named cfg O started :
  triple keyedByName (metadataFinish cfg O started)
    (fun result => forall spaceName,
       startedFor spaceName started -> metadataResultName result = spaceName).
Proof.
  destruct started as [result|pending]; simpl.
  - apply triple_ret. auto.
  - intros w Hk. split; [exact (fetchSpaceMetadata_resume_keepsKeys cfg O pending w Hk)|].
    intros result Hout spaceName [Hname Hstale].
    pose proof (run_eq (fetchSpaceMetadata_resume cfg O pending) w) as Hrun.
    rewrite Hout in Hrun. rewrite <- Hname.
    eapply fetchSpaceMetadata_resume_named; [|exact Hrun].
    intros st Hst. rewrite Hname. now apply Hstale.
Qed.

Lemma Forall2_named {A B C D} (P : A -> B -> Prop) (Q : B -> C -> Prop)
    (f : C -> D) (g : A -> D) (l : list A) (l1 : list B) (l2 : list C) :
  (forall a b c, P a b -> Q b c -> f c = g a) ->
  List.Forall2 P l l1 -> List.Forall2 Q l1 l2 -> map f l2 = map g l.
Proof.
  intros H H1. revert l2. induction H1 as [|a b l l1 Hab _ IH]; intros l2 H2.
  - now inversion H2.
  - inversion H2 as [|? c ? l2' Hbc H2']; subst. simpl. f_equal; [eauto | now apply IH].
Qed.

(** A batch gives one result for each of its names, in order. *)
Lemma metadataBatch_named cfg O hfToken options batch :
  triple keyedByName (metadataBatch cfg O hfToken options batch)
    (fun results => map metadataResultName results = batch).
Proof.
  unfold metadataBatch.
  eapply triple_bind.
  - apply (triple_mapM keyedByName _ startedFor).
    intros spaceName. apply fetchSpaceMetadata_start_named.
  - intros started Hstarted.
    eapply triple_weaken; [|apply triple_mapM; apply metadataFinish_named].
    intros results Hresults. cbv beta in Hresults.
    rewrite <- (map_id batch).
    eapply Forall2_named; [|exact Hstarted|exact Hresults].
    intros n st r Hst Hr. now apply Hr.
Qed.

Lemma fetchSchema_start_named cfg O metadata hfToken timeout w started :
  outcome (fetchSchema_start cfg O metadata hfToken timeout) w = Returned started ->
  match started with
  | inl result => schemaResultName result = CachedSpaceMetadata.name metadata
  | inr pending => pendingMetadata pending = metadata
  end.
Proof.
  unfold outcome, fetchSchema_start. unfold bind at 1. rewrite schema_get_run.
  destruct (schemaEntries w !! CachedSpaceMetadata.name metadata) as [entry|].
  - destruct (_ <? _); cbn; now intros [= <-].
  - cbn. now intros [= <-].
Qed.

Lemma fetchSchema_resume_named cfg O pending w result w' :
  fetchSchema_resume cfg O pending w = (Returned result, w') ->
  schemaResultName result = CachedSpaceMetadata.name (pendingMetadata pending).
Proof.
  intros Hrun. unfold fetchSchema_resume in Hrun.
  apply tryCatch_inv in Hrun as [Hrun|(e & w1 & _ & Hh)];
    [|apply ret_inv in Hh as [-> _]; reflexivity].
  apply bind_inv in Hrun as (response & w1 & _ & Hrun).
  destruct (negb (ok (schemaStatus response))); [discriminate Hrun|].
  apply bind_inv in Hrun as (schemaResponse & w2 & _ & Hrun).
  apply bind_inv in Hrun as (parsed & w3 & _ & Hrun).
  apply bind_inv in Hrun as (tools & w4 & _ & Hrun).
  apply bind_inv in Hrun as (t & w5 & _ & Hrun).
  apply bind_inv in Hrun as ([] & w6 & _ & Hrun).
  apply ret_inv in Hrun as [-> _]. reflexivity.
Qed.

Definition anyState (w : World.t) : Prop := True.

Definition startedSchemaFor (metadata : CachedSpaceMetadata.t)
    (started : SchemaResult + PendingSchema) : Prop :=
  match started with
  | inl result => schemaResultName result = CachedSpaceMetadata.name metadata
  | inr pending => pendingMetadata pending = metadata
  end.

Lemma schemaFinish_named cfg O started :
  triple anyState (schemaFinish cfg O started)
    (fun result => forall metadata,
       startedSchemaFor metadata started ->
       schemaResultName result = CachedSpaceMetadata.name metadata).
Proof.
  destruct started as [result|pending]; simpl.
  - apply triple_ret. auto.
  - intros w _. split; [exact I|].
    intros result Hout metadata <-.
    pose proof (run_eq (fetchSchema_resume cfg O pending) w) as Hrun.
    rewrite Hout in Hrun. eapply fetchSchema_resume_named. exact Hrun.
Qed.

(** The schema phase gives one result for each metadata record it is given,
    in order. *)
Lemma schemaBatch_named cfg O hfToken timeout metadataList :
  triple anyState (schemaBatch cfg O hfToken timeout metadataList)
    (fun results =>
       map schemaResultName results = map CachedSpaceMetadata.name metadataList).
Proof.
  unfold schemaBatch.
  eapply triple_bind.
  - apply (triple_mapM anyState _ startedSchemaFor).
    intros metadata w _. split; [exact I|]. apply fetchSchema_start_named.
  - intros started Hstarted.
    eapply triple_weaken; [|apply triple_mapM; apply schemaFinish_named].
    intros results Hresults. cbv beta in Hresults.
    eapply Forall2_named; [|exact Hstarted|exact Hresults].
    intros md st r Hst Hr. now apply Hr.
Qed.

(** *** The two phases of a discovery

    [getGradioSpaces] hands out the records only.  [discover] is the same
    code that also hands out what each call of [fetchSpaceMetadata] and of
    [fetchSchema] gave, so that the records can be told from the results
    per space. *)

Local Open Scope js_scope.

Definition metadataPhase (cfg : CacheConfig.t) (O : Outside)
    (spaceNames : list string) (hfToken : option string)
    (options : option MetadataOptions.t) : Js (list SpaceMetadataResult) :=
  let concurrency := orElse (options ≫= MetadataOptions.concurrency)
                       (CacheConfig.DISCOVERY_CONCURRENCY cfg) in
  let* batches := makeBatches spaceNames concurrency in
  let* batchResults := mapM (metadataBatch cfg O hfToken options) batches in
  ret (concat batchResults).

Definition schemaPhase (cfg : CacheConfig.t) (O : Outside)
    (metadataList : list CachedSpaceMetadata.t) (hfToken : option string)
    (timeout : option Z) : Js (list SchemaResult) :=
  if (List.length metadataList =? 0)%nat then ret []
  else schemaBatch cfg O hfToken timeout metadataList.

Record Discovered := {
  metadataResults : list SpaceMetadataResult;
  schemaResults : list SchemaResult;
  spaces : list GradioSpaceInfo.t
}.

Definition skipRequested (options : option GetGradioSpacesOptions.t) : bool :=
  default false (options ≫= GetGradioSpacesOptions.skipSchemas).

Definition metadataMapOf (results : list SpaceMetadataResult) : JsMap.t CachedSpaceMetadata.t :=
  fold_left storeMetadata results JsMap.empty.

Definition schemaMapOf (results : list SchemaResult) : JsMap.t CachedSchema.t :=
  fold_left storeSchema results JsMap.empty.

Definition gradioOf (results : list SpaceMetadataResult) : list CachedSpaceMetadata.t :=
  List.filter isGradio (JsMap.values (metadataMapOf results)).

Definition discover (cfg : CacheConfig.t) (O : Outside)
    (spaceNames : list string) (hfToken : option string)
    (options : option GetGradioSpacesOptions.t) : Js Discovered :=
  if (List.length spaceNames =? 0)%nat
  then ret {| metadataResults := []; schemaResults := []; spaces := [] |}
  else
    let* startTime := Date_now O in
    let* metadataResults :=
      metadataPhase cfg O spaceNames hfToken
        (Some {| MetadataOptions.includeRuntime := options ≫= GetGradioSpacesOptions.includeRuntime;
                 MetadataOptions.timeout := options ≫= GetGradioSpacesOptions.timeout;
                 MetadataOptions.concurrency := Some (CacheConfig.DISCOVERY_CONCURRENCY cfg) |}) in
    let skipSchemas := skipRequested options in
    let* schemaResults :=
      (if negb skipSchemas && (0 <? List.length (gradioOf metadataResults))%nat
       then schemaPhase cfg O (gradioOf metadataResults) hfToken
              (options ≫= GetGradioSpacesOptions.timeout)
       else ret []) in
    let* endTime := Date_now O in
    ret {| metadataResults := metadataResults;
           schemaResults := schemaResults;
           spaces := combineMetadataAndSchemas (metadataMapOf metadataResults)
                       (schemaMapOf schemaResults) skipSchemas |}.

Lemma forEachBatch_collect cfg O hfToken options batches results w :
  forEachBatch cfg O hfToken options batches results w
  = bind (mapM (metadataBatch cfg O hfToken options) batches)
         (fun batchResults => ret (fold_left storeMetadata (concat batchResults) results)) w.
Proof.
  revert results w. induction batches as [|batch rest IH]; intros results w; simpl.
  - reflexivity.
  - rewrite bind_assoc. apply bind_cong. intros batchResults w1.
    rewrite IH, bind_assoc. apply bind_cong. intros restResults w2.
    rewrite bind_ret_l. simpl. now rewrite fold_left_app.
Qed.

Lemma fetchSpaceMetadataWithCache_phase cfg O spaceNames hfToken options w :
  fetchSpaceMetadataWithCache cfg O spaceNames hfToken options w
  = bind (metadataPhase cfg O spaceNames hfToken options)
         (fun results => ret (metadataMapOf results)) w.
Proof.
  unfold fetchSpaceMetadataWithCache, metadataPhase.
  rewrite bind_assoc. apply bind_cong. intros batches w1.
  rewrite forEachBatch_collect, bind_assoc. apply bind_cong. intros batchResults w2.
  now rewrite bind_ret_l.
Qed.

Lemma fetchSchemasWithCache_phase cfg O metadataList hfToken timeout w :
  fetchSchemasWithCache cfg O metadataList hfToken timeout w
  = bind (schemaPhase cfg O metadataList hfToken timeout)
         (fun results => ret (schemaMapOf results)) w.
Proof.
  unfold fetchSchemasWithCache, schemaPhase.
  destruct (_ =? _)%nat; reflexivity.
Qed.

(** [getGradioSpaces] is [discover] with the results per space dropped. *)
Lemma getGradioSpaces_discover cfg O spaceNames hfToken options w :
  getGradioSpaces cfg O spaceNames hfToken options w
  = bind (discover cfg O spaceNames hfToken options) (fun run => ret (spaces run)) w.
Proof.
  unfold getGradioSpaces, discover.
  destruct (_ =? _)%nat; [reflexivity|].
  rewrite bind_assoc. apply bind_cong. intros startTime w1.
  erewrite bind_cong_l by apply fetchSpaceMetadataWithCache_phase.
  rewrite !bind_assoc. apply bind_cong. intros results w2.
  rewrite bind_ret_l. fold (skipRequested options). fold (gradioOf results).
  destruct (negb (skipRequested options) && (0 <? List.length (gradioOf results))%nat).
  - erewrite bind_cong_l by apply fetchSchemasWithCache_phase.
    rewrite !bind_assoc. apply bind_cong. intros schemas w3.
    rewrite bind_ret_l, bind_assoc. apply bind_cong. intros endTime w4.
    reflexivity.
  - rewrite bind_assoc, !bind_ret_l, bind_assoc. apply bind_cong. intros endTime w4.
    reflexivity.
Qed.

(** *** What a run of [discover] gives *)

Lemma triple_keyed {A} (m : Js A) (Q : A -> Prop) :
  steps keepsKeys m -> triple anyState m Q -> triple keyedByName m Q.
Proof.
  intros Hsteps Hm w Hk. split; [exact (Hsteps w Hk)|]. now apply Hm.
Qed.

Lemma triple_any {A} (m : Js A) : triple anyState m (fun _ => True).
Proof. intros w _. split; [exact I | auto]. Qed.

Lemma concat_named (batches : list (list string)) (batchResults : list (list SpaceMetadataResult)) :
  List.Forall2 (fun batch results => map metadataResultName results = batch)
    batches batchResults ->
  map metadataResultName (concat batchResults) = concat batches.
Proof.
  induction 1 as [|batch results batches' batchResults' H _ IH]; simpl; [reflexivity|].
  now rewrite map_app, H, IH.
Qed.

Lemma metadataPhase_named cfg O spaceNames hfToken options :
  0 < orElse (options ≫= MetadataOptions.concurrency) (CacheConfig.DISCOVERY_CONCURRENCY cfg) ->
  triple keyedByName (metadataPhase cfg O spaceNames hfToken options)
    (fun results => map metadataResultName results = spaceNames).
Proof.
  intros Hc. unfold metadataPhase.
  eapply triple_bind with (Q1 := fun batches => concat batches = spaceNames).
  - intros w Hk. destruct (makeBatches_run spaceNames _ w Hc) as (batches & Hrun & Hconcat).
    unfold after, outcome. rewrite Hrun. simpl. split; [exact Hk|].
    now intros ? [= <-].
  - intros batches Hconcat.
    eapply triple_bind; [apply triple_mapM; apply metadataBatch_named|].
    intros batchResults Hresults. apply triple_ret.
    rewrite <- Hconcat. now apply concat_named.
Qed.

Lemma metadataPhase_returns cfg O spaceNames hfToken options :
  0 < orElse (options ≫= MetadataOptions.concurrency) (CacheConfig.DISCOVERY_CONCURRENCY cfg) ->
  returns (metadataPhase cfg O spaceNames hfToken options).
Proof.
  intros Hc. unfold metadataPhase. apply returns_bind.
  - intros w. destruct (makeBatches_run spaceNames _ w Hc) as (batches & Hrun & _).
    exists batches. unfold outcome. now rewrite Hrun.
  - intros batches. apply returns_bind; [|intros; apply returns_ret].
    apply returns_mapM. apply metadataBatch_returns.
Qed.

Lemma schemaPhase_named cfg O metadataList hfToken timeout :
  triple keyedByName (schemaPhase cfg O metadataList hfToken timeout)
    (fun results =>
       map schemaResultName results = map CachedSpaceMetadata.name metadataList).
Proof.
  unfold schemaPhase. destruct (List.length metadataList =? 0)%nat eqn:E.
  - apply Nat.eqb_eq, List.length_zero_iff_nil in E. subst. apply triple_ret. reflexivity.
  - apply triple_keyed; [|apply schemaBatch_named].
    eapply steps_weaken; [apply metadataUntouched_keepsKeys
                         | apply schemaBatch_metadataUntouched].
Qed.

Lemma schemaPhase_returns cfg O metadataList hfToken timeout :
  returns (schemaPhase cfg O metadataList hfToken timeout).
Proof.
  unfold schemaPhase. destruct (_ =? _)%nat; [apply returns_ret | apply schemaBatch_returns].
Qed.

Lemma Date_now_keyed O : triple keyedByName (Date_now O) (fun _ => True).
Proof.
  apply triple_keyed; [|apply triple_any].
  eapply steps_weaken; [apply sameEntries_keepsKeys | apply Date_now_same].
Qed.

(** What the results per space and the records of one run have to do with
    each other and with the names asked for. *)
Record consistent (spaceNames : list string) (skipSchemas : bool) (run : Discovered)
    : Prop := {
  one_result_per_name : map metadataResultName (metadataResults run) = spaceNames;
  schemas_for_gradio :
    skipSchemas = false ->
    map schemaResultName (schemaResults run)
    = map CachedSpaceMetadata.name (gradioOf (metadataResults run));
  records_combined :
    spaces run = combineMetadataAndSchemas (metadataMapOf (metadataResults run))
                   (schemaMapOf (schemaResults run)) skipSchemas
}.

Lemma discover_consistent cfg O spaceNames hfToken options :
  0 < CacheConfig.DISCOVERY_CONCURRENCY cfg ->
  triple keyedByName (discover cfg O spaceNames hfToken options)
    (consistent spaceNames (skipRequested options)).
Proof.
  intros Hc. unfold discover.
  destruct spaceNames as [|n0 rest] eqn:E.
  { apply triple_ret. split; simpl; [reflexivity | reflexivity |].
    now destruct (skipRequested options). }
  rewrite <- E. replace (List.length spaceNames =? 0)%nat with false by now subst.
  eapply triple_bind; [apply Date_now_keyed|]. intros startTime _.
  eapply triple_bind.
  { apply metadataPhase_named. simpl.
    destruct (Z.eqb_spec (CacheConfig.DISCOVERY_CONCURRENCY cfg) 0); lia. }
  intros results Hresults. cbv beta zeta.
  eapply triple_bind with
    (Q1 := fun schemas =>
             skipRequested options = false ->
             map schemaResultName schemas
             = map CachedSpaceMetadata.name (gradioOf results)).
  { destruct (skipRequested options); simpl.
    - apply triple_ret. discriminate.
    - destruct (gradioOf results) as [|g gs] eqn:Eg; simpl.
      + apply triple_ret. reflexivity.
      + rewrite <- Eg. eapply triple_weaken; [|apply schemaPhase_named].
        intros schemas Hs _. cbv beta in Hs. now rewrite Hs, Eg. }
  intros schemas Hschemas.
  eapply triple_bind; [apply Date_now_keyed|]. intros endTime _.
  apply triple_ret. split; simpl; auto.
Qed.

Lemma discover_returns cfg O spaceNames hfToken options :
  0 < CacheConfig.DISCOVERY_CONCURRENCY cfg ->
  returns (discover cfg O spaceNames hfToken options).
Proof.
  intros Hc. unfold discover.
  destruct (_ =? _)%nat; [apply returns_ret|].
  apply returns_bind; [apply Date_now_returns|]. intros startTime.
  apply returns_bind.
  { apply metadataPhase_returns. simpl.
    destruct (Z.eqb_spec (CacheConfig.DISCOVERY_CONCURRENCY cfg) 0); lia. }
  intros results. cbv beta zeta.
  apply returns_bind.
  { destruct (_ && _); [apply schemaPhase_returns | apply returns_ret]. }
  intros schemas.
  apply returns_bind; [apply Date_now_returns|]. intros endTime. apply returns_ret.
Qed.

(** *** From the results per space to the records *)

Definition metadataEntry (r : SpaceMetadataResult)
    : option (string * CachedSpaceMetadata.t) :=
  match r with
  | MetadataSuccess metadata _ => Some (CachedSpaceMetadata.name metadata, metadata)
  | MetadataFailure _ _ => None
  end.

Definition schemaEntry (r : SchemaResult) : option (string * CachedSchema.t) :=
  match r with
  | SchemaSuccess spaceName schema _ => Some (spaceName, schema)
  | SchemaFailure _ _ => None
  end.

(** The names of the spaces whose metadata, or schema, was delivered. *)
Definition successNames (results : list SpaceMetadataResult) : list string :=
  map fst (omap metadataEntry results).

Definition schemaNames (results : list SchemaResult) : list string :=
  map fst (omap schemaEntry results).

Definition metadataSucceeded (results : list SpaceMetadataResult) (n : string) : Prop :=
  exists metadata cached,
    In (MetadataSuccess metadata cached) results /\ CachedSpaceMetadata.name metadata = n.

Definition metadataFailed (results : list SpaceMetadataResult) (n : string) : Prop :=
  exists error, In (MetadataFailure n error) results.

Definition schemaSucceeded (results : list SchemaResult) (n : string) : Prop :=
  exists schema cached, In (SchemaSuccess n schema cached) results.

Definition schemaFailed (results : list SchemaResult) (n : string) : Prop :=
  exists error, In (SchemaFailure n error) results.

(** The metadata was delivered, and it is not that of a Gradio space with a
    subdomain. *)
Definition filteredOut (results : list SpaceMetadataResult) (n : string) : Prop :=
  exists metadata cached,
    In (MetadataSuccess metadata cached) results /\
    CachedSpaceMetadata.name metadata = n /\ isGradio metadata = false.

(** A space is delivered when its own fetches succeeded: the metadata and,
    unless schemas are skipped, the schema. *)
Definition delivered (skipSchemas : bool) (run : Discovered) (n : string) : Prop :=
  metadataSucceeded (metadataResults run) n /\
  (skipSchemas = true \/ schemaSucceeded (schemaResults run) n).

Definition deliveredb (skipSchemas : bool) (run : Discovered) (n : string) : bool :=
  existsb (String.eqb n) (successNames (metadataResults run))
  && (skipSchemas || existsb (String.eqb n) (schemaNames (schemaResults run))).

Lemma storeMetadata_storeAll results m :
  fold_left storeMetadata results m
  = JsMapFacts.storeAll (omap metadataEntry results) m.
Proof.
  unfold JsMapFacts.storeAll. revert m.
  induction results as [|[metadata cached|n e] t IH]; intros m; simpl;
    [reflexivity | apply IH | apply IH].
Qed.

Lemma storeSchema_storeAll results m :
  fold_left storeSchema results m = JsMapFacts.storeAll (omap schemaEntry results) m.
Proof.
  unfold JsMapFacts.storeAll. revert m.
  induction results as [|[n schema cached|n e] t IH]; intros m; simpl;
    [reflexivity | apply IH | apply IH].
Qed.

Lemma In_metadataEntries k metadata results :
  In (k, metadata) (omap metadataEntry results) <->
  k = CachedSpaceMetadata.name metadata /\
  exists cached, In (MetadataSuccess metadata cached) results.
Proof.
  induction results as [|[metadata' cached'|n e] t IH]; simpl.
  - split; [tauto | intros [_ [c []]]].
  - rewrite IH. split.
    + intros [[= <- <-]|[Hk [c Hc]]]; (split; [easy | eauto]).
    + intros [Hk [c [[= -> ->]|Hc]]]; [left; now subst | right; eauto].
  - rewrite IH. split.
    + intros [Hk [c Hc]]. eauto.
    + intros [Hk [c [[=]|Hc]]]. eauto.
Qed.

Lemma In_schemaEntries k schema results :
  In (k, schema) (omap schemaEntry results) <->
  exists cached, In (SchemaSuccess k schema cached) results.
Proof.
  induction results as [|[n schema' cached'|n e] t IH]; simpl.
  - split; [tauto | intros [c []]].
  - rewrite IH. split.
    + intros [[= <- <-]|[c Hc]]; eauto.
    + intros [c [[= -> -> ->]|Hc]]; [now left | right; eauto].
  - rewrite IH. split.
    + intros [c Hc]. eauto.
    + intros [c [[=]|Hc]]. eauto.
Qed.

Lemma In_successNames results n :
  In n (successNames results) <-> metadataSucceeded results n.
Proof.
  unfold successNames, metadataSucceeded. rewrite in_map_iff. split.
  - intros [[k metadata] [Hfst Hin]]. simpl in Hfst. subst k.
    apply In_metadataEntries in Hin as [-> [c Hc]]. eauto.
  - intros (metadata & c & Hin & <-).
    exists (CachedSpaceMetadata.name metadata, metadata). split; [reflexivity|].
    apply In_metadataEntries. eauto.
Qed.

Lemma In_schemaNames results n :
  In n (schemaNames results) <-> schemaSucceeded results n.
Proof.
  unfold schemaNames, schemaSucceeded. rewrite in_map_iff. split.
  - intros [[k schema] [Hfst Hin]]. simpl in Hfst. subst k.
    apply In_schemaEntries in Hin as [c Hc]. eauto.
  - intros (schema & c & Hin). exists (n, schema). split; [reflexivity|].
    apply In_schemaEntries. eauto.
Qed.

Lemma successNames_results results n :
  In n (successNames results) -> In n (map metadataResultName results).
Proof.
  rewrite In_successNames. intros (metadata & c & Hin & <-).
  change (CachedSpaceMetadata.name metadata)
    with (metadataResultName (MetadataSuccess metadata c)).
  now apply in_map.
Qed.

Lemma deliveredb_spec skipSchemas run n :
  deliveredb skipSchemas run n = true <-> delivered skipSchemas run n.
Proof.
  unfold deliveredb, delivered.
  rewrite andb_true_iff, orb_true_iff, !SelectionFacts.existsb_eqb_In,
    In_successNames, In_schemaNames.
  reflexivity.
Qed.

Lemma metadataMapOf_entries k metadata results :
  In (k, metadata) (metadataMapOf results) ->
  k = CachedSpaceMetadata.name metadata /\
  exists cached, In (MetadataSuccess metadata cached) results.
Proof.
  unfold metadataMapOf. rewrite storeMetadata_storeAll. intros H.
  apply JsMapFacts.In_storeAll in H as [[]|H]. now apply In_metadataEntries.
Qed.

Lemma In_dedup (l : list string) (x : string) : In x (Js.dedup l) <-> In x l.
Proof. unfold Js.dedup. rewrite SelectionFacts.In_dedupAcc. simpl. tauto. Qed.

Lemma keys_metadataMapOf results :
  JsMap.keys (metadataMapOf results) = Js.dedup (successNames results).
Proof.
  unfold metadataMapOf. rewrite storeMetadata_storeAll.
  apply JsMapFacts.keys_storeAll_empty.
Qed.

Lemma keys_schemaMapOf results :
  JsMap.keys (schemaMapOf results) = Js.dedup (schemaNames results).
Proof.
  unfold schemaMapOf. rewrite storeSchema_storeAll.
  apply JsMapFacts.keys_storeAll_empty.
Qed.

Lemma schemaMapOf_has k results :
  bool_decide (is_Some (JsMap.get k (schemaMapOf results)))
  = existsb (String.eqb k) (schemaNames results).
Proof.
  apply eq_true_iff_eq.
  rewrite bool_decide_eq_true, JsMapFacts.get_is_Some, keys_schemaMapOf, In_dedup,
    SelectionFacts.existsb_eqb_In.
  reflexivity.
Qed.

(** The names of the records: the keys of the metadata map, in order, that
    pass the schema test of [combineMetadataAndSchemas]. *)
Lemma combine_names (m : JsMap.t CachedSpaceMetadata.t) (schemaMap : JsMap.t CachedSchema.t)
    (skipSchemas : bool) :
  (forall k metadata, In (k, metadata) m -> CachedSpaceMetadata.name metadata = k) ->
  map GradioSpaceInfo.name (combineMetadataAndSchemas m schemaMap skipSchemas)
  = List.filter (fun k => skipSchemas || bool_decide (is_Some (JsMap.get k schemaMap)))
      (JsMap.keys m).
Proof.
  unfold combineMetadataAndSchemas.
  induction m as [|[k metadata] rest IH]; intros H; [reflexivity|].
  cbn [flat_map JsMap.keys map fst List.filter]. rewrite map_app.
  fold (JsMap.keys rest). rewrite IH by (intros; apply H; now right).
  unfold combineOne.
  destruct skipSchemas, (bool_decide (is_Some (JsMap.get k schemaMap))); cbn;
    try reflexivity; f_equal; apply H; now left.
Qed.

Lemma record_names metadataResults schemaResults skipSchemas :
  map GradioSpaceInfo.name
    (combineMetadataAndSchemas (metadataMapOf metadataResults)
       (schemaMapOf schemaResults) skipSchemas)
  = List.filter (fun n => skipSchemas || existsb (String.eqb n) (schemaNames schemaResults))
      (Js.dedup (successNames metadataResults)).
Proof.
  rewrite combine_names.
  - rewrite keys_metadataMapOf. apply List.filter_ext. intros n.
    now rewrite schemaMapOf_has.
  - intros k metadata H. apply metadataMapOf_entries in H as [-> _]. reflexivity.
Qed.

(** When no name is asked for twice, the spaces with metadata are the names
    asked for, less those whose fetch failed. *)
Lemma successNames_filter results :
  List.NoDup (map metadataResultName results) ->
  List.filter (fun n => existsb (String.eqb n) (successNames results))
    (map metadataResultName results)
  = successNames results.
Proof.
  induction results as [|[metadata cached|n e] t IH]; intros Hnd;
    [reflexivity| |]; inversion Hnd as [|? ? Hnotin Hnd']; subst.
  - change (successNames (MetadataSuccess metadata cached :: t))
      with (CachedSpaceMetadata.name metadata :: successNames t).
    cbn [map metadataResultName List.filter existsb]. rewrite String.eqb_refl.
    cbn [orb]. f_equal. etransitivity; [|exact (IH Hnd')].
    apply List.filter_ext_in. intros x Hx.
    destruct (String.eqb_spec x (CachedSpaceMetadata.name metadata)) as [->|_];
      [contradiction | reflexivity].
  - change (successNames (MetadataFailure n e :: t)) with (successNames t).
    cbn [map metadataResultName List.filter].
    destruct (existsb (String.eqb n) (successNames t)) eqn:E.
    + apply SelectionFacts.existsb_eqb_In, successNames_results in E. contradiction.
    + now apply IH.
Qed.

Lemma successNames_NoDup results :
  List.NoDup (map metadataResultName results) -> List.NoDup (successNames results).
Proof.
  intros H. rewrite <- (successNames_filter results H). now apply List.NoDup_filter.
Qed.

Lemma filter_complement {A} (p : A -> bool) (l : list A) :
  (List.length (List.filter p l)
   + List.length (List.filter (fun x => negb (p x)) l) = List.length l)%nat.
Proof.
  induction l as [|x t IH]; simpl; [reflexivity|].
  destruct (p x); simpl; lia.
Qed.

Section Records.
Variables (spaceNames : list string) (skipSchemas : bool) (run : Discovered).
Hypothesis Hrun : consistent spaceNames skipSchemas run.

Lemma spaces_names :
  map GradioSpaceInfo.name (spaces run)
  = List.filter
      (fun n => skipSchemas || existsb (String.eqb n) (schemaNames (schemaResults run)))
      (Js.dedup (successNames (metadataResults run))).
Proof. rewrite (records_combined _ _ _ Hrun). apply record_names. Qed.

Lemma spaces_delivered n :
  In n (map GradioSpaceInfo.name (spaces run)) <-> delivered skipSchemas run n.
Proof.
  rewrite spaces_names, filter_In, In_dedup, <- deliveredb_spec.
  unfold deliveredb. rewrite andb_true_iff, SelectionFacts.existsb_eqb_In. reflexivity.
Qed.

Lemma spaces_NoDup : List.NoDup (map GradioSpaceInfo.name (spaces run)).
Proof. rewrite spaces_names. apply List.NoDup_filter, SelectionFacts.NoDup_dedupAcc. Qed.

Lemma spaces_exact :
  List.NoDup spaceNames ->
  map GradioSpaceInfo.name (spaces run) = List.filter (deliveredb skipSchemas run) spaceNames.
Proof.
  intros Hnd. rewrite spaces_names.
  pose proof (one_result_per_name _ _ _ Hrun) as Hnames.
  rewrite <- Hnames in Hnd.
  rewrite (JsMapFacts.dedup_NoDup _ (successNames_NoDup _ Hnd)).
  rewrite <- (successNames_filter _ Hnd) at 1. rewrite Hnames.
  rewrite SelectionFacts.filter_twice. reflexivity.
Qed.

(** A name asked for is missing from the records only for a reason of its
    own: its metadata fetch failed, its schema fetch failed, or its metadata
    is not that of a Gradio space with a subdomain. *)
Lemma missing_explained n :
  In n spaceNames ->
  ~ In n (map GradioSpaceInfo.name (spaces run)) ->
  metadataFailed (metadataResults run) n \/
  (skipSchemas = false /\
   (schemaFailed (schemaResults run) n \/ filteredOut (metadataResults run) n)).
Proof.
  intros Hin Hmissing. rewrite spaces_delivered in Hmissing.
  rewrite <- (one_result_per_name _ _ _ Hrun) in Hin.
  apply in_map_iff in Hin as ([metadata cached|n' e] & Hname & Hin); simpl in Hname; subst.
  2:{ left. now exists e. }
  right.
  assert (Hm : metadataSucceeded (metadataResults run) (CachedSpaceMetadata.name metadata))
    by (exists metadata, cached; auto).
  destruct skipSchemas eqn:Eskip; [exfalso; apply Hmissing; split; auto|].
  split; [reflexivity|].
  assert (Hkey : In (CachedSpaceMetadata.name metadata)
                   (JsMap.keys (metadataMapOf (metadataResults run)))).
  { rewrite keys_metadataMapOf, In_dedup. now apply In_successNames. }
  apply JsMapFacts.get_is_Some in Hkey as [stored Hstored].
  apply JsMapFacts.get_Some_In in Hstored.
  destruct (metadataMapOf_entries _ _ _ Hstored) as [Hk [c Hc]].
  destruct (isGradio stored) eqn:Eg; [|right; exists stored, c; auto].
  left.
  assert (Hs : In (CachedSpaceMetadata.name metadata)
                 (map schemaResultName (schemaResults run))).
  { rewrite (schemas_for_gradio _ _ _ Hrun eq_refl), Hk.
    apply in_map. apply filter_In. split; [|exact Eg].
    change stored with (snd (CachedSpaceMetadata.name metadata, stored)).
    now apply in_map. }
  apply in_map_iff in Hs as ([k schema c'|k e] & Hk' & Hs); simpl in Hk'; subst k.
  - exfalso. apply Hmissing. split; [exact Hm|]. right. now exists schema, c'.
  - now exists e.
Qed.

End Records.

(** With schemas, every record is that of a Gradio space with a
    subdomain: a record needs a schema, and schemas are fetched for such
    spaces only. *)
Lemma records_with_schemas_are_gradio spaceNames run :
  consistent spaceNames false run ->
  forall record, In record (spaces run) ->
    GradioSpaceInfo.sdk record = "gradio" /\ GradioSpaceInfo.subdomain record <> "".
Proof.
  intros Hrun record Hin.
  rewrite (records_combined _ _ _ Hrun) in Hin.
  unfold combineMetadataAndSchemas in Hin.
  apply in_flat_map in Hin as ([k metadata] & Hentry & Hrec).
  unfold combineOne in Hrec. cbn [negb andb] in Hrec.
  destruct (JsMap.get k (schemaMapOf (schemaResults run))) as [schema|] eqn:Eschema;
    [|destruct Hrec].
  assert (Hk : In k (map schemaResultName (schemaResults run))).
  { apply JsMapFacts.get_Some_In in Eschema.
    unfold schemaMapOf in Eschema. rewrite storeSchema_storeAll in Eschema.
    apply JsMapFacts.In_storeAll in Eschema as [[]|Eschema].
    apply In_schemaEntries in Eschema as [c Hc].
    change k with (schemaResultName (SchemaSuccess k schema c)). now apply in_map. }
  rewrite (schemas_for_gradio _ _ _ Hrun eq_refl) in Hk.
  apply in_map_iff in Hk as (stored & Hname & Hstored).
  apply filter_In in Hstored as [Hstored Hgradio].
  apply in_map_iff in Hstored as ([k' stored'] & Hsnd & Hstored). simpl in Hsnd. subst stored'.
  destruct (metadataMapOf_entries _ _ _ Hstored) as [-> _]. subst k.
  assert (Hnd : List.NoDup (JsMap.keys (metadataMapOf (metadataResults run)))).
  { rewrite keys_metadataMapOf. apply SelectionFacts.NoDup_dedupAcc. }
  pose proof (JsMapFacts.In_get _ _ _ Hnd Hentry) as H1.
  pose proof (JsMapFacts.In_get _ _ _ Hnd Hstored) as H2.
  assert (metadata = stored) by congruence. subst metadata.
  cbn in Hrec. destruct Hrec as [<-|[]]. simpl.
  unfold isGradio in Hgradio. apply andb_true_iff in Hgradio as [Hsdk Hsub].
  apply String.eqb_eq in Hsdk. split; [exact Hsdk|].
  intros E. rewrite E in Hsub. discriminate.
Qed.

(** *** A sample Hub

    Four spaces: one that works, one whose Hub request is rejected, one
    whose schema endpoint answers 503, and one that is not a Gradio space. *)

Definition sampleInfo (subdomain sdk : string) : SpaceInfo :=
  {| info_id := None; infoSubdomain := Some subdomain; infoPrivate := Some false;
     infoSdk := Some sdk; infoRuntime := None |}.

Definition secretInfo : SpaceInfo :=
  {| info_id := None; infoSubdomain := Some "acme-secret"; infoPrivate := Some true;
     infoSdk := Some "gradio"; infoRuntime := None |}.

Definition found (info : SpaceInfo) : Error + HubResponse :=
  inr {| hubStatus := 200; hubStatusText := "OK"; etagHeader := None;
         hubJson := inr info |}.

Definition sampleHub (n : nat) (request : HubRequest) : Error + HubResponse :=
  if String.eqb (hubUrl request) "https://huggingface.co/api/spaces/acme/ok"
  then found (sampleInfo "acme-ok" "gradio")
  else if String.eqb (hubUrl request) "https://huggingface.co/api/spaces/acme/noschema"
  then found (sampleInfo "acme-noschema" "gradio")
  else if String.eqb (hubUrl request) "https://huggingface.co/api/spaces/acme/static"
  then found (sampleInfo "acme-static" "static")
  else if String.eqb (hubUrl request) "https://huggingface.co/api/spaces/acme/secret"
  then found secretInfo
  else inl {| message := "fetch failed" |}.

Definition sampleSpace (n : nat) (request : SchemaRequest) : Error + SchemaResponse :=
  if String.eqb (schemaUrl request) "https://acme-ok.hf.space/gradio_api/mcp/schema"
  then inr {| schemaStatus := 200; schemaStatusText := "OK";
              schemaJson :=
                inr (Json.JArr
                       [Json.JObj
                          [("name", Json.JStr "predict");
                           ("description", Json.JStr "Runs the model");
                           ("inputSchema",
                            Json.JObj [("properties", Json.JObj [])])]]) |}
  else inr {| schemaStatus := 503; schemaStatusText := "Service Unavailable";
              schemaJson := inl {| message := "Unexpected token" |} |}.

Definition sampleOutside : Outside :=
  {| now := fun n => 1000 + Z.of_nat n; hub := sampleHub; space := sampleSpace |}.

Definition sampleNames : list string :=
  ["acme/ok"; "acme/down"; "acme/noschema"; "acme/static"].

Definition skipping : option GetGradioSpacesOptions.t :=
  Some {| GetGradioSpacesOptions.skipSchemas := Some true;
          GetGradioSpacesOptions.includeRuntime := None;
          GetGradioSpacesOptions.timeout := None |}.

(** *** Failure isolation and the discovery filter *)

Lemma getGradioSpaces_outcome cfg O spaceNames hfToken options w run :
  outcome (discover cfg O spaceNames hfToken options) w = Returned run ->
  outcome (getGradioSpaces cfg O spaceNames hfToken options) w = Returned (spaces run).
Proof.
  intros Hout. unfold outcome. rewrite getGradioSpaces_discover.
  pose proof (run_eq (discover cfg O spaceNames hfToken options) w) as Hrun.
  rewrite Hout in Hrun. now rewrite (bind_run _ _ _ _ _ Hrun).
Qed.

Lemma getGradioSpaces_after cfg O spaceNames hfToken options w :
  after (getGradioSpaces cfg O spaceNames hfToken options) w
  = after (discover cfg O spaceNames hfToken options) w.
Proof.
  unfold after. rewrite getGradioSpaces_discover. unfold bind.
  now destruct (discover cfg O spaceNames hfToken options w) as [[run|e|] w'].
Qed.

(** With schemas, [getGradioSpaces] returns records of Gradio spaces with a
    subdomain only. *)
Lemma getGradioSpaces_with_schemas cfg O spaceNames hfToken options w records :
  0 < CacheConfig.DISCOVERY_CONCURRENCY cfg ->
  keyedByName w ->
  skipRequested options = false ->
  outcome (getGradioSpaces cfg O spaceNames hfToken options) w = Returned records ->
  forall record, In record records ->
    GradioSpaceInfo.sdk record = "gradio" /\ GradioSpaceInfo.subdomain record <> "".
Proof.
  intros Hc Hk Hskip Hout.
  destruct (discover_returns cfg O spaceNames hfToken options Hc w) as [run Hrun].
  destruct (discover_consistent cfg O spaceNames hfToken options Hc w Hk) as [_ Hpost].
  specialize (Hpost run Hrun). rewrite Hskip in Hpost.
  rewrite (getGradioSpaces_outcome _ _ _ _ _ _ _ Hrun) in Hout. injection Hout as <-.
  now apply (records_with_schemas_are_gradio spaceNames).
Qed.

(** A discovery, read off its own results, from any state of the caches.
    With a positive discovery concurrency and a metadata cache keyed by name
    [getGradioSpaces] returns, whatever the Hub and the spaces answer.  Each
    name asked for gets a metadata result; the records returned are those of
    the names with a successful metadata result and, unless schemas are
    skipped, a successful schema result; and no space has two records.
    (Which result a name gets from which answer is said, for a cold cache,
    in [ColdDiscovery] below.) *)
Lemma discovery_by_results (cfg : CacheConfig.t) (O : Outside)
    (spaceNames : list string) (hfToken : option string)
    (options : option GetGradioSpacesOptions.t) (w : World.t) :
  0 < CacheConfig.DISCOVERY_CONCURRENCY cfg ->
  keyedByName w ->
  exists run : Discovered,
    outcome (discover cfg O spaceNames hfToken options) w = Returned run /\
    outcome (getGradioSpaces cfg O spaceNames hfToken options) w = Returned (spaces run) /\
    keyedByName (after (getGradioSpaces cfg O spaceNames hfToken options) w) /\
    map metadataResultName (metadataResults run) = spaceNames /\
    (forall n, In n (map GradioSpaceInfo.name (spaces run))
               <-> delivered (skipRequested options) run n) /\
    (forall n, In n spaceNames ->
               ~ In n (map GradioSpaceInfo.name (spaces run)) ->
               metadataFailed (metadataResults run) n \/
               (skipRequested options = false /\
                (schemaFailed (schemaResults run) n \/
                 filteredOut (metadataResults run) n))) /\
    List.NoDup (map GradioSpaceInfo.name (spaces run)) /\
    (List.NoDup spaceNames ->
     map GradioSpaceInfo.name (spaces run)
     = List.filter (deliveredb (skipRequested options) run) spaceNames /\
     (List.length (spaces run)
      + List.length (List.filter (fun n => negb (deliveredb (skipRequested options) run n))
                       spaceNames)
      = List.length spaceNames)%nat).
Proof.
  intros Hc Hk.
  destruct (discover_returns cfg O spaceNames hfToken options Hc w) as [run Hrun].
  destruct (discover_consistent cfg O spaceNames hfToken options Hc w Hk) as [Hkeys Hpost].
  specialize (Hpost run Hrun).
  exists run. split; [exact Hrun|].
  split; [now apply getGradioSpaces_outcome|].
  split; [now rewrite getGradioSpaces_after|].
  split; [exact (one_result_per_name _ _ _ Hpost)|].
  split; [intros n; exact (spaces_delivered spaceNames _ _ Hpost n)|].
  split; [intros n; exact (missing_explained spaceNames _ _ Hpost n)|].
  split; [exact (spaces_NoDup spaceNames _ _ Hpost)|].
  intros Hnd.
  pose proof (spaces_exact spaceNames _ _ Hpost Hnd) as Hexact.
  split; [exact Hexact|].
  rewrite <- (List.length_map GradioSpaceInfo.name), Hexact.
  apply filter_complement.
Qed.

(** C7, at the failing input.  With [skipSchemas: true], a space whose
    metadata says [sdk: 'static'] is returned by [getGradioSpaces]: the list
    filtered in step 2 is used for the schema phase only, and step 4
    combines the unfiltered metadata map. *)
Theorem skipSchemas_returns_other_sdk :
  outcome (getGradioSpaces CacheConfig.defaults sampleOutside ["acme/static"] None skipping)
    World.initial
  = Returned [ {| GradioSpaceInfo.name := "acme/static";
                  GradioSpaceInfo.subdomain := "acme-static";
                  GradioSpaceInfo._id := "gradio_acme-static";
                  GradioSpaceInfo.emoji := DEFAULT_EMOJI;
                  GradioSpaceInfo.private := false;
                  GradioSpaceInfo.sdk := "static";
                  GradioSpaceInfo.tools := [];
                  GradioSpaceInfo.runtime := None;
                  GradioSpaceInfo.cached := false |} ].
Proof. vm_compute. reflexivity. Qed.

(** *** The theorems above at the sample Hub *)

Definition secretMetadata : CachedSpaceMetadata.t :=
  {| CachedSpaceMetadata._id := "gradio_acme-secret";
     CachedSpaceMetadata.name := "acme/secret";
     CachedSpaceMetadata.subdomain := "acme-secret";
     CachedSpaceMetadata.emoji := DEFAULT_EMOJI;
     CachedSpaceMetadata.private := true;
     CachedSpaceMetadata.sdk := "gradio";
     CachedSpaceMetadata.runtime := None;
     CachedSpaceMetadata.etag := None;
     CachedSpaceMetadata.fetchedAt := 1000 |}.

Lemma private_never_cached_witness :
  let w1 := after (fetchSpaceMetadata CacheConfig.defaults sampleOutside "acme/secret"
                     (Some "hf_token") None) World.initial in
  let w2 := after (fetchSchema CacheConfig.defaults sampleOutside secretMetadata
                     (Some "hf_token") None) w1 in
  allPublic (after (getGradioSpaces CacheConfig.defaults sampleOutside
                      ["acme/ok"; "acme/secret"] (Some "hf_token") None) World.initial) /\
  allPublic w1 /\
  size (metadataEntries w1) = size (metadataEntries World.initial) /\
  size (schemaEntries w1) = size (schemaEntries World.initial) /\
  size (metadataEntries w2) = size (metadataEntries w1) /\
  size (schemaEntries w2) = size (schemaEntries w1).
Proof.
  intros w1 w2.
  destruct (private_never_cached CacheConfig.defaults sampleOutside)
    as (Hinitial & Hdiscovery & Hfetch & Hprivate & Hschema).
  split; [apply Hdiscovery; exact Hinitial|].
  split; [apply Hfetch; exact Hinitial|].
  destruct (Hprivate "acme/secret" (Some "hf_token") None World.initial secretMetadata false)
    as (_ & _ & Hm & Hs).
  - exact Hinitial.
  - vm_compute. reflexivity.
  - reflexivity.
  - split; [exact Hm|]. split; [exact Hs|].
    destruct (Hschema secretMetadata (Some "hf_token") None w1) as (_ & _ & Hm' & Hs').
    + reflexivity.
    + split; [exact Hm' | exact Hs'].
Defined.

(** A Hub that answers every request with [304 Not Modified], five minutes
    and more after the entry was fetched. *)
Definition notModified : Outside :=
  {| now := fun n => 400000 + Z.of_nat n;
     hub := fun _ _ => inr {| hubStatus := 304; hubStatusText := "Not Modified";
                              etagHeader := Some "W/1";
                              hubJson := inl {| message := "Unexpected end of JSON input" |} |};
     space := fun _ _ => inl {| message := "fetch failed" |} |}.

Definition cachedWorld : World.t :=
  after (metadata_set "acme/ok" (entryAt 1000)) World.initial.

Lemma etag_revalidation_witness :
  exists request entry',
    outcome (fetchSpaceMetadata CacheConfig.defaults notModified "acme/ok" None None)
      cachedWorld
    = Returned (MetadataSuccess entry' true) /\
    In ("If-None-Match", "W/1") (hubHeaders request) /\
    size (metadataEntries
            (after (fetchSpaceMetadata CacheConfig.defaults notModified "acme/ok" None None)
               cachedWorld))
    = size (metadataEntries cachedWorld) /\
    1000 < CachedSpaceMetadata.fetchedAt entry' /\
    revalidations
      (after (fetchSpaceMetadata CacheConfig.defaults notModified "acme/ok" None None)
         cachedWorld)
    = revalidations cachedWorld + 1.
Proof.
  destruct (etag_revalidation CacheConfig.defaults notModified cachedWorld "acme/ok"
              None None (entryAt 1000) "W/1")
    as (request & entry' & H).
  - reflexivity.
  - intros n m Hnm. simpl. lia.
  - apply metadata_set_lookup.
  - reflexivity.
  - discriminate.
  - vm_compute. discriminate.
  - intros request. eexists. split; reflexivity.
  - cbv zeta in H. destruct H as (Hout & _ & _ & Hheader & _ & Hsize & _ & Hlater & Hcount).
    exists request, entry'. repeat split; assumption.
Defined.

End DiscoveryFacts.

(** ** The examples of the source's documentation *)

Module DocExamples.
Import GradioUtils.

Example name_flux1_schnell :
  createGradioToolName "flux1_schnell" 0 (Some false) None = "gr1_flux1_schnell".
Proof. vm_compute. reflexivity. Qed.

Example name_EasyGhibli :
  createGradioToolName "EasyGhibli" 1 (Some false) None = "gr2_easyghibli".
Proof. vm_compute. reflexivity. Qed.

Example name_private_model :
  createGradioToolName "private.model" 2 (Some true) None = "grp3_private_model".
Proof. vm_compute. reflexivity. Qed.

Example ids_mixed :
  map name (parseGradioSpaceIds "microsoft/Florence-2-large, acme/foo ,bad,/x,y/, none,a/b/c")
  = ["microsoft/Florence-2-large"; "acme/foo"].
Proof. vm_compute. reflexivity. Qed.

Example ids_none : parseGradioSpaceIds "  NoNe " = [].
Proof. vm_compute. reflexivity. Qed.

Example toString_digits : Js.toString 1234567890123 = "1234567890123".
Proof. vm_compute. reflexivity. Qed.

Example split_keeps_empty : Js.split "," "a,,b," = ["a"; ""; "b"; ""].
Proof. vm_compute. reflexivity. Qed.

Example split_empty : Js.split "," "" = [""].
Proof. vm_compute. reflexivity. Qed.

End DocExamples.

(* ===================================================================== *)
(** * Part III: further properties of the same code                       *)
(* ===================================================================== *)

(** ** The caches: counters, keys, clearing *)

Module CacheMore.
Import Effects EffectFacts Cache CacheFacts CacheStats DiscoveryFacts.

Lemma after_bind {W A B} (m : M W A) (f : A -> M W B) (w : W) (a : A) :
  outcome m w = Returned a -> after (bind m f) w = after (f a) (after m w).
Proof.
  unfold outcome, after, bind. destruct (m w) as [r w']. simpl. now intros ->.
Qed.

Lemma outcome_bind {W A B} (m : M W A) (f : A -> M W B) (w : W) (a : A) :
  outcome m w = Returned a -> outcome (bind m f) w = outcome (f a) (after m w).
Proof.
  unfold outcome, after, bind. destruct (m w) as [r w']. simpl. now intros ->.
Qed.

Definition isMetadataRead (r : Read) : bool :=
  match r with ReadMetadata _ => true | ReadSchema _ => false end.

Definition isSchemaRead (r : Read) : bool := negb (isMetadataRead r).

Definition count (p : Read -> bool) (reads : list Read) : Z :=
  Z.of_nat (List.length (List.filter p reads)).

(** The lookups answered so far, hits and misses together. *)
Definition metadataLookups (s : CacheStats.t) : Z := metadataHits s + metadataMisses s.
Definition schemaLookups (s : CacheStats.t) : Z := schemaHits s + schemaMisses s.

Definition statsOf (w : World.t) : CacheStats.t :=
  {| metadataHits := SpaceMetadataCache.hits (metadataStats w);
     metadataMisses := SpaceMetadataCache.misses (metadataStats w);
     metadataEtagRevalidations := SpaceMetadataCache.etagRevalidations (metadataStats w);
     schemaHits := SchemaCache.hits (schemaStats w);
     schemaMisses := SchemaCache.misses (schemaStats w);
     metadataCacheSize := Z.of_nat (size (metadataEntries w));
     schemaCacheSize := Z.of_nat (size (schemaEntries w)) |}.

Lemma getCacheStats_run w : getCacheStats w = (Returned (statsOf w), w).
Proof. reflexivity. Qed.

(** What one lookup does to the counters. *)
Definition counted (r : Read) (w w' : World.t) : Prop :=
  let s := statsOf w in
  let s' := statsOf w' in
  metadataLookups s' = metadataLookups s + (if isMetadataRead r then 1 else 0) /\
  schemaLookups s' = schemaLookups s + (if isMetadataRead r then 0 else 1) /\
  metadataHits s <= metadataHits s' /\ metadataMisses s <= metadataMisses s' /\
  schemaHits s <= schemaHits s' /\ schemaMisses s <= schemaMisses s' /\
  metadataEtagRevalidations s' = metadataEtagRevalidations s /\
  metadataCacheSize s' = metadataCacheSize s /\
  schemaCacheSize s' = schemaCacheSize s.

Lemma perform_outcome cfg O r w : outcome (perform cfg O r) w = Returned tt.
Proof.
  destruct r as [k|k]; unfold outcome, perform, bind.
  - rewrite metadata_get_run.
    destruct (metadataEntries w !! k); [destruct (_ <? _)|]; reflexivity.
  - rewrite schema_get_run.
    destruct (schemaEntries w !! k); [destruct (_ <? _)|]; reflexivity.
Qed.

Lemma perform_counted cfg O r w : counted r w (after (perform cfg O r) w).
Proof.
  destruct r as [k|k]; unfold after, perform, bind.
  - rewrite metadata_get_run.
    destruct (metadataEntries w !! k); [destruct (_ <? _)|];
      unfold counted, statsOf, metadataLookups, schemaLookups, metadataStats, schemaStats,
        metadataEntries, schemaEntries; cbn; repeat split; lia.
  - rewrite schema_get_run.
    destruct (schemaEntries w !! k); [destruct (_ <? _)|];
      unfold counted, statsOf, metadataLookups, schemaLookups, metadataStats, schemaStats,
        metadataEntries, schemaEntries; cbn; repeat split; lia.
Qed.

Lemma after_reads_cons cfg O r reads w :
  after (mapM (perform cfg O) (r :: reads)) w
  = after (mapM (perform cfg O) reads) (after (perform cfg O r) w).
Proof.
  cbn [mapM]. rewrite (after_bind _ _ _ tt) by apply perform_outcome.
  destruct (returns_mapM (perform cfg O) reads
              (fun a w => ex_intro _ tt (perform_outcome cfg O a w))
              (after (perform cfg O r) w)) as [ys Hys].
  now rewrite (after_bind _ _ _ ys) by exact Hys.
Qed.

(** X1.  Every lookup is counted once: after any sequence of [get] calls
    on the two caches, hits plus misses of the metadata cache have grown by
    the number of metadata lookups, those of the schema cache by the number of
    schema lookups; no counter has gone down; the revalidation counter and the
    two sizes are what they were. *)
Theorem lookups_are_counted (cfg : CacheConfig.t) (O : Net.Outside)
    (reads : list Read) (w : World.t) :
  exists before afterwards,
    outcome getCacheStats w = Returned before /\
    outcome getCacheStats (after (mapM (perform cfg O) reads) w) = Returned afterwards /\
    metadataLookups afterwards = metadataLookups before + count isMetadataRead reads /\
    schemaLookups afterwards = schemaLookups before + count isSchemaRead reads /\
    metadataHits before <= metadataHits afterwards /\
    metadataMisses before <= metadataMisses afterwards /\
    schemaHits before <= schemaHits afterwards /\
    schemaMisses before <= schemaMisses afterwards /\
    metadataEtagRevalidations afterwards = metadataEtagRevalidations before /\
    metadataCacheSize afterwards = metadataCacheSize before /\
    schemaCacheSize afterwards = schemaCacheSize before.
Proof.
  exists (statsOf w), (statsOf (after (mapM (perform cfg O) reads) w)).
  split; [reflexivity|]. split; [reflexivity|].
  revert w. induction reads as [|r reads IH]; intros w.
  - unfold count. cbn. repeat split; lia.
  - rewrite after_reads_cons.
    specialize (IH (after (perform cfg O r) w)).
    pose proof (perform_counted cfg O r w) as Hr. unfold counted in Hr. cbv zeta in Hr.
    unfold count, isSchemaRead in *. cbn [List.filter].
    destruct (isMetadataRead r); cbn [negb List.length] in *;
      destruct IH as (? & ? & ? & ? & ? & ? & ? & ? & ?);
      destruct Hr as (? & ? & ? & ? & ? & ? & ? & ? & ?);
      repeat split; lia.
Qed.

(** X2.  [set] touches one key.  In both caches, a [set] under [k] leaves
    every other key with the entry and the lookup answer it had, makes the
    cache one entry larger when [k] was absent and no larger when it was
    there, and a second [set] under [k] replaces the first.  The counters that
    [getCacheStats] reports, the clock, the requests sent and the other cache
    are not touched: of the statistics only the size of the cache written to
    can change. *)
Theorem set_touches_one_key (cfg : CacheConfig.t) (O : Net.Outside) (w : World.t)
    (k k' : string) :
  k' <> k ->
  (forall e e2 : CachedSpaceMetadata.t,
     let w1 := after (metadata_set k e) w in
     metadataEntries w1 !! k' = metadataEntries w !! k' /\
     outcome (metadata_get cfg O k') w1 = outcome (metadata_get cfg O k') w /\
     size (metadataEntries w1)
     = (if bool_decide (is_Some (metadataEntries w !! k))
        then size (metadataEntries w) else S (size (metadataEntries w))) /\
     metadataEntries (after (metadata_set k e2) w1)
     = metadataEntries (after (metadata_set k e2) w) /\
     schemaEntries w1 = schemaEntries w /\
     outcome getCacheStats w1
     = Returned
         {| metadataHits := metadataHits (statsOf w);
            metadataMisses := metadataMisses (statsOf w);
            metadataEtagRevalidations := metadataEtagRevalidations (statsOf w);
            schemaHits := schemaHits (statsOf w);
            schemaMisses := schemaMisses (statsOf w);
            metadataCacheSize := Z.of_nat (size (metadataEntries w1));
            schemaCacheSize := schemaCacheSize (statsOf w) |} /\
     World.clockReads w1 = World.clockReads w /\
     World.sent w1 = World.sent w) /\
  (forall e e2 : CachedSchema.t,
     let w1 := after (schema_set k e) w in
     schemaEntries w1 !! k' = schemaEntries w !! k' /\
     outcome (schema_get cfg O k') w1 = outcome (schema_get cfg O k') w /\
     size (schemaEntries w1)
     = (if bool_decide (is_Some (schemaEntries w !! k))
        then size (schemaEntries w) else S (size (schemaEntries w))) /\
     schemaEntries (after (schema_set k e2) w1)
     = schemaEntries (after (schema_set k e2) w) /\
     metadataEntries w1 = metadataEntries w /\
     outcome getCacheStats w1
     = Returned
         {| metadataHits := metadataHits (statsOf w);
            metadataMisses := metadataMisses (statsOf w);
            metadataEtagRevalidations := metadataEtagRevalidations (statsOf w);
            schemaHits := schemaHits (statsOf w);
            schemaMisses := schemaMisses (statsOf w);
            metadataCacheSize := metadataCacheSize (statsOf w);
            schemaCacheSize := Z.of_nat (size (schemaEntries w1)) |} /\
     World.clockReads w1 = World.clockReads w /\
     World.sent w1 = World.sent w).
Proof.
  intros Hne. split; intros e e2 w1.
  - assert (Hother : metadataEntries w1 !! k' = metadataEntries w !! k').
    { unfold w1, after, metadata_set, metadataStore, metadataEntries. cbn.
      now apply lookup_insert_ne. }
    split; [exact Hother|]. split.
    { rewrite !metadata_get_outcome, Hother. reflexivity. }
    split.
    { unfold w1, after, metadata_set, metadataStore, metadataEntries. cbn.
      destruct (SpaceMetadataCache.cache (World.spaceMetadataCache w) !! k) as [old|] eqn:E.
      - rewrite bool_decide_eq_true_2 by eauto. now apply map_size_insert_Some.
      - rewrite bool_decide_eq_false_2 by (intros [? [=]]). now apply map_size_insert_None. }
    split.
    { unfold w1, after, metadata_set, metadataStore, metadataEntries. cbn.
      apply insert_insert_eq. }
    repeat split; reflexivity.
  - assert (Hother : schemaEntries w1 !! k' = schemaEntries w !! k').
    { unfold w1, after, schema_set, schemaEntries. cbn. now apply lookup_insert_ne. }
    split; [exact Hother|]. split.
    { rewrite !schema_get_outcome, Hother. reflexivity. }
    split.
    { unfold w1, after, schema_set, schemaEntries. cbn.
      destruct (SchemaCache.cache (World.schemaCache w) !! k) as [old|] eqn:E.
      - rewrite bool_decide_eq_true_2 by eauto. now apply map_size_insert_Some.
      - rewrite bool_decide_eq_false_2 by (intros [? [=]]). now apply map_size_insert_None. }
    split.
    { unfold w1, after, schema_set, schemaEntries. cbn. apply insert_insert_eq. }
    repeat split; reflexivity.
Qed.

Lemma set_touches_one_key_witness :
  (metadataEntries (after (metadata_set "acme/ok" (entryAt 0)) World.initial) !! "acme/other"
   = None /\
   size (metadataEntries (after (metadata_set "acme/ok" (entryAt 0)) World.initial)) = 1%nat) /\
  (schemaEntries (after (schema_set "acme/ok" (schemaAt 0)) World.initial) !! "acme/other"
   = None /\
   size (schemaEntries (after (schema_set "acme/ok" (schemaAt 0)) World.initial)) = 1%nat /\
   outcome getCacheStats (after (schema_set "acme/ok" (schemaAt 0)) World.initial)
   = Returned
       {| metadataHits := 0; metadataMisses := 0; metadataEtagRevalidations := 0;
          schemaHits := 0; schemaMisses := 0;
          metadataCacheSize := 0; schemaCacheSize := 1 |}).
Proof.
  destruct (set_touches_one_key CacheConfig.defaults minuteClock World.initial
              "acme/ok" "acme/other") as [Hmetadata Hschema].
  - discriminate.
  - destruct (Hmetadata (entryAt 0) (entryAt 0)) as (Hother & _ & Hsize & _).
    destruct (Hschema (schemaAt 0) (schemaAt 0))
      as (Hother' & _ & Hsize' & _ & _ & Hstats & _).
    split; [split; [exact Hother | exact Hsize]|].
    split; [exact Hother'|]. split; [exact Hsize'|].
    rewrite Hstats, Hsize'. reflexivity.
Defined.

(** X3.  [clearAllCaches] starts over: afterwards every counter and both
    sizes are zero, every lookup in either cache misses, nothing is left to
    revalidate, and the invariants of the metadata cache hold.  The clock and
    the requests sent are not touched. *)
Theorem clearAllCaches_resets (cfg : CacheConfig.t) (O : Net.Outside) (w : World.t) :
  let w' := after clearAllCaches w in
  outcome clearAllCaches w = Returned tt /\
  outcome getCacheStats w'
  = Returned {| metadataHits := 0; metadataMisses := 0; metadataEtagRevalidations := 0;
                schemaHits := 0; schemaMisses := 0;
                metadataCacheSize := 0; schemaCacheSize := 0 |} /\
  (forall k, outcome (metadata_get cfg O k) w' = Returned None) /\
  (forall k, outcome (schema_get cfg O k) w' = Returned None) /\
  (forall k, outcome (metadata_getForRevalidation k) w' = Returned None) /\
  (forall k, SpaceMetadataCache.misses (metadataStats (after (metadata_get cfg O k) w')) = 1) /\
  allPublic w' /\ keyedByName w' /\
  World.clockReads w' = World.clockReads w /\ World.sent w' = World.sent w /\
  after clearAllCaches w' = w'.
Proof.
  intros w'. split; [reflexivity|]. split; [reflexivity|].
  split; [intros k; rewrite metadata_get_outcome; reflexivity|].
  split; [intros k; rewrite schema_get_outcome; reflexivity|].
  split; [reflexivity|].
  split; [intros k; unfold after; rewrite metadata_get_run; reflexivity|].
  split; [apply map_Forall_empty|]. split; [apply map_Forall_empty|].
  repeat split.
Qed.

(** X4.  [updateTimestamp] on a name that is not cached does nothing at
    all.  On a cached name it stores the same entry with [fetchedAt] set to
    the clock, counts one revalidation and leaves hits, misses and the size
    alone; a lookup that follows within the time to live is a hit that
    returns the entry with the new timestamp, however old it was before. *)
Theorem updateTimestamp_refreshes (cfg : CacheConfig.t) (O : Net.Outside)
    (w : World.t) (k : string) :
  let w' := after (metadata_updateTimestamp O k) w in
  (metadataEntries w !! k = None -> w' = w) /\
  (forall e,
     metadataEntries w !! k = Some e ->
     let t := Net.now O (World.clockReads w) in
     let e' := CachedSpaceMetadata.withFetchedAt e t in
     metadataEntries w' = <[k := e']> (metadataEntries w) /\
     size (metadataEntries w') = size (metadataEntries w) /\
     revalidations w' = revalidations w + 1 /\
     SpaceMetadataCache.hits (metadataStats w') = SpaceMetadataCache.hits (metadataStats w) /\
     SpaceMetadataCache.misses (metadataStats w')
     = SpaceMetadataCache.misses (metadataStats w) /\
     (Net.now O (S (World.clockReads w)) - t < CacheConfig.SPACE_METADATA_TTL cfg ->
      outcome (metadata_get cfg O k) w' = Returned (Some e'))).
Proof.
  intros w'. unfold w', after. rewrite metadata_updateTimestamp_run. split.
  - intros Hnone. now rewrite Hnone.
  - intros e He. rewrite He. cbn [snd].
    split; [reflexivity|].
    split.
    { unfold metadataEntries. cbn. fold (metadataEntries w).
      apply map_size_insert_Some. eauto. }
    split; [reflexivity|]. split; [reflexivity|]. split; [reflexivity|].
    intros Hfresh. rewrite metadata_get_outcome.
    unfold metadataEntries at 1. cbn. rewrite lookup_insert_eq. cbn.
    destruct (Z.ltb_spec (Net.now O (S (World.clockReads w))
                          - Net.now O (World.clockReads w))
                (CacheConfig.SPACE_METADATA_TTL cfg)); [reflexivity | lia].
Qed.

Lemma updateTimestamp_refreshes_witness :
  after (metadata_updateTimestamp minuteClock "acme/none") World.initial = World.initial /\
  outcome (metadata_get CacheConfig.defaults minuteClock "acme/ok")
    (after (metadata_updateTimestamp minuteClock "acme/ok")
       (after (metadata_set "acme/ok" (entryAt (-900000))) World.initial))
  = Returned (Some (CachedSpaceMetadata.withFetchedAt (entryAt (-900000)) 0)).
Proof.
  split.
  - apply (updateTimestamp_refreshes CacheConfig.defaults minuteClock World.initial "acme/none").
    reflexivity.
  - apply (updateTimestamp_refreshes CacheConfig.defaults minuteClock
             (after (metadata_set "acme/ok" (entryAt (-900000))) World.initial) "acme/ok").
    + apply metadata_set_lookup.
    + vm_compute. reflexivity.
Defined.

End CacheMore.

(** ** Discovery: batches, requests, the warm and the cold cache *)

Module DiscoveryMore.
Import Effects EffectFacts Cache CacheFacts Net Discovery DiscoveryFacts CacheMore.

Lemma length_sliceList_chunk {A} (l : list A) (i c : Z) :
  0 <= i < Z.of_nat (List.length l) -> 0 < c ->
  Z.of_nat (List.length (Js.sliceList l i (i + c)))
  = Z.min c (Z.of_nat (List.length l) - i).
Proof.
  intros Hi Hc. unfold Js.sliceList, Js.relIndex.
  destruct (Z.ltb_spec i 0) as [|_]; [lia|].
  destruct (Z.ltb_spec (i + c) 0) as [|_]; [lia|].
  rewrite List.length_firstn, List.length_skipn. lia.
Qed.

(** The number of batches: the number of names divided by the
    concurrency, rounded up. *)
Lemma batchLoop_batches (fuel : nat) (spaceNames : list string) (c i : Z) :
  0 < c -> 0 <= i < Z.of_nat (List.length spaceNames) + c ->
  Z.of_nat (List.length spaceNames) - i < Z.of_nat fuel -> (1 <= fuel)%nat ->
  exists batches,
    batchLoop fuel spaceNames c i = Some batches /\
    List.Forall (fun batch => 0 < Z.of_nat (List.length batch) <= c) batches /\
    List.Forall (fun batch => Z.of_nat (List.length batch) = c) (removelast batches) /\
    Z.of_nat (List.length batches) = (Z.of_nat (List.length spaceNames) - i + c - 1) / c.
Proof.
  intros Hc. revert i. induction fuel as [|fuel IH]; intros i Hi Hfuel H1; [lia|].
  simpl. destruct (Z.ltb_spec i (Z.of_nat (List.length spaceNames))) as [Hlt|Hge].
  - destruct (IH (i + c)) as (batches & Hb & Hlen & Hfull & Hcount); [lia | lia | lia |].
    rewrite Hb. eexists. split; [reflexivity|].
    pose proof (length_sliceList_chunk spaceNames i c ltac:(lia) Hc) as Hchunk.
    split; [constructor; [lia | exact Hlen]|]. split.
    + destruct batches as [|b bs]; [constructor|].
      cbn [removelast]. constructor; [|exact Hfull].
      rewrite Hchunk.
      assert (i + c < Z.of_nat (List.length spaceNames)); [|lia].
      destruct (Z.lt_ge_cases (i + c) (Z.of_nat (List.length spaceNames))) as [|Hend];
        [assumption|].
      exfalso. destruct fuel as [|fuel']; [discriminate Hb|]. simpl in Hb.
      destruct (Z.ltb_spec (i + c) (Z.of_nat (List.length spaceNames))); [lia|].
      discriminate Hb.
    + cbn [List.length]. rewrite Nat2Z.inj_succ, Hcount.
      replace (Z.of_nat (List.length spaceNames) - i + c - 1)
        with ((Z.of_nat (List.length spaceNames) - (i + c) + c - 1) + 1 * c) by lia.
      rewrite Z.div_add by lia. lia.
  - exists []. split; [reflexivity|]. split; [constructor|]. split; [constructor|].
    simpl. symmetry. apply Z.div_small. lia.
Qed.

(** X5.  The batching loop of [fetchSpaceMetadataWithCache], for a
    positive concurrency [c]: it ends, the batches put end to end are the
    names asked for, no batch is empty or longer than [c], every batch but the
    last has exactly [c] names, and there are as many batches as the number of
    names divided by [c], rounded up.  Nothing else happens meanwhile. *)
Theorem batches_partition (spaceNames : list string) (c : Z) (w : World.t) :
  0 < c ->
  exists batches,
    makeBatches spaceNames c w = (Returned batches, w) /\
    concat batches = spaceNames /\
    List.Forall (fun batch => 0 < Z.of_nat (List.length batch) <= c) batches /\
    List.Forall (fun batch => Z.of_nat (List.length batch) = c) (removelast batches) /\
    Z.of_nat (List.length batches) = (Z.of_nat (List.length spaceNames) + c - 1) / c.
Proof.
  intros Hc.
  destruct (makeBatches_run spaceNames c w Hc) as (batches & Hrun & Hconcat).
  destruct (batchLoop_batches (S (List.length spaceNames)) spaceNames c 0)
    as (batches' & Hb & Hlen & Hfull & Hcount); [lia | lia | lia | lia |].
  assert (batches' = batches) as ->.
  { unfold makeBatches in Hrun. rewrite Hb in Hrun. now injection Hrun. }
  exists batches. repeat split; try assumption.
  rewrite Hcount. f_equal. lia.
Qed.

Lemma batches_partition_witness :
  exists batches,
    makeBatches ["a/1"; "a/2"; "a/3"; "a/4"; "a/5"] 2 World.initial
    = (Returned batches, World.initial) /\
    concat batches = ["a/1"; "a/2"; "a/3"; "a/4"; "a/5"] /\
    Z.of_nat (List.length batches) = 3.
Proof.
  destruct (batches_partition ["a/1"; "a/2"; "a/3"; "a/4"; "a/5"] 2 World.initial)
    as (batches & Hrun & Hconcat & _ & _ & Hcount).
  - reflexivity.
  - exists batches. split; [exact Hrun|]. split; [exact Hconcat | exact Hcount].
Defined.

(** X6.  With a discovery concurrency of zero or less, [getGradioSpaces]
    does not return for any non-empty list of names: the loop that builds the
    batches never reaches its exit, whatever bound is put on its iterations,
    and so no request is ever sent and no cache is touched. *)
Theorem no_concurrency_no_return (cfg : CacheConfig.t) (O : Outside)
    (spaceNames : list string) (hfToken : option string)
    (options : option GetGradioSpacesOptions.t) (w : World.t) :
  CacheConfig.DISCOVERY_CONCURRENCY cfg <= 0 ->
  spaceNames <> [] ->
  (forall fuel,
     batchLoop fuel spaceNames (CacheConfig.DISCOVERY_CONCURRENCY cfg) 0 = None) /\
  outcome (getGradioSpaces cfg O spaceNames hfToken options) w = Diverged /\
  World.sent (after (getGradioSpaces cfg O spaceNames hfToken options) w) = World.sent w /\
  metadataEntries (after (getGradioSpaces cfg O spaceNames hfToken options) w)
  = metadataEntries w /\
  schemaEntries (after (getGradioSpaces cfg O spaceNames hfToken options) w)
  = schemaEntries w.
Proof.
  intros Hc Hne.
  assert (Hlen : 0 < Z.of_nat (List.length spaceNames)).
  { destruct spaceNames; [contradiction | simpl; lia]. }
  assert (Hloop : forall fuel,
             batchLoop fuel spaceNames (CacheConfig.DISCOVERY_CONCURRENCY cfg) 0 = None).
  { intros fuel. now apply batchLoop_never_ends. }
  split; [exact Hloop|].
  assert (Hconc : orElse (Some (CacheConfig.DISCOVERY_CONCURRENCY cfg))
                    (CacheConfig.DISCOVERY_CONCURRENCY cfg)
                  = CacheConfig.DISCOVERY_CONCURRENCY cfg).
  { unfold orElse. now destruct (_ =? 0). }
  unfold outcome, after, getGradioSpaces.
  replace (List.length spaceNames =? 0)%nat with false
    by (destruct spaceNames; [contradiction | reflexivity]).
  unfold bind at 1. unfold Date_now at 1. cbv beta iota.
  unfold bind at 1. unfold fetchSpaceMetadataWithCache. cbn [mbind option_bind MetadataOptions.concurrency].
  rewrite Hconc. unfold bind at 1. unfold makeBatches. rewrite Hloop.
  unfold diverge. cbn. repeat split.
Qed.

Lemma no_concurrency_no_return_witness :
  outcome (getGradioSpaces
             {| CacheConfig.SPACE_METADATA_TTL := 300000; CacheConfig.SCHEMA_TTL := 300000;
                CacheConfig.DISCOVERY_CONCURRENCY := 0;
                CacheConfig.SPACE_INFO_TIMEOUT := 5000; CacheConfig.SCHEMA_TIMEOUT := 7500 |}
             sampleOutside ["acme/ok"] None None) World.initial
  = Diverged.
Proof.
  apply (no_concurrency_no_return
           {| CacheConfig.SPACE_METADATA_TTL := 300000; CacheConfig.SCHEMA_TTL := 300000;
              CacheConfig.DISCOVERY_CONCURRENCY := 0;
              CacheConfig.SPACE_INFO_TIMEOUT := 5000; CacheConfig.SCHEMA_TIMEOUT := 7500 |}
           sampleOutside ["acme/ok"] None None World.initial).
  - simpl. lia.
  - discriminate.
Defined.

(** *** The requests sent *)

(** The request [fetchSpaceMetadata] builds for [spaceName], given the ETag
    of the stale entry, if there is one. *)
Definition hubRequestFor (cfg : CacheConfig.t) (spaceName : string)
    (hfToken : option string) (options : option MetadataOptions.t)
    (etag : option string) : HubRequest :=
  {| hubUrl := "https://huggingface.co/api/spaces/" +:+ spaceName;
     hubHeaders :=
       (if Js.truthyStr hfToken
        then [("Authorization", "Bearer " +:+ default "" hfToken)] else [])
       ++ (if Js.truthyStr etag then [("If-None-Match", default "" etag)] else []);
     hubTimeout := orElse (options ≫= MetadataOptions.timeout)
                     (CacheConfig.SPACE_INFO_TIMEOUT cfg) |}.

(** The request [fetchSchema] builds for a space. *)
Definition schemaRequestFor (cfg : CacheConfig.t) (metadata : CachedSpaceMetadata.t)
    (hfToken : option string) (timeout : option Z) : SchemaRequest :=
  {| schemaUrl := "https://" +:+ CachedSpaceMetadata.subdomain metadata
                    +:+ ".hf.space/gradio_api/mcp/schema";
     schemaMethod := "GET";
     schemaHeaders :=
       [("Content-Type", "application/json")]
       ++ (if CachedSpaceMetadata.private metadata && Js.truthyStr hfToken
           then [("X-HF-Authorization", "Bearer " +:+ default "" hfToken)] else []);
     schemaTimeout := orElse timeout (CacheConfig.SCHEMA_TIMEOUT cfg) |}.

(** [quiet w w']: no request was sent between [w] and [w']. *)
Definition quiet (w w' : World.t) : Prop := World.sent w' = World.sent w.

#[export] Instance quiet_preorder : PreOrder quiet.
Proof. split; [intros w; reflexivity | intros a b c H1 H2; red; congruence]. Qed.

(** [sends P w w']: the requests sent between [w] and [w'] all satisfy [P]. *)
Definition sends (P : Request -> Prop) (w w' : World.t) : Prop :=
  exists extra, World.sent w' = World.sent w ++ extra /\ List.Forall P extra.

#[export] Instance sends_preorder P : PreOrder (sends P).
Proof.
  split.
  - intros w. exists []. split; [now rewrite app_nil_r | constructor].
  - intros a b c (e1 & H1 & P1) (e2 & H2 & P2). exists (e1 ++ e2). split.
    + now rewrite H2, H1, app_assoc.
    + apply List.Forall_app. now split.
Qed.

Lemma quiet_sends P w w' : quiet w w' -> sends P w w'.
Proof. intros H. exists []. split; [now rewrite app_nil_r | constructor]. Qed.

Lemma sends_weaken (P Q : Request -> Prop) w w' :
  (forall r, P r -> Q r) -> sends P w w' -> sends Q w w'.
Proof.
  intros H (extra & Hs & Hp). exists extra. split; [exact Hs|].
  eapply List.Forall_impl; [exact H | exact Hp].
Qed.

Lemma Date_now_quiet O : steps quiet (Date_now O).
Proof. intros w. reflexivity. Qed.

Lemma metadata_get_quiet cfg O spaceName : steps quiet (metadata_get cfg O spaceName).
Proof.
  intros w. unfold after. rewrite metadata_get_run.
  destruct (metadataEntries w !! spaceName); [destruct (_ <? _)|]; reflexivity.
Qed.

Lemma schema_get_quiet cfg O spaceName : steps quiet (schema_get cfg O spaceName).
Proof.
  intros w. unfold after. rewrite schema_get_run.
  destruct (schemaEntries w !! spaceName); [destruct (_ <? _)|]; reflexivity.
Qed.

Lemma metadata_updateTimestamp_quiet O spaceName :
  steps quiet (metadata_updateTimestamp O spaceName).
Proof.
  intros w. unfold after. rewrite metadata_updateTimestamp_run.
  destruct (metadataEntries w !! spaceName); reflexivity.
Qed.

Lemma freshMetadata_quiet O spaceName response :
  steps quiet (freshMetadata O spaceName response).
Proof.
  unfold freshMetadata.
  apply steps_bind; [exact _ | apply steps_settle; exact _ |]. intros info.
  destruct (negb (Js.truthyStr (infoSubdomain info))); [apply steps_throw; exact _|].
  apply steps_bind; [exact _ | apply Date_now_quiet |].
  intros t. apply steps_bind; [exact _ | | intros _; apply steps_ret; exact _].
  destruct (negb _); [|apply steps_ret; exact _].
  intros w. reflexivity.
Qed.

(** The second half of a metadata fetch sends nothing: there is no retry. *)
Lemma fetchSpaceMetadata_resume_quiet cfg O pending :
  steps quiet (fetchSpaceMetadata_resume cfg O pending).
Proof.
  unfold fetchSpaceMetadata_resume.
  apply steps_tryCatch; [exact _ | | intros e; apply steps_ret; exact _].
  apply steps_bind; [exact _ | apply steps_settle; exact _ |]. intros response.
  destruct (stale pending) as [st|].
  - destruct (hubStatus response =? 304).
    + apply steps_bind; [exact _ | apply metadata_updateTimestamp_quiet |].
      intros _. apply steps_bind; [exact _ | |intros md; apply steps_ret; exact _].
      unfold staleAfterUpdate.
      apply steps_bind; [exact _ | apply steps_gets; exact _ |].
      intros e. apply steps_ret. exact _.
    + destruct (negb (ok (hubStatus response))); [apply steps_throw; exact _|].
      apply freshMetadata_quiet.
  - destruct (negb (ok (hubStatus response))); [apply steps_throw; exact _|].
    apply freshMetadata_quiet.
Qed.

Lemma metadataFinish_quiet cfg O started : steps quiet (metadataFinish cfg O started).
Proof.
  destruct started; simpl; [apply steps_ret; exact _ | apply fetchSpaceMetadata_resume_quiet].
Qed.

Lemma fetchSchema_resume_quiet cfg O pending :
  steps quiet (fetchSchema_resume cfg O pending).
Proof.
  unfold fetchSchema_resume.
  apply steps_tryCatch; [exact _ | | intros e; apply steps_ret; exact _].
  apply steps_bind; [exact _ | apply steps_settle; exact _ |]. intros response.
  destruct (negb (ok (schemaStatus response))); [apply steps_throw; exact _|].
  apply steps_bind; [exact _ | apply steps_settle; exact _ |]. intros schemaResponse.
  apply steps_bind; [exact _ | apply steps_settle; exact _ |]. intros parsed.
  apply steps_bind; [exact _ | apply steps_settle; exact _ |]. intros tools.
  apply steps_bind; [exact _ | apply Date_now_quiet |]. intros t.
  apply steps_bind; [exact _ | | intros _; apply steps_ret; exact _].
  destruct (negb _); [|apply steps_ret; exact _].
  intros w. reflexivity.
Qed.

Lemma schemaFinish_quiet cfg O started : steps quiet (schemaFinish cfg O started).
Proof.
  destruct started; simpl; [apply steps_ret; exact _ | apply fetchSchema_resume_quiet].
Qed.

(** Whether a lookup is answered from the cache. *)
Definition metadataHitAt (cfg : CacheConfig.t) (O : Outside) (spaceName : string)
    (w : World.t) : option CachedSpaceMetadata.t :=
  match metadataEntries w !! spaceName with
  | Some entry =>
      if now O (World.clockReads w) - CachedSpaceMetadata.fetchedAt entry
         <? CacheConfig.SPACE_METADATA_TTL cfg
      then Some entry else None
  | None => None
  end.

Definition schemaHitAt (cfg : CacheConfig.t) (O : Outside) (spaceName : string)
    (w : World.t) : option CachedSchema.t :=
  match schemaEntries w !! spaceName with
  | Some entry =>
      if now O (World.clockReads w) - CachedSchema.fetchedAt entry
         <? CacheConfig.SCHEMA_TTL cfg
      then Some entry else None
  | None => None
  end.

(** The first half of a metadata fetch, run. *)
Lemma fetchSpaceMetadata_start_run cfg O spaceName hfToken options w :
  fetchSpaceMetadata_start cfg O spaceName hfToken options w
  = match metadataHitAt cfg O spaceName w with
    | Some entry =>
        (Returned (inl (MetadataSuccess entry true)),
         after (metadata_get cfg O spaceName) w)
    | None =>
        let request := hubRequestFor cfg spaceName hfToken options
                         (metadataEntries w !! spaceName ≫= CachedSpaceMetadata.etag) in
        (Returned (inr {| pendingSpaceName := spaceName;
                          stale := metadataEntries w !! spaceName;
                          settledHub := hub O (List.length (World.sent w)) request |}),
         World.send (ToHub request) (after (metadata_get cfg O spaceName) w))
    end.
Proof.
  pose proof (metadata_get_run cfg O spaceName w) as Hget.
  unfold fetchSpaceMetadata_start, metadataHitAt, after.
  destruct (metadataEntries w !! spaceName) as [entry|] eqn:E;
    [destruct (_ <? _)|]; erewrite bind_run by exact Hget; rewrite Hget;
    [reflexivity| |]; cbv beta iota zeta;
    (erewrite bind_run by (unfold metadata_getForRevalidation, gets; reflexivity));
    (erewrite bind_run by (unfold fetchHub; reflexivity));
    unfold hubRequestFor; cbn; fold (metadataEntries w); rewrite E; reflexivity.
Qed.

Lemma fetchSchema_start_run cfg O metadata hfToken timeout w :
  fetchSchema_start cfg O metadata hfToken timeout w
  = match schemaHitAt cfg O (CachedSpaceMetadata.name metadata) w with
    | Some entry =>
        (Returned (inl (SchemaSuccess (CachedSpaceMetadata.name metadata) entry true)),
         after (schema_get cfg O (CachedSpaceMetadata.name metadata)) w)
    | None =>
        let request := schemaRequestFor cfg metadata hfToken timeout in
        (Returned (inr {| pendingMetadata := metadata;
                          settledSpace := space O (List.length (World.sent w)) request |}),
         World.send (ToSpace request)
           (after (schema_get cfg O (CachedSpaceMetadata.name metadata)) w))
    end.
Proof.
  pose proof (schema_get_run cfg O (CachedSpaceMetadata.name metadata) w) as Hget.
  unfold fetchSchema_start, schemaHitAt, after.
  destruct (schemaEntries w !! CachedSpaceMetadata.name metadata) as [entry|] eqn:E;
    [destruct (_ <? _)|]; erewrite bind_run by exact Hget; rewrite Hget;
    [reflexivity| |]; cbv beta iota zeta;
    (erewrite bind_run by (unfold fetchSpace; reflexivity));
    reflexivity.
Qed.

Lemma fetchSpaceMetadata_start_sent cfg O spaceName hfToken options w :
  World.sent (after (fetchSpaceMetadata_start cfg O spaceName hfToken options) w)
  = World.sent w
    ++ match metadataHitAt cfg O spaceName w with
       | Some _ => []
       | None =>
           [ToHub (hubRequestFor cfg spaceName hfToken options
                     (metadataEntries w !! spaceName ≫= CachedSpaceMetadata.etag))]
       end.
Proof.
  pose proof (metadata_get_quiet cfg O spaceName w) as Hget. red in Hget.
  unfold after at 1. rewrite fetchSpaceMetadata_start_run.
  destruct (metadataHitAt cfg O spaceName w); cbn [snd World.send World.sent];
    rewrite Hget; [now rewrite app_nil_r | reflexivity].
Qed.

Lemma fetchSchema_start_sent cfg O metadata hfToken timeout w :
  World.sent (after (fetchSchema_start cfg O metadata hfToken timeout) w)
  = World.sent w
    ++ match schemaHitAt cfg O (CachedSpaceMetadata.name metadata) w with
       | Some _ => []
       | None => [ToSpace (schemaRequestFor cfg metadata hfToken timeout)]
       end.
Proof.
  pose proof (schema_get_quiet cfg O (CachedSpaceMetadata.name metadata) w) as Hget.
  red in Hget.
  unfold after at 1. rewrite fetchSchema_start_run.
  destruct (schemaHitAt cfg O (CachedSpaceMetadata.name metadata) w);
    cbn [snd World.send World.sent]; rewrite Hget; [now rewrite app_nil_r | reflexivity].
Qed.

(** X7.  One fetch, at most one request.  [fetchSpaceMetadata] sends
    nothing when the cache answers, and otherwise exactly one request: to the
    Hub address of that space, with the token as [Authorization] header when
    there is a token, and with the ETag of the stale entry as [If-None-Match]
    when there is one.  [fetchSchema] sends nothing when the cache answers, and
    otherwise exactly one [GET] to the schema address of the space's own
    subdomain; the token goes along, as [X-HF-Authorization], only when the
    metadata says the space is private.  Neither retries after a failure. *)
Theorem one_request_per_fetch (cfg : CacheConfig.t) (O : Outside) (w : World.t) :
  (forall spaceName hfToken options,
     World.sent (after (fetchSpaceMetadata cfg O spaceName hfToken options) w)
     = World.sent w
       ++ match metadataHitAt cfg O spaceName w with
          | Some _ => []
          | None =>
              [ToHub (hubRequestFor cfg spaceName hfToken options
                        (metadataEntries w !! spaceName ≫= CachedSpaceMetadata.etag))]
          end) /\
  (forall metadata hfToken timeout,
     World.sent (after (fetchSchema cfg O metadata hfToken timeout) w)
     = World.sent w
       ++ match schemaHitAt cfg O (CachedSpaceMetadata.name metadata) w with
          | Some _ => []
          | None => [ToSpace (schemaRequestFor cfg metadata hfToken timeout)]
          end) /\
  (forall metadata hfToken timeout value,
     In ("X-HF-Authorization", value)
        (schemaHeaders (schemaRequestFor cfg metadata hfToken timeout)) ->
     CachedSpaceMetadata.private metadata = true /\
     hfToken <> None /\ hfToken <> Some "" /\
     value = "Bearer " +:+ default "" hfToken).
Proof.
  split; [|split].
  - intros spaceName hfToken options. unfold fetchSpaceMetadata.
    destruct (fetchSpaceMetadata_start_returns cfg O spaceName hfToken options w)
      as [started Hstarted].
    rewrite (after_bind _ _ _ _ Hstarted), (metadataFinish_quiet cfg O _ _).
    apply fetchSpaceMetadata_start_sent.
  - intros metadata hfToken timeout. unfold fetchSchema.
    destruct (fetchSchema_start_returns cfg O metadata hfToken timeout w)
      as [started Hstarted].
    rewrite (after_bind _ _ _ _ Hstarted), (schemaFinish_quiet cfg O _ _).
    apply fetchSchema_start_sent.
  - intros metadata hfToken timeout value. unfold schemaRequestFor. cbn [schemaHeaders].
    destruct (CachedSpaceMetadata.private metadata); cbn [andb].
    + destruct hfToken as [token|]; cbn [Js.truthyStr].
      * destruct (String.eqb_spec token "") as [->|Hne]; cbn.
        -- intros [[=]|[]].
        -- intros [[= <-]|[[=]|[]]]. repeat split; congruence.
      * cbn. intros [[=]|[]].
    + cbn. intros [[=]|[]].
Qed.

Lemma one_request_per_fetch_witness :
  CachedSpaceMetadata.private secretMetadata = true /\
  Some "hf_token" <> @None string /\ Some "hf_token" <> Some ""%string /\
  "Bearer hf_token" = "Bearer " +:+ default "" (Some "hf_token").
Proof.
  destruct (one_request_per_fetch CacheConfig.defaults sampleOutside World.initial)
    as (_ & _ & Hheader).
  apply (Hheader secretMetadata (Some "hf_token") None).
  simpl. right. left. reflexivity.
Defined.

(** *** The requests of a whole discovery *)

Lemma steps_mapM_In {W A B} (R : W -> W -> Prop) `{!PreOrder R}
    (f : A -> M W B) (l : list A) :
  (forall a, In a l -> steps R (f a)) -> steps R (mapM f l).
Proof.
  induction l as [|x t IH]; intros Hf; simpl; [apply steps_ret; exact _|].
  apply steps_bind; [exact _ | apply Hf; now left |]. intros y.
  apply steps_bind; [exact _ | apply IH; intros a Ha; apply Hf; now right |].
  intros ys. apply steps_ret. exact _.
Qed.

Lemma steps_bind_post {W A B} (R : W -> W -> Prop) `{!PreOrder R}
    (m : M W A) (f : A -> M W B) (Q : A -> Prop) :
  steps R m -> (forall w a, outcome m w = Returned a -> Q a) ->
  (forall a, Q a -> steps R (f a)) -> steps R (bind m f).
Proof.
  intros Hm Hq Hf w. specialize (Hm w). specialize (Hq w).
  unfold after, outcome, bind in *.
  destruct (m w) as [[a|e|] w']; simpl in *; [|exact Hm|exact Hm].
  etransitivity; [exact Hm | apply Hf, Hq; reflexivity].
Qed.

Lemma In_firstn_inv {A} (n : nat) (l : list A) (x : A) : In x (firstn n l) -> In x l.
Proof.
  revert l. induction n as [|n IH]; intros [|y t]; simpl; try tauto.
  intros [->|H]; [now left | right; now apply IH].
Qed.

Lemma In_skipn_inv {A} (n : nat) (l : list A) (x : A) : In x (skipn n l) -> In x l.
Proof.
  revert l. induction n as [|n IH]; intros [|y t]; simpl; try tauto.
  intros H. right. now apply IH.
Qed.

Lemma sliceList_incl {A} (l : list A) (i j : Z) : incl (Js.sliceList l i j) l.
Proof.
  unfold Js.sliceList. intros x Hx.
  eapply In_skipn_inv, In_firstn_inv. exact Hx.
Qed.

Lemma batchLoop_incl (fuel : nat) (spaceNames : list string) (c i : Z) batches :
  batchLoop fuel spaceNames c i = Some batches ->
  forall batch, In batch batches -> incl batch spaceNames.
Proof.
  revert i batches. induction fuel as [|fuel IH]; intros i batches; simpl; [discriminate|].
  destruct (_ <? _).
  - destruct (batchLoop fuel spaceNames c (i + c)) as [rest|] eqn:E; [|discriminate].
    cbn. intros [= <-] batch [<-|Hin]; [apply sliceList_incl | eapply IH; eassumption].
  - intros [= <-] batch [].
Qed.

Lemma makeBatches_incl spaceNames c w batches :
  outcome (makeBatches spaceNames c) w = Returned batches ->
  forall batch, In batch batches -> incl batch spaceNames.
Proof.
  unfold outcome, makeBatches.
  destruct (batchLoop _ _ _ _) as [bs|] eqn:E; [|discriminate].
  cbn. intros [= <-]. eapply batchLoop_incl. exact E.
Qed.

(** The options [getGradioSpaces] passes to the metadata phase. *)
Definition metadataOptionsOf (cfg : CacheConfig.t)
    (options : option GetGradioSpacesOptions.t) : option MetadataOptions.t :=
  Some {| MetadataOptions.includeRuntime := options ≫= GetGradioSpacesOptions.includeRuntime;
          MetadataOptions.timeout := options ≫= GetGradioSpacesOptions.timeout;
          MetadataOptions.concurrency := Some (CacheConfig.DISCOVERY_CONCURRENCY cfg) |}.

(** A coarse bound on the requests of a discovery, from any state of the
    caches: a metadata request for one of the names asked for, or a schema
    request made from some record of a Gradio space.  (Which requests are
    sent, for which spaces and in which order, is said for a cold cache in
    [ColdDiscovery].) *)
Definition hubAllowed (cfg : CacheConfig.t) (spaceNames : list string)
    (hfToken : option string) (options : option MetadataOptions.t) (r : Request) : Prop :=
  exists n etag, In n spaceNames /\ r = ToHub (hubRequestFor cfg n hfToken options etag).

Definition schemaAllowed (cfg : CacheConfig.t) (hfToken : option string)
    (timeout : option Z) (r : Request) : Prop :=
  exists metadata,
    isGradio metadata = true /\ r = ToSpace (schemaRequestFor cfg metadata hfToken timeout).

Definition allowed (cfg : CacheConfig.t) (spaceNames : list string)
    (hfToken : option string) (options : option GetGradioSpacesOptions.t)
    (r : Request) : Prop :=
  hubAllowed cfg spaceNames hfToken (metadataOptionsOf cfg options) r \/
  (skipRequested options = false /\
   schemaAllowed cfg hfToken (options ≫= GetGradioSpacesOptions.timeout) r).

Lemma fetchSpaceMetadata_start_sends cfg O spaceNames spaceName hfToken options :
  In spaceName spaceNames ->
  steps (sends (hubAllowed cfg spaceNames hfToken options))
    (fetchSpaceMetadata_start cfg O spaceName hfToken options).
Proof.
  intros Hin w. eexists. split; [apply fetchSpaceMetadata_start_sent|].
  destruct (metadataHitAt cfg O spaceName w); constructor; [|constructor].
  eexists _, _. split; [exact Hin | reflexivity].
Qed.

Lemma metadataBatch_sends cfg O spaceNames hfToken options batch :
  incl batch spaceNames ->
  steps (sends (hubAllowed cfg spaceNames hfToken options))
    (metadataBatch cfg O hfToken options batch).
Proof.
  intros Hincl. unfold metadataBatch. apply steps_bind; [exact _ | |].
  - apply steps_mapM_In; [exact _|]. intros n Hn.
    apply fetchSpaceMetadata_start_sends. now apply Hincl.
  - intros started. apply steps_mapM; [exact _|]. intros st.
    eapply steps_weaken; [apply quiet_sends | apply metadataFinish_quiet].
Qed.

Lemma forEachBatch_sends cfg O spaceNames hfToken options batches results :
  (forall batch, In batch batches -> incl batch spaceNames) ->
  steps (sends (hubAllowed cfg spaceNames hfToken options))
    (forEachBatch cfg O hfToken options batches results).
Proof.
  revert results. induction batches as [|batch rest IH]; intros results Hincl; simpl.
  - apply steps_ret. exact _.
  - apply steps_bind; [exact _ | apply metadataBatch_sends, Hincl; now left |].
    intros batchResults. apply IH. intros b Hb. apply Hincl. now right.
Qed.

Lemma fetchSpaceMetadataWithCache_sends cfg O spaceNames hfToken options :
  steps (sends (hubAllowed cfg spaceNames hfToken options))
    (fetchSpaceMetadataWithCache cfg O spaceNames hfToken options).
Proof.
  unfold fetchSpaceMetadataWithCache.
  eapply steps_bind_post; [exact _ | apply makeBatches_steps; exact _ | |].
  - intros w batches Hout. exact (makeBatches_incl _ _ _ _ Hout).
  - intros batches Hincl. now apply forEachBatch_sends.
Qed.

Lemma fetchSchema_start_sends cfg O metadata hfToken timeout :
  isGradio metadata = true ->
  steps (sends (schemaAllowed cfg hfToken timeout))
    (fetchSchema_start cfg O metadata hfToken timeout).
Proof.
  intros Hg w. eexists. split; [apply fetchSchema_start_sent|].
  destruct (schemaHitAt cfg O _ w); constructor; [|constructor].
  exists metadata. split; [exact Hg | reflexivity].
Qed.

Lemma fetchSchemasWithCache_sends cfg O metadataList hfToken timeout :
  List.Forall (fun metadata => isGradio metadata = true) metadataList ->
  steps (sends (schemaAllowed cfg hfToken timeout))
    (fetchSchemasWithCache cfg O metadataList hfToken timeout).
Proof.
  intros Hall. unfold fetchSchemasWithCache.
  destruct (_ =? _)%nat; [apply steps_ret; exact _|].
  apply steps_bind; [exact _ | | intros rs; apply steps_ret; exact _].
  unfold schemaBatch. apply steps_bind; [exact _ | |].
  - apply steps_mapM_In; [exact _|]. intros md Hmd.
    apply fetchSchema_start_sends. rewrite List.Forall_forall in Hall. now apply Hall.
  - intros started. apply steps_mapM; [exact _|]. intros st.
    eapply steps_weaken; [apply quiet_sends | apply schemaFinish_quiet].
Qed.

Lemma getGradioSpaces_sends cfg O spaceNames hfToken options :
  steps (sends (allowed cfg spaceNames hfToken options))
    (getGradioSpaces cfg O spaceNames hfToken options).
Proof.
  unfold getGradioSpaces.
  destruct (_ =? _)%nat; [apply steps_ret; exact _|].
  apply steps_bind; [exact _ | |].
  { eapply steps_weaken; [apply quiet_sends | apply Date_now_quiet]. }
  intros startTime. apply steps_bind; [exact _ | |].
  { eapply steps_weaken; [|apply fetchSpaceMetadataWithCache_sends].
    intros a b. apply sends_weaken. intros r Hr. left. exact Hr. }
  intros metadataMap. fold (skipRequested options).
  apply steps_bind; [exact _ | |].
  { destruct (skipRequested options) eqn:Eskip; cbn [negb andb];
      [apply steps_ret; exact _|].
    destruct (0 <? _)%nat; [|apply steps_ret; exact _].
    eapply steps_weaken; [|apply fetchSchemasWithCache_sends].
    - intros a b. apply sends_weaken. intros r Hr. right. split; [exact Eskip | exact Hr].
    - apply List.Forall_forall. intros md Hmd. now apply filter_In in Hmd as [_ Hg]. }
  intros schemaMap. apply steps_bind; [exact _ | |].
  { eapply steps_weaken; [apply quiet_sends | apply Date_now_quiet]. }
  intros endTime. apply steps_ret. exact _.
Qed.

(** *** Failures *)

Lemma bind_thrown_inv {W A B} (m : M W A) (f : A -> M W B) w e w' :
  bind m f w = (Thrown e, w') ->
  m w = (Thrown e, w') \/
  exists a w1, m w = (Returned a, w1) /\ f a w1 = (Thrown e, w').
Proof.
  unfold bind. destruct (m w) as [[a|e0|] w1]; intros H.
  - right. now exists a, w1.
  - left. injection H as -> ->. reflexivity.
  - discriminate.
Qed.

Lemma settle_thrown {W A} (r : Error + A) (w : W) e w' :
  settle r w = (Thrown e, w') -> w' = w.
Proof. destruct r; cbn; [now intros [= _ ->] | discriminate]. Qed.

Lemma returns_not_thrown {W A} (m : M W A) w e w' :
  returns m -> m w <> (Thrown e, w').
Proof.
  intros Hr H. destruct (Hr w) as [a Ha]. unfold outcome in Ha. rewrite H in Ha.
  discriminate.
Qed.

(** [freshMetadata] throws, if it does, before it has done anything. *)
Lemma freshMetadata_thrown O spaceName response w e w' :
  freshMetadata O spaceName response w = (Thrown e, w') -> w' = w.
Proof.
  unfold freshMetadata, bind, settle.
  destruct (hubJson response) as [e0|info]; cbn; [now intros [= _ ->]|].
  destruct (negb (Js.truthyStr (infoSubdomain info))); cbn; [now intros [= _ ->]|].
  destruct (default false (infoPrivate info)); cbn; discriminate.
Qed.

Lemma freshMetadata_success O spaceName response w result w' :
  freshMetadata O spaceName response w = (Returned result, w') ->
  exists metadata, result = MetadataSuccess metadata false.
Proof.
  unfold freshMetadata, bind, settle.
  destruct (hubJson response) as [e0|info]; cbn; [discriminate|].
  destruct (negb (Js.truthyStr (infoSubdomain info))); cbn; [discriminate|].
  destruct (default false (infoPrivate info)); cbn; intros [= <- _]; eauto.
Qed.

Lemma revalidated_returns O spaceName stale' :
  returns (bind (metadata_updateTimestamp O spaceName)
             (fun _ => bind (staleAfterUpdate spaceName stale')
                         (fun metadata => ret (MetadataSuccess metadata true)))).
Proof.
  apply returns_bind; [apply metadata_updateTimestamp_returns|]. intros _.
  apply returns_bind; [|intros; apply returns_ret].
  unfold staleAfterUpdate. apply returns_bind; [apply returns_gets|].
  intros; apply returns_ret.
Qed.

(** The second half of a metadata fetch that ends in a failure has changed
    nothing at all. *)
Lemma fetchSpaceMetadata_resume_failure cfg O pending w n e w' :
  fetchSpaceMetadata_resume cfg O pending w = (Returned (MetadataFailure n e), w') ->
  w' = w /\ n = pendingSpaceName pending.
Proof.
  intros Hrun. unfold fetchSpaceMetadata_resume in Hrun.
  apply tryCatch_inv in Hrun as [Hrun|(e0 & w1 & Hbody & Hh)].
  - exfalso.
    apply bind_inv in Hrun as (response & w1 & Hsettle & Hrun).
    destruct (stale pending) as [st|].
    + destruct (hubStatus response =? 304).
      * apply bind_inv in Hrun as ([] & w2 & _ & Hrun).
        apply bind_inv in Hrun as (md & w3 & _ & Hret).
        apply ret_inv in Hret as [[=] _].
      * destruct (negb (ok (hubStatus response))); [discriminate Hrun|].
        apply freshMetadata_success in Hrun as [md [=]].
    + destruct (negb (ok (hubStatus response))); [discriminate Hrun|].
      apply freshMetadata_success in Hrun as [md [=]].
  - apply ret_inv in Hh as [[= -> ->] ->]. split; [|reflexivity].
    apply bind_thrown_inv in Hbody as [Hs|(response & w2 & Hs & Hbody)].
    { now apply settle_thrown in Hs. }
    apply settle_inv in Hs as [_ ->].
    destruct (stale pending) as [st|].
    + destruct (hubStatus response =? 304).
      * exfalso. eapply returns_not_thrown; [apply revalidated_returns | exact Hbody].
      * destruct (negb (ok (hubStatus response))); [now injection Hbody|].
        now apply freshMetadata_thrown in Hbody.
    + destruct (negb (ok (hubStatus response))); [now injection Hbody|].
      now apply freshMetadata_thrown in Hbody.
Qed.

Lemma fetchSchema_resume_failure cfg O pending w n e w' :
  fetchSchema_resume cfg O pending w = (Returned (SchemaFailure n e), w') ->
  w' = w /\ n = CachedSpaceMetadata.name (pendingMetadata pending).
Proof.
  intros Hrun. unfold fetchSchema_resume in Hrun.
  apply tryCatch_inv in Hrun as [Hrun|(e0 & w1 & Hbody & Hh)].
  - exfalso.
    apply bind_inv in Hrun as (response & w1 & _ & Hrun).
    destruct (negb (ok (schemaStatus response))); [discriminate Hrun|].
    apply bind_inv in Hrun as (schemaResponse & w2 & _ & Hrun).
    apply bind_inv in Hrun as (parsed & w3 & _ & Hrun).
    apply bind_inv in Hrun as (tools & w4 & _ & Hrun).
    apply bind_inv in Hrun as (t & w5 & _ & Hrun).
    apply bind_inv in Hrun as ([] & w6 & _ & Hrun).
    apply ret_inv in Hrun as [[=] _].
  - apply ret_inv in Hh as [[= -> ->] ->]. split; [|reflexivity].
    apply bind_thrown_inv in Hbody as [Hs|(response & w2 & Hs & Hbody)].
    { now apply settle_thrown in Hs. }
    apply settle_inv in Hs as [_ ->].
    destruct (negb (ok (schemaStatus response))); [now injection Hbody|].
    apply bind_thrown_inv in Hbody as [Hs|(schemaResponse & w3 & Hs & Hbody)].
    { now apply settle_thrown in Hs. }
    apply settle_inv in Hs as [_ ->].
    apply bind_thrown_inv in Hbody as [Hs|(parsed & w4 & Hs & Hbody)].
    { now apply settle_thrown in Hs. }
    apply settle_inv in Hs as [_ ->].
    apply bind_thrown_inv in Hbody as [Hs|(tools & w5 & Hs & Hbody)].
    { now apply settle_thrown in Hs. }
    apply settle_inv in Hs as [_ ->].
    exfalso. revert Hbody. apply returns_not_thrown.
    apply returns_bind; [apply Date_now_returns|]. intros t.
    apply returns_bind; [|intros; apply returns_ret].
    destruct (negb _); [apply returns_modify | apply returns_ret].
Qed.

(** X9.  A failure evicts nothing.  When [fetchSpaceMetadata] ends in a
    failure (the request was rejected or timed out, the status was not a
    success, the body could not be read, or the space has no subdomain), the
    failure names the space asked for, and both caches hold exactly the
    entries they held: a stale entry stays where it is, for the next
    revalidation.  The same holds of [fetchSchema]. *)
Theorem failure_keeps_caches (cfg : CacheConfig.t) (O : Outside) (w : World.t) :
  (forall spaceName hfToken options n e,
     outcome (fetchSpaceMetadata cfg O spaceName hfToken options) w
     = Returned (MetadataFailure n e) ->
     let w' := after (fetchSpaceMetadata cfg O spaceName hfToken options) w in
     n = spaceName /\
     metadataEntries w' = metadataEntries w /\
     schemaEntries w' = schemaEntries w /\
     revalidations w' = revalidations w) /\
  (forall metadata hfToken timeout n e,
     outcome (fetchSchema cfg O metadata hfToken timeout) w
     = Returned (SchemaFailure n e) ->
     let w' := after (fetchSchema cfg O metadata hfToken timeout) w in
     n = CachedSpaceMetadata.name metadata /\
     metadataEntries w' = metadataEntries w /\
     schemaEntries w' = schemaEntries w).
Proof.
  split.
  - intros spaceName hfToken options n e Hout w'.
    pose proof (run_eq (fetchSpaceMetadata cfg O spaceName hfToken options) w) as Hrun.
    fold w' in Hrun. rewrite Hout in Hrun. unfold fetchSpaceMetadata in Hrun.
    apply bind_inv in Hrun as (started & w1 & Hstart & Hfinish).
    rewrite fetchSpaceMetadata_start_run in Hstart.
    pose proof (metadata_get_same cfg O spaceName w) as [Hm Hs].
    assert (Hreval : revalidations (after (metadata_get cfg O spaceName) w) = revalidations w).
    { unfold after. rewrite metadata_get_run.
      destruct (metadataEntries w !! spaceName); [destruct (_ <? _)|]; reflexivity. }
    destruct (metadataHitAt cfg O spaceName w) as [entry|].
    + injection Hstart as <- <-. cbn in Hfinish. apply ret_inv in Hfinish as [[=] _].
    + cbv zeta in Hstart. injection Hstart as <- <-. cbn [metadataFinish] in Hfinish.
      apply fetchSpaceMetadata_resume_failure in Hfinish as [-> ->].
      cbn. repeat split; assumption.
  - intros metadata hfToken timeout n e Hout w'.
    pose proof (run_eq (fetchSchema cfg O metadata hfToken timeout) w) as Hrun.
    fold w' in Hrun. rewrite Hout in Hrun. unfold fetchSchema in Hrun.
    apply bind_inv in Hrun as (started & w1 & Hstart & Hfinish).
    rewrite fetchSchema_start_run in Hstart.
    pose proof (schema_get_same cfg O (CachedSpaceMetadata.name metadata) w) as [Hm Hs].
    destruct (schemaHitAt cfg O (CachedSpaceMetadata.name metadata) w) as [entry|].
    + injection Hstart as <- <-. cbn in Hfinish. apply ret_inv in Hfinish as [[=] _].
    + cbv zeta in Hstart. injection Hstart as <- <-. cbn [schemaFinish] in Hfinish.
      apply fetchSchema_resume_failure in Hfinish as [-> ->].
      cbn. repeat split; assumption.
Qed.

Lemma failure_keeps_caches_witness :
  let w' := after (fetchSpaceMetadata CacheConfig.defaults sampleOutside "acme/down"
                     None None) World.initial in
  metadataEntries w' = metadataEntries World.initial /\
  schemaEntries w' = schemaEntries World.initial.
Proof.
  intros w'.
  destruct (failure_keeps_caches CacheConfig.defaults sampleOutside World.initial)
    as [Hmetadata _].
  destruct (Hmetadata "acme/down" None None "acme/down" {| message := "fetch failed" |})
    as (_ & Hm & Hs & _).
  - vm_compute. reflexivity.
  - split; [exact Hm | exact Hs].
Defined.

(** *** A fresh fetch, and the fetch that follows *)

(** The metadata [fetchSpaceMetadata] builds from a [200] response read at
    time [t]. *)
Definition metadataFrom (spaceName : string) (info : SpaceInfo) (response : HubResponse)
    (t : Z) : CachedSpaceMetadata.t :=
  let subdomain := default "" (infoSubdomain info) in
  {| CachedSpaceMetadata._id := orElseStr (info_id info) ("gradio_" +:+ subdomain);
     CachedSpaceMetadata.name := spaceName;
     CachedSpaceMetadata.subdomain := subdomain;
     CachedSpaceMetadata.emoji := DEFAULT_EMOJI;
     CachedSpaceMetadata.private := default false (infoPrivate info);
     CachedSpaceMetadata.sdk := orElseStr (infoSdk info) "gradio";
     CachedSpaceMetadata.runtime := infoRuntime info;
     CachedSpaceMetadata.etag :=
       if Js.truthyStr (etagHeader response) then etagHeader response else None;
     CachedSpaceMetadata.fetchedAt := t |}.

Lemma freshMetadata_run O spaceName response info w :
  hubJson response = inr info ->
  Js.truthyStr (infoSubdomain info) = true ->
  let metadata := metadataFrom spaceName info response (now O (World.clockReads w)) in
  freshMetadata O spaceName response w
  = (Returned (MetadataSuccess metadata false),
     if CachedSpaceMetadata.private metadata then World.tick w
     else putMetadata spaceName metadata (World.tick w)).
Proof.
  intros Hjson Hsub metadata. unfold metadata, metadataFrom, freshMetadata, bind, settle.
  rewrite Hjson. cbn. rewrite Hsub. cbn.
  destruct (default false (infoPrivate info)); reflexivity.
Qed.

Lemma ok_not_304 status : ok status = true -> (status =? 304) = false.
Proof.
  unfold ok. intros H. apply andb_true_iff in H as [_ H].
  apply Z.leb_le in H. apply Z.eqb_neq. lia.
Qed.

Lemma fetchSpaceMetadata_resume_fresh cfg O pending response info w :
  settledHub pending = inr response ->
  ok (hubStatus response) = true ->
  hubJson response = inr info ->
  Js.truthyStr (infoSubdomain info) = true ->
  fetchSpaceMetadata_resume cfg O pending w
  = freshMetadata O (pendingSpaceName pending) response w.
Proof.
  intros Hsettled Hok Hjson Hsub. unfold fetchSpaceMetadata_resume.
  rewrite Hsettled.
  pose proof (freshMetadata_run O (pendingSpaceName pending) response info w Hjson Hsub)
    as Hfresh. cbv zeta in Hfresh.
  erewrite tryCatch_returned; [symmetry; exact Hfresh|].
  erewrite bind_run by reflexivity.
  rewrite (ok_not_304 _ Hok), Hok. cbn [negb].
  destruct (stale pending); exact Hfresh.
Qed.

(** X10.  A fetch fills the cache, and the next fetch is answered from
    it.  When the cache has no valid entry and the Hub answers with a success
    status and a body that names a subdomain, [fetchSpaceMetadata] returns the
    metadata built from that body, stamped with the clock.  If the space is
    public, the cache then holds that metadata under the name, and a fetch that
    follows within the time to live returns the same metadata, marked as
    cached, without sending a request.  If the space is private, the cache
    holds what it held. *)
Theorem fresh_fetch_is_cached (cfg : CacheConfig.t) (O : Outside) (w : World.t)
    (spaceName : string) (hfToken : option string) (options : option MetadataOptions.t)
    (response : HubResponse) (info : SpaceInfo) :
  metadataHitAt cfg O spaceName w = None ->
  hub O (List.length (World.sent w))
    (hubRequestFor cfg spaceName hfToken options
       (metadataEntries w !! spaceName ≫= CachedSpaceMetadata.etag))
  = inr response ->
  ok (hubStatus response) = true ->
  hubJson response = inr info ->
  Js.truthyStr (infoSubdomain info) = true ->
  let t := now O (World.clockReads (after (metadata_get cfg O spaceName) w)) in
  let metadata := metadataFrom spaceName info response t in
  let w' := after (fetchSpaceMetadata cfg O spaceName hfToken options) w in
  outcome (fetchSpaceMetadata cfg O spaceName hfToken options) w
  = Returned (MetadataSuccess metadata false) /\
  (CachedSpaceMetadata.private metadata = false ->
   metadataEntries w' = <[spaceName := metadata]> (metadataEntries w) /\
   (forall hfToken' options',
      now O (World.clockReads w') - t < CacheConfig.SPACE_METADATA_TTL cfg ->
      outcome (fetchSpaceMetadata cfg O spaceName hfToken' options') w'
      = Returned (MetadataSuccess metadata true) /\
      World.sent (after (fetchSpaceMetadata cfg O spaceName hfToken' options') w')
      = World.sent w')) /\
  (CachedSpaceMetadata.private metadata = true ->
   metadataEntries w' = metadataEntries w).
Proof.
  intros Hmiss Hhub Hok Hjson Hsub t metadata w'.
  pose proof (fetchSpaceMetadata_start_run cfg O spaceName hfToken options w) as Hstart.
  rewrite Hmiss in Hstart. cbv zeta in Hstart. rewrite Hhub in Hstart.
  set (w0 := after (metadata_get cfg O spaceName) w) in *.
  set (request := hubRequestFor cfg spaceName hfToken options
                    (metadataEntries w !! spaceName ≫= CachedSpaceMetadata.etag)) in *.
  set (pending := {| pendingSpaceName := spaceName;
                     stale := metadataEntries w !! spaceName;
                     settledHub := inr response |}) in *.
  assert (Hrun : fetchSpaceMetadata cfg O spaceName hfToken options w
                 = (Returned (MetadataSuccess metadata false),
                    if CachedSpaceMetadata.private metadata
                    then World.tick (World.send (ToHub request) w0)
                    else putMetadata spaceName metadata
                           (World.tick (World.send (ToHub request) w0)))).
  { unfold fetchSpaceMetadata. erewrite bind_run by exact Hstart.
    cbn [metadataFinish].
    rewrite (fetchSpaceMetadata_resume_fresh cfg O pending response info _
               eq_refl Hok Hjson Hsub).
    exact (freshMetadata_run O spaceName response info
             (World.send (ToHub request) w0) Hjson Hsub). }
  assert (Hentries0 : metadataEntries w0 = metadataEntries w).
  { apply (metadata_get_same cfg O spaceName w). }
  split; [unfold outcome; now rewrite Hrun|].
  split.
  - intros Hpub.
    assert (Hw' : w' = putMetadata spaceName metadata
                         (World.tick (World.send (ToHub request) w0))).
    { unfold w', after. now rewrite Hrun, Hpub. }
    rewrite Hw'. clear Hw'.
    assert (Hentries : metadataEntries
                         (putMetadata spaceName metadata
                            (World.tick (World.send (ToHub request) w0)))
                       = <[spaceName := metadata]> (metadataEntries w)).
    { rewrite <- Hentries0. reflexivity. }
    split; [exact Hentries|].
    intros hfToken' options' Hfresh.
    set (w1 := putMetadata spaceName metadata
                 (World.tick (World.send (ToHub request) w0))) in *.
    assert (Hhit : metadataHitAt cfg O spaceName w1 = Some metadata).
    { unfold metadataHitAt. rewrite Hentries, lookup_insert_eq.
      cbn [CachedSpaceMetadata.fetchedAt metadata metadataFrom].
      destruct (Z.ltb_spec (now O (World.clockReads w1) - t)
                  (CacheConfig.SPACE_METADATA_TTL cfg)); [reflexivity | lia]. }
    pose proof (fetchSpaceMetadata_start_run cfg O spaceName hfToken' options' w1) as Hs1.
    rewrite Hhit in Hs1.
    pose proof (fetchSpaceMetadata_start_sent cfg O spaceName hfToken' options' w1) as Hsent.
    rewrite Hhit, app_nil_r in Hsent.
    unfold fetchSpaceMetadata. split.
    + unfold outcome. erewrite bind_run by exact Hs1. reflexivity.
    + rewrite (after_bind _ _ _ _ (f_equal fst Hs1)). cbn [metadataFinish].
      exact Hsent.
  - intros Hpriv. unfold w', after. rewrite Hrun, Hpriv. cbn [snd]. exact Hentries0.
Qed.

Lemma fresh_fetch_is_cached_witness :
  let fetch := fetchSpaceMetadata CacheConfig.defaults sampleOutside "acme/ok" None None in
  let metadata := metadataFrom "acme/ok" (sampleInfo "acme-ok" "gradio")
                    {| hubStatus := 200; hubStatusText := "OK"; etagHeader := None;
                       hubJson := inr (sampleInfo "acme-ok" "gradio") |} 1000 in
  outcome fetch World.initial = Returned (MetadataSuccess metadata false) /\
  outcome fetch (after fetch World.initial) = Returned (MetadataSuccess metadata true) /\
  World.sent (after fetch (after fetch World.initial))
  = World.sent (after fetch World.initial).
Proof.
  intros fetch metadata.
  destruct (fresh_fetch_is_cached CacheConfig.defaults sampleOutside World.initial
              "acme/ok" None None
              {| hubStatus := 200; hubStatusText := "OK"; etagHeader := None;
                 hubJson := inr (sampleInfo "acme-ok" "gradio") |}
              (sampleInfo "acme-ok" "gradio"))
    as (Hfirst & Hpublic & _); try reflexivity.
  split; [exact Hfirst|].
  destruct (Hpublic eq_refl) as [_ Hnext].
  apply (Hnext None None). vm_compute. reflexivity.
Defined.

(** *** The tools of a schema *)

Lemma traverse_names {A B} (f : A -> Error + B) (nameA : A -> string) (nameB : B -> string)
    (l : list A) (l' : list B) :
  (forall a b, f a = inr b -> nameB b = nameA a) ->
  SchemaParser.traverse f l = inr l' -> map nameB l' = map nameA l.
Proof.
  intros Hf. revert l'. induction l as [|a t IH]; intros l'; simpl.
  - now intros [= <-].
  - destruct (f a) as [e|b] eqn:Ea; [discriminate|].
    destruct (SchemaParser.traverse f t) as [e|bs]; [discriminate|].
    intros [= <-]. simpl. f_equal; [now apply Hf | now apply IH].
Qed.

Lemma toTool_name parsedTool tool :
  toTool parsedTool = inr tool -> Tool.name tool = SchemaParser.name parsedTool.
Proof.
  unfold toTool.
  destruct (SchemaParser.prop _ "properties") as [e|properties]; [discriminate|].
  destruct (SchemaParser.prop _ "required") as [e|required]; [discriminate|].
  destruct (SchemaParser.prop _ "description") as [e|description]; [discriminate|].
  now intros [= <-].
Qed.

(** [!name.toLowerCase().includes('<lambda')] *)
Definition notLambdaName (name : string) : bool :=
  negb (Js.includes (Js.toLowerCase name) "<lambda").

(** X11.  What a schema fetched from a space holds.  When [fetchSchema]
    succeeds other than from the cache, the space answered with a success
    status and a body that [parseSchemaResponse] accepts; the tools of the
    schema are, by name and in order, the tools of that body whose name does
    not contain [<lambda] in any letter case, so that no such tool is ever
    offered; the schema is stamped with the clock, and it is in the cache
    afterwards if the space is public.  The list of tools may be empty. *)
Theorem fetched_schema_tools (cfg : CacheConfig.t) (O : Outside) (w : World.t)
    (metadata : CachedSpaceMetadata.t) (hfToken : option string) (timeout : option Z)
    (n : string) (schema : CachedSchema.t) :
  outcome (fetchSchema cfg O metadata hfToken timeout) w
  = Returned (SchemaSuccess n schema false) ->
  let w' := after (fetchSchema cfg O metadata hfToken timeout) w in
  n = CachedSpaceMetadata.name metadata /\
  (exists response body parsed,
     space O (List.length (World.sent w)) (schemaRequestFor cfg metadata hfToken timeout)
     = inr response /\
     ok (schemaStatus response) = true /\
     schemaJson response = inr body /\
     SchemaParser.parseSchemaResponse body
       ("gradio_" +:+ CachedSpaceMetadata.subdomain metadata)
       (CachedSpaceMetadata.subdomain metadata) = inr parsed /\
     map Tool.name (CachedSchema.tools schema)
     = List.filter notLambdaName (map SchemaParser.name parsed)) /\
  List.Forall (fun tool => Js.includes (Js.toLowerCase (Tool.name tool)) "<lambda" = false)
    (CachedSchema.tools schema) /\
  (CachedSpaceMetadata.private metadata = false -> schemaEntries w' !! n = Some schema) /\
  (CachedSpaceMetadata.private metadata = true -> schemaEntries w' = schemaEntries w).
Proof.
  intros Hout w'.
  pose proof (run_eq (fetchSchema cfg O metadata hfToken timeout) w) as Hrun.
  fold w' in Hrun. rewrite Hout in Hrun. unfold fetchSchema in Hrun.
  apply bind_inv in Hrun as (started & w1 & Hstart & Hfinish).
  rewrite fetchSchema_start_run in Hstart.
  pose proof (schema_get_same cfg O (CachedSpaceMetadata.name metadata) w) as [_ Hs0].
  destruct (schemaHitAt cfg O (CachedSpaceMetadata.name metadata) w) as [entry|].
  { injection Hstart as <- <-. cbn in Hfinish. apply ret_inv in Hfinish as [[=] _]. }
  cbv zeta in Hstart. injection Hstart as <- <-. cbn [schemaFinish] in Hfinish.
  unfold fetchSchema_resume in Hfinish. cbn [pendingMetadata settledSpace] in Hfinish.
  apply tryCatch_inv in Hfinish as [Hbody|(e & w2 & _ & Hh)];
    [|apply ret_inv in Hh as [[=] _]].
  apply bind_inv in Hbody as (response & w2 & Hsettle & Hbody).
  apply settle_inv in Hsettle as [Hresponse ->].
  destruct (ok (schemaStatus response)) eqn:Hok; cbn [negb] in Hbody; [|discriminate Hbody].
  apply bind_inv in Hbody as (body & w3 & Hsettle & Hbody).
  apply settle_inv in Hsettle as [Hjson ->].
  apply bind_inv in Hbody as (parsed & w4 & Hsettle & Hbody).
  apply settle_inv in Hsettle as [Hparsed ->].
  apply bind_inv in Hbody as (tools & w5 & Hsettle & Hbody).
  apply settle_inv in Hsettle as [Htools ->].
  apply bind_inv in Hbody as (t & w6 & Hnow & Hbody).
  injection Hnow as <- <-.
  apply bind_inv in Hbody as ([] & w7 & Hset & Hret).
  apply ret_inv in Hret as [[= -> ->] ->].
  assert (Hnames : map Tool.name tools
                   = List.filter notLambdaName (map SchemaParser.name parsed)).
  { rewrite (traverse_names toTool SchemaParser.name Tool.name _ _ toTool_name Htools).
    clear. induction parsed as [|p ps IH]; [reflexivity|]. simpl.
    unfold notLambda at 1, notLambdaName at 1.
    destruct (negb _); simpl; now rewrite IH. }
  split; [reflexivity|]. split.
  { exists response, body, parsed. repeat split; assumption. }
  split.
  { cbn [CachedSchema.tools]. apply List.Forall_forall. intros tool Hin.
    apply (in_map Tool.name) in Hin. rewrite Hnames in Hin.
    apply filter_In in Hin as [_ Hin]. unfold notLambdaName in Hin.
    now apply negb_true_iff in Hin. }
  split.
  - intros Hpub. rewrite Hpub in Hset. cbn [negb] in Hset.
    injection Hset as <-. unfold schemaEntries. cbn. apply lookup_insert_eq.
  - intros Hpriv. rewrite Hpriv in Hset. cbn [negb] in Hset.
    apply ret_inv in Hset as [_ ->]. exact Hs0.
Qed.

Lemma fetched_schema_tools_witness :
  exists schema,
    outcome (fetchSchema CacheConfig.defaults sampleOutside
               (metadataFrom "acme/ok" (sampleInfo "acme-ok" "gradio")
                  {| hubStatus := 200; hubStatusText := "OK"; etagHeader := None;
                     hubJson := inr (sampleInfo "acme-ok" "gradio") |} 1000)
               None None) World.initial
    = Returned (SchemaSuccess "acme/ok" schema false) /\
    map Tool.name (CachedSchema.tools schema) = ["predict"].
Proof.
  eexists. split; [vm_compute; reflexivity|].
  match goal with
  | |- map Tool.name (CachedSchema.tools ?schema) = _ =>
      destruct (fetched_schema_tools CacheConfig.defaults sampleOutside World.initial
                  (metadataFrom "acme/ok" (sampleInfo "acme-ok" "gradio")
                     {| hubStatus := 200; hubStatusText := "OK"; etagHeader := None;
                        hubJson := inr (sampleInfo "acme-ok" "gradio") |} 1000)
                  None None "acme/ok" schema)
        as (_ & (response & body & parsed & Hresponse & _ & Hbody & Hparsed & Hnames) & _)
  end.
  - vm_compute. reflexivity.
  - rewrite Hnames. vm_compute in Hresponse. injection Hresponse as <-.
    cbn in Hbody. injection Hbody as <-. vm_compute in Hparsed. injection Hparsed as <-.
    reflexivity.
Defined.

(** *** [getGradioSpace] *)

(** X12.  [getGradioSpace] gives the record of the one space asked for, or
    [null].  With a positive concurrency and a cache keyed by name it always
    returns; the answer is a record exactly when the space's own metadata
    fetch succeeded and, unless schemas are skipped, its own schema fetch, and
    that record bears the name asked for. *)
Theorem getGradioSpace_spec (cfg : CacheConfig.t) (O : Outside) (spaceName : string)
    (hfToken : option string) (options : option GetGradioSpacesOptions.t) (w : World.t) :
  0 < CacheConfig.DISCOVERY_CONCURRENCY cfg ->
  keyedByName w ->
  exists run answer,
    outcome (discover cfg O [spaceName] hfToken options) w = Returned run /\
    outcome (getGradioSpace cfg O spaceName hfToken options) w = Returned answer /\
    (delivered (skipRequested options) run spaceName ->
     exists record, answer = Some record /\ spaces run = [record] /\
                    GradioSpaceInfo.name record = spaceName) /\
    (~ delivered (skipRequested options) run spaceName -> answer = None) /\
    (forall record, answer = Some record ->
                    GradioSpaceInfo.name record = spaceName /\
                    delivered (skipRequested options) run spaceName).
Proof.
  intros Hc Hk.
  destruct (discover_returns cfg O [spaceName] hfToken options Hc w) as [run Hrun].
  destruct (discover_consistent cfg O [spaceName] hfToken options Hc w Hk) as [_ Hpost].
  specialize (Hpost run Hrun).
  assert (Hnd : List.NoDup [spaceName]) by (constructor; [intros [] | constructor]).
  pose proof (spaces_exact [spaceName] _ _ Hpost Hnd) as Hexact.
  cbn [List.filter] in Hexact.
  pose proof (deliveredb_spec (skipRequested options) run spaceName) as Hspec.
  exists run, (head (spaces run)). split; [exact Hrun|]. split.
  { unfold getGradioSpace.
    rewrite (outcome_bind _ _ _ _ (getGradioSpaces_outcome _ _ _ _ _ _ _ Hrun)).
    reflexivity. }
  destruct (deliveredb (skipRequested options) run spaceName).
  - destruct (spaces run) as [|record [|record' rest]]; try discriminate Hexact.
    injection Hexact as Hname. cbn [head].
    split; [intros _; exists record; auto|].
    split; [intros Hno; exfalso; apply Hno, Hspec; reflexivity|].
    intros r [= <-]. split; [exact Hname | now apply Hspec].
  - destruct (spaces run) as [|record rest]; [|discriminate Hexact]. cbn [head].
    split; [intros Hd; apply Hspec in Hd; discriminate|].
    split; [reflexivity|]. intros r [=].
Qed.

Lemma getGradioSpace_spec_witness :
  outcome (getGradioSpace CacheConfig.defaults sampleOutside "acme/down" None None)
    World.initial = Returned None.
Proof.
  destruct (getGradioSpace_spec CacheConfig.defaults sampleOutside "acme/down" None None
              World.initial)
    as (run & answer & Hrun & Hanswer & _ & Hnone & _).
  - reflexivity.
  - apply keyedByName_initial.
  - rewrite Hanswer. f_equal. apply Hnone.
    vm_compute in Hrun. injection Hrun as <-.
    intros [(metadata & cached & Hin & _) _]. simpl in Hin.
    destruct Hin as [[=]|[]].
Defined.

End DiscoveryMore.

(** ** Discovery on a warm cache *)

Module WarmCache.
Import Effects EffectFacts Cache CacheFacts Net Discovery DiscoveryFacts CacheMore
  DiscoveryMore.

Lemma triple_mapM_In {W A B} (I : W -> Prop) (f : A -> M W B) (P : A -> B -> Prop)
    (l : list A) :
  (forall x, In x l -> triple I (f x) (P x)) -> triple I (mapM f l) (List.Forall2 P l).
Proof.
  induction l as [|x t IH]; intros Hf; simpl.
  - apply triple_ret. constructor.
  - eapply triple_bind; [apply Hf; now left|]. intros y Hy.
    eapply triple_bind; [apply IH; intros a Ha; apply Hf; now right|]. intros ys Hys.
    apply triple_ret. now constructor.
Qed.

Lemma Forall2_concat {A B} (P : A -> B -> Prop) (ls : list (list A)) (ls' : list (list B)) :
  List.Forall2 (List.Forall2 P) ls ls' -> List.Forall2 P (concat ls) (concat ls').
Proof.
  induction 1 as [|l l' ls ls' H _ IH]; simpl; [constructor|].
  now apply List.Forall2_app.
Qed.

Lemma Forall2_In_l {A B} (P : A -> B -> Prop) (l : list A) (l' : list B) (a : A) :
  List.Forall2 P l l' -> In a l -> exists b, In b l' /\ P a b.
Proof.
  induction 1 as [|x y l l' Hxy _ IH]; simpl; [tauto|].
  intros [->|Hin]; [exists y; auto|].
  destruct (IH Hin) as (b & Hb & Hp). exists b. auto.
Qed.

Lemma Forall2_In_r {A B} (P : A -> B -> Prop) (l : list A) (l' : list B) (b : B) :
  List.Forall2 P l l' -> In b l' -> exists a, In a l /\ P a b.
Proof.
  induction 1 as [|x y l l' Hxy _ IH]; simpl; [tauto|].
  intros [->|Hin]; [exists x; auto|].
  destruct (IH Hin) as (a & Ha & Hp). exists a. auto.
Qed.

Section Warm.
Variables (cfg : CacheConfig.t) (O : Outside) (spaceNames : list string)
  (hfToken : option string).
Variables (E0 : gmap string CachedSpaceMetadata.t) (F0 : gmap string CachedSchema.t)
  (S0 : list Request).

(** Every name asked for has metadata in the cache that does not expire;
    so has, in the schema cache, every such name whose metadata is that of a
    Gradio space with a subdomain. *)
Hypothesis Hkey : map_Forall (fun k e => CachedSpaceMetadata.name e = k) E0.
Hypothesis Hmetadata :
  forall n, In n spaceNames ->
    exists e, E0 !! n = Some e /\
              forall k, now O k - CachedSpaceMetadata.fetchedAt e
                        < CacheConfig.SPACE_METADATA_TTL cfg.
Hypothesis Hschemas :
  forall n e, In n spaceNames -> E0 !! n = Some e -> isGradio e = true ->
    exists s, F0 !! n = Some s /\
              forall k, now O k - CachedSchema.fetchedAt s < CacheConfig.SCHEMA_TTL cfg.

Definition warm (w : World.t) : Prop :=
  World.sent w = S0 /\ metadataEntries w = E0 /\ schemaEntries w = F0.

Definition fromCache (n : string) (r : SpaceMetadataResult) : Prop :=
  exists e, E0 !! n = Some e /\ r = MetadataSuccess e true.

Definition schemaFromCache (metadata : CachedSpaceMetadata.t) (r : SchemaResult) : Prop :=
  exists s, F0 !! CachedSpaceMetadata.name metadata = Some s /\
            r = SchemaSuccess (CachedSpaceMetadata.name metadata) s true.

Definition cachedGradio (metadata : CachedSpaceMetadata.t) : Prop :=
  exists n, In n spaceNames /\ E0 !! n = Some metadata /\ isGradio metadata = true.

Lemma warm_after_metadata_get n w : warm w -> warm (after (metadata_get cfg O n) w).
Proof.
  intros (Hs & He & Hf).
  destruct (metadata_get_same cfg O n w) as [He' Hf'].
  pose proof (metadata_get_quiet cfg O n w) as Hq. red in Hq.
  repeat split; congruence.
Qed.

Lemma warm_after_schema_get n w : warm w -> warm (after (schema_get cfg O n) w).
Proof.
  intros (Hs & He & Hf).
  destruct (schema_get_same cfg O n w) as [He' Hf'].
  pose proof (schema_get_quiet cfg O n w) as Hq. red in Hq.
  repeat split; congruence.
Qed.

Lemma start_warm options n :
  In n spaceNames ->
  triple warm (fetchSpaceMetadata_start cfg O n hfToken options)
    (fun started => exists r, started = inl r /\ fromCache n r).
Proof.
  intros Hin w Hw. destruct (Hmetadata n Hin) as (e & He & Hfresh).
  pose proof (fetchSpaceMetadata_start_run cfg O n hfToken options w) as Hrun.
  assert (Hhit : metadataHitAt cfg O n w = Some e).
  { unfold metadataHitAt. destruct Hw as (_ & -> & _). rewrite He.
    destruct (Z.ltb_spec (now O (World.clockReads w) - CachedSpaceMetadata.fetchedAt e)
                (CacheConfig.SPACE_METADATA_TTL cfg)); [reflexivity|].
    specialize (Hfresh (World.clockReads w)). lia. }
  rewrite Hhit in Hrun. unfold after, outcome. rewrite Hrun. cbn [fst snd]. split.
  - now apply warm_after_metadata_get.
  - intros started [= <-]. eexists. split; [reflexivity|]. exists e. auto.
Qed.

Lemma finish_warm started :
  (exists r, started = inl r) ->
  triple warm (metadataFinish cfg O started) (fun r => started = inl r).
Proof. intros [r ->]. simpl. now apply triple_ret. Qed.

Lemma batch_warm options batch :
  incl batch spaceNames ->
  triple warm (metadataBatch cfg O hfToken options batch) (List.Forall2 fromCache batch).
Proof.
  intros Hincl. unfold metadataBatch.
  eapply triple_bind.
  - apply (triple_mapM_In warm _
             (fun n started => exists r, started = inl r /\ fromCache n r)).
    intros n Hn. apply start_warm. now apply Hincl.
  - intros started Hstarted.
    eapply triple_weaken;
      [|apply (triple_mapM_In warm _ (fun started r => started = inl r))].
    + intros results Hresults. cbv beta in Hresults.
      clear -Hstarted Hresults. revert results Hresults.
      induction Hstarted as [|n st batch started (r & -> & Hr) _ IH]; intros results Hres;
        inversion Hres as [|? r' ? results' E Hres']; subst; constructor.
      * now injection E as <-.
      * now apply IH.
    + intros st Hst. apply finish_warm.
      destruct (Forall2_In_r _ _ _ _ Hstarted Hst) as (n & _ & r & -> & _). eauto.
Qed.

Lemma phase_warm options :
  0 < orElse (options ≫= MetadataOptions.concurrency) (CacheConfig.DISCOVERY_CONCURRENCY cfg) ->
  triple warm (metadataPhase cfg O spaceNames hfToken options)
    (List.Forall2 fromCache spaceNames).
Proof.
  intros Hc. unfold metadataPhase.
  eapply triple_bind with
    (Q1 := fun batches => concat batches = spaceNames /\
                          forall batch, In batch batches -> incl batch spaceNames).
  - intros w Hw. destruct (makeBatches_run spaceNames _ w Hc) as (batches & Hrun & Hconcat).
    unfold after, outcome. rewrite Hrun. cbn [fst snd]. split; [exact Hw|].
    intros ? [= <-]. split; [exact Hconcat|].
    eapply makeBatches_incl. unfold outcome. rewrite Hrun. reflexivity.
  - intros batches [Hconcat Hincl].
    eapply triple_bind.
    + apply (triple_mapM_In warm _ (List.Forall2 fromCache)).
      intros batch Hb. apply batch_warm. now apply Hincl.
    + intros batchResults Hresults. apply triple_ret.
      rewrite <- Hconcat. now apply Forall2_concat.
Qed.

Lemma schema_start_warm timeout metadata :
  cachedGradio metadata ->
  triple warm (fetchSchema_start cfg O metadata hfToken timeout)
    (fun started => exists r, started = inl r /\ schemaFromCache metadata r).
Proof.
  intros (n & Hin & He & Hg) w Hw.
  assert (Hname : CachedSpaceMetadata.name metadata = n) by exact (Hkey _ _ He).
  destruct (Hschemas n metadata Hin He Hg) as (s & Hs & Hfresh).
  pose proof (fetchSchema_start_run cfg O metadata hfToken timeout w) as Hrun.
  assert (Hhit : schemaHitAt cfg O (CachedSpaceMetadata.name metadata) w = Some s).
  { unfold schemaHitAt. destruct Hw as (_ & _ & ->). rewrite Hname, Hs.
    destruct (Z.ltb_spec (now O (World.clockReads w) - CachedSchema.fetchedAt s)
                (CacheConfig.SCHEMA_TTL cfg)); [reflexivity|].
    specialize (Hfresh (World.clockReads w)). lia. }
  rewrite Hhit in Hrun. unfold after, outcome. rewrite Hrun. cbn [fst snd]. split.
  - now apply warm_after_schema_get.
  - intros started [= <-]. eexists. split; [reflexivity|]. exists s.
    split; [now rewrite Hname | reflexivity].
Qed.

Lemma schemaPhase_warm timeout metadataList :
  List.Forall cachedGradio metadataList ->
  triple warm (schemaPhase cfg O metadataList hfToken timeout)
    (List.Forall2 schemaFromCache metadataList).
Proof.
  intros Hall. unfold schemaPhase.
  destruct (List.length metadataList =? 0)%nat eqn:E.
  { apply Nat.eqb_eq, List.length_zero_iff_nil in E. subst.
    apply triple_ret. constructor. }
  unfold schemaBatch. eapply triple_bind.
  - apply (triple_mapM_In warm _
             (fun md started => exists r, started = inl r /\ schemaFromCache md r)).
    intros md Hmd. apply schema_start_warm.
    rewrite List.Forall_forall in Hall. now apply Hall.
  - intros started Hstarted.
    eapply triple_weaken;
      [|apply (triple_mapM_In warm _ (fun started r => started = inl r))].
    + intros results Hresults. cbv beta in Hresults.
      clear -Hstarted Hresults. revert results Hresults.
      induction Hstarted as [|md st mds started (r & -> & Hr) _ IH]; intros results Hres;
        inversion Hres as [|? r' ? results' E Hres']; subst; constructor.
      * now injection E as <-.
      * now apply IH.
    + intros st Hst.
      destruct (Forall2_In_r _ _ _ _ Hstarted Hst) as (md & _ & r & -> & _).
      simpl. now apply triple_ret.
Qed.

Lemma gradioOf_cached results :
  List.Forall2 fromCache spaceNames results -> List.Forall cachedGradio (gradioOf results).
Proof.
  intros Hres. apply List.Forall_forall. intros md Hmd.
  unfold gradioOf in Hmd. apply filter_In in Hmd as [Hmd Hg].
  apply in_map_iff in Hmd as ([k md'] & Hsnd & Hentry). simpl in Hsnd. subst md'.
  apply metadataMapOf_entries in Hentry as [_ [c Hc]].
  destruct (Forall2_In_r _ _ _ _ Hres Hc) as (n & Hn & e & He & [= <- _]).
  exists n. auto.
Qed.

(** What a run on the warm cache gives. *)
Record warmRun (skipSchemas : bool) (run : Discovered) : Prop := {
  metadata_from_cache : List.Forall2 fromCache spaceNames (metadataResults run);
  schemas_from_cache :
    skipSchemas = false ->
    List.Forall2 schemaFromCache (gradioOf (metadataResults run)) (schemaResults run)
}.

Lemma discover_warm options :
  0 < CacheConfig.DISCOVERY_CONCURRENCY cfg ->
  triple warm (discover cfg O spaceNames hfToken options)
    (warmRun (skipRequested options)).
Proof.
  intros Hc. unfold discover.
  destruct (List.length spaceNames =? 0)%nat eqn:E.
  { apply Nat.eqb_eq, List.length_zero_iff_nil in E.
    apply triple_ret. split; simpl; [rewrite E; constructor|]. intros _. constructor. }
  eapply triple_bind with (Q1 := fun _ => True).
  { intros w Hw. split; [|auto]. destruct Hw as (Hs & He & Hf). repeat split; assumption. }
  intros startTime _.
  eapply triple_bind.
  { apply phase_warm. simpl.
    destruct (Z.eqb_spec (CacheConfig.DISCOVERY_CONCURRENCY cfg) 0); lia. }
  intros results Hresults. cbv beta zeta.
  eapply triple_bind with
    (Q1 := fun schemas =>
             skipRequested options = false ->
             List.Forall2 schemaFromCache (gradioOf results) schemas).
  { destruct (skipRequested options); simpl.
    - apply triple_ret. discriminate.
    - destruct (0 <? List.length (gradioOf results))%nat eqn:Eg.
      + eapply triple_weaken; [|apply schemaPhase_warm; now apply gradioOf_cached].
        intros schemas Hs _. exact Hs.
      + apply triple_ret. intros _.
        apply Nat.ltb_ge in Eg.
        assert (Hnil : gradioOf results = [])
          by (apply List.length_zero_iff_nil; lia).
        rewrite Hnil. constructor. }
  intros schemas Hschemas'.
  eapply triple_bind with (Q1 := fun _ => True).
  { intros w Hw. split; [|auto]. destruct Hw as (Hs & He & Hf). repeat split; assumption. }
  intros endTime _. apply triple_ret. split; simpl; auto.
Qed.

(** From the run to the records. *)
Lemma warm_metadataSucceeded run skipSchemas n :
  warmRun skipSchemas run ->
  metadataSucceeded (metadataResults run) n <-> In n spaceNames.
Proof.
  intros [Hm _]. split.
  - intros (md & c & Hin & <-).
    destruct (Forall2_In_r _ _ _ _ Hm Hin) as (n & Hn & e & He & [= <- _]).
    now rewrite (Hkey _ _ He).
  - intros Hin. destruct (Forall2_In_l _ _ _ _ Hm Hin) as (r & Hr & e & He & ->).
    exists e, true. split; [exact Hr | exact (Hkey _ _ He)].
Qed.

Lemma warm_gradioOf run skipSchemas n e :
  warmRun skipSchemas run ->
  In n spaceNames -> E0 !! n = Some e -> isGradio e = true ->
  In e (gradioOf (metadataResults run)).
Proof.
  intros Hrun Hin He Hg.
  assert (Hkeyn : In n (JsMap.keys (metadataMapOf (metadataResults run)))).
  { rewrite keys_metadataMapOf, In_dedup. apply In_successNames.
    now apply (warm_metadataSucceeded run skipSchemas). }
  apply JsMapFacts.get_is_Some in Hkeyn as [stored Hstored].
  apply JsMapFacts.get_Some_In in Hstored.
  destruct (metadataMapOf_entries _ _ _ Hstored) as [Hk [c Hc]].
  destruct Hrun as [Hm _].
  destruct (Forall2_In_r _ _ _ _ Hm Hc) as (n' & Hn' & e' & He' & [= <- _]).
  assert (n' = n) by (rewrite Hk; symmetry; exact (Hkey _ _ He')). subst n'.
  assert (stored = e) by congruence. subst stored.
  unfold gradioOf. apply filter_In. split; [|exact Hg].
  change e with (snd (n, e)). now apply in_map.
Qed.

Lemma warm_schemaSucceeded run n :
  warmRun false run ->
  schemaSucceeded (schemaResults run) n <->
  In n spaceNames /\ exists e, E0 !! n = Some e /\ isGradio e = true.
Proof.
  intros Hrun. pose proof (schemas_from_cache _ _ Hrun eq_refl) as Hs. split.
  - intros (s & c & Hin).
    destruct (Forall2_In_r _ _ _ _ Hs Hin) as (md & Hmd & s' & _ & [= -> _ _]).
    pose proof (gradioOf_cached _ (metadata_from_cache _ _ Hrun)) as Hall.
    rewrite List.Forall_forall in Hall.
    destruct (Hall md Hmd) as (n & Hn & He & Hg).
    rewrite (Hkey _ _ He). eauto.
  - intros (Hin & e & He & Hg).
    pose proof (warm_gradioOf run false n e Hrun Hin He Hg) as Hmd.
    destruct (Forall2_In_l _ _ _ _ Hs Hmd) as (r & Hr & s & _ & ->).
    exists s, true. now rewrite <- (Hkey _ _ He).
Qed.

End Warm.

(** X13.  A warm cache answers without the network.  Suppose the cache
    holds, under its own name, metadata for every name asked for, and a
    schema for each of them that is a Gradio space with a subdomain, and
    that none of these entries is expired at any reading of the clock.  Then [getGradioSpaces] returns without sending a single
    request and without changing an entry of either cache.  The records are
    those of the names asked for (of all of them when schemas are skipped, of
    the Gradio spaces among them otherwise), and each record carries the
    cached metadata and, unless schemas are skipped, the tools of the cached
    schema. *)
Theorem warm_cache_no_requests (cfg : CacheConfig.t) (O : Outside)
    (spaceNames : list string) (hfToken : option string)
    (options : option GetGradioSpacesOptions.t) (w : World.t) :
  0 < CacheConfig.DISCOVERY_CONCURRENCY cfg ->
  keyedByName w ->
  (forall n, In n spaceNames ->
     exists e, metadataEntries w !! n = Some e /\
               forall k, now O k - CachedSpaceMetadata.fetchedAt e
                         < CacheConfig.SPACE_METADATA_TTL cfg) ->
  (forall n e, In n spaceNames -> metadataEntries w !! n = Some e -> isGradio e = true ->
     exists s, schemaEntries w !! n = Some s /\
               forall k, now O k - CachedSchema.fetchedAt s < CacheConfig.SCHEMA_TTL cfg) ->
  let w' := after (getGradioSpaces cfg O spaceNames hfToken options) w in
  exists records,
    outcome (getGradioSpaces cfg O spaceNames hfToken options) w = Returned records /\
    World.sent w' = World.sent w /\
    metadataEntries w' = metadataEntries w /\
    schemaEntries w' = schemaEntries w /\
    (forall n, In n (map GradioSpaceInfo.name records) <->
               In n spaceNames /\
               (skipRequested options = true \/
                exists e, metadataEntries w !! n = Some e /\ isGradio e = true)) /\
    (forall record, In record records ->
       exists e,
         metadataEntries w !! GradioSpaceInfo.name record = Some e /\
         GradioSpaceInfo.subdomain record = CachedSpaceMetadata.subdomain e /\
         GradioSpaceInfo.sdk record = CachedSpaceMetadata.sdk e /\
         GradioSpaceInfo.private record = CachedSpaceMetadata.private e /\
         (skipRequested options = false ->
          exists s, schemaEntries w !! GradioSpaceInfo.name record = Some s /\
                    GradioSpaceInfo.tools record = CachedSchema.tools s)).
Proof.
  intros Hc Hk Hm Hs w'.
  destruct (discover_returns cfg O spaceNames hfToken options Hc w) as [run Hrun].
  destruct (discover_consistent cfg O spaceNames hfToken options Hc w Hk) as [_ Hcons].
  specialize (Hcons run Hrun).
  destruct (discover_warm cfg O spaceNames hfToken (metadataEntries w) (schemaEntries w)
              (World.sent w) Hk Hm Hs options Hc w) as [Hwarm Hpost];
    [repeat split|].
  specialize (Hpost run Hrun).
  rewrite <- getGradioSpaces_after in Hwarm. fold w' in Hwarm.
  destruct Hwarm as (Hsent & He & Hf).
  exists (spaces run). split; [now apply getGradioSpaces_outcome|].
  split; [exact Hsent|]. split; [exact He|]. split; [exact Hf|]. split.
  - intros n. rewrite (spaces_delivered spaceNames _ _ Hcons n). unfold delivered.
    rewrite (warm_metadataSucceeded spaceNames (metadataEntries w) (schemaEntries w)
               Hk run _ n Hpost).
    destruct (skipRequested options) eqn:Eskip.
    + split; [intros [H _]; auto | intros [H _]; auto].
    + rewrite (warm_schemaSucceeded spaceNames (metadataEntries w) (schemaEntries w)
                 Hk run n Hpost).
      split.
      * intros [H [[=]|[_ H']]]. auto.
      * intros [H [[=]|H']]. auto.
  - intros record Hin.
    rewrite (records_combined _ _ _ Hcons) in Hin.
    unfold combineMetadataAndSchemas in Hin.
    apply in_flat_map in Hin as ([k md] & Hentry & Hrec).
    destruct (metadataMapOf_entries _ _ _ Hentry) as [Hkname [c Hc']].
    destruct (Forall2_In_r _ _ _ _ (metadata_from_cache _ _ _ _ _ Hpost) Hc')
      as (n & Hn & e & He' & [= <- _]).
    assert (n = k) by (rewrite Hkname; symmetry; exact (Hk _ _ He')). subst n.
    unfold combineOne in Hrec.
    destruct (negb (skipRequested options)
              && negb (bool_decide (is_Some (JsMap.get k (schemaMapOf (schemaResults run))))))
      eqn:Ecase; [destruct Hrec|].
    destruct Hrec as [<-|[]]. cbn.
    exists md. rewrite <- Hkname. split; [exact He'|].
    split; [reflexivity|]. split; [reflexivity|]. split; [reflexivity|].
    intros Hskip. rewrite Hskip in Ecase, Hpost. cbn [negb andb] in Ecase.
    apply negb_false_iff, bool_decide_eq_true in Ecase as [s Hget].
    rewrite Hget.
    apply JsMapFacts.get_Some_In in Hget.
    unfold schemaMapOf in Hget. rewrite storeSchema_storeAll in Hget.
    apply JsMapFacts.In_storeAll in Hget as [[]|Hget].
    apply In_schemaEntries in Hget as [c'' Hsr].
    destruct (Forall2_In_r _ _ _ _ (schemas_from_cache _ _ _ _ _ Hpost eq_refl) Hsr)
      as (md' & _ & s' & Hs' & [= Hname <- _]).
    exists s. rewrite Hname. split; [exact Hs' | reflexivity].
Qed.


(** A clock that stands still, and no network. *)
Definition stoppedClock : Outside :=
  {| now := fun _ => 2000;
     hub := fun _ _ => inl {| message := "fetch failed" |};
     space := fun _ _ => inl {| message := "fetch failed" |} |}.

Definition warmWorld : World.t :=
  after (schema_set "acme/ok" (schemaAt 1000))
    (after (metadata_set "acme/ok" (entryAt 1000)) World.initial).

Lemma warm_cache_no_requests_witness :
  exists records,
    outcome (getGradioSpaces CacheConfig.defaults stoppedClock ["acme/ok"] None None) warmWorld
    = Returned records /\
    World.sent (after (getGradioSpaces CacheConfig.defaults stoppedClock ["acme/ok"] None None)
                  warmWorld) = [] /\
    (In "acme/ok" (map GradioSpaceInfo.name records)).
Proof.
  destruct (warm_cache_no_requests CacheConfig.defaults stoppedClock ["acme/ok"] None None
              warmWorld) as (records & Hout & Hsent & _ & _ & Hnames & _).
  - reflexivity.
  - unfold keyedByName, warmWorld, after, metadataEntries. cbn.
    apply map_Forall_insert_2; [reflexivity | apply map_Forall_empty].
  - intros n [<-|[]]. exists (entryAt 1000). split.
    + unfold warmWorld, after, metadataEntries. cbn. apply lookup_insert_eq.
    + intros k. reflexivity.
  - intros n e [<-|[]] _ _. exists (schemaAt 1000). split.
    + unfold warmWorld, after, schemaEntries. cbn. apply lookup_insert_eq.
    + intros k. reflexivity.
  - exists records. split; [exact Hout|]. split; [exact Hsent|].
    apply Hnames. split; [now left|]. right. exists (entryAt 1000). split.
    + unfold warmWorld, after, metadataEntries. cbn. apply lookup_insert_eq.
    + reflexivity.
Defined.
End WarmCache.

(** ** Outward tool names, continued *)

Module NameMore.
Import Js JsFacts GradioUtils GradioTools NameFacts.

(** The number a list of decimal digits denotes, after [a]. *)
Definition valueOf (l : list ascii) (a : N) : N :=
  fold_left (fun a c => (10 * a + (code c - 48))%N) l a.

Lemma digit_char (d : N) :
  (d < 10)%N ->
  isDigit (ascii_of_N (48 + d)) = true /\ (code (ascii_of_N (48 + d)) - 48)%N = d.
Proof.
  intros Hd. unfold isDigit, code.
  rewrite N_ascii_embedding by lia. split; [|lia].
  apply andb_true_intro. split; apply N.leb_le; lia.
Qed.

Lemma digitsN_spec (f : nat) (n : N) (acc : list ascii) :
  (n < 10 ^ N.of_nat (S f))%N ->
  exists D, digitsN (S f) n acc = (D ++ acc)%list /\ D <> nil /\
            forallb isDigit D = true /\ valueOf D 0 = n.
Proof.
  revert n acc. induction f as [|f IH]; intros n acc Hn.
  - change (10 ^ N.of_nat 1)%N with 10%N in Hn.
    assert (Hmod : (n mod 10 = n)%N) by (apply N.mod_small; exact Hn).
    destruct (digit_char n Hn) as [Hd Hc].
    exists [ascii_of_N (48 + n)]. simpl. rewrite Hmod.
    destruct (N.ltb_spec n 10); [|lia].
    split; [reflexivity|]. split; [discriminate|]. split; [now rewrite Hd|].
    unfold valueOf. simpl. rewrite Hc. lia.
  - assert (Hm : (n mod 10 < 10)%N) by (apply N.mod_lt; discriminate).
    destruct (digit_char _ Hm) as [Hd Hc].
    change (digitsN (S (S f)) n acc)
      with (if (n <? 10)%N then ascii_of_N (48 + n mod 10) :: acc
            else digitsN (S f) (n / 10) (ascii_of_N (48 + n mod 10) :: acc)).
    destruct (N.ltb_spec n 10) as [Hlt|Hge].
    + assert (Hmod : (n mod 10 = n)%N) by (apply N.mod_small; exact Hlt).
      rewrite Hmod in *. exists [ascii_of_N (48 + n)].
      split; [reflexivity|]. split; [discriminate|]. split; [simpl; now rewrite Hd|].
      unfold valueOf. simpl. rewrite Hc. lia.
    + destruct (IH (n / 10)%N (ascii_of_N (48 + n mod 10) :: acc))
        as (D & HD & Hne & Hall & Hval).
      { apply N.Div0.div_lt_upper_bound.
        replace (N.of_nat (S (S f))) with (N.succ (N.of_nat (S f))) in Hn by lia.
        rewrite N.pow_succ_r' in Hn. exact Hn. }
      exists (D ++ [ascii_of_N (48 + n mod 10)]).
      split; [rewrite HD, <- app_assoc; reflexivity|].
      split; [now destruct D|].
      split; [rewrite forallb_app, Hall; simpl; now rewrite Hd|].
      unfold valueOf in *. rewrite fold_left_app, Hval. simpl. rewrite Hc.
      pose proof (N.div_mod' n 10). lia.
Qed.

(** The decimal digits of a number that is not negative: at least one,
    nothing but digits, and they denote the number. *)
Lemma toString_decimal (n : Z) :
  0 <= n ->
  chars (toString n) <> nil /\ forallb isDigit (chars (toString n)) = true /\
  valueOf (chars (toString n)) 0 = Z.to_N n.
Proof.
  intros Hn. destruct n as [|q|q]; [| |lia].
  - split; [discriminate|]. split; reflexivity.
  - unfold toString, N_toString. rewrite chars_str.
    destruct (digitsN_spec (N.to_nat (N.log2 (N.pos q))) (N.pos q) [])
      as (D & -> & Hne & Hall & Hval).
    + replace (N.of_nat (S (N.to_nat (N.log2 (N.pos q)))))
        with (N.succ (N.log2 (N.pos q))) by lia.
      destruct (N.log2_spec (N.pos q)) as [_ Hlt]; [lia|].
      eapply N.lt_le_trans; [exact Hlt|].
      apply N.pow_le_mono_l. lia.
    + rewrite app_nil_r. split; [exact Hne|]. split; [exact Hall|]. exact Hval.
Qed.

Lemma digitsThenUnderscore_digits (D rest : list ascii) (seen : bool) :
  forallb isDigit D = true -> D <> nil \/ seen = true ->
  digitsThenUnderscore seen (D ++ "_"%char :: rest) = true.
Proof.
  revert seen. induction D as [|c D IH]; intros seen Hall Hne.
  - destruct Hne as [Hne| ->]; [congruence | reflexivity].
  - simpl in Hall. apply andb_prop in Hall as [Hc Hall].
    simpl. rewrite Hc. apply IH; [exact Hall | now right].
Qed.

(** Digits that end at an underscore are determined by the text. *)
Lemma digits_unique (D1 D2 r1 r2 : list ascii) :
  forallb isDigit D1 = true -> forallb isDigit D2 = true ->
  D1 ++ "_"%char :: r1 = D2 ++ "_"%char :: r2 -> D1 = D2.
Proof.
  revert D2. induction D1 as [|c D1 IH]; intros [|c' D2] H1 H2 Heq; simpl in *.
  - reflexivity.
  - injection Heq as <- _. discriminate.
  - injection Heq as -> _. discriminate.
  - injection Heq as <- Heq.
    apply andb_prop in H1 as [_ H1]. apply andb_prop in H2 as [_ H2].
    f_equal. now apply IH.
Qed.

Lemma chars_name toolName index isPrivate toolIndex :
  exists rest,
    chars (createGradioToolName toolName index isPrivate toolIndex)
    = chars (prefixOf isPrivate) ++ chars (toString (index + 1)) ++ "_"%char :: rest.
Proof.
  destruct (createGradioToolName_head toolName index isPrivate toolIndex) as [rest ->].
  exists (chars rest). rewrite !chars_app. reflexivity.
Qed.

(** X14.  [isGradioTool] and [createGradioToolName] agree: for a space
    index and a tool index that are safe integers, the pattern of
    [isGradioTool] accepts a generated name exactly when the space index is
    at least -1, whatever the tool name, the privacy and the tool index.
    (Below -1 the number printed after the prefix starts with a minus
    sign.) *)
Theorem generated_name_recognised (toolName : string) (index : Z)
    (isPrivate : option bool) (toolIndex : option Z) :
  safeInteger index ->
  (forall ti, toolIndex = Some ti -> safeInteger ti) ->
  matchesGradioPattern (createGradioToolName toolName index isPrivate toolIndex)
  = (0 <=? index + 1).
Proof.
  intros _ _.
  destruct (chars_name toolName index isPrivate toolIndex) as [rest Hchars].
  unfold matchesGradioPattern. rewrite Hchars. clear Hchars.
  destruct (Z.leb_spec 0 (index + 1)) as [Hi|Hi].
  - destruct (toString_decimal (index + 1) Hi) as (Hne & Hall & _).
    unfold prefixOf.
    destruct (default false isPrivate); cbn -[toString digitsThenUnderscore].
    + apply digitsThenUnderscore_digits; [exact Hall | now left].
    + destruct (chars (toString (index + 1))) as [|c D] eqn:E; [congruence|].
      cbn -[digitsThenUnderscore].
      destruct (Ascii.eqb_spec c "p") as [->|_]; [discriminate|].
      apply (digitsThenUnderscore_digits (c :: D)); [exact Hall | now left].
  - destruct (index + 1) as [|q|q] eqn:E; [lia | lia |].
    unfold prefixOf. destruct (default false isPrivate); reflexivity.
Qed.

(** X15.  The name tells the space.  Two generated names are equal only
    if they were made for the same space index and the same privacy; so the
    tools of different spaces never get the same name.  (For indices that are
    safe integers, and space indices from -1 on, where the number after the
    prefix is made of digits.) *)
Theorem name_determines_space (toolName toolName' : string) (index index' : Z)
    (isPrivate isPrivate' : option bool) (toolIndex toolIndex' : option Z) :
  safeInteger index -> safeInteger index' ->
  (forall ti, toolIndex = Some ti -> safeInteger ti) ->
  (forall ti, toolIndex' = Some ti -> safeInteger ti) ->
  0 <= index + 1 -> 0 <= index' + 1 ->
  createGradioToolName toolName index isPrivate toolIndex
  = createGradioToolName toolName' index' isPrivate' toolIndex' ->
  index = index' /\ default false isPrivate = default false isPrivate'.
Proof.
  intros _ _ _ _ Hi Hi' Heq. apply (f_equal chars) in Heq.
  destruct (chars_name toolName index isPrivate toolIndex) as [rest Hc].
  destruct (chars_name toolName' index' isPrivate' toolIndex') as [rest' Hc'].
  rewrite Hc, Hc' in Heq. clear Hc Hc'.
  destruct (toString_decimal (index + 1) Hi) as (Hne & Hall & Hval).
  destruct (toString_decimal (index' + 1) Hi') as (Hne' & Hall' & Hval').
  assert (Hsame : chars (toString (index + 1)) ++ "_"%char :: rest
                  = chars (toString (index' + 1)) ++ "_"%char :: rest' ->
                  index = index').
  { intros H. apply digits_unique in H; [|assumption|assumption].
    rewrite H in Hval. rewrite Hval' in Hval. lia. }
  unfold prefixOf in Heq.
  destruct (default false isPrivate), (default false isPrivate');
    cbn -[toString] in Heq.
  - injection Heq as Heq. split; [now apply Hsame | reflexivity].
  - injection Heq as Heq.
    destruct (chars (toString (index' + 1))) as [|c D]; [congruence|].
    injection Heq as <- _. discriminate.
  - injection Heq as Heq.
    destruct (chars (toString (index + 1))) as [|c D]; [congruence|].
    injection Heq as -> _. discriminate.
  - injection Heq as Heq. split; [now apply Hsame | reflexivity].
Qed.

(** X16.  Names for array positions.  When the space index and the tool
    index are positions of JavaScript arrays (below 2^32), the generated name
    has at most 49 characters; a sanitized tool name within the room left is
    kept whole, and a longer one gives a name of exactly 49 characters that
    ends with the end of the sanitized name. *)
Theorem array_position_names (toolName : string) (index : Z)
    (isPrivate : option bool) (toolIndex : option Z) :
  0 <= index < 2 ^ 32 - 1 ->
  (forall ti, toolIndex = Some ti -> 0 <= ti < 2 ^ 32) ->
  let name := createGradioToolName toolName index isPrivate toolIndex in
  len name <= 49 /\
  (len (sanitize toolName) <= budget index isPrivate ->
   name = prefixOf isPrivate +:+ toString (index + 1) +:+ "_" +:+ sanitize toolName) /\
  (budget index isPrivate < len (sanitize toolName) ->
   len name = 49 /\
   exists front tail, name = front +:+ tail /\ 0 < len tail /\
                      exists before, sanitize toolName = before +:+ tail).
Proof.
  intros Hi Ht name.
  assert (Hroom : len (toString (index + 1)) + digitsOf toolIndex <= 22).
  { assert (len (toString (index + 1)) <= 10).
    { apply (len_toString_nonneg 10); [lia|]. simpl. lia. }
    destruct toolIndex as [ti|]; simpl; [|lia].
    assert (len (toString ti) <= 10).
    { apply (len_toString_nonneg 10); [lia|]. specialize (Ht ti eq_refl). simpl. lia. }
    lia. }
  split; [now apply createGradioToolName_length|]. split.
  - intros Hshort. now apply createGradioToolName_short.
  - intros Hlong.
    destruct (createGradioToolName_long toolName index isPrivate toolIndex Hroom Hlong)
      as (before & tail & Hsan & Htail & Hname & Hlen).
    split; [exact Hlen|].
    eexists _, tail. split; [|split; [exact Htail | exists before; exact Hsan]].
    unfold name. rewrite Hname. rewrite <- !append_assoc. reflexivity.
Qed.


Lemma name_determines_space_witness :
  createGradioToolName "a-b" 2 None None = createGradioToolName "a.b" 2 (Some false) (Some 7) /\
  2 = 2 /\ default false None = default false (Some false).
Proof.
  split; [vm_compute; reflexivity|].
  apply (name_determines_space "a-b" "a.b" 2 2 None (Some false) None (Some 7));
    [unfold safeInteger; lia | unfold safeInteger; lia | discriminate
    | intros ti [= <-]; unfold safeInteger; lia | lia | lia | vm_compute; reflexivity].
Defined.

Lemma generated_name_recognised_witness :
  matchesGradioPattern (createGradioToolName "flux.1 schnell" 4 (Some true) (Some 2)) = true.
Proof.
  apply (generated_name_recognised "flux.1 schnell" 4 (Some true) (Some 2)).
  - unfold safeInteger. lia.
  - intros ti [= <-]. unfold safeInteger. lia.
Defined.

Lemma array_position_names_witness :
  len (createGradioToolName "a very long tool name that goes on and on and on and on"
         3 (Some true) (Some 12)) = 49.
Proof.
  destruct (array_position_names "a very long tool name that goes on and on and on and on"
              3 (Some true) (Some 12)) as (_ & _ & Hlong).
  - lia.
  - intros ti [= <-]. lia.
  - destruct Hlong as [Hlen _]; [vm_compute; reflexivity | exact Hlen].
Defined.
End NameMore.

(** ** The records of a discovery, and the endpoints of a [gradio] parameter *)

Module EndpointsMore.
Import Effects EffectFacts Cache CacheFacts Net Discovery DiscoveryFacts CacheMore
  DiscoveryMore GradioTools.

Lemma delivered_asked spaceNames skipSchemas run n :
  consistent spaceNames skipSchemas run -> delivered skipSchemas run n -> In n spaceNames.
Proof.
  intros Hcons [(metadata & cached & Hin & Hname) _].
  rewrite <- (one_result_per_name _ _ _ Hcons), <- Hname.
  change (CachedSpaceMetadata.name metadata)
    with (metadataResultName (MetadataSuccess metadata cached)).
  now apply in_map.
Qed.

(** What every run gives: records with distinct names, all of them asked for. *)
Lemma getGradioSpaces_names cfg O spaceNames hfToken options w :
  0 < CacheConfig.DISCOVERY_CONCURRENCY cfg ->
  keyedByName w ->
  exists records,
    outcome (getGradioSpaces cfg O spaceNames hfToken options) w = Returned records /\
    List.NoDup (map GradioSpaceInfo.name records) /\
    (forall n, In n (map GradioSpaceInfo.name records) -> In n spaceNames).
Proof.
  intros Hc Hk.
  destruct (discover_returns cfg O spaceNames hfToken options Hc w) as [run Hrun].
  destruct (discover_consistent cfg O spaceNames hfToken options Hc w Hk) as [_ Hcons].
  specialize (Hcons run Hrun).
  exists (spaces run). split; [now apply getGradioSpaces_outcome|]. split.
  - exact (spaces_NoDup spaceNames _ _ Hcons).
  - intros n Hn. apply (delivered_asked _ _ _ _ Hcons).
    now apply (spaces_delivered spaceNames _ _ Hcons n).
Qed.

(** X17.  The records of a discovery.  [getGradioSpaces] returns at most
    one record per name, also when a name is asked for twice, and only
    records of names asked for; when the names asked for are distinct the
    records come in the order of the request.  Unless schemas are skipped,
    every record is that of a space with [sdk: 'gradio'] and a subdomain. *)
Theorem records_of_discovery (cfg : CacheConfig.t) (O : Outside)
    (spaceNames : list string) (hfToken : option string)
    (options : option GetGradioSpacesOptions.t) (w : World.t) :
  0 < CacheConfig.DISCOVERY_CONCURRENCY cfg ->
  keyedByName w ->
  exists records,
    outcome (getGradioSpaces cfg O spaceNames hfToken options) w = Returned records /\
    List.NoDup (map GradioSpaceInfo.name records) /\
    (forall n, In n (map GradioSpaceInfo.name records) -> In n spaceNames) /\
    (List.NoDup spaceNames ->
     exists keep, map GradioSpaceInfo.name records = List.filter keep spaceNames) /\
    (skipRequested options = false ->
     forall record, In record records ->
       GradioSpaceInfo.sdk record = "gradio" /\ GradioSpaceInfo.subdomain record <> "").
Proof.
  intros Hc Hk.
  destruct (discover_returns cfg O spaceNames hfToken options Hc w) as [run Hrun].
  destruct (discover_consistent cfg O spaceNames hfToken options Hc w Hk) as [_ Hcons].
  specialize (Hcons run Hrun).
  exists (spaces run). split; [now apply getGradioSpaces_outcome|]. split.
  { exact (spaces_NoDup spaceNames _ _ Hcons). }
  split.
  { intros n Hn. apply (delivered_asked _ _ _ _ Hcons).
    now apply (spaces_delivered spaceNames _ _ Hcons n). }
  split.
  { intros Hnd. eexists. exact (spaces_exact spaceNames _ _ Hcons Hnd). }
  intros Hskip. rewrite Hskip in Hcons.
  exact (records_with_schemas_are_gradio spaceNames run Hcons).
Qed.

Lemma records_of_discovery_witness :
  exists records,
    outcome (getGradioSpaces CacheConfig.defaults sampleOutside
               ["acme/ok"; "acme/static"; "acme/ok"] None None) World.initial
    = Returned records /\
    List.NoDup (map GradioSpaceInfo.name records) /\
    List.Forall (fun record => GradioSpaceInfo.sdk record = "gradio") records.
Proof.
  destruct (records_of_discovery CacheConfig.defaults sampleOutside
              ["acme/ok"; "acme/static"; "acme/ok"] None None World.initial)
    as (records & Hout & Hnd & _ & _ & Hsdk).
  - reflexivity.
  - apply keyedByName_initial.
  - exists records. split; [exact Hout|]. split; [exact Hnd|].
    apply List.Forall_forall. intros record Hin.
    exact (proj1 (Hsdk eq_refl record Hin)).
Defined.

(** X18.  The endpoints of a [gradio] parameter.
    [parseAndFetchGradioEndpoints] always returns a list, never an error:
    one endpoint at most for each space id that [parseGradioSpaceIds] reads
    from the parameter, under that id, and no two with the same name.  It
    sends nothing but metadata requests to the Hub for those ids (no space is
    contacted), and when the parameter holds no valid id (as with [none]) it
    returns the empty list without touching the caches, the clock or the
    network. *)
Theorem endpoints_of_parameter (cfg : CacheConfig.t) (O : Outside)
    (gradioParam : string) (hfToken : option string) (w : World.t) :
  0 < CacheConfig.DISCOVERY_CONCURRENCY cfg ->
  keyedByName w ->
  let ids := map GradioUtils.name (GradioUtils.parseGradioSpaceIds gradioParam) in
  let w' := after (parseAndFetchGradioEndpoints cfg O gradioParam hfToken) w in
  exists tools extra,
    outcome (parseAndFetchGradioEndpoints cfg O gradioParam hfToken) w = Returned tools /\
    List.NoDup (map Settings.name tools) /\
    (forall tool, In tool tools -> In (Settings.name tool) ids) /\
    World.sent w' = World.sent w ++ extra /\
    List.Forall (hubAllowed cfg ids hfToken (metadataOptionsOf cfg metadataOnly)) extra /\
    (ids = [] -> tools = [] /\ w' = w).
Proof.
  intros Hc Hk ids w'. unfold w', parseAndFetchGradioEndpoints.
  destruct (List.length (GradioUtils.parseGradioSpaceIds gradioParam) =? 0)%nat eqn:E.
  { exists [], []. split; [reflexivity|]. split; [constructor|].
    split; [intros tool []|]. split; [unfold after; simpl; now rewrite app_nil_r|].
    split; [constructor|]. intros _. split; reflexivity. }
  unfold fetchGradioSubdomains. rewrite E. fold ids.
  destruct (getGradioSpaces_names cfg O ids hfToken metadataOnly w Hc Hk)
    as (records & Hout & Hnd & Hasked).
  destruct (getGradioSpaces_sends cfg O ids hfToken metadataOnly w)
    as (extra & Hsent & Hall).
  assert (Hnames : map Settings.name (map toSpaceTool records)
                   = map GradioSpaceInfo.name records).
  { rewrite map_map. reflexivity. }
  exists (map toSpaceTool records), extra.
  split; [rewrite (outcome_bind _ _ _ _ Hout); reflexivity|].
  split; [now rewrite Hnames|].
  split.
  { intros tool Hin. apply Hasked. rewrite <- Hnames. now apply in_map. }
  split; [rewrite (after_bind _ _ _ _ Hout); exact Hsent|].
  split.
  { eapply List.Forall_impl; [|exact Hall].
    intros r [Hhub|[Hno _]]; [exact Hhub | discriminate]. }
  intros Hnil. apply Nat.eqb_neq in E. exfalso. apply E.
  unfold ids in Hnil. apply map_eq_nil in Hnil. now rewrite Hnil.
Qed.

Lemma endpoints_of_parameter_witness :
  exists tools,
    outcome (parseAndFetchGradioEndpoints CacheConfig.defaults sampleOutside
               "acme/ok, acme/down ,acme/static,bad" (Some "hf_token")) World.initial
    = Returned tools /\
    forall tool, In tool tools ->
      In (Settings.name tool) ["acme/ok"; "acme/down"; "acme/static"].
Proof.
  destruct (endpoints_of_parameter CacheConfig.defaults sampleOutside
              "acme/ok, acme/down ,acme/static,bad" (Some "hf_token") World.initial)
    as (tools & extra & Hout & _ & Hids & _).
  - reflexivity.
  - apply keyedByName_initial.
  - exists tools. split; [exact Hout | exact Hids].
Defined.

End EndpointsMore.

(** ** Tool results, continued *)

Module ResultMore.
Import Json ResultProcessor FilterFacts UrlExtraction ToolCaller.

(** A block whose [type] is the string [image], in any case of letters. *)
Definition imageTyped (item : JValue) : bool :=
  match blockType item with
  | Some t => String.eqb (Js.toLowerCase t) "image"
  | None => false
  end.

Lemma keepItem_imageTyped item : keepItem item = negb (imageTyped item).
Proof.
  unfold keepItem, imageTyped, blockType.
  destruct item as [|b|n|s|items|fields]; simpl; try reflexivity.
  - now destruct b.
  - now destruct (negb (n =? 0)).
  - now destruct (negb (String.eqb s "")).
  - destruct (getField "type" fields) as [[| | |t| |]|]; reflexivity.
Qed.

Definition noticeIfEmptied (before kept : list JValue) : list JValue :=
  if (List.length kept =? 0)%nat && negb (List.length before =? 0)%nat
  then [omittedNotice] else [].

Lemma strip_content callResult options :
  enabled options = true ->
  content (stripImageContentFromResult callResult options)
  = List.filter keepItem (content callResult)
    ++ noticeIfEmptied (content callResult) (List.filter keepItem (content callResult)).
Proof.
  intros He. unfold stripImageContentFromResult, noticeIfEmptied. rewrite He. simpl.
  destruct (Nat.eqb_spec (List.length (content callResult)) 0) as [Hz|Hnz].
  - apply List.length_zero_iff_nil in Hz. rewrite Hz. reflexivity.
  - destruct (Nat.eqb_spec (List.length (List.filter keepItem (content callResult)))
                (List.length (content callResult))) as [Hsame|Hdiff].
    + rewrite (filter_length_eq _ _ Hsame).
      destruct (Nat.eqb_spec (List.length (content callResult)) 0); [contradiction|].
      simpl. now rewrite app_nil_r.
    + simpl.
      destruct (List.length (List.filter keepItem (content callResult)) =? 0)%nat;
        simpl; [reflexivity | now rewrite app_nil_r].
Qed.

Lemma filter_all {A} (p : A -> bool) (l : list A) :
  (forall x, In x l -> p x = true) -> List.filter p l = l.
Proof.
  induction l as [|x t IH]; intros H; simpl; [reflexivity|].
  rewrite (H x) by now left. f_equal. apply IH. intros y Hy. apply H. now right.
Qed.

Lemma strip_again callResult options :
  stripImageContentFromResult (stripImageContentFromResult callResult options) options
  = stripImageContentFromResult callResult options.
Proof.
  destruct (enabled options) eqn:He; [|now rewrite !strip_disabled].
  set (r := stripImageContentFromResult callResult options).
  assert (Hall : List.filter keepItem (content r) = content r).
  { apply filter_all. intros x Hx. unfold r in Hx. rewrite strip_content in Hx by exact He.
    apply in_app_or in Hx as [Hx|Hx].
    - now apply filter_In in Hx.
    - unfold noticeIfEmptied in Hx. destruct (_ && _); [|destruct Hx].
      destruct Hx as [<-|[]]. reflexivity. }
  unfold stripImageContentFromResult at 1. rewrite He. simpl.
  destruct (List.length (content r) =? 0)%nat; [reflexivity|].
  rewrite Hall, Nat.eqb_refl. reflexivity.
Qed.

Lemma strip_fields callResult options :
  isError (stripImageContentFromResult callResult options) = isError callResult /\
  structuredContent (stripImageContentFromResult callResult options)
  = structuredContent callResult /\
  _meta (stripImageContentFromResult callResult options) = _meta callResult.
Proof.
  unfold stripImageContentFromResult.
  destruct (negb (enabled options)); [auto|]. simpl.
  destruct (_ =? 0)%nat; [auto|]. destruct (_ =? _)%nat; auto.
Qed.

(** X19.  What the image filter keeps.  The filter touches nothing but
    [content]: [isError], [structuredContent] and [_meta] are those of the
    result it was given.  When it is enabled, the content it returns is the
    content it was given without the blocks whose [type] is [image] (in any
    case of letters), in their order, followed by the notice when that leaves
    nothing of a content that was not empty.  Filtering twice is filtering
    once. *)
Theorem strip_keeps_the_rest (callResult : CallToolResult) (options : ImageFilterOptions) :
  let filtered := stripImageContentFromResult callResult options in
  isError filtered = isError callResult /\
  structuredContent filtered = structuredContent callResult /\
  _meta filtered = _meta callResult /\
  stripImageContentFromResult filtered options = filtered /\
  (enabled options = true ->
   let kept := List.filter (fun item => negb (imageTyped item)) (content callResult) in
   content filtered = kept ++ noticeIfEmptied (content callResult) kept).
Proof.
  intros filtered.
  destruct (strip_fields callResult options) as (H1 & H2 & H3).
  split; [exact H1|]. split; [exact H2|]. split; [exact H3|].
  split; [apply strip_again|].
  intros He kept. unfold filtered. rewrite strip_content by exact He.
  assert (Hext : List.filter keepItem (content callResult) = kept).
  { apply List.filter_ext. intros item. apply keepItem_imageTyped. }
  now rewrite Hext.
Qed.

Definition mixedResult : CallToolResult :=
  {| content := [JObj [("type", JStr "text"); ("text", JStr "done")];
                 JObj [("type", JStr "Image"); ("data", JStr "base64data")];
                 JObj [("type", JStr "resource")]];
     isError := None; structuredContent := None; _meta := None |}.

Lemma strip_keeps_the_rest_witness :
  content (stripImageContentFromResult mixedResult filterOn)
  = [JObj [("type", JStr "text"); ("text", JStr "done")]; JObj [("type", JStr "resource")]].
Proof.
  destruct (strip_keeps_the_rest mixedResult filterOn) as (_ & _ & _ & _ & H).
  rewrite (H eq_refl). vm_compute. reflexivity.
Defined.

(** *** URLs in the content *)

Lemma firstUrl_found content url :
  firstUrl content = Some url ->
  exists before item after,
    content = before ++ item :: after /\
    List.Forall (fun earlier => urlOfItem earlier = None) before /\
    urlOfItem item = Some url.
Proof.
  induction content as [|x t IH]; simpl; [discriminate|].
  destruct (urlOfItem x) as [u|] eqn:E.
  - intros [= ->]. exists [], x, t. split; [reflexivity|]. split; [constructor | exact E].
  - intros H. destruct (IH H) as (before & item & after & -> & Hb & Hi).
    exists (x :: before), item, after. split; [reflexivity|].
    split; [now constructor | exact Hi].
Qed.

Lemma isHttpUrl_nonempty s : isHttpUrl s = true -> s <> "".
Proof. intros H ->. discriminate H. Qed.

(** The URL an item gives starts as an http or https URL does; the [url]
    member is read before the [text] member. *)
Lemma urlOfItem_http item url : urlOfItem item = Some url -> isHttpUrl url = true.
Proof.
  unfold urlOfItem. destruct (negb (truthy item) || negb (typeofObject item)); [discriminate|].
  set (fields := match item with JObj fields => fields | _ => [] end).
  assert (Htext : match getField "text" fields with
                  | Some (JStr text) =>
                      if isHttpUrl (stripImageUrlLabel (Js.trim text))
                      then Some (stripImageUrlLabel (Js.trim text)) else None
                  | _ => None
                  end = Some url -> isHttpUrl url = true).
  { destruct (getField "text" fields) as [[| | |text| |]|]; try discriminate.
    destruct (isHttpUrl (stripImageUrlLabel (Js.trim text))) eqn:E; [|discriminate].
    now intros [= <-]. }
  destruct (getField "url" fields) as [[| | |u| |]|]; try exact Htext.
  destruct (isHttpUrl (Js.trim u)) eqn:E; [|exact Htext].
  now intros [= <-].
Qed.

Lemma extractUrl_http content url :
  extractUrlFromContent content = Some url -> isHttpUrl url = true.
Proof.
  unfold extractUrlFromContent. destruct (_ =? 0)%nat; [discriminate|]. intros H.
  destruct (firstUrl_found _ _ H) as (before & item & after & _ & _ & Hi).
  exact (urlOfItem_http _ _ Hi).
Qed.

(** X20.  The URL of a result.  When [extractUrlFromContent] finds a URL,
    the URL starts with [http://] or [https://] (in any case of letters), so
    it is not empty; it is the one the first item that has any gives, the
    items before it giving none; and in that item the [url] member, trimmed,
    comes before the [text] member.  An empty content gives none. *)
Theorem extracted_url (content : list JValue) (url : string) :
  extractUrlFromContent content = Some url ->
  isHttpUrl url = true /\ url <> "" /\
  exists before item after,
    content = before ++ item :: after /\
    List.Forall (fun earlier => urlOfItem earlier = None) before /\
    urlOfItem item = Some url /\
    (forall fields u, item = JObj fields -> getField "url" fields = Some (JStr u) ->
                      isHttpUrl (Js.trim u) = true -> url = Js.trim u).
Proof.
  unfold extractUrlFromContent. destruct (_ =? 0)%nat; [discriminate|]. intros H.
  destruct (firstUrl_found _ _ H) as (before & item & after & Hc & Hb & Hi).
  pose proof (urlOfItem_http _ _ Hi) as Hhttp.
  split; [exact Hhttp|]. split; [now apply isHttpUrl_nonempty|].
  exists before, item, after. split; [exact Hc|]. split; [exact Hb|]. split; [exact Hi|].
  intros fields u -> Hu Hok. unfold urlOfItem in Hi. simpl in Hi.
  rewrite Hu, Hok in Hi. now injection Hi as <-.
Qed.

Definition labelledResult : list JValue :=
  [JStr "https://ignored.example";
   JObj [("type", JStr "text"); ("text", JStr "no link here")];
   JObj [("type", JStr "text"); ("text", JStr "  Image  URL : HTTPS://x.example/a.png ")];
   JObj [("url", JStr "http://later.example")]].

Lemma extracted_url_witness :
  extractUrlFromContent labelledResult = Some "HTTPS://x.example/a.png" /\
  isHttpUrl "HTTPS://x.example/a.png" = true.
Proof.
  assert (H : extractUrlFromContent labelledResult = Some "HTTPS://x.example/a.png")
    by (vm_compute; reflexivity).
  split; [exact H|].
  exact (proj1 (extracted_url labelledResult "HTTPS://x.example/a.png" H)).
Defined.

(** X21.  Post-processing.  [applyResultPostProcessing] returns the
    filtered result, with the content, [isError] and [_meta] that
    [stripImageContentFromResult] gives; [structuredContent] is replaced only
    for the client [openai-mcp] and only when the filtered content holds a
    URL, by an object with that URL (and the space name, when there is one).
    The URL is looked for in the content after the filter, not before. *)
Theorem post_processing (result : CallToolResult) (options : GradioToolCallOptions) :
  let filtered :=
    stripImageContentFromResult result
      {| enabled := default false (stripImageContent options);
         ResultProcessor.toolName := toolName options;
         ResultProcessor.outwardFacingName := outwardFacingName options |} in
  let processed := applyResultPostProcessing result options in
  content processed = content filtered /\
  isError processed = isError result /\
  _meta processed = _meta result /\
  structuredContent processed
  = match extractUrlFromContent (content filtered) with
    | Some url =>
        if bool_decide (clientName options = Some "openai-mcp")
        then Some (urlContent url (spaceName options))
        else structuredContent result
    | None => structuredContent result
    end.
Proof.
  intros filtered processed.
  destruct (strip_fields result
              {| enabled := default false (stripImageContent options);
                 ResultProcessor.toolName := toolName options;
                 ResultProcessor.outwardFacingName := outwardFacingName options |})
    as (H1 & H2 & H3). fold filtered in H1, H2, H3.
  unfold processed, applyResultPostProcessing. fold filtered.
  destruct (extractUrlFromContent (content filtered)) as [url|] eqn:E.
  - pose proof (isHttpUrl_nonempty _ (extractUrl_http _ _ E)) as Hne.
    destruct (bool_decide (clientName options = Some "openai-mcp")); [|now rewrite H1, H2, H3].
    destruct (String.eqb_spec url "") as [->|_]; [contradiction|]. simpl.
    now rewrite H1, H3.
  - destruct (bool_decide (clientName options = Some "openai-mcp")); now rewrite H1, H2, H3.
Qed.

(** *** Schemas *)

Import SchemaParser.

Lemma traverse_objectFormat fields tools :
  traverse objectFormatTool fields = inr tools ->
  map (fun tool => (SchemaParser.name tool, inputSchema tool)) tools = fields /\
  List.Forall (fun entry => snd entry <> JNull) fields.
Proof.
  revert tools. induction fields as [|[k v] rest IH]; intros tools; simpl.
  - intros [= <-]. split; [reflexivity | constructor].
  - destruct (prop v "description") as [e|d] eqn:Ep; [discriminate|].
    destruct (traverse objectFormatTool rest) as [e|ys]; [discriminate|].
    intros [= <-]. destruct (IH ys eq_refl) as [Hmap Hall]. simpl. split.
    + now rewrite Hmap.
    + constructor; [|exact Hall]. simpl. intros ->. discriminate Ep.
Qed.

Lemma In_omap_arrayFormat items tool :
  In tool (omap arrayFormatTool items) <->
  exists fields,
    In (JObj fields) items /\
    getField "name" fields = Some (JStr (SchemaParser.name tool)) /\
    getField "inputSchema" fields = Some (inputSchema tool) /\
    description tool = getField "description" fields.
Proof.
  induction items as [|item rest IH]; simpl.
  - split; [intros [] | intros (? & [] & _)].
  - assert (Hhere : forall parsed, arrayFormatTool item = Some parsed ->
                      (parsed = tool <->
                       exists fields, item = JObj fields /\
                         getField "name" fields = Some (JStr (SchemaParser.name tool)) /\
                         getField "inputSchema" fields = Some (inputSchema tool) /\
                         description tool = getField "description" fields)).
    { intros parsed Hp. unfold arrayFormatTool in Hp.
      destruct item as [| | | | |fields]; try discriminate.
      destruct (getField "name" fields) as [[| | |n| |]|] eqn:En; try discriminate.
      destruct (getField "inputSchema" fields) as [schema|] eqn:Es; [|discriminate].
      injection Hp as <-. split.
      - intros <-. exists fields. simpl. auto.
      - intros (fields' & [= <-] & Hn & Hs & Hd).
        destruct tool as [tn td ts]. simpl in *. congruence. }
    assert (Hnot : arrayFormatTool item = None ->
                   ~ exists fields, item = JObj fields /\
                       getField "name" fields = Some (JStr (SchemaParser.name tool)) /\
                       getField "inputSchema" fields = Some (inputSchema tool) /\
                       description tool = getField "description" fields).
    { intros Hn (fields & -> & H1 & H2 & _). simpl in Hn. now rewrite H1, H2 in Hn. }
    destruct (arrayFormatTool item) as [parsed|] eqn:Ea; simpl.
    + rewrite IH, (Hhere parsed eq_refl). split.
      * intros [(fields & -> & H)|(fields & Hin & H)]; exists fields; auto.
      * intros (fields & [->|Hin] & H); [left | right]; exists fields; auto.
    + rewrite IH. split.
      * intros (fields & Hin & H). exists fields. auto.
      * intros (fields & [->|Hin] & H); [|exists fields; auto].
        exfalso. apply (Hnot eq_refl). exists fields. auto.
Qed.

(** X22.  The tools of a schema.  When [parseSchemaResponse] returns, the
    list is not empty and the schema was an array or an object.  From an
    array it returns, in order, the items that are objects with a string
    [name] and an [inputSchema], and drops the others without an error; from
    an object it returns one tool for each key, in order, with the value as
    its input schema, and no value is [null].  Anything else than an array or
    an object is refused as an invalid format. *)
Theorem parsed_schema_tools (schemaResponse : JValue) (endpointId subdomain : string)
    (tools : list ParsedTool) :
  parseSchemaResponse schemaResponse endpointId subdomain = inr tools ->
  tools <> nil /\
  match schemaResponse with
  | JArr items =>
      tools = omap arrayFormatTool items /\
      forall tool, In tool tools <->
        exists fields,
          In (JObj fields) items /\
          getField "name" fields = Some (JStr (SchemaParser.name tool)) /\
          getField "inputSchema" fields = Some (inputSchema tool) /\
          description tool = getField "description" fields
  | JObj fields =>
      map (fun tool => (SchemaParser.name tool, inputSchema tool)) tools = fields /\
      List.Forall (fun entry => snd entry <> JNull) fields
  | _ => False
  end.
Proof.
  unfold parseSchemaResponse.
  destruct schemaResponse as [|b|n|s|items|fields]; try discriminate.
  - destruct (omap arrayFormatTool items) as [|t ts] eqn:E; [discriminate|].
    intros [= <-]. split; [discriminate|]. split; [reflexivity|].
    intros tool. rewrite <- E. apply In_omap_arrayFormat.
  - destruct (traverse objectFormatTool fields) as [e|[|t ts]] eqn:E; try discriminate.
    intros [= <-]. split; [discriminate|]. now apply traverse_objectFormat.
Qed.

Lemma parsed_schema_tools_witness :
  exists tools,
    parseSchemaResponse
      (JArr [JObj [("name", JStr "predict"); ("inputSchema", JObj [])];
             JObj [("name", JNum 3); ("inputSchema", JObj [])];
             JStr "predict"]) "endpoint" "acme-ok" = inr tools /\
    map SchemaParser.name tools = ["predict"].
Proof.
  eexists. split; [vm_compute; reflexivity|].
  destruct (parsed_schema_tools
              (JArr [JObj [("name", JStr "predict"); ("inputSchema", JObj [])];
                     JObj [("name", JNum 3); ("inputSchema", JObj [])];
                     JStr "predict"]) "endpoint" "acme-ok"
              [{| SchemaParser.name := "predict"; description := None;
                  inputSchema := JObj [] |}])
    as (_ & _ & _); [vm_compute; reflexivity|].
  reflexivity.
Defined.

End ResultMore.

(** ** The privacy check of the endpoint connector *)

Module ConnectorMore.
Import Effects EffectFacts Cache CacheFacts Net Discovery DiscoveryFacts CacheMore
  DiscoveryMore EndpointConnector.

(** The entry [isSpacePrivate] stores for a public space. *)
Definition connectorMetadata (spaceName : string) (info : SpaceInfo) (fetchedAt : Z)
    : CachedSpaceMetadata.t :=
  {| CachedSpaceMetadata._id :=
       orElseStr (info_id info)
         ("gradio_" +:+ Js.str (replaceFirstSlash (Js.chars spaceName)));
     CachedSpaceMetadata.name := spaceName;
     CachedSpaceMetadata.subdomain := orElseStr (infoSubdomain info) "";
     CachedSpaceMetadata.emoji := CONNECTOR_EMOJI;
     CachedSpaceMetadata.private := false;
     CachedSpaceMetadata.sdk := orElseStr (infoSdk info) "gradio";
     CachedSpaceMetadata.runtime := None;
     CachedSpaceMetadata.etag := None;
     CachedSpaceMetadata.fetchedAt := fetchedAt |}.

(** [isSpacePrivate], run. *)
Lemma isSpacePrivate_run cfg O spaceInfo spaceName hfToken w :
  isSpacePrivate cfg O spaceInfo spaceName hfToken w
  = if negb (Js.truthyStr hfToken) then (Returned false, w)
    else
      let w1 := after (metadata_get cfg O spaceName) w in
      match metadataHitAt cfg O spaceName w with
      | Some entry => (Returned (CachedSpaceMetadata.private entry), w1)
      | None =>
          match spaceInfo spaceName (default "" hfToken) with
          | inl _ => (Returned true, w1)
          | inr info =>
              if default false (infoPrivate info) then (Returned true, w1)
              else (Returned false,
                    putMetadata spaceName
                      (connectorMetadata spaceName info (now O (World.clockReads w1)))
                      (World.tick w1))
          end
      end.
Proof.
  unfold isSpacePrivate, tryCatch.
  destruct (negb (Js.truthyStr hfToken)); [reflexivity|].
  pose proof (metadata_get_run cfg O spaceName w) as Hget.
  unfold metadataHitAt, after. cbv zeta.
  destruct (metadataEntries w !! spaceName) as [entry|] eqn:E;
    [destruct (_ <? _)|]; erewrite bind_run by exact Hget; rewrite Hget; cbn [snd];
    try reflexivity;
    (destruct (spaceInfo spaceName (default "" hfToken)) as [e|info]; [reflexivity|]);
    cbn [settle]; rewrite bind_ret_l;
    (destruct (default false (infoPrivate info)) eqn:Ep; cbn [negb]);
    reflexivity.
Qed.


(** X23.  The privacy check.  [isSpacePrivate] always answers and never
    throws.  Without a token the answer is [false] and neither the caches nor
    the clock are touched.  With a token, an unexpired entry of the metadata
    cache gives the answer; otherwise [spaceInfo] is asked: when it fails
    the answer is [true], and when it answers, the answer is the [private]
    flag it gives, and only a space that is not private is stored in the
    cache, under its name.  The schema cache and the entries of other spaces
    are never changed, and the cache stays free of private spaces. *)
Theorem isSpacePrivate_spec (cfg : CacheConfig.t) (O : Outside)
    (spaceInfo : string -> string -> Error + SpaceInfo)
    (spaceName : string) (hfToken : option string) (w : World.t) :
  let call := isSpacePrivate cfg O spaceInfo spaceName hfToken in
  let w' := after call w in
  (exists answer, outcome call w = Returned answer) /\
  (allPublic w -> allPublic w') /\
  (keyedByName w -> keyedByName w') /\
  schemaEntries w' = schemaEntries w /\
  (forall n, n <> spaceName -> metadataEntries w' !! n = metadataEntries w !! n) /\
  (Js.truthyStr hfToken = false -> outcome call w = Returned false /\ w' = w) /\
  (Js.truthyStr hfToken = true ->
   match metadataHitAt cfg O spaceName w with
   | Some entry =>
       outcome call w = Returned (CachedSpaceMetadata.private entry) /\
       metadataEntries w' = metadataEntries w
   | None =>
       match spaceInfo spaceName (default "" hfToken) with
       | inl _ => outcome call w = Returned true /\ metadataEntries w' = metadataEntries w
       | inr info =>
           outcome call w = Returned (default false (infoPrivate info)) /\
           if default false (infoPrivate info)
           then metadataEntries w' = metadataEntries w
           else exists fetchedAt,
                  metadataEntries w'
                  = <[spaceName := connectorMetadata spaceName info fetchedAt]>
                      (metadataEntries w)
       end
   end).
Proof.
  intros call w'.
  pose proof (isSpacePrivate_run cfg O spaceInfo spaceName hfToken w) as Hrun.
  destruct (metadata_get_same cfg O spaceName w) as [Hm Hs].
  set (w1 := after (metadata_get cfg O spaceName) w) in *.
  unfold w', call, after, outcome. rewrite Hrun. clear Hrun.
  destruct (Js.truthyStr hfToken); cbn [negb]; cycle 1.
  { cbn [fst snd]. split; [eauto|]. repeat split; auto; discriminate. }
  cbv zeta.
  assert (Hkept : forall answer : bool,
            let w' := snd (Returned answer, w1) in
            (allPublic w -> allPublic w') /\ (keyedByName w -> keyedByName w') /\
            schemaEntries w' = schemaEntries w /\
            (forall n, n <> spaceName -> metadataEntries w' !! n = metadataEntries w !! n) /\
            metadataEntries w' = metadataEntries w).
  { intros answer. cbn [snd]. split; [|split; [|split; [|split]]].
    - unfold allPublic. now rewrite Hm.
    - unfold keyedByName. now rewrite Hm.
    - exact Hs.
    - intros n _. now rewrite Hm.
    - exact Hm. }
  destruct (metadataHitAt cfg O spaceName w) as [entry|].
  { destruct (Hkept (CachedSpaceMetadata.private entry)) as (H1 & H2 & H3 & H4 & H5).
    split; [eauto|]. split; [exact H1|]. split; [exact H2|]. split; [exact H3|].
    split; [exact H4|]. split; [discriminate|]. intros _. split; [reflexivity | exact H5]. }
  destruct (spaceInfo spaceName (default "" hfToken)) as [e|info].
  { destruct (Hkept true) as (H1 & H2 & H3 & H4 & H5).
    split; [eauto|]. split; [exact H1|]. split; [exact H2|]. split; [exact H3|].
    split; [exact H4|]. split; [discriminate|]. intros _. split; [reflexivity | exact H5]. }
  destruct (default false (infoPrivate info)).
  { destruct (Hkept true) as (H1 & H2 & H3 & H4 & H5).
    split; [eauto|]. split; [exact H1|]. split; [exact H2|]. split; [exact H3|].
    split; [exact H4|]. split; [discriminate|]. intros _. split; [reflexivity | exact H5]. }
  cbn [fst snd].
  assert (Hput : metadataEntries
                   (putMetadata spaceName
                      (connectorMetadata spaceName info (now O (World.clockReads w1)))
                      (World.tick w1))
                 = <[spaceName := connectorMetadata spaceName info (now O (World.clockReads w1))]>
                     (metadataEntries w)).
  { rewrite <- Hm. reflexivity. }
  split; [eauto|]. split.
  { intros Hp. unfold allPublic. rewrite Hput.
    apply map_Forall_insert_2; [reflexivity | exact Hp]. }
  split.
  { intros Hk. unfold keyedByName. rewrite Hput.
    apply map_Forall_insert_2; [reflexivity | exact Hk]. }
  split; [exact Hs|]. split.
  { intros n Hn. rewrite Hput. now apply lookup_insert_ne. }
  split; [discriminate|]. intros _. split; [reflexivity|].
  eexists. exact Hput.
Qed.

(** A [spaceInfo] that knows one public space. *)
Definition sampleSpaceInfo (spaceName token : string) : Error + SpaceInfo :=
  if String.eqb spaceName "acme/ok" then inr (sampleInfo "acme-ok" "gradio")
  else inl {| message := "Not Found" |}.

Lemma isSpacePrivate_spec_witness :
  outcome (isSpacePrivate CacheConfig.defaults sampleOutside sampleSpaceInfo "acme/missing"
             (Some "hf_token")) World.initial = Returned true /\
  outcome (isSpacePrivate CacheConfig.defaults sampleOutside sampleSpaceInfo "acme/ok"
             None) World.initial = Returned false.
Proof.
  split.
  - destruct (isSpacePrivate_spec CacheConfig.defaults sampleOutside sampleSpaceInfo
                "acme/missing" (Some "hf_token") World.initial) as (_ & _ & _ & _ & _ & _ & H).
    exact (proj1 (H eq_refl)).
  - destruct (isSpacePrivate_spec CacheConfig.defaults sampleOutside sampleSpaceInfo
                "acme/ok" None World.initial) as (_ & _ & _ & _ & _ & H & _).
    exact (proj1 (H eq_refl)).
Defined.
End ConnectorMore.

(** ** Tool selection, continued *)

Module SelectionMore.
Import Js Settings ToolSelection SelectionFacts.

Lemma arrIncludes_In (l : list string) (x : string) : arrIncludes l x = true <-> In x l.
Proof. apply existsb_eqb_In. Qed.

Lemma arrIncludes_not_In (l : list string) (x : string) :
  arrIncludes l x = false <-> ~ In x l.
Proof.
  rewrite <- arrIncludes_In. destruct (arrIncludes l x); split; congruence.
Qed.

(** X24.  [SEARCH_ENABLES_FETCH].  [applySearchEnablesFetch] never
    removes or reorders a tool: it returns the list it was given, followed by
    [hf_doc_fetch] exactly when the variable is [true], the list has
    [hf_doc_search] and has not [hf_doc_fetch] yet.  So it adds no duplicate,
    and applying it twice is applying it once. *)
Theorem search_enables_fetch (S : Surroundings) (tools : list string) :
  let expanded := applySearchEnablesFetch S tools in
  (exists added, expanded = tools ++ added /\ (added = nil \/ added = ["hf_doc_fetch"])) /\
  (forall x, In x expanded <->
             In x tools \/
             (x = "hf_doc_fetch" /\ SEARCH_ENABLES_FETCH S = Some "true" /\
              In "hf_doc_search" tools)) /\
  (List.NoDup tools -> List.NoDup expanded) /\
  applySearchEnablesFetch S expanded = expanded.
Proof.
  intros expanded. unfold expanded, applySearchEnablesFetch.
  destruct (bool_decide (SEARCH_ENABLES_FETCH S = Some "true")) eqn:Eflag.
  2: { apply bool_decide_eq_false in Eflag.
       split; [exists []; rewrite app_nil_r; auto|].
       split; [intros x; split; [auto | intros [H|(_ & H & _)]; [exact H | contradiction]]|].
       split; auto. }
  apply bool_decide_eq_true in Eflag.
  destruct (arrIncludes tools "hf_doc_search") eqn:Es; cbn [andb].
  2: { pose proof (proj1 (arrIncludes_not_In _ _) Es) as Hs.
       split; [exists []; rewrite app_nil_r; auto|].
       split; [intros x; split; [auto | intros [H|(_ & _ & H)]; [exact H | contradiction]]|].
       split; [auto|]. now rewrite Es. }
  destruct (arrIncludes tools "hf_doc_fetch") eqn:Ef; cbn [negb].
  { pose proof (proj1 (arrIncludes_In _ _) Ef) as Hf.
    split; [exists []; rewrite app_nil_r; auto|].
    split; [intros x; split; [auto | intros [H|(-> & _)]; [exact H | exact Hf]]|].
    split; [auto|]. now rewrite Es, Ef. }
  apply arrIncludes_In in Es.
  apply arrIncludes_not_In in Ef.
  split; [exists ["hf_doc_fetch"]; auto|]. split.
  { intros x. rewrite in_app_iff. simpl. split.
    - intros [H|[<-|[]]]; auto.
    - intros [H|(-> & _)]; auto. }
  split.
  { intros Hnd. apply List.NoDup_app; [exact Hnd | repeat constructor; simpl; tauto |].
    intros x Hx [<-|[]]. contradiction. }
  assert (Hf : arrIncludes (tools ++ ["hf_doc_fetch"]) "hf_doc_fetch" = true).
  { apply arrIncludes_In, in_app_iff. right. now left. }
  rewrite Hf, andb_false_r. reflexivity.
Qed.

(** The endpoints that the [gradio] value of the request headers names. *)
Definition requestedEndpoints (S : Surroundings) (context : ToolSelectionContext)
    : list SpaceTool :=
  if truthyStr (gradio (extractAuthBouquetAndMix S (headers context)))
  then parseGradioEndpoints (default "" (gradio (extractAuthBouquetAndMix S (headers context))))
  else [].

Lemma selectTools_gradio S context :
  gradioSpaceTools (selectTools S context) = someIfNonEmpty (requestedEndpoints S context).
Proof.
  unfold selectTools, requestedEndpoints.
  destruct (knownPreset S (bouquet _)) as [[b p]|]; [reflexivity|].
  destruct (knownPreset S (mix _)) as [[m p]|], (getUserSettings S context); reflexivity.
Qed.

(** X25.  The [gradio] value is independent of the mode.  Whatever the
    settings are, and whatever the bouquet and the mix are as long as
    neither is a name that every object inherits, [selectTools] reports
    under [gradioSpaceTools] the space ids that [parseGradioSpaceIds] reads
    from the [gradio] value, one entry each, in order, with the id as name
    and, as placeholder subdomain, the id with its slashes turned into
    dashes.  The member is never an empty list: it is absent when the value
    is missing or holds no valid id. *)
Theorem gradio_endpoints_reported (S : Surroundings) (context : ToolSelectionContext) :
  inherited (bouquet (extractAuthBouquetAndMix S (headers context))) = false ->
  inherited (mix (extractAuthBouquetAndMix S (headers context))) = false ->
  let ids :=
    match gradio (extractAuthBouquetAndMix S (headers context)) with
    | Some value => map GradioUtils.name (GradioUtils.parseGradioSpaceIds value)
    | None => []
    end in
  match gradioSpaceTools (selectTools S context) with
  | None => ids = nil
  | Some tools =>
      tools <> nil /\ map name tools = ids /\
      List.Forall (fun tool => subdomain tool = replaceSlashes (name tool) /\
                               _id tool = "gradio_metadata_" +:+ subdomain tool) tools
  end.
Proof.
  intros _ _ ids. rewrite selectTools_gradio.
  assert (Hnames : map name (requestedEndpoints S context) = ids).
  { unfold requestedEndpoints, ids, truthyStr.
    destruct (gradio _) as [value|]; [|reflexivity].
    destruct (String.eqb_spec value "") as [->|_]; [reflexivity|].
    cbn [negb]. unfold parseGradioEndpoints, default. rewrite map_map. reflexivity. }
  assert (Hall : List.Forall (fun tool => subdomain tool = replaceSlashes (name tool) /\
                                _id tool = "gradio_metadata_" +:+ subdomain tool)
                   (requestedEndpoints S context)).
  { unfold requestedEndpoints. destruct (truthyStr _); [|constructor].
    unfold parseGradioEndpoints. apply List.Forall_forall. intros tool Hin.
    apply in_map_iff in Hin as (space & <- & _). split; reflexivity. }
  unfold someIfNonEmpty.
  destruct (requestedEndpoints S context) as [|tool rest]; simpl.
  - now rewrite <- Hnames.
  - split; [discriminate|]. split; [exact Hnames | exact Hall].
Qed.

(** X26.  The precedence of the modes.  For a bouquet and a mix that are
    not names every object inherits, the mode of a selection is
    decided in this order: a bouquet that names a known preset gives
    [BOUQUET_OVERRIDE], and then the settings are not even looked for;
    otherwise a known mix together with user settings gives [MIX]; otherwise
    user settings give [EXTERNAL_API] or [INTERNAL_API]; and without settings
    the mode is [FALLBACK] with all the built-in tools, also when a mix was
    asked for.  Settings given in the context always count as settings. *)
Theorem selection_precedence (S : Surroundings) (context : ToolSelectionContext) :
  inherited (bouquet (extractAuthBouquetAndMix S (headers context))) = false ->
  inherited (mix (extractAuthBouquetAndMix S (headers context))) = false ->
  let extracted := extractAuthBouquetAndMix S (headers context) in
  let result := selectTools S context in
  (mode result = BOUQUET_OVERRIDE <-> is_Some (knownPreset S (bouquet extracted))) /\
  (mode result = MIX <->
   knownPreset S (bouquet extracted) = None /\
   is_Some (knownPreset S (mix extracted)) /\ is_Some (getUserSettings S context)) /\
  (mode result = FALLBACK <->
   knownPreset S (bouquet extracted) = None /\ getUserSettings S context = None) /\
  (mode result = FALLBACK ->
   enabledToolIds result
   = normalizeBuiltInTools S (applySearchEnablesFetch S (ALL_BUILTIN_TOOL_IDS (ids S)))) /\
  baseSettings result
  = (if bool_decide (is_Some (knownPreset S (bouquet extracted))) then None
     else getUserSettings S context) /\
  (is_Some (userSettings context) -> mode result <> FALLBACK).
Proof.
  intros _ _ extracted result. unfold result, selectTools. fold extracted.
  assert (Hgiven : is_Some (userSettings context) -> is_Some (getUserSettings S context)).
  { intros [U HU]. unfold getUserSettings. rewrite HU. eauto. }
  destruct (knownPreset S (bouquet extracted)) as [[b p]|] eqn:Eb.
  { cbn. repeat split; try discriminate; eauto.
    - intros (? & _). discriminate.
    - intros (? & _). discriminate. }
  destruct (getUserSettings S context) as [U|] eqn:EU.
  - destruct (knownPreset S (mix extracted)) as [[m p]|] eqn:Em; cbn.
    + repeat split; try discriminate; eauto.
      * intros [? ?]. discriminate.
      * intros [_ ?]. discriminate.
    + destruct (default false (externalApiMode (apiClient S))); cbn;
        repeat split; try discriminate; eauto;
        try (intros [? ?]; discriminate); try (intros (_ & [? ?] & _); discriminate);
        try (intros [_ ?]; discriminate).
  - assert (Hnone : ~ is_Some (userSettings context)).
    { intros H. destruct (Hgiven H) as [? ?]. discriminate. }
    destruct (knownPreset S (mix extracted)) as [[m p]|] eqn:Em; cbn;
      repeat split; try discriminate; eauto;
      try (intros [? ?]; discriminate); try (intros (_ & _ & [? ?]); discriminate);
      try contradiction.
Qed.

Lemma search_enables_fetch_witness :
  List.NoDup (applySearchEnablesFetch (sampleServer (Some "true"))
                ["hf_doc_search"; "model_search"]).
Proof.
  destruct (search_enables_fetch (sampleServer (Some "true"))
              ["hf_doc_search"; "model_search"]) as (_ & _ & Hnd & _).
  apply Hnd. repeat constructor; simpl; intuition discriminate.
Defined.

(** Two spaces are asked for beside a bouquet. *)
Definition gradioRequest : ToolSelectionContext :=
  {| headers := Some [("x-mcp-bouquet", "search"); ("x-mcp-gradio", "acme/ok, acme/other")];
     userSettings := None;
     hfToken := None |}.

Lemma gradio_endpoints_reported_witness :
  exists tools,
    gradioSpaceTools (selectTools (sampleServer None) gradioRequest) = Some tools /\
    map name tools = ["acme/ok"; "acme/other"] /\
    map subdomain tools = ["acme-ok"; "acme-other"].
Proof.
  pose proof (gradio_endpoints_reported (sampleServer None) gradioRequest
                eq_refl eq_refl) as H.
  destruct (gradioSpaceTools (selectTools (sampleServer None) gradioRequest))
    as [tools|] eqn:E; [|discriminate H].
  exists tools. split; [reflexivity|].
  destruct H as (_ & Hnames & _). split; [exact Hnames|].
  vm_compute in E. injection E as <-. reflexivity.
Defined.

(** A mix is asked for, and there are no settings to mix it with. *)
Definition mixWithoutSettings : ToolSelectionContext :=
  {| headers := Some [("x-mcp-mix", "hf_api")];
     userSettings := None;
     hfToken := None |}.

Lemma selection_precedence_witness :
  mode (selectTools (sampleServer None) mixWithoutSettings) = FALLBACK /\
  enabledToolIds (selectTools (sampleServer None) mixWithoutSettings)
  = ALL_BUILTIN_TOOL_IDS sampleIds.
Proof.
  destruct (selection_precedence (sampleServer None) mixWithoutSettings
              eq_refl eq_refl)
    as (_ & _ & Hmode & Htools & _).
  assert (H : mode (selectTools (sampleServer None) mixWithoutSettings) = FALLBACK)
    by (apply Hmode; split; reflexivity).
  split; [exact H | exact (Htools H)].
Defined.

End SelectionMore.

(** ** Discovery on a cold cache: every space by its own answers *)

Module ColdDiscovery.
Import Effects EffectFacts Cache CacheFacts Net Discovery DiscoveryFacts CacheMore
  DiscoveryMore WarmCache.

(** The Hub and the spaces answer a request the same way whenever it is
    made. *)
Definition steady (O : Outside) : Prop :=
  (forall k request, hub O k request = hub O 0 request) /\
  (forall k request, space O k request = space O 0 request).

(** What an answer of the Hub describes: the body and the response of a
    success that names a subdomain, and nothing for a rejection, a timeout,
    another status, an unreadable body or a body without a subdomain. *)
Definition described (answer : Error + HubResponse) : option (SpaceInfo * HubResponse) :=
  match answer with
  | inr response =>
      if ok (hubStatus response) then
        match hubJson response with
        | inr info =>
            if Js.truthyStr (infoSubdomain info) then Some (info, response) else None
        | inl _ => None
        end
      else None
  | inl _ => None
  end.

(** The tools that an answer of a space gives: those of a success whose
    body parses, and nothing for a rejection, a timeout, another status, an
    unreadable body or a schema that is refused. *)
Definition toolsOf (answer : Error + SchemaResponse) (subdomain : string)
    : option (list Tool.t) :=
  match answer with
  | inr response =>
      if ok (schemaStatus response) then
        match schemaJson response with
        | inr body =>
            match SchemaParser.parseSchemaResponse body ("gradio_" +:+ subdomain) subdomain with
            | inr parsed =>
                match SchemaParser.traverse toTool (List.filter notLambda parsed) with
                | inr tools => Some tools
                | inl _ => None
                end
            | inl _ => None
            end
        | inl _ => None
        end
      else None
  | inl _ => None
  end.

Lemma NoDup_app_inv {A} (l k : list A) :
  List.NoDup (l ++ k) ->
  List.NoDup l /\ List.NoDup k /\ forall a, In a l -> ~ In a k.
Proof.
  induction l as [|x l IH]; simpl; intros Hnd.
  - split; [constructor|]. split; [exact Hnd | tauto].
  - inversion Hnd as [|? ? Hx Hrest]; subst.
    destruct (IH Hrest) as (Hl & Hk & Hdisj).
    split; [constructor; [|exact Hl]; intros Hin; apply Hx, in_or_app; now left|].
    split; [exact Hk|].
    intros a [<-|Ha] Hin; [apply Hx, in_or_app; now right | exact (Hdisj a Ha Hin)].
Qed.

Section Cold.
Variables (cfg : CacheConfig.t) (O : Outside) (hfToken : option string).

Section Metadata.
Variable options : option MetadataOptions.t.

(** The request for a space that has no entry in the cache, and the answer
    it gets. *)
Definition hubRequestOf (n : string) : HubRequest :=
  hubRequestFor cfg n hfToken options None.

Definition hubAnswer (n : string) : Error + HubResponse := hub O 0 (hubRequestOf n).

Definition pendingOf (n : string) : SpaceMetadataResult + PendingMetadata :=
  inr {| pendingSpaceName := n; stale := None; settledHub := hubAnswer n |}.

(** The result of a fetch is the one its own answer decides. *)
Definition answered (n : string) (r : SpaceMetadataResult) : Prop :=
  match described (hubAnswer n) with
  | Some (info, response) => exists t, r = MetadataSuccess (metadataFrom n info response t) false
  | None => exists e, r = MetadataFailure n e
  end.

Lemma start_cold n w :
  steady O -> metadataEntries w !! n = None ->
  exists w',
    fetchSpaceMetadata_start cfg O n hfToken options w = (Returned (pendingOf n), w') /\
    World.sent w' = World.sent w ++ [ToHub (hubRequestOf n)] /\
    sameEntries w w'.
Proof.
  intros [Hhub _] Hcold.
  pose proof (fetchSpaceMetadata_start_run cfg O n hfToken options w) as Hrun.
  pose proof (fetchSpaceMetadata_start_sent cfg O n hfToken options w) as Hsent.
  pose proof (fetchSpaceMetadata_start_same cfg O n hfToken options w) as Hsame.
  unfold metadataHitAt in Hrun, Hsent. rewrite Hcold in Hrun, Hsent.
  cbv zeta in Hrun. cbn [mbind option_bind] in Hrun, Hsent.
  eexists. split; [|split].
  - rewrite Hrun. unfold pendingOf, hubAnswer, hubRequestOf.
    rewrite (Hhub (List.length (World.sent w))). reflexivity.
  - unfold after in Hsent. rewrite Hrun in Hsent. exact Hsent.
  - unfold after in Hsame. rewrite Hrun in Hsame. exact Hsame.
Qed.

Lemma resume_cold n w :
  exists r w',
    metadataFinish cfg O (pendingOf n) w = (Returned r, w') /\
    answered n r /\
    World.sent w' = World.sent w /\
    schemaEntries w' = schemaEntries w /\
    (forall k, k <> n -> metadataEntries w' !! k = metadataEntries w !! k).
Proof.
  unfold answered, pendingOf, metadataFinish, fetchSpaceMetadata_resume, described.
  cbn [pendingSpaceName stale settledHub].
  unfold freshMetadata, tryCatch, bind, settle, throw, ret, Date_now, metadata_set,
    metadataStore, modify.
  destruct (hubAnswer n) as [e|response].
  { eexists _, _. split; [reflexivity|]. split; [eauto|]. auto. }
  destruct (ok (hubStatus response)); cbn [negb].
  2: { eexists _, _. split; [reflexivity|]. split; [eauto|]. auto. }
  destruct (hubJson response) as [e|info].
  { eexists _, _. split; [reflexivity|]. split; [eauto|]. auto. }
  destruct (Js.truthyStr (infoSubdomain info)); cbn [negb].
  2: { eexists _, _. split; [reflexivity|]. split; [eauto|]. auto. }
  destruct (default false (infoPrivate info)) eqn:Ep; cbn [negb CachedSpaceMetadata.private].
  - eexists _, _. split; [reflexivity|]. split.
    + exists (now O (World.clockReads w)). unfold metadataFrom. rewrite Ep. reflexivity.
    + auto.
  - eexists _, _. split; [reflexivity|]. split.
    + exists (now O (World.clockReads w)). unfold metadataFrom. rewrite Ep. reflexivity.
    + split; [reflexivity|]. split; [reflexivity|].
      intros k Hk. unfold metadataEntries. cbn. now apply lookup_insert_ne.
Qed.

Definition hubRequests (names : list string) : list Request :=
  map (fun n => ToHub (hubRequestOf n)) names.

Definition coldFor (names : list string) (w : World.t) : Prop :=
  forall n, In n names -> metadataEntries w !! n = None.

Definition othersKept (names : list string) (w w' : World.t) : Prop :=
  forall k, ~ In k names -> metadataEntries w' !! k = metadataEntries w !! k.

Lemma starts_cold batch w :
  steady O -> coldFor batch w ->
  exists w',
    mapM (fun n => fetchSpaceMetadata_start cfg O n hfToken options) batch w
    = (Returned (map pendingOf batch), w') /\
    World.sent w' = World.sent w ++ hubRequests batch /\
    sameEntries w w'.
Proof.
  intros Hsteady. revert w. induction batch as [|n rest IH]; intros w Hcold.
  - exists w. split; [reflexivity|]. split; [now rewrite app_nil_r | reflexivity].
  - destruct (start_cold n w Hsteady (Hcold n (or_introl eq_refl)))
      as (w1 & Hrun & Hsent & Hm & Hs).
    destruct (IH w1) as (w2 & Hrest & Hsent2 & Hm2 & Hs2).
    { intros k Hk. rewrite Hm. apply Hcold. now right. }
    exists w2. split; [|split; [|split]].
    + cbn [mapM map]. erewrite bind_run by exact Hrun.
      erewrite bind_run by exact Hrest. reflexivity.
    + rewrite Hsent2, Hsent. unfold hubRequests. cbn [map].
      now rewrite <- app_assoc.
    + congruence.
    + congruence.
Qed.

Lemma finishes_cold batch w :
  exists rs w',
    mapM (metadataFinish cfg O) (map pendingOf batch) w = (Returned rs, w') /\
    List.Forall2 answered batch rs /\
    World.sent w' = World.sent w /\
    schemaEntries w' = schemaEntries w /\
    othersKept batch w w'.
Proof.
  revert w. induction batch as [|n rest IH]; intros w.
  - exists [], w. split; [reflexivity|]. split; [constructor|]. repeat split.
  - destruct (resume_cold n w) as (r & w1 & Hrun & Hr & Hsent & Hs & Hkept).
    destruct (IH w1) as (rs & w2 & Hrest & Hrs & Hsent2 & Hs2 & Hkept2).
    exists (r :: rs), w2. split; [|split; [|split; [|split]]].
    + cbn [mapM map]. erewrite bind_run by exact Hrun.
      erewrite bind_run by exact Hrest. reflexivity.
    + now constructor.
    + congruence.
    + congruence.
    + intros k Hk. rewrite Hkept2, Hkept; [reflexivity| |]; intros Hin; apply Hk;
        [left; congruence | now right].
Qed.

Lemma batch_cold batch w :
  steady O -> coldFor batch w ->
  exists rs w',
    metadataBatch cfg O hfToken options batch w = (Returned rs, w') /\
    List.Forall2 answered batch rs /\
    World.sent w' = World.sent w ++ hubRequests batch /\
    schemaEntries w' = schemaEntries w /\
    othersKept batch w w'.
Proof.
  intros Hsteady Hcold.
  destruct (starts_cold batch w Hsteady Hcold) as (w1 & Hstart & Hsent & Hm & Hs).
  destruct (finishes_cold batch w1) as (rs & w2 & Hfinish & Hrs & Hsent2 & Hs2 & Hkept).
  exists rs, w2. split; [|split; [|split; [|split]]].
  - unfold metadataBatch. erewrite bind_run by exact Hstart. exact Hfinish.
  - exact Hrs.
  - congruence.
  - congruence.
  - intros k Hk. rewrite (Hkept k Hk). now rewrite Hm.
Qed.

Lemma batches_cold batches w :
  steady O -> List.NoDup (concat batches) -> coldFor (concat batches) w ->
  exists rss w',
    mapM (metadataBatch cfg O hfToken options) batches w = (Returned rss, w') /\
    List.Forall2 answered (concat batches) (concat rss) /\
    World.sent w' = World.sent w ++ hubRequests (concat batches) /\
    schemaEntries w' = schemaEntries w /\
    othersKept (concat batches) w w'.
Proof.
  intros Hsteady. revert w. induction batches as [|batch rest IH]; intros w Hnd Hcold.
  - exists [], w. split; [reflexivity|]. split; [constructor|].
    split; [now rewrite app_nil_r|]. repeat split.
  - cbn [concat] in *. apply NoDup_app_inv in Hnd as (Hnd1 & Hnd2 & Hdisj).
    destruct (batch_cold batch w Hsteady) as (rs & w1 & Hrun & Hrs & Hsent & Hs & Hkept).
    { intros n Hn. apply Hcold, in_or_app. now left. }
    destruct (IH w1 Hnd2) as (rss & w2 & Hrest & Hrss & Hsent2 & Hs2 & Hkept2).
    { intros n Hn. rewrite Hkept.
      - apply Hcold, in_or_app. now right.
      - intros Hb. exact (Hdisj n Hb Hn). }
    exists (rs :: rss), w2. split; [|split; [|split; [|split]]].
    + cbn [mapM]. erewrite bind_run by exact Hrun.
      erewrite bind_run by exact Hrest. reflexivity.
    + cbn [concat]. now apply List.Forall2_app.
    + rewrite Hsent2, Hsent. unfold hubRequests. now rewrite map_app, <- app_assoc.
    + congruence.
    + intros k Hk. rewrite Hkept2, Hkept; [reflexivity| |]; intros Hin; apply Hk;
        apply in_or_app; [now left | now right].
Qed.

Lemma phase_cold names w :
  0 < orElse (options ≫= MetadataOptions.concurrency) (CacheConfig.DISCOVERY_CONCURRENCY cfg) ->
  steady O -> List.NoDup names -> coldFor names w ->
  exists rs w',
    metadataPhase cfg O names hfToken options w = (Returned rs, w') /\
    List.Forall2 answered names rs /\
    World.sent w' = World.sent w ++ hubRequests names /\
    schemaEntries w' = schemaEntries w.
Proof.
  intros Hc Hsteady Hnd Hcold.
  destruct (makeBatches_run names _ w Hc) as (batches & Hb & Hconcat).
  rewrite <- Hconcat in Hnd, Hcold.
  destruct (batches_cold batches w Hsteady Hnd Hcold)
    as (rss & w' & Hrun & Hrss & Hsent & Hs & _).
  exists (concat rss), w'. split; [|split; [|split]].
  - unfold metadataPhase. erewrite bind_run by exact Hb.
    erewrite bind_run by exact Hrun. reflexivity.
  - now rewrite <- Hconcat.
  - now rewrite <- Hconcat.
  - exact Hs.
Qed.

End Metadata.

(** *** The schema phase *)

Section Schemas.
Variable timeout : option Z.

Definition schemaRequestOf (metadata : CachedSpaceMetadata.t) : SchemaRequest :=
  schemaRequestFor cfg metadata hfToken timeout.

Definition spaceAnswer (metadata : CachedSpaceMetadata.t) : Error + SchemaResponse :=
  space O 0 (schemaRequestOf metadata).

Definition toolsFor (metadata : CachedSpaceMetadata.t) : option (list Tool.t) :=
  toolsOf (spaceAnswer metadata) (CachedSpaceMetadata.subdomain metadata).

Definition pendingSchemaOf (metadata : CachedSpaceMetadata.t)
    : SchemaResult + PendingSchema :=
  inr {| pendingMetadata := metadata; settledSpace := spaceAnswer metadata |}.

Definition schemaAnswered (metadata : CachedSpaceMetadata.t) (r : SchemaResult) : Prop :=
  match toolsFor metadata with
  | Some tools =>
      exists t, r = SchemaSuccess (CachedSpaceMetadata.name metadata)
                      {| CachedSchema.tools := tools; CachedSchema.fetchedAt := t |} false
  | None => exists e, r = SchemaFailure (CachedSpaceMetadata.name metadata) e
  end.

Definition schemaRequests (metadataList : list CachedSpaceMetadata.t) : list Request :=
  map (fun metadata => ToSpace (schemaRequestOf metadata)) metadataList.

Definition schemasColdFor (metadataList : list CachedSpaceMetadata.t) (w : World.t) : Prop :=
  forall metadata, In metadata metadataList ->
    schemaEntries w !! CachedSpaceMetadata.name metadata = None.

Lemma schema_start_cold metadata w :
  steady O -> schemaEntries w !! CachedSpaceMetadata.name metadata = None ->
  exists w',
    fetchSchema_start cfg O metadata hfToken timeout w
    = (Returned (pendingSchemaOf metadata), w') /\
    World.sent w' = World.sent w ++ [ToSpace (schemaRequestOf metadata)] /\
    sameEntries w w'.
Proof.
  intros [_ Hspace] Hcold.
  pose proof (fetchSchema_start_run cfg O metadata hfToken timeout w) as Hrun.
  pose proof (fetchSchema_start_sent cfg O metadata hfToken timeout w) as Hsent.
  pose proof (fetchSchema_start_same cfg O metadata hfToken timeout w) as Hsame.
  unfold schemaHitAt in Hrun, Hsent. rewrite Hcold in Hrun, Hsent.
  cbv zeta in Hrun.
  eexists. split; [|split].
  - rewrite Hrun. unfold pendingSchemaOf, spaceAnswer, schemaRequestOf.
    rewrite (Hspace (List.length (World.sent w))). reflexivity.
  - unfold after in Hsent. rewrite Hrun in Hsent. exact Hsent.
  - unfold after in Hsame. rewrite Hrun in Hsame. exact Hsame.
Qed.

Lemma schema_resume_cold metadata w :
  exists r w',
    schemaFinish cfg O (pendingSchemaOf metadata) w = (Returned r, w') /\
    schemaAnswered metadata r /\
    World.sent w' = World.sent w.
Proof.
  unfold schemaAnswered, toolsFor, pendingSchemaOf, schemaFinish, fetchSchema_resume, toolsOf.
  cbn [pendingMetadata settledSpace].
  unfold tryCatch, bind, settle, throw, ret, Date_now, schema_set, modify.
  destruct (spaceAnswer metadata) as [e|response].
  { eexists _, _. split; [reflexivity|]. split; [eauto | reflexivity]. }
  destruct (ok (schemaStatus response)); cbn [negb].
  2: { eexists _, _. split; [reflexivity|]. split; [eauto | reflexivity]. }
  destruct (schemaJson response) as [e|body].
  { eexists _, _. split; [reflexivity|]. split; [eauto | reflexivity]. }
  destruct (SchemaParser.parseSchemaResponse body _ _) as [e|parsed].
  { eexists _, _. split; [reflexivity|]. split; [eauto | reflexivity]. }
  destruct (SchemaParser.traverse toTool (List.filter notLambda parsed)) as [e|tools].
  { eexists _, _. split; [reflexivity|]. split; [eauto | reflexivity]. }
  destruct (CachedSpaceMetadata.private metadata); cbn [negb];
    eexists _, _; (split; [reflexivity|]); (split; [eauto | reflexivity]).
Qed.

Lemma schema_starts_cold metadataList w :
  steady O -> schemasColdFor metadataList w ->
  exists w',
    mapM (fun metadata => fetchSchema_start cfg O metadata hfToken timeout) metadataList w
    = (Returned (map pendingSchemaOf metadataList), w') /\
    World.sent w' = World.sent w ++ schemaRequests metadataList.
Proof.
  intros Hsteady. revert w. induction metadataList as [|md rest IH]; intros w Hcold.
  - exists w. split; [reflexivity | now rewrite app_nil_r].
  - destruct (schema_start_cold md w Hsteady (Hcold md (or_introl eq_refl)))
      as (w1 & Hrun & Hsent & Hm & Hs).
    destruct (IH w1) as (w2 & Hrest & Hsent2).
    { intros k Hk. rewrite Hs. apply Hcold. now right. }
    exists w2. split.
    + cbn [mapM map]. erewrite bind_run by exact Hrun.
      erewrite bind_run by exact Hrest. reflexivity.
    + rewrite Hsent2, Hsent. unfold schemaRequests. cbn [map]. now rewrite <- app_assoc.
Qed.

Lemma schema_finishes_cold metadataList w :
  exists rs w',
    mapM (schemaFinish cfg O) (map pendingSchemaOf metadataList) w = (Returned rs, w') /\
    List.Forall2 schemaAnswered metadataList rs /\
    World.sent w' = World.sent w.
Proof.
  revert w. induction metadataList as [|md rest IH]; intros w.
  - exists [], w. split; [reflexivity|]. split; [constructor | reflexivity].
  - destruct (schema_resume_cold md w) as (r & w1 & Hrun & Hr & Hsent).
    destruct (IH w1) as (rs & w2 & Hrest & Hrs & Hsent2).
    exists (r :: rs), w2. split; [|split].
    + cbn [mapM map]. erewrite bind_run by exact Hrun.
      erewrite bind_run by exact Hrest. reflexivity.
    + now constructor.
    + congruence.
Qed.

Lemma schemaPhase_cold metadataList w :
  steady O -> schemasColdFor metadataList w ->
  exists rs w',
    schemaPhase cfg O metadataList hfToken timeout w = (Returned rs, w') /\
    List.Forall2 schemaAnswered metadataList rs /\
    World.sent w' = World.sent w ++ schemaRequests metadataList.
Proof.
  intros Hsteady Hcold. unfold schemaPhase.
  destruct (List.length metadataList =? 0)%nat eqn:E.
  { apply Nat.eqb_eq, List.length_zero_iff_nil in E. subst.
    exists [], w. split; [reflexivity|]. split; [constructor | now rewrite app_nil_r]. }
  destruct (schema_starts_cold metadataList w Hsteady Hcold) as (w1 & Hstart & Hsent).
  destruct (schema_finishes_cold metadataList w1) as (rs & w2 & Hfinish & Hrs & Hsent2).
  exists rs, w2. split; [|split].
  - unfold schemaBatch. erewrite bind_run by exact Hstart. exact Hfinish.
  - exact Hrs.
  - congruence.
Qed.

End Schemas.

(** *** The whole discovery *)

Lemma answered_success options n metadata cached :
  answered options n (MetadataSuccess metadata cached) ->
  exists info response t,
    described (hubAnswer options n) = Some (info, response) /\
    metadata = metadataFrom n info response t /\ cached = false.
Proof.
  unfold answered. destruct (described (hubAnswer options n)) as [[info response]|].
  - intros [t [= -> ->]]. eauto 6.
  - intros [e [=]].
Qed.

Lemma gradioOf_asked options names results :
  List.Forall2 (answered options) names results ->
  forall metadata, In metadata (gradioOf results) ->
    isGradio metadata = true /\
    exists n info response t,
      In n names /\ described (hubAnswer options n) = Some (info, response) /\
      metadata = metadataFrom n info response t.
Proof.
  intros Hres metadata Hin. unfold gradioOf in Hin.
  apply filter_In in Hin as [Hin Hg]. split; [exact Hg|].
  apply in_map_iff in Hin as ([k md] & Hsnd & Hentry). simpl in Hsnd. subst md.
  apply metadataMapOf_entries in Hentry as [_ [c Hc]].
  destruct (Forall2_In_r _ _ _ _ Hres Hc) as (n & Hn & Ha).
  apply answered_success in Ha as (info & response & t & Hd & -> & _).
  exists n, info, response, t. auto.
Qed.

(** What a run on a cold cache gives. *)
Record coldRun (options : option GetGradioSpacesOptions.t) (names : list string)
    (run : Discovered) : Prop := {
  metadata_answered :
    List.Forall2 (answered (metadataOptionsOf cfg options)) names (metadataResults run);
  schemas_answered :
    skipRequested options = false ->
    List.Forall2 (schemaAnswered (options ≫= GetGradioSpacesOptions.timeout))
      (gradioOf (metadataResults run)) (schemaResults run);
  schemas_skipped : skipRequested options = true -> schemaResults run = [];
  records_of_run :
    spaces run = combineMetadataAndSchemas (metadataMapOf (metadataResults run))
                   (schemaMapOf (schemaResults run)) (skipRequested options)
}.

Definition requestsOf (options : option GetGradioSpacesOptions.t) (names : list string)
    (run : Discovered) : list Request :=
  hubRequests (metadataOptionsOf cfg options) names
  ++ (if skipRequested options then []
      else schemaRequests (options ≫= GetGradioSpacesOptions.timeout)
             (gradioOf (metadataResults run))).

Lemma discover_cold options names w :
  0 < CacheConfig.DISCOVERY_CONCURRENCY cfg ->
  steady O -> List.NoDup names ->
  (forall n, In n names -> metadataEntries w !! n = None /\ schemaEntries w !! n = None) ->
  exists run w',
    discover cfg O names hfToken options w = (Returned run, w') /\
    coldRun options names run /\
    World.sent w' = World.sent w ++ requestsOf options names run.
Proof.
  intros Hc Hsteady Hnd Hcold. unfold discover, requestsOf.
  destruct (List.length names =? 0)%nat eqn:E.
  { apply Nat.eqb_eq, List.length_zero_iff_nil in E. subst names.
    eexists _, w. split; [reflexivity|]. split.
    - split; cbn; [constructor | intros _; constructor | reflexivity |].
      now destruct (skipRequested options).
    - cbn. destruct (skipRequested options); cbn; now rewrite app_nil_r. }
  erewrite bind_run by reflexivity.
  destruct (phase_cold (metadataOptionsOf cfg options) names (World.tick w))
    as (results & w1 & Hphase & Hresults & Hsent1 & Hs1).
  { simpl. destruct (Z.eqb_spec (CacheConfig.DISCOVERY_CONCURRENCY cfg) 0); lia. }
  { exact Hsteady. }
  { exact Hnd. }
  { intros n Hn. exact (proj1 (Hcold n Hn)). }
  change (Some {| MetadataOptions.includeRuntime := options ≫= GetGradioSpacesOptions.includeRuntime;
                  MetadataOptions.timeout := options ≫= GetGradioSpacesOptions.timeout;
                  MetadataOptions.concurrency := Some (CacheConfig.DISCOVERY_CONCURRENCY cfg) |})
    with (metadataOptionsOf cfg options).
  erewrite bind_run by exact Hphase. cbv zeta.
  destruct (skipRequested options) eqn:Eskip; cbn [negb andb].
  { erewrite bind_run by reflexivity. erewrite bind_run by reflexivity.
    eexists _, _. split; [reflexivity|]. split.
    - split; cbn; [exact Hresults | intros H; congruence | reflexivity |].
      rewrite Eskip. reflexivity.
    - cbn. rewrite Hsent1, app_nil_r. reflexivity. }
  assert (Hschemas : exists rs w2,
            (if (0 <? List.length (gradioOf results))%nat
             then schemaPhase cfg O (gradioOf results) hfToken
                    (options ≫= GetGradioSpacesOptions.timeout)
             else ret []) w1 = (Returned rs, w2) /\
            List.Forall2 (schemaAnswered (options ≫= GetGradioSpacesOptions.timeout))
              (gradioOf results) rs /\
            World.sent w2
            = World.sent w1
              ++ schemaRequests (options ≫= GetGradioSpacesOptions.timeout) (gradioOf results)).
  { destruct (0 <? List.length (gradioOf results))%nat eqn:Eg.
    - apply schemaPhase_cold; [exact Hsteady|].
      intros md Hmd. rewrite Hs1.
      destruct (gradioOf_asked _ _ _ Hresults md Hmd)
        as (_ & n & info & response & t & Hn & _ & ->).
      exact (proj2 (Hcold n Hn)).
    - apply Nat.ltb_ge in Eg.
      assert (Hnil : gradioOf results = []) by (apply List.length_zero_iff_nil; lia).
      rewrite Hnil. exists [], w1. split; [reflexivity|].
      split; [constructor | now rewrite app_nil_r]. }
  destruct Hschemas as (rs & w2 & Hrun2 & Hrs & Hsent2).
  erewrite bind_run by exact Hrun2. erewrite bind_run by reflexivity.
  eexists _, _. split; [reflexivity|]. split.
  - split; cbn; [exact Hresults | intros _; exact Hrs | intros H; congruence |].
    rewrite Eskip. reflexivity.
  - cbn. rewrite Hsent2, Hsent1. cbn. now rewrite <- app_assoc.
Qed.

(** *** What the answers decide *)

Section Answers.
Variable options : option GetGradioSpacesOptions.t.

(** The metadata that the Hub's answer for a space gives, whenever it is
    read (the time of reading is left at zero), and the tools that the
    space's own answer gives for it. *)
Definition ownMetadata (n : string) : option CachedSpaceMetadata.t :=
  match described (hubAnswer (metadataOptionsOf cfg options) n) with
  | Some (info, response) => Some (metadataFrom n info response 0)
  | None => None
  end.




(** The Gradio spaces among the names, by the Hub's answers. *)
Definition gradioSpaces (names : list string) : list CachedSpaceMetadata.t :=
  flat_map (fun n => match ownMetadata n with
                     | Some metadata => if isGradio metadata then [metadata] else []
                     | None => []
                     end) names.

(** Two readings of one answer differ in the time only. *)
Definition sameButTime (a b : CachedSpaceMetadata.t) : Prop :=
  exists t, a = CachedSpaceMetadata.withFetchedAt b t.


Lemma answered_failure n n' e :
  answered (metadataOptionsOf cfg options) n (MetadataFailure n' e) ->
  ownMetadata n = None.
Proof.
  unfold answered, ownMetadata.
  destruct (described _) as [[info response]|]; [intros [t [=]] | reflexivity].
Qed.

Lemma own_answered n own r :
  ownMetadata n = Some own -> answered (metadataOptionsOf cfg options) n r ->
  exists metadata, r = MetadataSuccess metadata false /\ sameButTime metadata own /\
                   CachedSpaceMetadata.name metadata = n.
Proof.
  unfold ownMetadata, answered.
  destruct (described _) as [[info response]|]; [|discriminate].
  intros [= <-] [t ->]. eexists. split; [reflexivity|].
  split; [exists t; reflexivity | reflexivity].
Qed.

Lemma sameButTime_isGradio a b : sameButTime a b -> isGradio a = isGradio b.
Proof. intros [t ->]. reflexivity. Qed.


Lemma sameButTime_request a b :
  sameButTime a b ->
  schemaRequestOf (options ≫= GetGradioSpacesOptions.timeout) a
  = schemaRequestOf (options ≫= GetGradioSpacesOptions.timeout) b.
Proof. intros [t ->]. reflexivity. Qed.




Lemma answered_none n r :
  ownMetadata n = None -> answered (metadataOptionsOf cfg options) n r ->
  exists e, r = MetadataFailure n e.
Proof.
  unfold ownMetadata, answered.
  destruct (described _) as [[info response]|]; [discriminate | auto].
Qed.

Section Run.
Variables (names : list string) (run : Discovered).
Hypothesis Hrun : coldRun options names run.








End Run.

(** *** The metadata map of a run, entry by entry *)

Lemma successNames_cold names results :
  List.Forall2 (answered (metadataOptionsOf cfg options)) names results ->
  successNames results
  = List.filter (fun n => bool_decide (is_Some (ownMetadata n))) names.
Proof.
  unfold successNames.
  induction 1 as [|n r names results Hr _ IH]; [reflexivity|].
  cbn [List.filter]. destruct (ownMetadata n) as [own|] eqn:Hown.
  - destruct (own_answered _ _ _ Hown Hr) as (metadata & -> & _ & Hname).
    rewrite bool_decide_eq_true_2 by eauto. cbn. now rewrite IH, Hname.
  - destruct (answered_none _ _ Hown Hr) as [e ->].
    rewrite bool_decide_eq_false_2 by (intros [? [=]]). cbn. exact IH.
Qed.

Lemma set_new {V} (k : string) (v : V) (m : JsMap.t V) :
  ~ In k (JsMap.keys m) -> JsMap.set k v m = m ++ [(k, v)].
Proof.
  induction m as [|[k' v'] rest IH]; simpl; [reflexivity|].
  intros Hn. destruct (String.eqb_spec k k') as [->|_]; [tauto|].
  rewrite IH; tauto.
Qed.

Lemma storeAll_fresh {V} (entries : list (string * V)) (m : JsMap.t V) :
  List.NoDup (JsMap.keys m ++ map fst entries) ->
  JsMapFacts.storeAll entries m = m ++ entries.
Proof.
  unfold JsMapFacts.storeAll. revert m.
  induction entries as [|[k v] rest IH]; intros m Hnd; simpl.
  - now rewrite app_nil_r.
  - simpl in Hnd. pose proof (List.NoDup_remove_2 _ _ _ Hnd) as Hk.
    rewrite set_new by (intros Hin; apply Hk, in_or_app; now left).
    rewrite IH.
    + now rewrite <- app_assoc.
    + unfold JsMap.keys. rewrite map_app, <- app_assoc. exact Hnd.
Qed.

Lemma metadataMapOf_cold names results :
  List.NoDup names ->
  List.Forall2 (answered (metadataOptionsOf cfg options)) names results ->
  metadataMapOf results = omap metadataEntry results.
Proof.
  intros Hnd Hres. unfold metadataMapOf. rewrite storeMetadata_storeAll.
  rewrite storeAll_fresh; [reflexivity|]. cbn [JsMap.keys JsMap.empty map app].
  change (map fst (omap metadataEntry results)) with (successNames results).
  rewrite (successNames_cold _ _ Hres). now apply List.NoDup_filter.
Qed.

(** The spaces that go on to the schema phase are the Gradio spaces among
    the names, in the order of the request. *)
Lemma gradioOf_cold names results :
  List.NoDup names ->
  List.Forall2 (answered (metadataOptionsOf cfg options)) names results ->
  List.Forall2 sameButTime (gradioOf results) (gradioSpaces names).
Proof.
  intros Hnd Hres. unfold gradioOf. rewrite (metadataMapOf_cold _ _ Hnd Hres).
  clear Hnd. unfold JsMap.values, gradioSpaces.
  induction Hres as [|n r names results Hr _ IH]; [constructor|].
  cbn [flat_map]. destruct (ownMetadata n) as [own|] eqn:Hown.
  - destruct (own_answered _ _ _ Hown Hr) as (metadata & -> & Hsame & Hname).
    cbn. rewrite (sameButTime_isGradio _ _ Hsame).
    destruct (isGradio own); cbn; [constructor; [exact Hsame | exact IH] | exact IH].
  - destruct (answered_none _ _ Hown Hr) as [e ->]. cbn. exact IH.
Qed.

Lemma schemaRequests_cold names results :
  List.NoDup names ->
  List.Forall2 (answered (metadataOptionsOf cfg options)) names results ->
  schemaRequests (options ≫= GetGradioSpacesOptions.timeout) (gradioOf results)
  = schemaRequests (options ≫= GetGradioSpacesOptions.timeout) (gradioSpaces names).
Proof.
  intros Hnd Hres. pose proof (gradioOf_cold _ _ Hnd Hres) as H.
  unfold schemaRequests. induction H as [|a b l l' Hab _ IH]; [reflexivity|].
  cbn [map]. now rewrite IH, (sameButTime_request _ _ Hab).
Qed.

End Answers.

End Cold.



Lemma steady_sampleOutside : steady sampleOutside.
Proof. split; intros k request; reflexivity. Qed.


(** X8.  The requests of a discovery on a cold cache.  With distinct
    names, nothing cached for them and steady answers, [getGradioSpaces]
    sends exactly these requests, in this order: the metadata request for
    every name asked for, in the order of the request, and then, unless
    schemas are skipped, the schema request for every name that the Hub's own
    answer describes as a Gradio space with a subdomain, to the subdomain
    that answer gives, in the same order.  No other space is contacted and no
    request is repeated. *)
Theorem cold_discovery_requests (cfg : CacheConfig.t) (O : Outside)
    (names : list string) (hfToken : option string)
    (options : option GetGradioSpacesOptions.t) (w : World.t) :
  0 < CacheConfig.DISCOVERY_CONCURRENCY cfg ->
  steady O ->
  List.NoDup names ->
  (forall n, In n names -> metadataEntries w !! n = None /\ schemaEntries w !! n = None) ->
  World.sent (after (getGradioSpaces cfg O names hfToken options) w)
  = World.sent w
    ++ hubRequests cfg hfToken (metadataOptionsOf cfg options) names
    ++ (if skipRequested options then []
        else schemaRequests cfg hfToken (options ≫= GetGradioSpacesOptions.timeout)
               (gradioSpaces cfg O hfToken options names)).
Proof.
  intros Hc Hsteady Hnd Hcold.
  destruct (discover_cold cfg O hfToken options names w Hc Hsteady Hnd Hcold)
    as (run & w' & Hrun & Hcoldrun & Hsent).
  rewrite getGradioSpaces_after. unfold after. rewrite Hrun. cbn [snd].
  rewrite Hsent. unfold requestsOf. f_equal. f_equal.
  destruct (skipRequested options); [reflexivity|].
  exact (schemaRequests_cold cfg O hfToken options names _ Hnd
           (metadata_answered _ _ _ _ _ _ Hcoldrun)).
Qed.

Lemma cold_discovery_requests_witness :
  map (fun r => match r with
                | ToHub request => hubUrl request
                | ToSpace request => schemaUrl request
                end)
    (World.sent (after (getGradioSpaces CacheConfig.defaults sampleOutside sampleNames
                          None None) World.initial))
  = ["https://huggingface.co/api/spaces/acme/ok";
     "https://huggingface.co/api/spaces/acme/down";
     "https://huggingface.co/api/spaces/acme/noschema";
     "https://huggingface.co/api/spaces/acme/static";
     "https://acme-ok.hf.space/gradio_api/mcp/schema";
     "https://acme-noschema.hf.space/gradio_api/mcp/schema"].
Proof.
  rewrite (cold_discovery_requests CacheConfig.defaults sampleOutside sampleNames
             None None World.initial).
  - vm_compute. reflexivity.
  - reflexivity.
  - exact steady_sampleOutside.
  - repeat constructor; simpl; intuition discriminate.
  - intros n _. split; apply lookup_empty.
Defined.

End ColdDiscovery.
